(** * Sparse matrices of the aol module: triplet, row-indexed and compressed formats

    A shallow embedding of [sparseMatrices.h] (namespace [aol]):
    [GenSparseMatrix], [TripletMatrix], [TripletMatrixOffset],
    [TripletMatrixOffsetUpperTriangle], [CSMatrix], [CSCMatrix] and
    [CSRMatrix].

    Conventions of the embedding.
    - The template parameter [DataType] is a type class with the operations
      the code uses ([0], [1], [+], [*], [==]).  The laws a proof needs are
      a separate class, [DataTypeLaws]: [==] decides equality and
      [0 + x = x], as in exact arithmetic (the instance is [Z]).
    - [int] values stored in vectors are [Z]; positions in a vector and
      sizes are [nat].  Sizes are assumed to fit the machine types, except
      where the code computes [size () - 1] on an unsigned type: that
      subtraction is written out with its wrap-around.
    - Every element access is guarded.  An access outside the vector is the
      exception [OutOfBounds]: the container's range check in a checked
      build, undefined behaviour otherwise.
    - The preprocessor switch [BOUNDS_CHECK] is a boolean argument.
    - A [const] method is a function from the object to a [result]; a
      mutating method is a computation in the monad [M], which threads the
      object and keeps its state when an exception leaves the call. *)

From Stdlib Require Import ZArith Lia String.
From stdpp Require Import base option list sorting.

Local Open Scope Z_scope.
Local Open Scope nat_scope.

(** ** The scalar type *)

(** [aol::ZOTrait<DataType>::zero], [::one], [operator+], [operator*] and
    [operator==] of the template parameter. *)
Class DataType (D : Type) := {
  d_zero : D;
  d_one : D;
  d_add : D -> D -> D;
  d_mul : D -> D -> D;
  d_eqb : D -> D -> bool
}.

(** The laws the proofs below use; they hold for exact arithmetic. *)
Class DataTypeLaws (D : Type) `{DataType D} : Prop := {
  d_eqb_eq : forall x y : D, d_eqb x y = true <-> x = y;
  d_add_zero_l : forall x : D, d_add d_zero x = x
}.

(** Addition is commutative and associative, as in exact arithmetic. *)
Class DataTypeCommutative (D : Type) `{DataType D} : Prop := {
  d_add_comm : forall x y : D, d_add x y = d_add y x;
  d_add_assoc : forall x y z : D, d_add x (d_add y z) = d_add (d_add x y) z
}.

(** Multiplication distributes over addition, and has zero and one, as in
    exact arithmetic. *)
Class DataTypeRing (D : Type) `{DataType D} : Prop := {
  d_mul_add_distr_l : forall x y z : D, d_mul x (d_add y z) = d_add (d_mul x y) (d_mul x z);
  d_mul_zero_l : forall x : D, d_mul d_zero x = d_zero;
  d_mul_zero_r : forall x : D, d_mul x d_zero = d_zero;
  d_mul_one_r : forall x : D, d_mul x d_one = x
}.

#[export] Instance Z_DataType : DataType Z := {
  d_zero := 0%Z;
  d_one := 1%Z;
  d_add := Z.add;
  d_mul := Z.mul;
  d_eqb := Z.eqb
}.

(** ** Exceptions, results and the object monad *)

Inductive exn : Type :=
| Exception (msg : string)   (* aol::Exception and its subclasses *)
| OutOfBounds                (* element access outside a vector *)
| FuelExhausted.             (* the loop bound of the model was too small *)

Inductive result (A : Type) : Type :=
| Ok (a : A)
| Throw (e : exn).
Arguments Ok {A} a.
Arguments Throw {A} e.

Definition rbind {A B} (r : result A) (k : A -> result B) : result B :=
  match r with
  | Ok a => k a
  | Throw e => Throw e
  end.

(** A mutating method of an object of type [St]: the outcome of the call
    together with the object after it. *)
Definition M (St A : Type) : Type := St -> result A * St.

Definition ret {St A} (a : A) : M St A := fun s => (Ok a, s).

Definition bind {St A B} (c : M St A) (k : A -> M St B) : M St B :=
  fun s =>
    match c s with
    | (Ok a, s') => k a s'
    | (Throw e, s') => (Throw e, s')
    end.

Definition throw {St A} (e : exn) : M St A := fun s => (Throw e, s).

(** Evaluate a [const] expression on the object. *)
Definition read {St A} (f : St -> result A) : M St A := fun s => (f s, s).

(** Assign to the members of the object. *)
Definition modify {St} (f : St -> St) : M St unit := fun s => (Ok tt, f s).

Declare Scope cpp_scope.
Delimit Scope cpp_scope with cpp.
Notation "x <- r ;; k" := (rbind r (fun x => k))
  (at level 100, r at next level, right associativity) : cpp_scope.
Notation "x <~ c ;; k" := (bind c (fun x => k))
  (at level 100, c at next level, right associativity) : cpp_scope.
Notation "c ;;; k" := (bind c (fun _ => k))
  (at level 100, right associativity) : cpp_scope.
Local Open Scope cpp_scope.

(** [for ( int k = k0; k < bound (); ++k ) body] on an object: the bound
    is evaluated again before every iteration, as in the source. *)
Fixpoint for_lt {St} (fuel : nat) (bound : St -> nat) (body : nat -> M St unit)
    (k : nat) : M St unit :=
  fun s =>
    if k <? bound s then
      match fuel with
      | O => (Throw FuelExhausted, s)
      | S fuel' => (body k ;;; for_lt fuel' bound body (S k)) s
      end
    else (Ok tt, s).

(** [for ( int k = k0; k < k0 + n; ++k ) acc = body ( k, acc )] over local
    variables only. *)
Fixpoint for_acc {A} (n : nat) (body : nat -> A -> result A) (k : nat) (acc : A)
    : result A :=
  match n with
  | O => Ok acc
  | S n' => acc' <- body k acc ;; for_acc n' body (S k) acc'
  end.

(** The same loop with local variables and the object. *)
Fixpoint for_accM {St A} (n : nat) (body : nat -> A -> M St A) (k : nat) (acc : A)
    : M St A :=
  match n with
  | O => ret acc
  | S n' => acc' <~ body k acc ;; for_accM n' body (S k) acc'
  end.

(** ** aol::Vector *)

Module Vector.

(** Modelled from the spec: [aol::Vector], whose header [vec.h] is
    missing.  A vector is the list of its elements; [operator[]]
    reads or writes one element, [pushBack] appends, [erase ( k )] removes
    the element at position [k] and moves the later ones one place to the
    front, [Vector ( n )] holds [n] zeros. *)
Definition at_ {A} (v : list A) (k : nat) : result A :=
  match v !! k with
  | Some x => Ok x
  | None => Throw OutOfBounds
  end.

(** [v[z]] for an index of type [int]. *)
Definition atZ {A} (v : list A) (z : Z) : result A :=
  if (z <? 0)%Z then Throw OutOfBounds else at_ v (Z.to_nat z).

Definition store {A} (v : list A) (k : nat) (x : A) : result (list A) :=
  if k <? length v then Ok (<[k:=x]> v) else Throw OutOfBounds.

Definition storeZ {A} (v : list A) (z : Z) (x : A) : result (list A) :=
  if (z <? 0)%Z then Throw OutOfBounds else store v (Z.to_nat z) x.

Definition pushBack {A} (v : list A) (x : A) : list A := v ++ [x].

Definition erase {A} (v : list A) (k : nat) : result (list A) :=
  if k <? length v then Ok (delete k v) else Throw OutOfBounds.

Definition make {A} (n : nat) (x : A) : list A := replicate n x.

(** [setAll ( x )]; [setZero ()] is [setAll] of zero. *)
Definition setAll {A} (x : A) (v : list A) : list A := replicate (length v) x.

(** [resize ( n )]: the old elements are kept, new ones are zero. *)
Definition resize {A} (n : nat) (z : A) (v : list A) : list A :=
  take n v ++ replicate (n - length v) z.

(** [++( v[z] )] and [( v[z] )++], which returns the old element. *)
Definition incr (v : list Z) (z : Z) : result (list Z) :=
  x <- atZ v z ;; storeZ v z (x + 1)%Z.

Definition post_incr (v : list Z) (z : Z) : result (Z * list Z) :=
  x <- atZ v z ;; v' <- storeZ v z (x + 1)%Z ;; Ok (x, v').

(** Modelled from the spec: [insert ( k, x )] of [aol::Vector] puts [x] at
    position [k] and moves the elements from [k] on one place to the back;
    [k] may be the size of the vector. *)
Definition insert {A} (v : list A) (k : nat) (x : A) : result (list A) :=
  if k <=? length v then Ok (take k v ++ x :: drop k v) else Throw OutOfBounds.

Definition insertZ {A} (v : list A) (z : Z) (x : A) : result (list A) :=
  if (z <? 0)%Z then Throw OutOfBounds else insert v (Z.to_nat z) x.

(** Modelled from the spec: [reallocateClear ( n )] of [aol::Vector] leaves
    a vector of [n] zeros. *)
Definition reallocateClear {A} (n : nat) (z : A) : list A := replicate n z.

End Vector.

(** Modelled from the spec: the macro [QUOC_ASSERT], whose definition is
    missing.  In a debug build a failed assertion raises an exception; in
    other builds the macro expands to nothing. *)
Definition QUOC_ASSERT {St} (DEBUG : bool) (assertion : bool) : M St unit :=
  if DEBUG && negb assertion then throw (Exception "Assertion failed") else ret tt.

(** ** TripletMatrix *)

Module TripletMatrix.

Section TripletMatrix.
Context {D : Type} `{DataType D}.
Variable BOUNDS_CHECK : bool.

Record t : Type := Build {
  _numRows : Z;
  _numCols : Z;
  _rowIndex : list Z;
  _colIndex : list Z;
  _value : list D
}.

Definition getNumRows (m : t) : Z := _numRows m.
Definition getNumCols (m : t) : Z := _numCols m.

Definition set_rowIndex (v : list Z) (m : t) : t :=
  Build (_numRows m) (_numCols m) v (_colIndex m) (_value m).
Definition set_colIndex (v : list Z) (m : t) : t :=
  Build (_numRows m) (_numCols m) (_rowIndex m) v (_value m).
Definition set_value (v : list D) (m : t) : t :=
  Build (_numRows m) (_numCols m) (_rowIndex m) (_colIndex m) v.

(** [TripletMatrix ( numRows, numCols )] *)
Definition new (numRows numCols : Z) : t := Build numRows numCols [] [] [].

(** The three vectors are parallel: the class keeps them at one length. *)
Definition wf (m : t) : Prop :=
  length (_colIndex m) = length (_rowIndex m) /\
  length (_value m) = length (_rowIndex m).

(** The stored triples, in storage order. *)
Definition triples (m : t) : list (Z * Z * D) :=
  zip (zip (_rowIndex m) (_colIndex m)) (_value m).

(** [_v[k] = x] and [_v.erase ( k )] on the members. *)
Definition value_store (k : nat) (x : D) : M t unit :=
  v <~ read (fun m => Vector.store (_value m) k x) ;; modify (set_value v).

Definition rowIndex_store (k : nat) (x : Z) : M t unit :=
  v <~ read (fun m => Vector.store (_rowIndex m) k x) ;; modify (set_rowIndex v).

Definition colIndex_store (k : nat) (x : Z) : M t unit :=
  v <~ read (fun m => Vector.store (_colIndex m) k x) ;; modify (set_colIndex v).

Definition erase_triple (k : nat) : M t unit :=
  r <~ read (fun m => Vector.erase (_rowIndex m) k) ;; modify (set_rowIndex r) ;;;
  c <~ read (fun m => Vector.erase (_colIndex m) k) ;; modify (set_colIndex c) ;;;
  v <~ read (fun m => Vector.erase (_value m) k) ;; modify (set_value v).

(** [removeZeroEntries]: the loop index advances after an erasure too. *)
Definition removeZeroEntries : M t unit :=
  fun m =>
    for_lt (length (_value m)) (fun m => length (_value m))
      (fun i =>
         v <~ read (fun m => Vector.at_ (_value m) i) ;;
         if d_eqb v d_zero then erase_triple i else ret tt)
      0 m.

(** [setEntryToZero] *)
Definition setEntryToZero (row col : Z) : M t unit :=
  fun m =>
    for_lt (length (_rowIndex m)) (fun m => length (_rowIndex m))
      (fun k =>
         r <~ read (fun m => Vector.at_ (_rowIndex m) k) ;;
         if (r =? row)%Z then
           c <~ read (fun m => Vector.at_ (_colIndex m) k) ;;
           if (c =? col)%Z then value_store k d_zero else ret tt
         else ret tt)
      0 m.

(** [add]: the range test exists in a checked build only, and compares
    with [>]. *)
Definition add (i j : Z) (value : D) : M t unit :=
  numRows <~ read (fun m => Ok (getNumRows m)) ;;
  numCols <~ read (fun m => Ok (getNumCols m)) ;;
  if BOUNDS_CHECK && (numRows <? i)%Z then
    throw (Exception "Row index is out of bounds")
  else if BOUNDS_CHECK && (numCols <? j)%Z then
    throw (Exception "Col index is out of bounds")
  else
    modify (fun m => set_rowIndex (Vector.pushBack (_rowIndex m) i) m) ;;;
    modify (fun m => set_colIndex (Vector.pushBack (_colIndex m) j) m) ;;;
    modify (fun m => set_value (Vector.pushBack (_value m) value) m).

(** Conversion of an [int] to [unsigned int], as the comparisons of
    [removeRowCol] with its [unsigned int] argument do. *)
Definition to_unsigned (z : Z) : Z := (z mod 2 ^ 32)%Z.

(** [removeRowCol]: as in [removeZeroEntries], the index advances after an
    erasure.  ([--] on [INT_MIN] does not occur for indices of a matrix.) *)
Definition removeRowCol (i : Z) : M t unit :=
  fun m =>
    for_lt (length (_rowIndex m)) (fun m => length (_rowIndex m))
      (fun k =>
         r <~ read (fun m => Vector.at_ (_rowIndex m) k) ;;
         hit <~ (if (to_unsigned r =? to_unsigned i)%Z then ret true
                 else
                   c <~ read (fun m => Vector.at_ (_colIndex m) k) ;;
                   ret (to_unsigned c =? to_unsigned i)%Z) ;;
         if hit : bool then erase_triple k
         else
           (r <~ read (fun m => Vector.at_ (_rowIndex m) k) ;;
            if (to_unsigned i <? to_unsigned r)%Z
            then rowIndex_store k (r - 1)%Z else ret tt) ;;;
           (c <~ read (fun m => Vector.at_ (_colIndex m) k) ;;
            if (to_unsigned i <? to_unsigned c)%Z
            then colIndex_store k (c - 1)%Z else ret tt))
      0 m.

(** [get]: the sum of the values stored for the position. *)
Definition get (row col : Z) (m : t) : result D :=
  for_acc (length (_rowIndex m))
    (fun i ret_ =>
       r <- Vector.at_ (_rowIndex m) i ;;
       if (r =? row)%Z then
         c <- Vector.at_ (_colIndex m) i ;;
         if (c =? col)%Z then
           v <- Vector.at_ (_value m) i ;; Ok (d_add ret_ v)
         else Ok ret_
       else Ok ret_)
    0 d_zero.

(** [set] *)
Definition set (row col : Z) (value : D) : M t unit :=
  setEntryToZero row col ;;; add row col value.

(** [eraseValue]: here the index advances only when nothing was erased. *)
Fixpoint eraseValue_loop (fuel : nat) (row col : Z) (k : nat) : M t unit :=
  fun m =>
    if k <? length (_rowIndex m) then
      match fuel with
      | O => (Throw FuelExhausted, m)
      | S fuel' =>
          (r <~ read (fun m => Vector.at_ (_rowIndex m) k) ;;
           hit <~ (if (r =? row)%Z then
                     c <~ read (fun m => Vector.at_ (_colIndex m) k) ;;
                     ret (c =? col)%Z
                   else ret false) ;;
           if hit : bool
           then erase_triple k ;;; eraseValue_loop fuel' row col k
           else eraseValue_loop fuel' row col (S k)) m
      end
    else (Ok tt, m).

Definition eraseValue (row col : Z) : M t unit :=
  fun m => eraseValue_loop (length (_rowIndex m)) row col 0 m.

(** [RowColIndexSorter::operator()] and [ColRowIndexSorter::operator()] *)
Definition RowColIndexSorter (rowIndex colIndex : list Z) (i j : nat) : result bool :=
  ri <- Vector.at_ rowIndex i ;;
  rj <- Vector.at_ rowIndex j ;;
  if (ri <? rj)%Z then Ok true
  else if (ri =? rj)%Z then
    ci <- Vector.at_ colIndex i ;;
    cj <- Vector.at_ colIndex j ;;
    Ok (ci <? cj)%Z
  else Ok false.

Definition ColRowIndexSorter (rowIndex colIndex : list Z) (i j : nat) : result bool :=
  ci <- Vector.at_ colIndex i ;;
  cj <- Vector.at_ colIndex j ;;
  if (ci <? cj)%Z then Ok true
  else if (ci =? cj)%Z then
    ri <- Vector.at_ rowIndex i ;;
    rj <- Vector.at_ rowIndex j ;;
    Ok (ri <? rj)%Z
  else Ok false.

(** [std::sort] with a comparator.  The standard fixes the result up to the
    order of equivalent elements; this is the stable one.  The scan of
    [sumDuplicates] is [sumDuplicates_with], for any order. *)
Fixpoint sort_insert (lt : nat -> nat -> result bool) (x : nat) (l : list nat)
    : result (list nat) :=
  match l with
  | [] => Ok [x]
  | y :: l' =>
      b <- lt y x ;;
      if b then l'' <- sort_insert lt x l' ;; Ok (y :: l'')
      else Ok (x :: y :: l')
  end.

Fixpoint sort (lt : nat -> nat -> result bool) (l : list nat) : result (list nat) :=
  match l with
  | [] => Ok []
  | x :: l' => s <- sort lt l' ;; sort_insert lt x s
  end.

(** [getRowColIndexSorting] and [getColRowIndexSorting] *)
Definition getRowColIndexSorting (m : t) : result (list nat) :=
  sort (RowColIndexSorter (_rowIndex m) (_colIndex m)) (seq 0 (length (_rowIndex m))).

Definition getColRowIndexSorting (m : t) : result (list nat) :=
  sort (ColRowIndexSorter (_rowIndex m) (_colIndex m)) (seq 0 (length (_rowIndex m))).

(** [index.size () - 1] for the [size_t] result of [std::vector::size]. *)
Definition size_minus_one (n : nat) : Z := ((Z.of_nat n - 1) mod 2 ^ 64)%Z.

(** The inner [while] of [sumDuplicates]; it returns the final [j]. *)
Fixpoint sumDuplicates_inner (fuel : nat) (index : list nat) (i j : nat) : M t nat :=
  match fuel with
  | O => throw FuelExhausted
  | S fuel' =>
      ij <~ read (fun _ => Vector.at_ index j) ;;
      ii <~ read (fun _ => Vector.at_ index i) ;;
      rj <~ read (fun m => Vector.at_ (_rowIndex m) ij) ;;
      ri <~ read (fun m => Vector.at_ (_rowIndex m) ii) ;;
      same <~ (if (rj =? ri)%Z then
                 cj <~ read (fun m => Vector.at_ (_colIndex m) ij) ;;
                 ci <~ read (fun m => Vector.at_ (_colIndex m) ii) ;;
                 ret (cj =? ci)%Z
               else ret false) ;;
      if same then
        vj <~ read (fun m => Vector.at_ (_value m) ij) ;;
        vi <~ read (fun m => Vector.at_ (_value m) ii) ;;
        value_store ii (d_add vi vj) ;;;
        value_store ij d_zero ;;;
        if length index <=? S j then ret (S j)
        else sumDuplicates_inner fuel' index i (S j)
      else ret j
  end.

(** The outer [while] of [sumDuplicates]: [i += ( j - i )] is [i = j]. *)
Fixpoint sumDuplicates_outer (fuel : nat) (index : list nat) (i : nat) : M t unit :=
  if (Z.of_nat i <? size_minus_one (length index))%Z then
    match fuel with
    | O => throw FuelExhausted
    | S fuel' =>
        j <~ sumDuplicates_inner (S (length index)) index i (S i) ;;
        sumDuplicates_outer fuel' index j
    end
  else ret tt.

(** [sumDuplicates] after the sort, for a sorted [index]. *)
Definition sumDuplicates_with (index : list nat) : M t unit :=
  sumDuplicates_outer (S (length index)) index 0 ;;;
  removeZeroEntries.

(** [sumDuplicates] *)
Definition sumDuplicates : M t unit :=
  index <~ read getRowColIndexSorting ;;
  sumDuplicates_with index.

(** [setRowToZero] and [setColToZero] *)
Definition setRowToZero (i : Z) : M t unit :=
  fun m =>
    for_lt (length (_rowIndex m)) (fun m => length (_rowIndex m))
      (fun k =>
         r <~ read (fun m => Vector.at_ (_rowIndex m) k) ;;
         if (r =? i)%Z then value_store k d_zero else ret tt)
      0 m.

Definition setColToZero (j : Z) : M t unit :=
  fun m =>
    for_lt (length (_rowIndex m)) (fun m => length (_rowIndex m))
      (fun k =>
         c <~ read (fun m => Vector.at_ (_colIndex m) k) ;;
         if (c =? j)%Z then value_store k d_zero else ret tt)
      0 m.

(** [setZero] and [reallocate] *)
Definition setZero : M t unit :=
  modify (set_rowIndex (Vector.reallocateClear 0 0%Z)) ;;;
  modify (set_colIndex (Vector.reallocateClear 0 0%Z)) ;;;
  modify (set_value (Vector.reallocateClear 0 d_zero)).

Definition reallocate (Rows Columns : Z) : M t unit :=
  setZero ;;;
  modify (fun m => Build Rows Columns (_rowIndex m) (_colIndex m) (_value m)).

(** [addMultipleRowToRow] and [addMultipleColToCol]: [add] appends to the
    vectors the loop runs over, so the bound [_rowIndex.size ()] grows
    while the loop runs.  With [from != to] the appended entries are not
    copied again, and twice the size at the call bounds the iterations. *)
Definition addMultipleRowToRow_loop (fuel : nat) (from to : Z) (multiple : D)
    : M t unit :=
  for_lt fuel (fun m => length (_rowIndex m))
    (fun k =>
       r <~ read (fun m => Vector.at_ (_rowIndex m) k) ;;
       if (r =? from)%Z then
         c <~ read (fun m => Vector.at_ (_colIndex m) k) ;;
         v <~ read (fun m => Vector.at_ (_value m) k) ;;
         add to c (d_mul multiple v)
       else ret tt)
    0.

Definition addMultipleRowToRow (DEBUG : bool) (from to : Z) (multiple : D) : M t unit :=
  QUOC_ASSERT DEBUG (negb (from =? to)%Z) ;;;
  fun m => addMultipleRowToRow_loop (2 * length (_rowIndex m)) from to multiple m.

Definition addMultipleColToCol_loop (fuel : nat) (from to : Z) (multiple : D)
    : M t unit :=
  for_lt fuel (fun m => length (_rowIndex m))
    (fun k =>
       c <~ read (fun m => Vector.at_ (_colIndex m) k) ;;
       if (c =? from)%Z then
         r <~ read (fun m => Vector.at_ (_rowIndex m) k) ;;
         v <~ read (fun m => Vector.at_ (_value m) k) ;;
         add r to (d_mul multiple v)
       else ret tt)
    0.

Definition addMultipleColToCol (DEBUG : bool) (from to : Z) (multiple : D) : M t unit :=
  QUOC_ASSERT DEBUG (negb (from =? to)%Z) ;;;
  fun m => addMultipleColToCol_loop (2 * length (_rowIndex m)) from to multiple m.

(** [setRowColToDiagonal] *)
Definition setRowColToDiagonal (index : Z) (diagEntry : D) : M t unit :=
  setRowToZero index ;;;
  setColToZero index ;;;
  add index index diagEntry.

End TripletMatrix.

Arguments t D : clear implicits.
Arguments Build {D} _ _ _ _ _.

End TripletMatrix.

(** ** TripletMatrixOffset and TripletMatrixOffsetUpperTriangle *)

Module TripletMatrixOffset.

Section TripletMatrixOffset.
Context {D : Type} `{DataType D}.
Variable BOUNDS_CHECK : bool.

(** The wrapper holds a reference [_mat] to a [TripletMatrix] it shares
    with its creator: its methods are computations on that matrix. *)
Record t : Type := Build {
  _numRows : Z;
  _numCols : Z;
  _rowOffset : Z;
  _colOffset : Z
}.

Definition get (V : t) (row col : Z) (_mat : TripletMatrix.t D) : result D :=
  TripletMatrix.get (row + _rowOffset V) (col + _colOffset V) _mat.

Definition set (V : t) (row col : Z) (value : D) : M (TripletMatrix.t D) unit :=
  TripletMatrix.set BOUNDS_CHECK (row + _rowOffset V) (col + _colOffset V) value.

Definition add (V : t) (row col : Z) (value : D) : M (TripletMatrix.t D) unit :=
  TripletMatrix.add BOUNDS_CHECK (row + _rowOffset V) (col + _colOffset V) value.

(** [setZero]: every position of the block is erased from the shared
    matrix. *)
Definition setZero (V : t) : M (TripletMatrix.t D) unit :=
  let numRows := Z.to_nat (_numRows V) in
  let numCols := Z.to_nat (_numCols V) in
  for_lt numRows (fun _ => numRows)
    (fun i =>
       for_lt numCols (fun _ => numCols)
         (fun j =>
            TripletMatrix.eraseValue
              (Z.of_nat i + _rowOffset V) (Z.of_nat j + _colOffset V))
         0)
    0.

(** [removeRowCol] *)
Definition removeRowCol (V : t) (i : Z) : M (TripletMatrix.t D) unit :=
  if negb (_rowOffset V =? _colOffset V)%Z then
    throw (Exception "Only supported if rowOffset == colOffset")
  else TripletMatrix.removeRowCol (i + _rowOffset V).

(** [setRowToZero] and [setColToZero]: the loops run over the vectors of
    the shared matrix. *)
Definition setRowToZero (V : t) (i : Z) : M (TripletMatrix.t D) unit :=
  fun m =>
    for_lt (length (TripletMatrix._rowIndex m)) (fun m => length (TripletMatrix._rowIndex m))
      (fun k =>
         r <~ read (fun m => Vector.at_ (TripletMatrix._rowIndex m) k) ;;
         if (r =? i + _rowOffset V)%Z && (_rowOffset V <=? r)%Z
            && (r <? _rowOffset V + _numRows V)%Z
         then TripletMatrix.value_store k d_zero else ret tt)
      0 m.

Definition setColToZero (V : t) (j : Z) : M (TripletMatrix.t D) unit :=
  fun m =>
    for_lt (length (TripletMatrix._colIndex m)) (fun m => length (TripletMatrix._colIndex m))
      (fun k =>
         c <~ read (fun m => Vector.at_ (TripletMatrix._colIndex m) k) ;;
         if (c =? j + _colOffset V)%Z && (_colOffset V <=? c)%Z
            && (c <? _colOffset V + _numCols V)%Z
         then TripletMatrix.value_store k d_zero else ret tt)
      0 m.

End TripletMatrixOffset.
End TripletMatrixOffset.

Module TripletMatrixOffsetUpperTriangle.

Section TripletMatrixOffsetUpperTriangle.
Context {D : Type} `{DataType D}.
Variable BOUNDS_CHECK : bool.

(** [add]: only the upper triangular part of the block is filled. *)
Definition add (V : TripletMatrixOffset.t) (row col : Z) (value : D)
    : M (TripletMatrix.t D) unit :=
  if (row <=? col)%Z then
    TripletMatrix.add BOUNDS_CHECK
      (row + TripletMatrixOffset._rowOffset V)
      (col + TripletMatrixOffset._colOffset V) value
  else ret tt.

End TripletMatrixOffsetUpperTriangle.
End TripletMatrixOffsetUpperTriangle.

(** ** GenSparseMatrix *)

(** Modelled from the spec: [aol::Row], the abstract class of [rows.h],
    which is missing.  Its methods [get], [set], [add] and [scale] take
    the number of the row as their first argument. *)
Class Row (R D : Type) := {
  row_get : R -> Z -> Z -> D;
  row_set : R -> Z -> Z -> D -> R;
  row_add : R -> Z -> Z -> D -> R;
  row_scale : R -> Z -> D -> R
}.

Module GenSparseMatrix.

Section GenSparseMatrix.
Context {R D : Type} `{DataType D} `{Row R D}.
Variable BOUNDS_CHECK : bool.

(** [rows] holds one pointer per row; [None] is the null pointer, an
    implicit row with [_diagEntry] on the diagonal.  A row is owned by one
    matrix here: rows shared by a flat copy are not modelled. *)
Record t : Type := Build {
  _numRows : Z;
  _numCols : Z;
  rows : list (option R);
  _diagEntry : D
}.

Definition getNumRows (m : t) : Z := _numRows m.
Definition getNumCols (m : t) : Z := _numCols m.

Definition set_rows (v : list (option R)) (m : t) : t :=
  Build (_numRows m) (_numCols m) v (_diagEntry m).

(** [GenSparseMatrix ( Rows, Columns )] *)
Definition new (Rows Columns : Z) : t :=
  Build Rows Columns (replicate (Z.to_nat Rows) None) d_one.

(** [rows] has one entry per row. *)
Definition wf (m : t) : Prop := Z.of_nat (length (rows m)) = _numRows m.

Definition out_of_bounds (I J : Z) (m : t) : bool :=
  (I <? 0)%Z || (J <? 0)%Z || (getNumRows m <=? I)%Z || (getNumCols m <=? J)%Z.

(** [get] *)
Definition get (I J : Z) (m : t) : result D :=
  if BOUNDS_CHECK && out_of_bounds I J m then
    Throw (Exception "aol::GenSparseMatrix::get: Index out of bounds")
  else
    r <- Vector.atZ (rows m) I ;;
    match r with
    | Some row => Ok (row_get row I J)
    | None => if (I =? J)%Z then Ok (_diagEntry m) else Ok d_zero
    end.

(** [rows[I]->f ( ... )]: the row behind the pointer is replaced by the
    row after the call. *)
Definition rows_store (I : Z) (row : R) : M t unit :=
  v <~ read (fun m => Vector.storeZ (rows m) I (Some row)) ;; modify (set_rows v).

(** [set] *)
Definition set (I J : Z) (Value : D) : M t unit :=
  oob <~ read (fun m => Ok (out_of_bounds I J m)) ;;
  if BOUNDS_CHECK && oob then
    throw (Exception "aol::GenSparseMatrix::set: Index out of bounds")
  else
    r <~ read (fun m => Vector.atZ (rows m) I) ;;
    diag <~ read (fun m => Ok (_diagEntry m)) ;;
    match r with
    | Some row => rows_store I (row_set row I J Value)
    | None =>
        if ((I =? J)%Z && d_eqb Value diag) || d_eqb Value d_zero then ret tt
        else throw (Exception "Row does not exist.")
    end.

(** [add] *)
Definition add (I J : Z) (Value : D) : M t unit :=
  oob <~ read (fun m => Ok (out_of_bounds I J m)) ;;
  if BOUNDS_CHECK && oob then
    throw (Exception "aol::GenSparseMatrix::add: Index out of bounds")
  else
    r <~ read (fun m => Vector.atZ (rows m) I) ;;
    match r with
    | Some row => rows_store I (row_add row I J Value)
    | None =>
        if d_eqb Value d_zero then ret tt
        else throw (Exception "Row does not exist.")
    end.

(** [scaleRow] *)
Definition scaleRow (RowNum : Z) (Factor : D) : M t unit :=
  r <~ read (fun m => Vector.atZ (rows m) RowNum) ;;
  match r with
  | Some row => rows_store RowNum (row_scale row RowNum Factor)
  | None => ret tt
  end.

(** [operator*=] *)
Definition scale (factor : D) : M t unit :=
  fun m =>
    for_lt (Z.to_nat (_numRows m)) (fun m => Z.to_nat (_numRows m))
      (fun i => scaleRow (Z.of_nat i) factor)
      0 m.

(** [newRow]: the row behind the pointer, if there is one, is deleted and
    the pointer replaced; [deleteRow] leaves the null pointer. *)
Definition newRow (I : Z) (NewRow : option R) : M t unit :=
  v <~ read (fun m => Vector.storeZ (rows m) I NewRow) ;; modify (set_rows v).

Definition deleteRow (I : Z) : M t unit :=
  v <~ read (fun m => Vector.storeZ (rows m) I None) ;; modify (set_rows v).

(** [getDiag], [getUnsetRowsDiagEntry] and [setUnsetRowsDiagEntry] *)
Definition getDiag (i : Z) (m : t) : result D := get i i m.

Definition getUnsetRowsDiagEntry (m : t) : D := _diagEntry m.

Definition setUnsetRowsDiagEntry (diagEntry : D) : M t unit :=
  modify (fun m => Build (_numRows m) (_numCols m) (rows m) diagEntry).

End GenSparseMatrix.

Arguments t R D : clear implicits.
Arguments Build {R D} _ _ _ _.

End GenSparseMatrix.

(** ** CSMatrix, CSCMatrix and CSRMatrix *)

Module CSMatrix.

Section CSMatrix.
Context {D : Type} `{DataType D}.

(** [IndexType] is [int], its default. *)
Record t : Type := Build {
  _numRows : Z;
  _numCols : Z;
  _index : list Z;
  _indPointer : list Z;
  _value : list D
}.

Definition getNumRows (m : t) : Z := _numRows m.
Definition getNumCols (m : t) : Z := _numCols m.

Definition set_index (v : list Z) (m : t) : t :=
  Build (_numRows m) (_numCols m) v (_indPointer m) (_value m).
Definition set_indPointer (v : list Z) (m : t) : t :=
  Build (_numRows m) (_numCols m) (_index m) v (_value m).
Definition set_value (v : list D) (m : t) : t :=
  Build (_numRows m) (_numCols m) (_index m) (_indPointer m) v.

(** [CSMatrix ( numRows, numCols )] *)
Definition new (numRows numCols : Z) : t :=
  Build numRows numCols [] (Vector.make (Z.to_nat (numRows + 1)) 0%Z) [].

Definition index_store (k : Z) (x : Z) : M t unit :=
  v <~ read (fun m => Vector.storeZ (_index m) k x) ;; modify (set_index v).

Definition indPointer_store (k : nat) (x : Z) : M t unit :=
  v <~ read (fun m => Vector.store (_indPointer m) k x) ;; modify (set_indPointer v).

Definition value_store (k : Z) (x : D) : M t unit :=
  v <~ read (fun m => Vector.storeZ (_value m) k x) ;; modify (set_value v).

(** *** The passes of [setFromTriplet]

    [CSCMatrix::setFromTriplet] and [CSRMatrix::setFromTriplet] are the
    same sequence of loops with the roles of rows and columns exchanged;
    each loop is one definition here, with the vectors it works on and its
    number of iterations as arguments. *)

(** "Count num. of entries per row":
    [for ( i = 0; i < n; ++i ) ++( t[keys[i]] );] *)
Definition count_entries (keys : list Z) (n : nat) (t : list Z) : result (list Z) :=
  for_acc n (fun i t => r <- Vector.at_ keys i ;; Vector.incr t r) 0 t.

(** "Set row pointers":
    [for ( j = 0; j < n; ++j ) { ptr[j + 1] = ptr[j] + t[j]; t[j] = ptr[j]; }] *)
Definition set_pointers (n : nat) (ptr t : list Z) : result (list Z * list Z) :=
  for_acc n
    (fun j '(ptr, t) =>
       pj <- Vector.at_ ptr j ;;
       tj <- Vector.at_ t j ;;
       ptr <- Vector.store ptr (S j) (pj + tj)%Z ;;
       pj <- Vector.at_ ptr j ;;
       t <- Vector.store t j pj ;;
       Ok (ptr, t))
    0 (ptr, t).

(** "Fill matrix":
    [for ( i = 0; i < n; ++i ) { k = ( t[keys[i]] )++; idx[k] = minors[i]; val[k] = vals[i]; }] *)
Definition fill (keys minors : list Z) (vals : list D) (n : nat)
    (t idx : list Z) (val : list D) : result (list Z * list Z * list D) :=
  for_acc n
    (fun i '(t, idx, val) =>
       r <- Vector.at_ keys i ;;
       kt <- Vector.post_incr t r ;;
       let '(k, t) := kt in
       c <- Vector.at_ minors i ;;
       idx <- Vector.storeZ idx k c ;;
       v <- Vector.at_ vals i ;;
       val <- Vector.storeZ val k v ;;
       Ok (t, idx, val))
    0 (t, idx, val).

(** The inner loop of "Sum up duplicate entries", for [p] from [p1] up to
    [p2]; it returns the final [pd]. *)
Definition sum_up_slice (p1 p2 : Z) (t idx : list Z) (val : list D)
    : result (list Z * list Z * list D * Z) :=
  for_acc (Z.to_nat (p2 - p1))
    (fun o '(t, idx, val, pd) =>
       let p := (p1 + Z.of_nat o)%Z in
       k <- Vector.atZ idx p ;;
       pj <- Vector.atZ t k ;;
       tk <- Vector.atZ t k ;;
       if (tk <? p1)%Z then
         t <- Vector.storeZ t k pd ;;
         idx <- Vector.storeZ idx pd k ;;
         vp <- Vector.atZ val p ;;
         val <- Vector.storeZ val pd vp ;;
         Ok (t, idx, val, (pd + 1)%Z)
       else
         vpj <- Vector.atZ val pj ;;
         vp <- Vector.atZ val p ;;
         val <- Vector.storeZ val pj (d_add vpj vp) ;;
         Ok (t, idx, val, pd))
    0 (t, idx, val, p1).

(** "Sum up duplicate entries", for [n] slices. *)
Definition sum_up_duplicates (n : nat) (ptr : list Z)
    (t idx : list Z) (val : list D) (count : list Z)
    : result (list Z * list Z * list D * list Z) :=
  for_acc n
    (fun i '(t, idx, val, count) =>
       p1 <- Vector.at_ ptr i ;;
       p2 <- Vector.at_ ptr (S i) ;;
       s <- sum_up_slice p1 p2 t idx val ;;
       let '(t, idx, val, pd) := s in
       count <- Vector.store count i (pd - p1)%Z ;;
       Ok (t, idx, val, count))
    0 (t, idx, val, count).

(** "Count num. of entries per column":
    [for ( i = 0; i < n; ++i )
       for ( p = ptr[i]; p < ptr[i] + count[i]; ++p ) ++( t[idx[p]] );] *)
Definition count_compressed (n : nat) (ptr count idx : list Z) (t : list Z)
    : result (list Z) :=
  for_acc n
    (fun i t =>
       p0 <- Vector.at_ ptr i ;;
       c <- Vector.at_ count i ;;
       for_acc (Z.to_nat c)
         (fun o t => x <- Vector.atZ idx (p0 + Z.of_nat o)%Z ;; Vector.incr t x)
         0 t)
    0 t.

(** [numEntries]: the sum of [t]. *)
Definition sum_entries (t : list Z) : result Z :=
  for_acc (length t) (fun i n => x <- Vector.at_ t i ;; Ok (n + x)%Z) 0 0%Z.

(** "Set column pointers", on [_indPointer]:
    [for ( j = 0; j < n; ++j )
       { _indPointer[j + 1] = _indPointer[j] + t[j]; t[j] = _indPointer[j]; }] *)
Definition set_indPointers (n : nat) : list Z -> M t (list Z) :=
  for_accM n
    (fun j t =>
       pj <~ read (fun m => Vector.at_ (_indPointer m) j) ;;
       tj <~ read (fun _ => Vector.at_ t j) ;;
       indPointer_store (S j) (pj + tj)%Z ;;;
       pj <~ read (fun m => Vector.at_ (_indPointer m) j) ;;
       read (fun _ => Vector.store t j pj))
    0.

(** The final "Fill matrix", on [_index] and [_value]:
    [for ( i = 0; i < n; ++i )
       for ( p = ptr[i]; p < ptr[i] + count[i]; ++p )
         { k = ( t[idx[p]] )++; _index[k] = i; _value[k] = val[p]; }] *)
Definition fill_compressed (n : nat) (ptr count idx : list Z) (val : list D)
    : list Z -> M t (list Z) :=
  for_accM n
    (fun i t =>
       p0 <~ read (fun _ => Vector.at_ ptr i) ;;
       c <~ read (fun _ => Vector.at_ count i) ;;
       for_accM (Z.to_nat c)
         (fun o t =>
            let p := (p0 + Z.of_nat o)%Z in
            x <~ read (fun _ => Vector.atZ idx p) ;;
            kt <~ read (fun _ => Vector.post_incr t x) ;;
            let '(k, t) := kt in
            index_store k (Z.of_nat i) ;;;
            v <~ read (fun _ => Vector.atZ val p) ;;
            value_store k v ;;;
            ret t)
         0 t)
    0.

(** The scan of [get]: [for ( i = lo; i < hi; ++i )
    if ( _index[i] == key ) return _value[i];] and zero after it. *)
Fixpoint get_scan (n : nat) (i key : Z) (m : t) : result D :=
  match n with
  | O => Ok d_zero
  | S n' =>
      x <- Vector.atZ (_index m) i ;;
      if (x =? key)%Z then Vector.atZ (_value m) i
      else get_scan n' (i + 1)%Z key m
  end.

(** *** The loops of [set] and [add]

    As for [setFromTriplet], the two classes hold the same loops with the
    roles of rows and columns exchanged. *)

(** [for ( i = lo; i < hi; ++i ) if ( _index[i] == key ) { ...; return; }]:
    the position of the entry, if the slice has one. *)
Fixpoint find_scan (n : nat) (i key : Z) (m : t) : result (option Z) :=
  match n with
  | O => Ok None
  | S n' =>
      x <- Vector.atZ (_index m) i ;;
      if (x =? key)%Z then Ok (Some i) else find_scan n' (i + 1)%Z key m
  end.

(** [while ( pos < hi ) { if ( _index[pos] > key ) break; ++pos; }] *)
Fixpoint insert_position (n : nat) (pos key : Z) (m : t) : result Z :=
  match n with
  | O => Ok pos
  | S n' =>
      x <- Vector.atZ (_index m) pos ;;
      if (key <? x)%Z then Ok pos else insert_position n' (pos + 1)%Z key m
  end.

(** [_index.insert ( pos, x )] and [_value.insert ( pos, x )] *)
Definition index_insert (pos : Z) (x : Z) : M t unit :=
  v <~ read (fun m => Vector.insertZ (_index m) pos x) ;; modify (set_index v).

Definition value_insert (pos : Z) (x : D) : M t unit :=
  v <~ read (fun m => Vector.insertZ (_value m) pos x) ;; modify (set_value v).

(** [for ( c = c0; c < _indPointer.size (); ++c ) ++( _indPointer[c] );] *)
Definition shift_pointers (c0 : Z) : M t unit :=
  if (c0 <? 0)%Z then throw OutOfBounds
  else
    fun m =>
      for_lt (length (_indPointer m)) (fun m => length (_indPointer m))
        (fun c =>
           v <~ read (fun m => Vector.incr (_indPointer m) (Z.of_nat c)) ;;
           modify (set_indPointer v))
        (Z.to_nat c0) m.

(** [setZero]: the three vectors are emptied. *)
Definition setZero : M t unit :=
  modify (set_index (Vector.reallocateClear 0 0%Z)) ;;;
  modify (set_indPointer (Vector.reallocateClear 0 0%Z)) ;;;
  modify (set_value (Vector.reallocateClear 0 d_zero)).

End CSMatrix.

Arguments t D : clear implicits.
Arguments Build {D} _ _ _ _ _.

End CSMatrix.

Module CSCMatrix.

Section CSCMatrix.
Context {D : Type} `{DataType D}.

Import CSMatrix.

(** [setFromTriplet]: [_index] lists row indices, [_indPointer] holds
    column pointers. *)
Definition setFromTriplet (tripletMatrix : TripletMatrix.t D) : M (CSMatrix.t D) unit :=
  let tripletRow := TripletMatrix._rowIndex tripletMatrix in
  let tripletCol := TripletMatrix._colIndex tripletMatrix in
  let tripletVal := TripletMatrix._value tripletMatrix in
  numRows <~ read (fun m => Ok (Z.to_nat (getNumRows m))) ;;
  numCols <~ read (fun m => Ok (Z.to_nat (getNumCols m))) ;;
  let t := Vector.make (max numRows numCols) 0%Z in
  let rowPointer := Vector.make (numRows + 1) 0%Z in
  let colIndex := Vector.make (length tripletCol) 0%Z in
  let val := Vector.make (length tripletVal) d_zero in
  t <~ read (fun _ => count_entries tripletRow (length tripletVal) t) ;;
  pt <~ read (fun _ => set_pointers numCols rowPointer t) ;;
  let '(rowPointer, t) := pt in
  f <~ read (fun _ => fill tripletRow tripletCol tripletVal (length tripletVal) t colIndex val) ;;
  let '(t, colIndex, val) := f in
  let t := Vector.setAll (-1)%Z t in
  let rowCount := Vector.make numRows 0%Z in
  d <~ read (fun _ => sum_up_duplicates numRows rowPointer t colIndex val rowCount) ;;
  let '(t, colIndex, val, rowCount) := d in
  let t := Vector.setAll 0%Z t in
  t <~ read (fun _ => count_compressed numRows rowPointer rowCount colIndex t) ;;
  numEntries <~ read (fun _ => sum_entries t) ;;
  modify (fun m => set_index (Vector.resize (Z.to_nat numEntries) 0%Z (_index m)) m) ;;;
  modify (fun m => set_value (Vector.resize (Z.to_nat numEntries) d_zero (_value m)) m) ;;;
  modify (fun m => set_indPointer (Vector.resize (numCols + 1) 0%Z (_indPointer m)) m) ;;;
  indPointer_store 0 0%Z ;;;
  t <~ set_indPointers numCols t ;;
  t <~ fill_compressed numRows rowPointer rowCount colIndex val t ;;
  ret tt.

(** [CSCMatrix ( tripletMatrix )] *)
Definition from_triplet (tripletMatrix : TripletMatrix.t D) : result unit * CSMatrix.t D :=
  setFromTriplet tripletMatrix
    (CSMatrix.new (TripletMatrix.getNumRows tripletMatrix)
                  (TripletMatrix.getNumCols tripletMatrix)).

(** [get] *)
Definition get (row col : Z) (m : CSMatrix.t D) : result D :=
  lo <- Vector.atZ (_indPointer m) col ;;
  hi <- Vector.atZ (_indPointer m) (col + 1)%Z ;;
  get_scan (Z.to_nat (hi - lo)) lo row m.

(** [setZero] and [operator= ( tripletMatrix )] *)
Definition setZero : M (CSMatrix.t D) unit := CSMatrix.setZero.

Definition assign (tripletMatrix : TripletMatrix.t D) : M (CSMatrix.t D) unit :=
  setZero ;;;
  modify (fun m =>
            CSMatrix.Build (TripletMatrix.getNumRows tripletMatrix)
              (TripletMatrix.getNumCols tripletMatrix)
              (_index m) (_indPointer m) (_value m)) ;;;
  setFromTriplet tripletMatrix.

(** [set]: the entry is overwritten if the column has it, and inserted
    before the first entry of the column with a greater row index
    otherwise. *)
Definition set (row col : Z) (val : D) : M (CSMatrix.t D) unit :=
  lo <~ read (fun m => Vector.atZ (_indPointer m) col) ;;
  hi <~ read (fun m => Vector.atZ (_indPointer m) (col + 1)%Z) ;;
  found <~ read (find_scan (Z.to_nat (hi - lo)) lo row) ;;
  match found with
  | Some i => value_store i val
  | None =>
      pos <~ read (insert_position (Z.to_nat (hi - lo)) lo row) ;;
      index_insert pos row ;;;
      value_insert pos val ;;;
      shift_pointers (col + 1)%Z
  end.

(** [add] *)
Definition add (row col : Z) (val : D) : M (CSMatrix.t D) unit :=
  lo <~ read (fun m => Vector.atZ (_indPointer m) col) ;;
  hi <~ read (fun m => Vector.atZ (_indPointer m) (col + 1)%Z) ;;
  found <~ read (find_scan (Z.to_nat (hi - lo)) lo row) ;;
  match found with
  | Some i =>
      v <~ read (fun m => Vector.atZ (_value m) i) ;;
      value_store i (d_add v val)
  | None =>
      pos <~ read (insert_position (Z.to_nat (hi - lo)) lo row) ;;
      index_insert pos row ;;;
      value_insert pos val ;;;
      shift_pointers (col + 1)%Z
  end.

(** [applyAdd] and [apply] on [aol::Vector] arguments: the matrix is
    traversed by columns. *)
Definition applyAdd (arg dest : list D) (m : CSMatrix.t D) : result (list D) :=
  for_acc (Z.to_nat (getNumCols m))
    (fun col dest =>
       lo <- Vector.at_ (_indPointer m) col ;;
       hi <- Vector.at_ (_indPointer m) (S col) ;;
       for_acc (Z.to_nat (hi - lo))
         (fun o dest =>
            let i := (lo + Z.of_nat o)%Z in
            r <- Vector.atZ (_index m) i ;;
            v <- Vector.atZ (_value m) i ;;
            a <- Vector.at_ arg col ;;
            d <- Vector.atZ dest r ;;
            Vector.storeZ dest r (d_add d (d_mul v a)))
         0 dest)
    0 dest.

Definition apply (arg dest : list D) (m : CSMatrix.t D) : result (list D) :=
  applyAdd arg (Vector.setAll d_zero dest) m.

End CSCMatrix.
End CSCMatrix.

Module CSRMatrix.

Section CSRMatrix.
Context {D : Type} `{DataType D}.

Import CSMatrix.

(** [setFromTriplet]: [_index] lists column indices, [_indPointer] holds
    row pointers. *)
Definition setFromTriplet (tripletMatrix : TripletMatrix.t D) : M (CSMatrix.t D) unit :=
  let tripletRow := TripletMatrix._rowIndex tripletMatrix in
  let tripletCol := TripletMatrix._colIndex tripletMatrix in
  let tripletVal := TripletMatrix._value tripletMatrix in
  numRows <~ read (fun m => Ok (Z.to_nat (getNumRows m))) ;;
  numCols <~ read (fun m => Ok (Z.to_nat (getNumCols m))) ;;
  let t := Vector.make (max numRows numCols) 0%Z in
  let rowIndex := Vector.make (length tripletRow) 0%Z in
  let colPointer := Vector.make (numCols + 1) 0%Z in
  let val := Vector.make (length tripletVal) d_zero in
  t <~ read (fun _ => count_entries tripletCol (length tripletVal) t) ;;
  pt <~ read (fun _ => set_pointers numRows colPointer t) ;;
  let '(colPointer, t) := pt in
  f <~ read (fun _ => fill tripletCol tripletRow tripletVal (length tripletVal) t rowIndex val) ;;
  let '(t, rowIndex, val) := f in
  let t := Vector.setAll (-1)%Z t in
  let colCount := Vector.make numRows 0%Z in
  d <~ read (fun _ => sum_up_duplicates numCols colPointer t rowIndex val colCount) ;;
  let '(t, rowIndex, val, colCount) := d in
  let t := Vector.setAll 0%Z t in
  t <~ read (fun _ => count_compressed numRows colPointer colCount rowIndex t) ;;
  numEntries <~ read (fun _ => sum_entries t) ;;
  modify (fun m => set_index (Vector.resize (Z.to_nat numEntries) 0%Z (_index m)) m) ;;;
  modify (fun m => set_value (Vector.resize (Z.to_nat numEntries) d_zero (_value m)) m) ;;;
  modify (fun m => set_indPointer (Vector.resize (numRows + 1) 0%Z (_indPointer m)) m) ;;;
  indPointer_store 0 0%Z ;;;
  t <~ set_indPointers numCols t ;;
  t <~ fill_compressed numCols colPointer colCount rowIndex val t ;;
  ret tt.

(** [CSRMatrix ( tripletMatrix )] *)
Definition from_triplet (tripletMatrix : TripletMatrix.t D) : result unit * CSMatrix.t D :=
  setFromTriplet tripletMatrix
    (CSMatrix.new (TripletMatrix.getNumRows tripletMatrix)
                  (TripletMatrix.getNumCols tripletMatrix)).

(** [get] *)
Definition get (row col : Z) (m : CSMatrix.t D) : result D :=
  lo <- Vector.atZ (_indPointer m) row ;;
  hi <- Vector.atZ (_indPointer m) (row + 1)%Z ;;
  get_scan (Z.to_nat (hi - lo)) lo col m.

(** [setZero] and [operator= ( tripletMatrix )] *)
Definition setZero : M (CSMatrix.t D) unit := CSMatrix.setZero.

Definition assign (tripletMatrix : TripletMatrix.t D) : M (CSMatrix.t D) unit :=
  setZero ;;;
  modify (fun m =>
            CSMatrix.Build (TripletMatrix.getNumRows tripletMatrix)
              (TripletMatrix.getNumCols tripletMatrix)
              (_index m) (_indPointer m) (_value m)) ;;;
  setFromTriplet tripletMatrix.

(** [set]: the entry is overwritten if the row has it, and inserted before
    the first entry of the row with a greater column index otherwise. *)
Definition set (row col : Z) (val : D) : M (CSMatrix.t D) unit :=
  lo <~ read (fun m => Vector.atZ (_indPointer m) row) ;;
  hi <~ read (fun m => Vector.atZ (_indPointer m) (row + 1)%Z) ;;
  found <~ read (find_scan (Z.to_nat (hi - lo)) lo col) ;;
  match found with
  | Some j => value_store j val
  | None =>
      pos <~ read (insert_position (Z.to_nat (hi - lo)) lo col) ;;
      index_insert pos col ;;;
      value_insert pos val ;;;
      shift_pointers (row + 1)%Z
  end.

(** [add] *)
Definition add (row col : Z) (val : D) : M (CSMatrix.t D) unit :=
  lo <~ read (fun m => Vector.atZ (_indPointer m) row) ;;
  hi <~ read (fun m => Vector.atZ (_indPointer m) (row + 1)%Z) ;;
  found <~ read (find_scan (Z.to_nat (hi - lo)) lo col) ;;
  match found with
  | Some j =>
      v <~ read (fun m => Vector.atZ (_value m) j) ;;
      value_store j (d_add v val)
  | None =>
      pos <~ read (insert_position (Z.to_nat (hi - lo)) lo col) ;;
      index_insert pos col ;;;
      value_insert pos val ;;;
      shift_pointers (row + 1)%Z
  end.

(** [applyAdd] and [apply] on [aol::Vector] arguments: the matrix is
    traversed by rows; [apply] sums a row up in a local variable and
    overwrites the entry of [dest]. *)
Definition applyAdd (arg dest : list D) (m : CSMatrix.t D) : result (list D) :=
  for_acc (Z.to_nat (getNumRows m))
    (fun row dest =>
       lo <- Vector.at_ (_indPointer m) row ;;
       hi <- Vector.at_ (_indPointer m) (S row) ;;
       for_acc (Z.to_nat (hi - lo))
         (fun o dest =>
            let j := (lo + Z.of_nat o)%Z in
            d <- Vector.at_ dest row ;;
            v <- Vector.atZ (_value m) j ;;
            c <- Vector.atZ (_index m) j ;;
            a <- Vector.atZ arg c ;;
            Vector.store dest row (d_add d (d_mul v a)))
         0 dest)
    0 dest.

Definition apply (arg dest : list D) (m : CSMatrix.t D) : result (list D) :=
  for_acc (Z.to_nat (getNumRows m))
    (fun row dest =>
       lo <- Vector.at_ (_indPointer m) row ;;
       hi <- Vector.at_ (_indPointer m) (S row) ;;
       s <- for_acc (Z.to_nat (hi - lo))
              (fun o s =>
                 let j := (lo + Z.of_nat o)%Z in
                 v <- Vector.atZ (_value m) j ;;
                 c <- Vector.atZ (_index m) j ;;
                 a <- Vector.atZ arg c ;;
                 Ok (d_add s (d_mul v a)))
              0 d_zero ;;
       Vector.store dest row s)
    0 dest.

End CSRMatrix.
End CSRMatrix.

(** ** SparseRow *)

Module SparseRow.

Section SparseRow.
Context {D : Type} `{DataType D}.

(** Modelled from the spec: [aol::SparseRow] of the missing [rows.h], an
    explicit row: its entries, a column with a value each, kept sorted by
    column. *)
Definition t : Type := list (Z * D).

Fixpoint get (row : t) (J : Z) : D :=
  match row with
  | [] => d_zero
  | (c, v) :: row' => if (c =? J)%Z then v else get row' J
  end.

Fixpoint update (f : D -> D) (row : t) (J : Z) : t :=
  match row with
  | [] => [(J, f d_zero)]
  | (c, v) :: row' =>
      if (c =? J)%Z then (c, f v) :: row'
      else if (J <? c)%Z then (J, f d_zero) :: (c, v) :: row'
      else (c, v) :: update f row' J
  end.

Definition scale (row : t) (factor : D) : t :=
  map (fun e => (e.1, d_mul e.2 factor)) row.

#[global] Instance SparseRow_Row : Row t D := {
  row_get row _ J := get row J;
  row_set row _ J Value := update (fun _ => Value) row J;
  row_add row _ J Value := update (fun v => d_add v Value) row J;
  row_scale row _ factor := scale row factor
}.

End SparseRow.

Arguments t D : clear implicits.

End SparseRow.

(** ** Specification-level notions *)

(** The number of stored triples of a triplet matrix at a position. *)
Definition count_triples {D} (row col : Z) (m : TripletMatrix.t D) : nat :=
  length (filter (fun e => e.1.1 = row /\ e.1.2 = col) (TripletMatrix.triples m)).

(** A triplet matrix given by its triples. *)
Definition of_triples {D} (numRows numCols : Z) (l : list (Z * Z * D))
    : TripletMatrix.t D :=
  TripletMatrix.Build numRows numCols
    ((fun e => e.1.1) <$> l) ((fun e => e.1.2) <$> l) (snd <$> l).

(** The scan that [removeZeroEntries] and [removeRowCol] share,
    [for ( k = 0; k < size (); ++k ) if ( hit ( k ) ) erase ( k ); else update ( k );]
    as a function on the list of stored triples: the triple behind an
    erased one is stepped over, it is neither tested nor updated. *)
Fixpoint erase_scan {A} (hit : A -> bool) (update : A -> A) (l : list A) : list A :=
  match l with
  | [] => []
  | e :: l' =>
      if hit e then
        match l' with
        | [] => []
        | e' :: l'' => e' :: erase_scan hit update l''
        end
      else update e :: erase_scan hit update l'
  end.

(** What [removeZeroEntries] keeps of a list of triples. *)
Definition kept_by_removeZeroEntries {D} `{DataType D} (l : list (Z * Z * D))
    : list (Z * Z * D) :=
  erase_scan (fun e => d_eqb e.2 d_zero) id l.

(** A triple in row or column [i], and a triple with the indices behind
    [i] moved down by one, with the comparisons of [removeRowCol]. *)
Definition touches {D} (i : Z) (e : Z * Z * D) : bool :=
  (TripletMatrix.to_unsigned e.1.1 =? TripletMatrix.to_unsigned i)%Z
  || (TripletMatrix.to_unsigned e.1.2 =? TripletMatrix.to_unsigned i)%Z.

Definition renumbered {D} (i : Z) (e : Z * Z * D) : Z * Z * D :=
  (if (TripletMatrix.to_unsigned i <? TripletMatrix.to_unsigned e.1.1)%Z
   then (e.1.1 - 1)%Z else e.1.1,
   if (TripletMatrix.to_unsigned i <? TripletMatrix.to_unsigned e.1.2)%Z
   then (e.1.2 - 1)%Z else e.1.2,
   e.2).

(** What [removeRowCol ( i )] makes of a list of triples. *)
Definition left_by_removeRowCol {D} (i : Z) (l : list (Z * Z * D)) : list (Z * Z * D) :=
  erase_scan (touches i) (renumbered i) l.

(** The value of a triplet matrix at a position, by the data model: the
    sum of the values of the triples of the position, in storage order. *)
Definition sum_at {D} `{DataType D} (row col : Z) (l : list (Z * Z * D)) : D :=
  fold_left
    (fun acc e => if (e.1.1 =? row)%Z && (e.1.2 =? col)%Z then d_add acc e.2 else acc)
    l d_zero.

(** The sum of a list of values, and the values of a list of triples with
    zero in place of the triples of other positions. *)
Definition msum {D} `{DataType D} (l : list D) : D := foldr d_add d_zero l.

Definition weights {D} `{DataType D} (row col : Z) (l : list (Z * Z * D)) : list D :=
  (fun e => if (e.1.1 =? row)%Z && (e.1.2 =? col)%Z then e.2 else d_zero) <$> l.

(** Two lists of triples with the same positions in the same places and
    the same sum at every position. *)
Definition same_sums {D} `{DataType D} (l0 l : list (Z * Z * D)) : Prop :=
  fst <$> l = fst <$> l0 /\ forall row col, sum_at row col l = sum_at row col l0.

(** [add]'s range test of a checked build lets the write through. *)
Definition passes_add_check {D} (BOUNDS_CHECK : bool) (i j : Z)
    (m : TripletMatrix.t D) : Prop :=
  BOUNDS_CHECK = true ->
  (i <= TripletMatrix.getNumRows m)%Z /\ (j <= TripletMatrix.getNumCols m)%Z.

(** The matrix after the three [pushBack]s of [add]. *)
Definition appended {D} (i j : Z) (value : D) (m : TripletMatrix.t D)
    : TripletMatrix.t D :=
  TripletMatrix.Build (TripletMatrix._numRows m) (TripletMatrix._numCols m)
    (TripletMatrix._rowIndex m ++ [i]) (TripletMatrix._colIndex m ++ [j])
    (TripletMatrix._value m ++ [value]).

(** The only way a computation fails is an access outside a vector. *)
Definition fails_out_of_bounds_only {A} (r : result A) : Prop :=
  forall e, r = Throw e -> e = OutOfBounds.

(** The rows after [operator*=]: every present row scaled, every absent
    one left absent. *)
Definition scaled_rows {R D} `{Row R D} (factor : D) (rows : list (option R))
    : list (option R) :=
  imap (fun i o => (fun row => row_scale row (Z.of_nat i) factor) <$> o) rows.

(** *** The passes of [setFromTriplet], by data *)

(** The entries as items [(key, minor, value)], the key being the index
    the pass sorts by: the number of items of a key, the number of items of
    smaller keys, and the items of a key in storage order. *)
Definition key_count {D} (k : nat) (l : list (Z * Z * D)) : nat :=
  length (filter (fun e => e.1.1 = Z.of_nat k) l).

Definition key_start {D} (k : nat) (l : list (Z * Z * D)) : nat :=
  length (filter (fun e => (e.1.1 < Z.of_nat k)%Z) l).

Definition bucket {D} (k : nat) (l : list (Z * Z * D)) : list (Z * D) :=
  (fun e => (e.1.2, e.2)) <$> filter (fun e => e.1.1 = Z.of_nat k) l.

Definition slice {A} (start len : nat) (l : list A) : list A := take len (drop start l).

Definition keys_below {D} (n : nat) (l : list (Z * Z * D)) : Prop :=
  Forall (fun e => (0 <= e.1.1 < Z.of_nat n)%Z) l.

(** The counters [t] after a counting loop, the pointers after "Set row
    pointers", and the vectors while "Fill matrix" has scattered the items
    [l] of [all]. *)
Definition counted {D} (n : nat) (l : list (Z * Z * D)) (t : list Z) : Prop :=
  length t = n /\ forall k, k < n -> t !! k = Some (Z.of_nat (key_count k l)).

Definition pointed {D} (n : nat) (all : list (Z * Z * D)) (ptr : list Z) : Prop :=
  length ptr = n + 1 /\ forall k, k <= n -> ptr !! k = Some (Z.of_nat (key_start k all)).

Definition scattered {D} (n : nat) (all l : list (Z * Z * D))
    (t idx : list Z) (val : list D) : Prop :=
  length t = n /\ length idx = length all /\ length val = length all /\
  (forall k, k < n -> t !! k = Some (Z.of_nat (key_start k all + key_count k l))) /\
  (forall k, k < n ->
     slice (key_start k all) (key_count k l) (zip idx val) = bucket k l).

(** "Sum up duplicate entries" on one slice, by data: the values of a
    minor index are added up at its first occurrence. *)
Fixpoint dd_add {D} `{DataType D} (c : Z) (v : D) (acc : list (Z * D)) : list (Z * D) :=
  match acc with
  | [] => [(c, v)]
  | (c', v') :: acc' =>
      if (c' =? c)%Z then (c', d_add v' v) :: acc' else (c', v') :: dd_add c v acc'
  end.

Definition dedupe {D} `{DataType D} (l : list (Z * D)) : list (Z * D) :=
  fold_left (fun acc cv => dd_add cv.1 cv.2 acc) l [].

Fixpoint key_index {D} (c : Z) (acc : list (Z * D)) : option nat :=
  match acc with
  | [] => None
  | (c', _) :: acc' => if (c' =? c)%Z then Some 0 else S <$> key_index c acc'
  end.

(** The markers [t] of "Sum up duplicate entries": the position of the
    first occurrence of a minor index in the current slice, or a position
    before the slice. *)
Definition markers_below (n : nat) (bound : nat) (t : list Z) : Prop :=
  length t = n /\ forall c, c < n -> exists z, t !! c = Some z /\ (z < Z.of_nat bound)%Z.

Definition markers_of {D} (n p1 : nat) (acc : list (Z * D)) (t : list Z) : Prop :=
  length t = n /\
  forall c, c < n ->
    match key_index (Z.of_nat c) acc with
    | Some q => t !! c = Some (Z.of_nat (p1 + q))
    | None => exists z, t !! c = Some z /\ (z < Z.of_nat p1)%Z
    end.

(** The invariant of the inner loop of "Sum up duplicate entries" on the
    slice [L], which starts at [p1], after [o] entries. *)
Definition slice_inv {D} `{DataType D} (n p1 : nat) (idx0 : list Z) (val0 : list D)
    (L : list (Z * D)) (o : nat) (x : list Z * list Z * list D * Z) : Prop :=
  let '(t, idx, val, pd) := x in
  let acc := dedupe (take o L) in
  pd = Z.of_nat (p1 + length acc) /\
  length idx = length idx0 /\ length val = length idx0 /\
  slice p1 (length acc) (zip idx val) = acc /\
  take p1 (zip idx val) = take p1 (zip idx0 val0) /\
  drop (p1 + o) (zip idx val) = drop (p1 + o) (zip idx0 val0) /\
  markers_of n p1 acc t.

(** The slices after "Sum up duplicate entries" reached slice [upto]. *)
Definition minors_below {D} (n : nat) (l : list (Z * Z * D)) : Prop :=
  Forall (fun e => (0 <= e.1.2 < Z.of_nat n)%Z) l.

Definition compacted {D} `{DataType D} (n : nat) (all : list (Z * Z * D)) (upto : nat)
    (idx : list Z) (val : list D) (count : list Z) : Prop :=
  length idx = length all /\ length val = length all /\ length count = n /\
  (forall k, k < upto ->
     slice (key_start k all) (length (dedupe (bucket k all))) (zip idx val)
     = dedupe (bucket k all) /\
     count !! k = Some (Z.of_nat (length (dedupe (bucket k all))))) /\
  (forall k, upto <= k < n ->
     slice (key_start k all) (key_count k all) (zip idx val) = bucket k all).

(** The items of the final "Fill matrix": the summed-up entries of the
    slices before [i], keyed by their minor index. *)
Definition row_items {D} (i : nat) (dd : list (Z * D)) : list (Z * Z * D) :=
  (fun cv => (cv.1, Z.of_nat i, cv.2)) <$> dd.

Fixpoint items_upto {D} `{DataType D} (all : list (Z * Z * D)) (i : nat)
    : list (Z * Z * D) :=
  match i with
  | O => []
  | S i' => items_upto all i' ++ row_items i' (dedupe (bucket i' all))
  end.

(** The members that the final "Fill matrix" leaves untouched. *)
Definition same_frame {D} (s0 s : CSMatrix.t D) : Prop :=
  CSMatrix._numRows s = CSMatrix._numRows s0 /\
  CSMatrix._numCols s = CSMatrix._numCols s0 /\
  CSMatrix._indPointer s = CSMatrix._indPointer s0.

(** The value that the scan of [get] finds in a slice. *)
Fixpoint lookup_minor {D} `{DataType D} (key : Z) (B : list (Z * D)) : D :=
  match B with
  | [] => d_zero
  | (x, v) :: B' => if (x =? key)%Z then v else lookup_minor key B'
  end.

(** The sum of the values of a key in a slice, in storage order. *)
Definition sum_minor {D} `{DataType D} (key : Z) (B : list (Z * D)) : D :=
  fold_left (fun acc cv => if (cv.1 =? key)%Z then d_add acc cv.2 else acc) B d_zero.

(** The invariants of a compressed matrix with [n] major
    slices: the pointers start at zero, end at the number of stored
    entries and do not decrease, and the minor indices of every slice
    increase strictly. *)
Definition compressed_invariants {D} (n : nat) (m : CSMatrix.t D) : Prop :=
  length (CSMatrix._indPointer m) = n + 1 /\
  CSMatrix._indPointer m !! 0 = Some 0%Z /\
  CSMatrix._indPointer m !! n = Some (Z.of_nat (length (CSMatrix._index m))) /\
  length (CSMatrix._value m) = length (CSMatrix._index m) /\
  forall k lo hi,
    CSMatrix._indPointer m !! k = Some lo -> CSMatrix._indPointer m !! S k = Some hi ->
    (lo <= hi)%Z /\
    forall p q x y,
      (lo <= Z.of_nat p)%Z -> p < q -> (Z.of_nat q < hi)%Z ->
      CSMatrix._index m !! p = Some x -> CSMatrix._index m !! q = Some y -> (x < y)%Z.

(** The triplet matrix with rows and columns exchanged. *)
Definition transposed {D} (A : TripletMatrix.t D) : TripletMatrix.t D :=
  TripletMatrix.Build (TripletMatrix._numCols A) (TripletMatrix._numRows A)
    (TripletMatrix._colIndex A) (TripletMatrix._rowIndex A) (TripletMatrix._value A).

(** *** Notions of the properties of the further operations *)

(** A triple with its value replaced by zero if [hit] holds of it: what
    the loops of [setRowToZero], [setColToZero] and their like do to a
    stored triple. *)
Definition zeroed {D} `{DataType D} (hit : Z * Z * D -> bool) (e : Z * Z * D)
    : Z * Z * D :=
  if hit e then (e.1, d_zero) else e.

(** A stored triple of a position. *)
Definition at_position {D} (row col : Z) (e : Z * Z * D) : bool :=
  (e.1.1 =? row)%Z && (e.1.2 =? col)%Z.

(** No stored value that is zero is followed by another one. *)
Definition no_adjacent_zeros {D} `{DataType D} (l : list (Z * Z * D)) : Prop :=
  forall k e e', l !! k = Some e -> l !! S k = Some e' ->
    d_eqb e.2 d_zero = true -> d_eqb e'.2 d_zero = false.

(** The triples [addMultipleRowToRow ( from, to, multiple )] appends for a
    list of stored triples: one for every triple of row [from], in storage
    order. *)
Definition row_multiples {D} `{DataType D} (from to : Z) (multiple : D)
    (l : list (Z * Z * D)) : list (Z * Z * D) :=
  (fun e => (to, e.1.2, d_mul multiple e.2)) <$> filter (fun e => e.1.1 = from) l.

(** The range test of [add] lets the writes of [addMultipleRowToRow]
    through. *)
Definition row_multiples_pass {D} (BOUNDS_CHECK : bool) (from to : Z)
    (m : TripletMatrix.t D) : Prop :=
  BOUNDS_CHECK = true ->
  (to <= TripletMatrix.getNumRows m)%Z /\
  Forall (fun e => e.1.1 = from -> (e.1.2 <= TripletMatrix.getNumCols m)%Z)
    (TripletMatrix.triples m).

(** A position of the shared matrix that lies in the block of a wrapper. *)
Definition in_block (V : TripletMatrixOffset.t) (row col : Z) : bool :=
  (TripletMatrixOffset._rowOffset V <=? row)%Z
  && (row <? TripletMatrixOffset._rowOffset V + TripletMatrixOffset._numRows V)%Z
  && (TripletMatrixOffset._colOffset V <=? col)%Z
  && (col <? TripletMatrixOffset._colOffset V + TripletMatrixOffset._numCols V)%Z.

(** The triples [TripletMatrixOffset::setZero] has erased when its loops
    are at row [i] and column [j] of the block. *)
Definition erased_upto {D} (V : TripletMatrixOffset.t) (i j : nat) (e : Z * Z * D)
    : bool :=
  let ro := TripletMatrixOffset._rowOffset V in
  let co := TripletMatrixOffset._colOffset V in
  ((ro <=? e.1.1)%Z && (e.1.1 <? ro + Z.of_nat i)%Z
   && (co <=? e.1.2)%Z && (e.1.2 <? co + TripletMatrixOffset._numCols V)%Z)
  || ((e.1.1 =? Z.of_nat i + ro)%Z
      && (co <=? e.1.2)%Z && (e.1.2 <? co + Z.of_nat j)%Z).

(** A list with an element put in at a position. *)
Definition inserted {A} (pos : nat) (x : A) (l : list A) : list A :=
  take pos l ++ x :: drop pos l.

(** The position in a slice that [set] and [add] insert a new minor index
    at: the first one that holds a greater index, or the end. *)
Fixpoint ins_index {D} (key : Z) (B : list (Z * D)) : nat :=
  match B with
  | [] => 0
  | (x, _) :: B' => if (key <? x)%Z then 0 else S (ins_index key B')
  end.

(** What [set] and [add] make of a slice: the value of the first entry of
    the minor index is replaced, by [f] of the old value, or a new entry
    with the value [f None] is inserted. *)
Definition upsert {D} (key : Z) (f : option D -> D) (B : list (Z * D)) : list (Z * D) :=
  match key_index key B with
  | Some q => alter (fun e => (e.1, f (Some e.2))) q B
  | None => inserted (ins_index key B) (key, f None) B
  end.

(** The slice of a major index of a compressed matrix: the pairs of minor
    index and value between its two pointers. *)
Definition major_slice {D} (m : CSMatrix.t D) (k : nat) : list (Z * D) :=
  match CSMatrix._indPointer m !! k, CSMatrix._indPointer m !! S k with
  | Some lo, Some hi =>
      slice (Z.to_nat lo) (Z.to_nat (hi - lo)) (zip (CSMatrix._index m) (CSMatrix._value m))
  | _, _ => []
  end.

(** The pointer of a major index, as a position. *)
Definition pointer {D} (m : CSMatrix.t D) (k : nat) : nat :=
  Z.to_nat (default 0%Z (CSMatrix._indPointer m !! k)).

(** [s + g k * a_0 + g (k + 1) * a_1 + ...], summed from the left: the
    entry of a matrix-vector product whose matrix row is [g], on top of
    [s]. *)
Fixpoint weighted_sum {D} `{DataType D} (g : nat -> D) (k : nat) (arg : list D) (s : D) : D :=
  match arg with
  | [] => s
  | a :: arg' => weighted_sum g (S k) arg' (d_add s (d_mul (g k) a))
  end.

(** ** The integers as scalar type *)

#[export] Instance Z_DataTypeLaws : DataTypeLaws Z.
Proof.
  split; simpl; intros.
  - apply Z.eqb_eq.
  - reflexivity.
Qed.

#[export] Instance Z_DataTypeCommutative : DataTypeCommutative Z.
Proof.
  split; simpl; intros.
  - apply Z.add_comm.
  - apply Z.add_assoc.
Qed.

(** ** Loops *)

Lemma for_lt_inv {St} (I : nat -> St -> Prop) (n : nat) (bound : St -> nat)
    (body : nat -> M St unit) :
  (forall k s, I k s -> bound s = n) ->
  (forall k s, k < n -> I k s -> exists s', body k s = (Ok tt, s') /\ I (S k) s') ->
  forall fuel k s, k <= n -> n - k <= fuel -> I k s ->
  exists s', for_lt fuel bound body k s = (Ok tt, s') /\ I n s'.
Proof.
  intros Hb Hstep. induction fuel as [|fuel IH]; intros k s Hk Hf HI.
  - assert (k = n) by lia. subst. exists s. simpl.
    rewrite (Hb _ _ HI), Nat.ltb_irrefl. auto.
  - simpl. rewrite (Hb _ _ HI). destruct (Nat.ltb_spec k n).
    + destruct (Hstep k s) as (s' & Hbody & HI'); auto.
      unfold bind. rewrite Hbody. apply IH; [lia | lia | exact HI'].
    + assert (k = n) by lia. subst. eauto.
Qed.

Lemma for_acc_inv {A} (I : nat -> A -> Prop) (body : nat -> A -> result A) :
  forall n k a,
  (forall i x, k <= i < k + n -> I i x -> exists x', body i x = Ok x' /\ I (S i) x') ->
  I k a ->
  exists a', for_acc n body k a = Ok a' /\ I (k + n) a'.
Proof.
  induction n as [|n IH]; intros k a Hstep HI.
  - exists a. rewrite Nat.add_0_r. auto.
  - simpl. destruct (Hstep k a) as (x' & Hbody & HI'); [lia | exact HI |].
    rewrite Hbody. simpl.
    destruct (IH (S k) x') as (a' & Hfor & Hfin).
    + intros i x Hi. apply Hstep. lia.
    + exact HI'.
    + exists a'. split; [exact Hfor |]. replace (k + S n) with (S k + n) by lia. exact Hfin.
Qed.

Lemma at_lookup {A} (v : list A) (k : nat) (x : A) :
  v !! k = Some x -> Vector.at_ v k = Ok x.
Proof. intros Hx. unfold Vector.at_. rewrite Hx. reflexivity. Qed.

Lemma atZ_of_nat {A} (v : list A) (k : nat) : Vector.atZ v (Z.of_nat k) = Vector.at_ v k.
Proof.
  unfold Vector.atZ. destruct (Z.ltb_spec (Z.of_nat k) 0); [lia |].
  rewrite Nat2Z.id. reflexivity.
Qed.

Lemma store_lt {A} (v : list A) (k : nat) (x : A) :
  k < length v -> Vector.store v k x = Ok (<[k:=x]> v).
Proof.
  intros Hk. unfold Vector.store. destruct (Nat.ltb_spec k (length v)); [reflexivity | lia].
Qed.

Lemma storeZ_of_nat {A} (v : list A) (k : nat) (x : A) :
  Vector.storeZ v (Z.of_nat k) x = Vector.store v k x.
Proof.
  unfold Vector.storeZ. destruct (Z.ltb_spec (Z.of_nat k) 0); [lia |].
  rewrite Nat2Z.id. reflexivity.
Qed.

(** ** TripletMatrix: [add] and the upper triangular wrapper *)

Section TripletAdd.
Context {D : Type} `{DataType D}.

Lemma add_passes (bc : bool) (i j : Z) (value : D) (m : TripletMatrix.t D) :
  passes_add_check bc i j m ->
  TripletMatrix.add bc i j value m = (Ok tt, appended i j value m).
Proof.
  intros Hc. unfold TripletMatrix.add, bind, read, throw, modify, ret.
  destruct bc; simpl.
  - destruct (Hc eq_refl) as [Hi Hj].
    unfold TripletMatrix.getNumRows, TripletMatrix.getNumCols in *.
    destruct (Z.ltb_spec (TripletMatrix._numRows m) i); [lia|].
    destruct (Z.ltb_spec (TripletMatrix._numCols m) j); [lia|].
    reflexivity.
  - reflexivity.
Qed.

Lemma triples_appended (i j : Z) (value : D) (m : TripletMatrix.t D) :
  TripletMatrix.wf m ->
  TripletMatrix.triples (appended i j value m) = TripletMatrix.triples m ++ [(i, j, value)].
Proof.
  intros [Hc Hv]. unfold TripletMatrix.triples, appended. simpl.
  rewrite zip_with_app by lia.
  rewrite zip_with_app; [reflexivity |].
  rewrite length_zip_with. lia.
Qed.

Lemma add_fails (bc : bool) (i j : Z) (value : D) (m : TripletMatrix.t D) :
  ~ passes_add_check bc i j m ->
  exists msg, TripletMatrix.add bc i j value m = (Throw (Exception msg), m).
Proof.
  intros Hfail. unfold passes_add_check in Hfail.
  destruct bc; [| exfalso; apply Hfail; discriminate].
  unfold TripletMatrix.add, bind, read, throw. simpl.
  destruct (Z.ltb_spec (TripletMatrix.getNumRows m) i); [eauto |].
  destruct (Z.ltb_spec (TripletMatrix.getNumCols m) j); [eauto |].
  exfalso. apply Hfail. intros _. lia.
Qed.

(** C9. A block-local [add ( r, c, v )] through the upper triangular
    wrapper: with [r > c] the shared matrix is unchanged and nothing is
    raised; with [r <= c], where the range test of [TripletMatrix::add]
    lets the translated position through (always in an unchecked build),
    exactly the triple at the translated position is appended to the
    shared matrix; with [r <= c], where the test of a checked build
    refuses the translated position, an exception is raised and the
    shared matrix is unchanged. *)
Theorem upper_triangle_add (bc : bool) (V : TripletMatrixOffset.t) (r c : Z) (v : D)
    (m : TripletMatrix.t D) :
  let i := (r + TripletMatrixOffset._rowOffset V)%Z in
  let j := (c + TripletMatrixOffset._colOffset V)%Z in
  ((r > c)%Z -> TripletMatrixOffsetUpperTriangle.add bc V r c v m = (Ok tt, m)) /\
  ((r <= c)%Z -> passes_add_check bc i j m ->
   TripletMatrixOffsetUpperTriangle.add bc V r c v m = (Ok tt, appended i j v m) /\
   (TripletMatrix.wf m ->
    TripletMatrix.triples (appended i j v m) = TripletMatrix.triples m ++ [(i, j, v)])) /\
  ((r <= c)%Z -> ~ passes_add_check bc i j m ->
   exists msg,
     TripletMatrixOffsetUpperTriangle.add bc V r c v m = (Throw (Exception msg), m)).
Proof.
  intros i j. unfold TripletMatrixOffsetUpperTriangle.add. split; [| split].
  - intros Hgt. destruct (Z.leb_spec r c); [lia | reflexivity].
  - intros Hle Hc. destruct (Z.leb_spec r c); [| lia]. split.
    + apply add_passes, Hc.
    + apply triples_appended.
  - intros Hle Hc. destruct (Z.leb_spec r c); [| lia]. apply add_fails, Hc.
Qed.

End TripletAdd.

Lemma upper_triangle_add_witness :
  let V := TripletMatrixOffset.Build 2 2 1 1 in
  let m := of_triples 3 3 [(0, 0, 5)]%Z in
  TripletMatrixOffsetUpperTriangle.add true V 1 0 7%Z m = (Ok tt, m) /\
  TripletMatrixOffsetUpperTriangle.add true V 0 1 7%Z m
  = (Ok tt, of_triples 3 3 [(0, 0, 5); (1, 2, 7)]%Z) /\
  exists msg,
    TripletMatrixOffsetUpperTriangle.add true V 1 3 7%Z m = (Throw (Exception msg), m).
Proof.
  intros V m.
  destruct (upper_triangle_add true V 1 0 7%Z m) as [Hgt _].
  destruct (upper_triangle_add true V 0 1 7%Z m) as (_ & Hle & _).
  destruct (upper_triangle_add true V 1 3 7%Z m) as (_ & _ & Hfail).
  split; [| split].
  - apply Hgt. reflexivity.
  - apply Hle.
    + discriminate.
    + intros _. vm_compute. split; discriminate.
  - apply Hfail.
    + discriminate.
    + intros Hpass. destruct (Hpass eq_refl) as [_ Hcol]. vm_compute in Hcol.
      apply Hcol. reflexivity.
Defined.

(** C9, as the claim is written: in a checked build a write to the upper
    triangle of a block, at a block-local position whose translated column
    lies beyond the columns of the shared matrix, raises an exception and
    appends nothing. *)
Lemma upper_triangle_add_out_of_range :
  let V := TripletMatrixOffset.Build 2 2 2 3 in
  let m := of_triples (D := Z) 3 3 [] in
  TripletMatrixOffsetUpperTriangle.add true V 0 1 7%Z m
  = (Throw (Exception "Col index is out of bounds"), m) /\
  TripletMatrixOffsetUpperTriangle.add true V 0 1 7%Z m
  <> (Ok tt, appended 2 4 7%Z m).
Proof.
  split; [reflexivity | discriminate].
Qed.

(** ** TripletMatrix: [set] *)

Section TripletSet.
Context {D : Type} `{DataTypeLaws D}.

Lemma triples_lookup (m : TripletMatrix.t D) (k : nat) (r c : Z) (x : D) :
  TripletMatrix.triples m !! k = Some (r, c, x) <->
  TripletMatrix._rowIndex m !! k = Some r /\
  TripletMatrix._colIndex m !! k = Some c /\
  TripletMatrix._value m !! k = Some x.
Proof.
  unfold TripletMatrix.triples. rewrite lookup_zip_with_Some. split.
  - intros (rc & x' & Heq & Hrc & Hx). apply lookup_zip_with_Some in Hrc.
    destruct Hrc as (r' & c' & -> & Hr & Hc). inversion Heq; subst. auto.
  - intros (Hr & Hc & Hx). exists (r, c), x. split; [reflexivity |]. split; [| exact Hx].
    apply lookup_zip_with_Some. eauto.
Qed.

Lemma triples_length (m : TripletMatrix.t D) :
  TripletMatrix.wf m ->
  length (TripletMatrix.triples m) = length (TripletMatrix._rowIndex m).
Proof.
  intros [Hc Hv]. unfold TripletMatrix.triples. rewrite !length_zip_with. lia.
Qed.

Lemma value_store_lt (k : nat) (x : D) (s : TripletMatrix.t D) :
  k < length (TripletMatrix._value s) ->
  TripletMatrix.value_store k x s
  = (Ok tt, TripletMatrix.set_value (<[k:=x]> (TripletMatrix._value s)) s).
Proof.
  intros Hk. unfold TripletMatrix.value_store, bind, read, modify.
  rewrite store_lt by exact Hk. reflexivity.
Qed.

(** [setEntryToZero] writes zero over the value of every matching triple
    and nothing else. *)
Lemma setEntryToZero_spec (row col : Z) (m : TripletMatrix.t D) :
  TripletMatrix.wf m ->
  exists V,
    TripletMatrix.setEntryToZero row col m = (Ok tt, TripletMatrix.set_value V m) /\
    length V = length (TripletMatrix._value m) /\
    forall p r c x,
      TripletMatrix.triples m !! p = Some (r, c, x) ->
      V !! p = Some (if (r =? row)%Z && (c =? col)%Z then d_zero else x).
Proof.
  intros [Hlc Hlv].
  set (n := length (TripletMatrix._rowIndex m)) in *.
  set (Inv := fun (k : nat) (s : TripletMatrix.t D) =>
    TripletMatrix._numRows s = TripletMatrix._numRows m /\
    TripletMatrix._numCols s = TripletMatrix._numCols m /\
    TripletMatrix._rowIndex s = TripletMatrix._rowIndex m /\
    TripletMatrix._colIndex s = TripletMatrix._colIndex m /\
    length (TripletMatrix._value s) = n /\
    forall p r c x,
      TripletMatrix.triples m !! p = Some (r, c, x) ->
      TripletMatrix._value s !! p
      = Some (if decide (p < k)
              then if (r =? row)%Z && (c =? col)%Z then d_zero else x
              else x)).
  destruct (for_lt_inv Inv n (fun s => length (TripletMatrix._rowIndex s))
              (fun k =>
                 r <~ read (fun m => Vector.at_ (TripletMatrix._rowIndex m) k) ;;
                 if (r =? row)%Z then
                   c <~ read (fun m => Vector.at_ (TripletMatrix._colIndex m) k) ;;
                   if (c =? col)%Z then TripletMatrix.value_store k d_zero else ret tt
                 else ret tt))
    with (fuel := n) (k := 0) (s := m) as (m' & Hrun & Hfin).
  - intros k s (_ & _ & -> & _). reflexivity.
  - intros k s Hk (Hnr & Hnc & Hrs & Hcs & Hlen & Hval).
    destruct (lookup_lt_is_Some_2 (TripletMatrix._rowIndex m) k Hk) as [r Hr].
    destruct (lookup_lt_is_Some_2 (TripletMatrix._colIndex m) k) as [c Hc]; [lia |].
    destruct (lookup_lt_is_Some_2 (TripletMatrix._value m) k) as [x Hx]; [lia |].
    assert (Ht : TripletMatrix.triples m !! k = Some (r, c, x)) by (apply triples_lookup; auto).
    assert (Hsame : (r =? row)%Z && (c =? col)%Z = false ->
                    exists s', (Ok tt, s) = (Ok tt, s') /\ Inv (S k) s').
    { intros Hm. exists s. split; [reflexivity |]. repeat (split; [assumption |]).
      intros p r' c' x' Hp. rewrite (Hval _ _ _ _ Hp).
      destruct (decide (p < k)), (decide (p < S k)); try lia; try reflexivity.
      assert (p = k) by lia. subst p. rewrite Ht in Hp. inversion Hp; subst.
      rewrite Hm. reflexivity. }
    unfold bind, read, ret. rewrite Hrs, (at_lookup _ _ _ Hr).
    destruct (r =? row)%Z eqn:Er; [| apply Hsame; reflexivity].
    rewrite Hcs, (at_lookup _ _ _ Hc).
    destruct (c =? col)%Z eqn:Ec; [| apply Hsame; reflexivity].
    rewrite value_store_lt by lia. eexists. split; [reflexivity |].
    unfold Inv. simpl. repeat (split; [assumption |]).
    split; [rewrite length_insert; exact Hlen |].
    intros p r' c' x' Hp. destruct (decide (p = k)) as [-> | Hne].
    + rewrite list_lookup_insert_eq by lia. rewrite Ht in Hp. inversion Hp; subst.
      destruct (decide (k < S k)); [| lia]. rewrite Er, Ec. reflexivity.
    + rewrite list_lookup_insert_ne by auto. rewrite (Hval _ _ _ _ Hp).
      destruct (decide (p < k)), (decide (p < S k)); try lia; reflexivity.
  - lia.
  - lia.
  - repeat (split; [reflexivity |]). split; [exact Hlv |].
    intros p r c x Hp. apply triples_lookup in Hp as (_ & _ & Hx).
    destruct (decide (p < 0)); [lia | exact Hx].
  - destruct Hfin as (Hnr & Hnc & Hrs & Hcs & Hlen & Hval).
    exists (TripletMatrix._value m'). split.
    + unfold TripletMatrix.setEntryToZero. fold n. rewrite Hrun. f_equal.
      destruct m', m. unfold TripletMatrix.set_value. simpl in *. congruence.
    + split; [lia |]. intros p r c x Hp. rewrite (Hval _ _ _ _ Hp).
      apply lookup_lt_Some in Hp as Hlt.
      rewrite triples_length in Hlt by (split; assumption).
      fold n in Hlt. destruct (decide (p < n)); [reflexivity | lia].
Qed.

(** [get] on a matrix whose matching triples are all zero, after one more
    triple at the position was appended. *)
Lemma get_appended_over_zeros (row col : Z) (v : D) (m : TripletMatrix.t D) :
  TripletMatrix.wf m ->
  (forall p x, TripletMatrix.triples m !! p = Some (row, col, x) -> x = d_zero) ->
  TripletMatrix.get row col (appended row col v m) = Ok v.
Proof.
  intros Hwf Hzero. pose proof Hwf as [Hlc Hlv].
  set (n := length (TripletMatrix._rowIndex m)) in *.
  unfold TripletMatrix.get, appended. simpl. rewrite length_app. simpl. fold n.
  set (Inv := fun (k : nat) (a : D) => (k <= n -> a = d_zero) /\ (k = S n -> a = v)).
  match goal with
  | |- for_acc _ ?body 0 _ = _ =>
      destruct (for_acc_inv Inv body (n + 1) 0 d_zero) as (a & Hrun & Hfin)
  end.
  - intros k a Hk [Hle Heq].
    assert (Ha : a = d_zero) by (apply Hle; lia). subst a.
    destruct (decide (k < n)) as [Hlt | Hge].
    + destruct (lookup_lt_is_Some_2 (TripletMatrix._rowIndex m) k Hlt) as [r Hr].
      destruct (lookup_lt_is_Some_2 (TripletMatrix._colIndex m) k) as [c Hc]; [lia |].
      destruct (lookup_lt_is_Some_2 (TripletMatrix._value m) k) as [x Hx]; [lia |].
      rewrite (at_lookup _ k r) by (rewrite lookup_app_l by (fold n; lia); exact Hr).
      simpl. destruct (Z.eqb_spec r row) as [-> | Hne].
      * rewrite (at_lookup _ k c) by (rewrite lookup_app_l by lia; exact Hc).
        simpl. destruct (Z.eqb_spec c col) as [-> | Hne].
        -- rewrite (at_lookup _ k x) by (rewrite lookup_app_l by lia; exact Hx).
           simpl. eexists. split; [reflexivity |].
           assert (x = d_zero) by (eapply Hzero, triples_lookup; eauto). subst x.
           rewrite d_add_zero_l. split; [reflexivity | lia].
        -- eexists. split; [reflexivity |]. split; [reflexivity | lia].
      * eexists. split; [reflexivity |]. split; [reflexivity | lia].
    + assert (k = n) by lia. subst k.
      rewrite (at_lookup _ n row) by (apply list_lookup_middle; reflexivity).
      simpl. rewrite Z.eqb_refl.
      rewrite (at_lookup _ n col) by (apply list_lookup_middle; lia).
      simpl. rewrite Z.eqb_refl.
      rewrite (at_lookup _ n v) by (apply list_lookup_middle; lia).
      simpl. eexists. split; [reflexivity |]. rewrite d_add_zero_l.
      split; [lia | reflexivity].
  - split; [reflexivity | lia].
  - rewrite Hrun. f_equal. apply Hfin. lia.
Qed.

(** C5. [set ( i, j, v )] at a position of the matrix: afterwards
    [get ( i, j )] is [v]; every triple stored before is still stored at
    its place, with value zero if it is a triple of the position and with
    its old value otherwise; and there is one triple more. *)
Theorem set_zeroes_and_appends (bc : bool) (m : TripletMatrix.t D) (i j : Z) (v : D) :
  TripletMatrix.wf m ->
  (0 <= i < TripletMatrix.getNumRows m)%Z ->
  (0 <= j < TripletMatrix.getNumCols m)%Z ->
  exists m',
    TripletMatrix.set bc i j v m = (Ok tt, m') /\
    TripletMatrix.wf m' /\
    TripletMatrix.get i j m' = Ok v /\
    length (TripletMatrix.triples m') = S (length (TripletMatrix.triples m)) /\
    forall k r c x,
      TripletMatrix.triples m !! k = Some (r, c, x) ->
      TripletMatrix.triples m' !! k
      = Some (r, c, if (r =? i)%Z && (c =? j)%Z then d_zero else x).
Proof.
  intros Hwf Hi Hj. pose proof Hwf as [Hlc Hlv].
  destruct (setEntryToZero_spec i j m Hwf) as (V & Hzero & HlenV & HV).
  set (mz := TripletMatrix.set_value V m) in *.
  assert (Hwfz : TripletMatrix.wf mz) by (split; simpl; lia).
  assert (Hwf' : TripletMatrix.wf (appended i j v mz)).
  { split; simpl; rewrite !length_app; simpl; lia. }
  assert (Hold : forall k r c x,
    TripletMatrix.triples m !! k = Some (r, c, x) ->
    TripletMatrix.triples mz !! k
    = Some (r, c, if (r =? i)%Z && (c =? j)%Z then d_zero else x)).
  { intros k r c x Hk. apply triples_lookup. simpl.
    pose proof (HV _ _ _ _ Hk) as HVk. apply triples_lookup in Hk as (Hr & Hc & _). auto. }
  exists (appended i j v mz). split; [| split; [exact Hwf' | split; [| split]]].
  - unfold TripletMatrix.set, bind. rewrite Hzero. apply add_passes.
    intros _. unfold TripletMatrix.getNumRows, TripletMatrix.getNumCols in *. simpl. lia.
  - apply get_appended_over_zeros; [exact Hwfz |].
    intros p x Hp.
    apply lookup_lt_Some in Hp as Hlt. rewrite triples_length in Hlt by exact Hwfz.
    simpl in Hlt.
    destruct (lookup_lt_is_Some_2 (TripletMatrix.triples m) p) as [[[r c] x0] Hm].
    { rewrite triples_length by exact Hwf. exact Hlt. }
    rewrite (Hold _ _ _ _ Hm) in Hp. inversion Hp; subst.
    rewrite !Z.eqb_refl. reflexivity.
  - rewrite !triples_length by assumption. simpl. rewrite length_app. simpl. lia.
  - intros k r c x Hk. rewrite triples_appended by exact Hwfz.
    rewrite lookup_app_l.
    + apply Hold, Hk.
    + apply lookup_lt_Some in Hk. rewrite triples_length in * by assumption.
      simpl. exact Hk.
Qed.

End TripletSet.

Lemma set_zeroes_and_appends_witness :
  let m := of_triples 2 2 [(0, 1, 5); (1, 1, 2); (0, 1, 7)]%Z in
  exists m',
    TripletMatrix.set true 0 1 9%Z m = (Ok tt, m') /\
    TripletMatrix.get 0 1 m' = Ok 9%Z /\
    length (TripletMatrix.triples m') = 4.
Proof.
  intros m.
  destruct (set_zeroes_and_appends true m 0 1 9%Z) as (m' & Hset & _ & Hget & Hlen & _).
  - split; reflexivity.
  - vm_compute. split; [discriminate | reflexivity].
  - vm_compute. split; [discriminate | reflexivity].
  - exists m'. auto.
Defined.

(** ** TripletMatrix: [sumDuplicates], [removeZeroEntries], [removeRowCol] *)

Section TripletErase.
Context {D : Type} `{DataType D}.
Variables numRows numCols : Z.

Local Abbreviation mk := (of_triples numRows numCols).

Lemma triples_of_triples (l : list (Z * Z * D)) : TripletMatrix.triples (mk l) = l.
Proof.
  unfold TripletMatrix.triples, of_triples. simpl.
  induction l as [|[[r c] x] l IH]; [reflexivity |]. simpl. f_equal. exact IH.
Qed.

Lemma unzip_triples (rows cols : list Z) (vals : list D) :
  length cols = length rows -> length vals = length rows ->
  (fun e : Z * Z * D => e.1.1) <$> zip (zip rows cols) vals = rows /\
  (fun e : Z * Z * D => e.1.2) <$> zip (zip rows cols) vals = cols /\
  snd <$> zip (zip rows cols) vals = vals.
Proof.
  revert cols vals. induction rows as [|r rows IH]; intros [|c cols] [|x vals] Hc Hv;
    simpl in *; try discriminate; [auto |].
  destruct (IH cols vals) as (Hr' & Hc' & Hv'); [lia | lia |].
  repeat split; f_equal; assumption.
Qed.

Lemma of_triples_triples (m : TripletMatrix.t D) :
  TripletMatrix.wf m ->
  m = of_triples (TripletMatrix._numRows m) (TripletMatrix._numCols m)
        (TripletMatrix.triples m).
Proof.
  intros [Hc Hv]. destruct m as [nr nc rows cols vals].
  unfold of_triples, TripletMatrix.triples. simpl in *.
  destruct (unzip_triples rows cols vals Hc Hv) as (-> & -> & ->). reflexivity.
Qed.

Lemma erase_middle {A B} (f : A -> B) (P l : list A) (e : A) :
  Vector.erase (f <$> (P ++ e :: l)) (length P) = Ok (f <$> (P ++ l)).
Proof.
  unfold Vector.erase. rewrite length_fmap, length_app. simpl.
  destruct (Nat.ltb_spec (length P) (length P + S (length l))); [| lia].
  f_equal. rewrite !fmap_app. simpl.
  rewrite <- (length_fmap f P). apply delete_middle.
Qed.

Lemma erase_triple_middle (P l : list (Z * Z * D)) (e : Z * Z * D) :
  TripletMatrix.erase_triple (length P) (mk (P ++ e :: l)) = (Ok tt, mk (P ++ l)).
Proof.
  unfold TripletMatrix.erase_triple, bind, read, modify. simpl.
  rewrite !erase_middle. reflexivity.
Qed.

Lemma at_middle {A B} (f : A -> B) (P l : list A) (e : A) :
  Vector.at_ (f <$> (P ++ e :: l)) (length P) = Ok (f e).
Proof.
  apply at_lookup. rewrite list_lookup_fmap, list_lookup_middle; reflexivity.
Qed.

Lemma store_middle {A B} (f : A -> B) (P l : list A) (e : A) (y : B) :
  Vector.store (f <$> (P ++ e :: l)) (length P) y = Ok ((f <$> P) ++ y :: (f <$> l)).
Proof.
  rewrite store_lt by (rewrite length_fmap, length_app; simpl; lia).
  f_equal. rewrite !fmap_app. simpl.
  rewrite insert_app_r_alt by (rewrite length_fmap; lia).
  rewrite length_fmap, Nat.sub_diag. reflexivity.
Qed.

Lemma app_cons_snoc {A} (P l : list A) (e : A) : P ++ e :: l = (P ++ [e]) ++ l.
Proof. rewrite <- app_assoc. reflexivity. Qed.

(** A loop of the shape of [erase_scan] computes it. *)
Lemma erase_scan_loop (bound : TripletMatrix.t D -> nat)
    (body : nat -> M (TripletMatrix.t D) unit)
    (hit : Z * Z * D -> bool) (update : Z * Z * D -> Z * Z * D) :
  (forall l, bound (mk l) = length l) ->
  (forall P e l,
     body (length P) (mk (P ++ e :: l))
     = (Ok tt, if hit e then mk (P ++ l) else mk (P ++ update e :: l))) ->
  forall fuel P l,
  length l <= fuel ->
  for_lt fuel bound body (length P) (mk (P ++ l))
  = (Ok tt, mk (P ++ erase_scan hit update l)).
Proof.
  intros Hbound Hbody. induction fuel as [|fuel IH]; intros P l Hl.
  - destruct l; [| simpl in Hl; lia]. simpl.
    rewrite Hbound, app_nil_r, Nat.ltb_irrefl. reflexivity.
  - destruct l as [|e l].
    { simpl. rewrite Hbound, app_nil_r, Nat.ltb_irrefl. reflexivity. }
    simpl in Hl. cbn [for_lt]. rewrite Hbound, length_app. simpl.
    destruct (Nat.ltb_spec (length P) (length P + S (length l))); [| lia].
    unfold bind. rewrite Hbody. destruct (hit e).
    + destruct l as [|e' l].
      * destruct fuel; simpl; rewrite Hbound, app_nil_r;
          (destruct (Nat.ltb_spec (S (length P)) (length P)); [lia | reflexivity]).
      * replace (S (length P)) with (length (P ++ [e'])) by (rewrite length_app; simpl; lia).
        rewrite (app_cons_snoc P l e'), (app_cons_snoc P (erase_scan hit update l) e').
        apply IH. simpl in Hl. lia.
    + replace (S (length P)) with (length (P ++ [update e]))
        by (rewrite length_app; simpl; lia).
      rewrite (app_cons_snoc P l (update e)),
        (app_cons_snoc P (erase_scan hit update l) (update e)).
      apply IH. lia.
Qed.

Lemma rowIndex_store_middle (P l : list (Z * Z * D)) (r r' c : Z) (x : D) :
  TripletMatrix.rowIndex_store (length P) r' (mk (P ++ (r, c, x) :: l))
  = (Ok tt, mk (P ++ (r', c, x) :: l)).
Proof.
  unfold TripletMatrix.rowIndex_store, bind, read, modify.
  cbn [of_triples TripletMatrix._rowIndex]. rewrite store_middle.
  unfold of_triples, TripletMatrix.set_rowIndex. simpl. rewrite !fmap_app. reflexivity.
Qed.

Lemma colIndex_store_middle (P l : list (Z * Z * D)) (r c c' : Z) (x : D) :
  TripletMatrix.colIndex_store (length P) c' (mk (P ++ (r, c, x) :: l))
  = (Ok tt, mk (P ++ (r, c', x) :: l)).
Proof.
  unfold TripletMatrix.colIndex_store, bind, read, modify.
  cbn [of_triples TripletMatrix._colIndex]. rewrite store_middle.
  unfold of_triples, TripletMatrix.set_colIndex. simpl. rewrite !fmap_app. reflexivity.
Qed.

End TripletErase.

(** [removeZeroEntries] keeps the triple behind each triple it erases,
    whatever its value. *)
Lemma removeZeroEntries_spec {D} `{DataType D} (m : TripletMatrix.t D) :
  TripletMatrix.wf m ->
  TripletMatrix.removeZeroEntries m
  = (Ok tt, of_triples (TripletMatrix._numRows m) (TripletMatrix._numCols m)
              (kept_by_removeZeroEntries (TripletMatrix.triples m))).
Proof.
  intros Hwf. rewrite (of_triples_triples m Hwf) at 1.
  unfold TripletMatrix.removeZeroEntries, kept_by_removeZeroEntries.
  apply (erase_scan_loop _ _ _ _ _ _) with (P := []).
  - intros l. simpl. apply length_fmap.
  - intros P e l. unfold bind, read, ret. simpl. rewrite at_middle.
    destruct (d_eqb e.2 d_zero); [apply erase_triple_middle | reflexivity].
  - simpl. rewrite length_fmap. reflexivity.
Qed.

(** [removeRowCol] keeps the triple behind each triple it erases, in row
    or column [i] or not, and does not renumber it. *)
Lemma removeRowCol_spec {D} `{DataType D} (i : Z) (m : TripletMatrix.t D) :
  TripletMatrix.wf m ->
  TripletMatrix.removeRowCol i m
  = (Ok tt, of_triples (TripletMatrix._numRows m) (TripletMatrix._numCols m)
              (left_by_removeRowCol i (TripletMatrix.triples m))).
Proof.
  intros Hwf. rewrite (of_triples_triples m Hwf) at 1.
  unfold TripletMatrix.removeRowCol, left_by_removeRowCol.
  apply (erase_scan_loop _ _ _ _ _ _) with (P := []).
  - intros l. simpl. apply length_fmap.
  - intros P [[r c] x] l. unfold touches, renumbered. simpl.
    unfold bind at 1. unfold read at 1. simpl.
    rewrite (at_middle (fun e : Z * Z * D => e.1.1) P l (r, c, x)). simpl.
    unfold bind at 1.
    destruct (TripletMatrix.to_unsigned r =? TripletMatrix.to_unsigned i)%Z.
    + unfold ret at 1. simpl. apply erase_triple_middle.
    + unfold bind at 1. unfold read at 1. simpl.
      rewrite (at_middle (fun e : Z * Z * D => e.1.2) P l (r, c, x)). simpl.
      unfold ret at 1.
      destruct (TripletMatrix.to_unsigned c =? TripletMatrix.to_unsigned i)%Z.
      * apply erase_triple_middle.
      * unfold bind at 1. unfold bind at 1. unfold read at 1. simpl.
        rewrite (at_middle (fun e : Z * Z * D => e.1.1) P l (r, c, x)). simpl.
        destruct (TripletMatrix.to_unsigned i <? TripletMatrix.to_unsigned r)%Z;
          [rewrite rowIndex_store_middle | unfold ret at 1];
          (unfold bind, read; cbn [of_triples TripletMatrix._colIndex];
           rewrite (at_middle (fun e : Z * Z * D => e.1.2) P l (_, c, x));
           cbn [fst snd];
           destruct (TripletMatrix.to_unsigned i <? TripletMatrix.to_unsigned c)%Z;
           [apply colIndex_store_middle | reflexivity]).
  - simpl. rewrite length_fmap. reflexivity.
Qed.

(** *** [get] is the sum of the data model *)

Section TripletGet.
Context {D : Type} `{DataType D}.

Lemma get_loop (numRows numCols row col : Z) (l : list (Z * Z * D)) :
  forall (P : list (Z * Z * D)) (acc : D),
  for_acc (length l)
    (fun i ret_ =>
       r <- Vector.at_ (TripletMatrix._rowIndex (of_triples numRows numCols (P ++ l))) i ;;
       if (r =? row)%Z then
         c <- Vector.at_ (TripletMatrix._colIndex (of_triples numRows numCols (P ++ l))) i ;;
         if (c =? col)%Z then
           v <- Vector.at_ (TripletMatrix._value (of_triples numRows numCols (P ++ l))) i ;;
           Ok (d_add ret_ v)
         else Ok ret_
       else Ok ret_)
    (length P) acc
  = Ok (fold_left
          (fun acc e => if (e.1.1 =? row)%Z && (e.1.2 =? col)%Z then d_add acc e.2 else acc)
          l acc).
Proof.
  induction l as [|e l IH]; intros P acc; [reflexivity |].
  cbn [length for_acc fold_left]. cbn [of_triples TripletMatrix._rowIndex
    TripletMatrix._colIndex TripletMatrix._value].
  rewrite (at_middle (fun e : Z * Z * D => e.1.1)). cbn [rbind].
  assert (Hnext : forall acc',
    for_acc (length l)
      (fun i ret_ =>
         r <- Vector.at_ ((fun e : Z * Z * D => e.1.1) <$> P ++ e :: l) i ;;
         if (r =? row)%Z then
           c <- Vector.at_ ((fun e : Z * Z * D => e.1.2) <$> P ++ e :: l) i ;;
           if (c =? col)%Z then
             v <- Vector.at_ (snd <$> P ++ e :: l) i ;; Ok (d_add ret_ v)
           else Ok ret_
         else Ok ret_)
      (S (length P)) acc'
    = Ok (fold_left
            (fun acc e => if (e.1.1 =? row)%Z && (e.1.2 =? col)%Z then d_add acc e.2 else acc)
            l acc')).
  { intros acc'. specialize (IH (P ++ [e]) acc').
    rewrite <- app_cons_snoc, length_app in IH. simpl in IH.
    rewrite Nat.add_1_r in IH. exact IH. }
  destruct (e.1.1 =? row)%Z; cbn [andb]; [| apply Hnext].
  rewrite (at_middle (fun e : Z * Z * D => e.1.2)). cbn [rbind].
  destruct (e.1.2 =? col)%Z; [| apply Hnext].
  rewrite (at_middle snd). cbn [rbind]. apply Hnext.
Qed.

(** [get] returns the sum of the values stored for the position. *)
Lemma get_sum_at (row col : Z) (m : TripletMatrix.t D) :
  TripletMatrix.wf m ->
  TripletMatrix.get row col m = Ok (sum_at row col (TripletMatrix.triples m)).
Proof.
  intros Hwf. rewrite (of_triples_triples m Hwf) at 1.
  unfold TripletMatrix.get, sum_at.
  replace (length (TripletMatrix._rowIndex _)) with (length (TripletMatrix.triples m))
    by (cbn [of_triples TripletMatrix._rowIndex]; rewrite length_fmap; reflexivity).
  apply (get_loop _ _ row col (TripletMatrix.triples m) [] d_zero).
Qed.

End TripletGet.

(** *** [sumDuplicates] keeps the sums *)

Section SumDuplicates.
Context {D : Type} `{DataTypeLaws D} `{!DataTypeCommutative D}.

Lemma d_add_zero_r (x : D) : d_add x d_zero = x.
Proof. rewrite d_add_comm. apply d_add_zero_l. Qed.

Lemma fold_weights (row col : Z) (l : list (Z * Z * D)) (acc : D) :
  fold_left
    (fun acc e => if (e.1.1 =? row)%Z && (e.1.2 =? col)%Z then d_add acc e.2 else acc)
    l acc
  = d_add acc (msum (weights row col l)).
Proof.
  revert acc. induction l as [|e l IH]; intros acc; simpl.
  - symmetry. apply d_add_zero_r.
  - rewrite IH. destruct (_ && _).
    + rewrite d_add_assoc. reflexivity.
    + rewrite d_add_zero_l. reflexivity.
Qed.

Lemma sum_at_weights (row col : Z) (l : list (Z * Z * D)) :
  sum_at row col l = msum (weights row col l).
Proof. unfold sum_at. rewrite fold_weights. apply d_add_zero_l. Qed.

Lemma msum_insert_zero (l : list D) (a : nat) (x : D) :
  l !! a = Some x -> msum l = d_add x (msum (<[a:=d_zero]> l)).
Proof.
  revert a. induction l as [|y l IH]; intros [|a] Ha; simpl in *; try discriminate.
  - inversion Ha; subst. rewrite d_add_zero_l. reflexivity.
  - rewrite (IH a Ha), !d_add_assoc, (d_add_comm y x). reflexivity.
Qed.

(** Moving a value from one place of a list to another keeps the sum. *)
Lemma msum_move (l : list D) (a b : nat) (x y : D) :
  a <> b -> l !! a = Some x -> l !! b = Some y ->
  msum (<[b:=d_zero]> (<[a:=d_add x y]> l)) = msum l.
Proof.
  intros Hne Ha Hb.
  assert (Hla : a < length l) by (eapply lookup_lt_Some; eauto).
  rewrite (msum_insert_zero l a x Ha).
  rewrite (msum_insert_zero (<[a:=d_zero]> l) b y)
    by (rewrite list_lookup_insert_ne by auto; exact Hb).
  rewrite (msum_insert_zero (<[b:=d_zero]> (<[a:=d_add x y]> l)) a (d_add x y)).
  2: { rewrite list_lookup_insert_ne by auto. apply list_lookup_insert_eq. exact Hla. }
  rewrite d_add_assoc. f_equal.
  rewrite (list_insert_insert_ne _ a b) by auto.
  rewrite list_insert_insert_eq. reflexivity.
Qed.

Lemma same_sums_refl (l : list (Z * Z * D)) : same_sums l l.
Proof. split; reflexivity. Qed.

Lemma same_sums_trans (l0 l1 l2 : list (Z * Z * D)) :
  same_sums l0 l1 -> same_sums l1 l2 -> same_sums l0 l2.
Proof.
  intros [Hp1 Hs1] [Hp2 Hs2]. split; [congruence |].
  intros row col. rewrite Hs2. apply Hs1.
Qed.

Lemma same_sums_length (l0 l : list (Z * Z * D)) : same_sums l0 l -> length l = length l0.
Proof. intros [Hp _]. rewrite <- (length_fmap fst l), Hp. apply length_fmap. Qed.

(** The step of the scan: the value of one triple is added to another
    triple of the same position and set to zero. *)
Lemma merge_same_sums (l : list (Z * Z * D)) (a b : nat) (r c : Z) (x y : D) :
  a <> b -> l !! a = Some (r, c, x) -> l !! b = Some (r, c, y) ->
  same_sums l (<[b:=(r, c, d_zero)]> (<[a:=(r, c, d_add x y)]> l)).
Proof.
  intros Hne Ha Hb. split.
  - rewrite !list_fmap_insert. simpl.
    rewrite (list_insert_id (fst <$> l) a) by (rewrite list_lookup_fmap, Ha; reflexivity).
    apply list_insert_id. rewrite list_lookup_fmap, Hb. reflexivity.
  - intros row col. rewrite !sum_at_weights. unfold weights.
    rewrite !list_fmap_insert. simpl.
    destruct ((r =? row)%Z && (c =? col)%Z) eqn:Hm.
    + apply msum_move; [exact Hne | |]; rewrite list_lookup_fmap.
      * rewrite Ha. simpl. rewrite Hm. reflexivity.
      * rewrite Hb. simpl. rewrite Hm. reflexivity.
    + rewrite (list_insert_id _ a).
      * apply f_equal, list_insert_id. rewrite list_lookup_fmap, Hb. simpl.
        rewrite Hm. reflexivity.
      * rewrite list_lookup_fmap, Ha. simpl. rewrite Hm. reflexivity.
Qed.

Variables numRows numCols : Z.

Local Abbreviation mk := (of_triples numRows numCols).

Lemma at_fmap {A B} (f : A -> B) (l : list A) (k : nat) (e : A) :
  l !! k = Some e -> Vector.at_ (f <$> l) k = Ok (f e).
Proof. intros He. apply at_lookup. rewrite list_lookup_fmap, He. reflexivity. Qed.

Lemma value_store_mk (l : list (Z * Z * D)) (k : nat) (r c : Z) (x y : D) :
  l !! k = Some (r, c, x) ->
  TripletMatrix.value_store k y (mk l) = (Ok tt, mk (<[k:=(r, c, y)]> l)).
Proof.
  intros Hk. unfold TripletMatrix.value_store, bind, read, modify.
  cbn [of_triples TripletMatrix._value].
  rewrite store_lt by (rewrite length_fmap; eapply lookup_lt_Some; eauto).
  unfold of_triples, TripletMatrix.set_value. simpl. rewrite !list_fmap_insert. simpl.
  rewrite (list_insert_id ((fun e : Z * Z * D => e.1.1) <$> l))
    by (rewrite list_lookup_fmap, Hk; reflexivity).
  rewrite (list_insert_id ((fun e : Z * Z * D => e.1.2) <$> l))
    by (rewrite list_lookup_fmap, Hk; reflexivity).
  reflexivity.
Qed.

(** One turn of the inner loop. *)
Lemma sumDuplicates_inner_step (fuel : nat) (index : list nat) (i j a b : nat)
    (l : list (Z * Z * D)) (ra ca rb cb : Z) (x y : D) :
  index !! i = Some a -> index !! j = Some b ->
  l !! a = Some (ra, ca, x) -> l !! b = Some (rb, cb, y) -> a <> b ->
  TripletMatrix.sumDuplicates_inner (S fuel) index i j (mk l)
  = if (rb =? ra)%Z && (cb =? ca)%Z then
      let l' := <[b:=(rb, cb, d_zero)]> (<[a:=(ra, ca, d_add x y)]> l) in
      if length index <=? S j then (Ok (S j), mk l')
      else TripletMatrix.sumDuplicates_inner fuel index i (S j) (mk l')
    else (Ok j, mk l).
Proof.
  intros Hi Hj Ha Hb Hne. cbn [TripletMatrix.sumDuplicates_inner].
  unfold bind at 1. unfold read at 1. rewrite (at_lookup _ _ _ Hj).
  unfold bind at 1. unfold read at 1. rewrite (at_lookup _ _ _ Hi).
  unfold bind at 1. unfold read at 1. cbn [of_triples TripletMatrix._rowIndex].
  rewrite (at_fmap _ _ _ _ Hb).
  unfold bind at 1. unfold read at 1. cbn [of_triples TripletMatrix._rowIndex].
  rewrite (at_fmap _ _ _ _ Ha). cbn [fst snd].
  unfold bind at 1.
  destruct (rb =? ra)%Z; cbn [andb]; [| reflexivity].
  unfold bind at 1. unfold read at 1. cbn [of_triples TripletMatrix._colIndex].
  rewrite (at_fmap _ _ _ _ Hb).
  unfold bind at 1. unfold read at 1. cbn [of_triples TripletMatrix._colIndex].
  rewrite (at_fmap _ _ _ _ Ha). cbn [fst snd]. unfold ret at 1.
  destruct (cb =? ca)%Z; [| reflexivity].
  unfold bind at 1. unfold read at 1. cbn [of_triples TripletMatrix._value].
  rewrite (at_fmap _ _ _ _ Hb).
  unfold bind at 1. unfold read at 1. cbn [of_triples TripletMatrix._value].
  rewrite (at_fmap _ _ _ _ Ha). cbn [fst snd].
  unfold bind at 1. rewrite (value_store_mk _ _ _ _ _ _ Ha).
  unfold bind at 1. rewrite (value_store_mk _ b rb cb y)
    by (rewrite list_lookup_insert_ne by auto; exact Hb).
  cbv zeta. destruct (length index <=? S j); reflexivity.
Qed.

Lemma wf_of_triples (l : list (Z * Z * D)) : TripletMatrix.wf (mk l).
Proof. split; simpl; rewrite !length_fmap; reflexivity. Qed.

Section Scan.
Variables (index : list nat) (n : nat).
Hypothesis Hlen : length index = n.
Hypothesis Hrange : forall j a, index !! j = Some a -> a < n.
Hypothesis Hinj : forall i j a, index !! i = Some a -> index !! j = Some a -> i = j.

(** The inner loop ends, within the vectors, and keeps the sums. *)
Lemma sumDuplicates_inner_spec (i : nat) (l0 : list (Z * Z * D)) :
  length l0 = n ->
  forall fuel j l,
  same_sums l0 l -> i < j < n -> n - j <= fuel ->
  exists j' l',
    TripletMatrix.sumDuplicates_inner fuel index i j (mk l) = (Ok j', mk l') /\
    same_sums l0 l' /\ j <= j' <= n.
Proof.
  intros Hl0. induction fuel as [|fuel IH]; intros j l Hs Hj Hf; [lia |].
  destruct (lookup_lt_is_Some_2 index i) as [a Ha]; [lia |].
  destruct (lookup_lt_is_Some_2 index j) as [b Hb]; [lia |].
  assert (Hab : a <> b) by (intros ->; assert (i = j) by (eapply Hinj; eauto); lia).
  pose proof (same_sums_length _ _ Hs) as Hll.
  destruct (lookup_lt_is_Some_2 l a) as [[[ra ca] x] Hla]; [apply Hrange in Ha; lia |].
  destruct (lookup_lt_is_Some_2 l b) as [[[rb cb] y] Hlb]; [apply Hrange in Hb; lia |].
  rewrite (sumDuplicates_inner_step fuel index i j a b l ra ca rb cb x y Ha Hb Hla Hlb Hab).
  destruct ((rb =? ra)%Z && (cb =? ca)%Z) eqn:Hsame.
  - apply andb_prop in Hsame as [Hr Hc].
    apply Z.eqb_eq in Hr. apply Z.eqb_eq in Hc. subst rb cb.
    assert (Hs' : same_sums l0 (<[b:=(ra, ca, d_zero)]> (<[a:=(ra, ca, d_add x y)]> l))).
    { eapply same_sums_trans; [exact Hs |]. apply merge_same_sums; assumption. }
    cbv zeta. rewrite Hlen. destruct (Nat.leb_spec n (S j)).
    + eexists _, _. split; [reflexivity |]. split; [exact Hs' | lia].
    + destruct (IH (S j) _ Hs') as (j' & l' & Hrun & Hs'' & Hj'); [lia | lia |].
      exists j', l'. split; [exact Hrun |]. split; [exact Hs'' | lia].
  - exists j, l. split; [reflexivity |]. split; [exact Hs | lia].
Qed.

(** So does the outer loop, when there is a triple at all. *)
Lemma sumDuplicates_outer_spec (l0 : list (Z * Z * D)) :
  length l0 = n -> 0 < n -> (Z.of_nat n < 2 ^ 64)%Z ->
  forall fuel i l,
  same_sums l0 l -> n - i <= fuel ->
  exists l',
    TripletMatrix.sumDuplicates_outer fuel index i (mk l) = (Ok tt, mk l') /\
    same_sums l0 l'.
Proof.
  intros Hl0 Hpos Hbig.
  assert (Hsz : TripletMatrix.size_minus_one (length index) = (Z.of_nat n - 1)%Z).
  { unfold TripletMatrix.size_minus_one. rewrite Hlen. apply Z.mod_small. lia. }
  induction fuel as [|fuel IH]; intros i l Hs Hf.
  - exists l. cbn [TripletMatrix.sumDuplicates_outer]. rewrite Hsz.
    destruct (Z.ltb_spec (Z.of_nat i) (Z.of_nat n - 1)); [lia |].
    split; [reflexivity | exact Hs].
  - cbn [TripletMatrix.sumDuplicates_outer]. rewrite Hsz.
    destruct (Z.ltb_spec (Z.of_nat i) (Z.of_nat n - 1)).
    + destruct (sumDuplicates_inner_spec i l0 Hl0 (S (length index)) (S i) l Hs)
        as (j & l1 & Hrun & Hs1 & Hj); [lia | lia |].
      unfold bind. rewrite Hrun.
      destruct (IH j l1 Hs1) as (l' & Hrun' & Hs'); [lia |].
      exists l'. split; [exact Hrun' | exact Hs'].
    + exists l. split; [reflexivity | exact Hs].
Qed.

End Scan.

(** [std::sort] permutes, when the comparator can read its arguments. *)
Lemma sort_insert_perm (lt : nat -> nat -> result bool) (P : nat -> Prop) (x : nat)
    (l : list nat) :
  (forall a b, P a -> P b -> exists r, lt a b = Ok r) ->
  P x -> Forall P l ->
  exists l', TripletMatrix.sort_insert lt x l = Ok l' /\ l' ≡ₚ x :: l.
Proof.
  intros Hlt Hx. induction l as [|y l IH]; intros Hl; simpl.
  - exists [x]. split; reflexivity.
  - apply Forall_cons in Hl as [Hy Hl].
    destruct (Hlt y x Hy Hx) as [r ->]. simpl. destruct r.
    + destruct (IH Hl) as (l' & -> & Hp). simpl. eexists. split; [reflexivity |].
      rewrite Hp. apply Permutation_swap.
    + eexists. split; reflexivity.
Qed.

Lemma sort_perm (lt : nat -> nat -> result bool) (P : nat -> Prop) (l : list nat) :
  (forall a b, P a -> P b -> exists r, lt a b = Ok r) ->
  Forall P l ->
  exists l', TripletMatrix.sort lt l = Ok l' /\ l' ≡ₚ l.
Proof.
  intros Hlt. induction l as [|x l IH]; intros Hl; simpl.
  - exists []. split; reflexivity.
  - apply Forall_cons in Hl as [Hx Hl].
    destruct (IH Hl) as (s' & -> & Hp). simpl.
    destruct (sort_insert_perm lt P x s' Hlt Hx) as (l' & Hrun & Hp').
    + rewrite Hp. exact Hl.
    + exists l'. split; [exact Hrun |]. rewrite Hp', Hp. reflexivity.
Qed.

Lemma getRowColIndexSorting_perm (l : list (Z * Z * D)) :
  exists index,
    TripletMatrix.getRowColIndexSorting (mk l) = Ok index /\ index ≡ₚ seq 0 (length l).
Proof.
  unfold TripletMatrix.getRowColIndexSorting. cbn [of_triples TripletMatrix._rowIndex
    TripletMatrix._colIndex]. rewrite length_fmap.
  apply (sort_perm _ (fun a => a < length l)).
  - intros a b Ha Hb.
    destruct (lookup_lt_is_Some_2 l a Ha) as [ea Hea].
    destruct (lookup_lt_is_Some_2 l b Hb) as [eb Heb].
    unfold TripletMatrix.RowColIndexSorter.
    rewrite (at_fmap _ _ _ _ Hea), (at_fmap _ _ _ _ Heb). simpl.
    destruct (_ <? _)%Z; [eauto |]. destruct (_ =? _)%Z; [| eauto].
    rewrite (at_fmap _ _ _ _ Hea), (at_fmap _ _ _ _ Heb). simpl. eauto.
  - apply Forall_forall. intros a Ha. apply elem_of_seq in Ha. lia.
Qed.

(** [removeZeroEntries] keeps the sums: it erases triples with value zero
    only. *)
Lemma kept_same_sum (row col : Z) (l : list (Z * Z * D)) :
  sum_at row col (kept_by_removeZeroEntries l) = sum_at row col l.
Proof.
  rewrite !sum_at_weights. unfold kept_by_removeZeroEntries.
  remember (length l) as k eqn:Hk.
  assert (Hle : length l <= k) by lia. clear Hk. revert l Hle.
  induction k as [|k IH]; intros l Hle.
  - destruct l; [reflexivity | simpl in Hle; lia].
  - destruct l as [|e l]; [reflexivity |]. simpl in Hle. cbn [erase_scan].
    destruct (d_eqb e.2 d_zero) eqn:Hz.
    + apply d_eqb_eq in Hz.
      assert (Hw : msum (weights row col (e :: l)) = msum (weights row col l)).
      { simpl. rewrite Hz. destruct (_ && _); apply d_add_zero_l. }
      rewrite Hw. destruct l as [|e' l]; [reflexivity |].
      simpl. f_equal. apply IH. simpl in Hle. lia.
    + simpl. f_equal. apply IH. lia.
Qed.

End SumDuplicates.

(** [sumDuplicates] on a matrix with at least one triple returns, and
    every [get] returns what it returned before. *)
Lemma sumDuplicates_keeps_get {D} `{DataTypeLaws D} `{!DataTypeCommutative D}
    (m : TripletMatrix.t D) :
  TripletMatrix.wf m ->
  0 < length (TripletMatrix.triples m) ->
  (Z.of_nat (length (TripletMatrix.triples m)) < 2 ^ 64)%Z ->
  exists m',
    TripletMatrix.sumDuplicates m = (Ok tt, m') /\
    TripletMatrix.wf m' /\
    forall row col, TripletMatrix.get row col m' = TripletMatrix.get row col m.
Proof.
  intros Hwf Hpos Hbig.
  set (nr := TripletMatrix._numRows m). set (nc := TripletMatrix._numCols m).
  set (l0 := TripletMatrix.triples m) in *.
  assert (Hm : m = of_triples nr nc l0) by (apply of_triples_triples, Hwf).
  destruct (getRowColIndexSorting_perm nr nc l0) as (index & Hsort & Hperm).
  assert (Hlen : length index = length l0).
  { rewrite Hperm. apply length_seq. }
  assert (Hrange : forall j a, index !! j = Some a -> a < length l0).
  { intros j a Hj. apply list_elem_of_lookup_2 in Hj. rewrite Hperm in Hj.
    apply elem_of_seq in Hj. lia. }
  assert (Hinj : forall i j a, index !! i = Some a -> index !! j = Some a -> i = j).
  { intros i j a Hi Hj. eapply NoDup_lookup; [| exact Hi | exact Hj].
    rewrite Hperm. apply NoDup_seq. }
  destruct (sumDuplicates_outer_spec nr nc index (length l0) Hlen Hrange Hinj l0
              eq_refl Hpos Hbig (S (length index)) 0 l0 (same_sums_refl l0))
    as (l1 & Hscan & Hs1); [lia |].
  exists (of_triples nr nc (kept_by_removeZeroEntries l1)).
  split; [| split].
  - rewrite Hm at 1.
    unfold TripletMatrix.sumDuplicates, TripletMatrix.sumDuplicates_with, bind, read.
    rewrite Hsort, Hscan.
    rewrite (removeZeroEntries_spec (of_triples nr nc l1)) by apply wf_of_triples.
    rewrite triples_of_triples. reflexivity.
  - apply wf_of_triples.
  - intros row col. rewrite (get_sum_at row col m Hwf).
    rewrite get_sum_at by apply wf_of_triples.
    rewrite triples_of_triples, kept_same_sum. f_equal. apply Hs1.
Qed.


(** C10. [sumDuplicates] on a matrix without entries: [index.size () - 1]
    wraps around, the loop is entered and reads [index[1]] of the empty
    [index]; the call ends in an out-of-range access. *)
Theorem sumDuplicates_empty {D : Type} `{DataType D} (numRows numCols : Z) :
  TripletMatrix.sumDuplicates (TripletMatrix.new (D := D) numRows numCols)
  = (Throw OutOfBounds, TripletMatrix.new numRows numCols).
Proof. reflexivity. Qed.

(** The bound of the outer loop for the empty [index]. *)
Lemma size_minus_one_0 : TripletMatrix.size_minus_one 0 = (2 ^ 64 - 1)%Z.
Proof. reflexivity. Qed.

(** C4. After [add ( 0, 0, 3 )], [add ( 0, 0, -3 )], [add ( 1, 1, 4 )],
    [sumDuplicates] leaves two triples: [(1, 1, 4)] and a triple [(0, 0, 0)]
    that [removeZeroEntries] stepped over. *)
Theorem sumDuplicates_cancelled_pair (bc : bool) :
  (TripletMatrix.add bc 0 0 3%Z ;;;
   TripletMatrix.add bc 0 0 (-3)%Z ;;;
   TripletMatrix.add bc 1 1 4%Z ;;;
   TripletMatrix.sumDuplicates) (TripletMatrix.new 2 2)
  = (Ok tt, of_triples 2 2 [(0, 0, 0); (1, 1, 4)]%Z).
Proof. destruct bc; reflexivity. Qed.

(** The same for the other order in which [std::sort] may leave the two
    equivalent positions. *)
Lemma sumDuplicates_cancelled_pair_any_order (index : list nat) :
  index = [0; 1; 2] \/ index = [1; 0; 2] ->
  TripletMatrix.sumDuplicates_with index (of_triples 2 2 [(0, 0, 3); (0, 0, -3); (1, 1, 4)]%Z)
  = (Ok tt, of_triples 2 2 [(0, 0, 0); (1, 1, 4)]%Z).
Proof. intros [-> | ->]; reflexivity. Qed.

(** C3. Four contributions to one position: after [sumDuplicates] the value
    is kept, but two triples are stored for the position. *)
Theorem sumDuplicates_leaves_two_triples :
  let m := of_triples 1 1 [(0, 0, 1); (0, 0, 1); (0, 0, 1); (0, 0, 1)]%Z in
  let m' := of_triples 1 1 [(0, 0, 4); (0, 0, 0)]%Z in
  TripletMatrix.sumDuplicates m = (Ok tt, m') /\
  TripletMatrix.get 0 0 m = Ok 4%Z /\
  TripletMatrix.get 0 0 m' = Ok 4%Z /\
  count_triples 0 0 m' = 2.
Proof. repeat split. Qed.

(** Whatever order [std::sort] leaves the four equivalent positions in, two
    triples remain. *)
Lemma sumDuplicates_leaves_two_triples_any_order (index : list nat) :
  index ≡ₚ [0; 1; 2; 3] ->
  let m := of_triples 1 1 [(0, 0, 1); (0, 0, 1); (0, 0, 1); (0, 0, 1)]%Z in
  exists m', TripletMatrix.sumDuplicates_with index m = (Ok tt, m') /\
             count_triples 0 0 m' = 2.
Proof.
  intros Hp m. symmetry in Hp. apply permutations_Permutation in Hp.
  vm_compute in Hp.
  repeat (apply elem_of_cons in Hp as [-> | Hp];
          [eexists; split; [vm_compute; reflexivity | reflexivity] |]).
  inversion Hp.
Qed.

(** C6. [removeRowCol ( 0 )] on the triples [(0, 0, 1)], [(0, 1, 2)]: the
    second triple moves to the erased position and is stepped over; it
    stays, with row index 0. *)
Theorem removeRowCol_keeps_a_triple :
  TripletMatrix.removeRowCol 0 (of_triples 2 2 [(0, 0, 1); (0, 1, 2)]%Z)
  = (Ok tt, of_triples 2 2 [(0, 1, 2)]%Z).
Proof. reflexivity. Qed.

(** A triple behind an erased one is not renumbered either. *)
Lemma removeRowCol_skips_decrement :
  TripletMatrix.removeRowCol 0 (of_triples 3 3 [(0, 0, 1); (2, 2, 5)]%Z)
  = (Ok tt, of_triples 3 3 [(2, 2, 5)]%Z).
Proof. reflexivity. Qed.

(** [eraseValue], which advances only when nothing was erased, removes
    adjacent matches. *)
Lemma eraseValue_adjacent :
  TripletMatrix.eraseValue 0 0 (of_triples 2 2 [(0, 0, 1); (0, 0, 2); (0, 1, 3)]%Z)
  = (Ok tt, of_triples 2 2 [(0, 1, 3)]%Z).
Proof. reflexivity. Qed.

(** ** Conversion to the compressed formats *)

(** C1. A 2 x 1 triplet matrix with the entries [(0, 0, 1)], [(1, 0, 2)]:
    the column matrix built from it is produced without an out-of-range
    access, and reads 0 at (1, 0), where the triplet matrix reads 2. *)
Theorem CSC_from_triplet_loses_entry :
  let A := of_triples 2 1 [(0, 0, 1); (1, 0, 2)]%Z in
  let C := CSMatrix.Build 2 1 [0%Z] [0%Z; 1%Z] [1%Z] in
  CSCMatrix.from_triplet A = (Ok tt, C) /\
  CSCMatrix.get 1 0 C = Ok 0%Z /\
  TripletMatrix.get 1 0 A = Ok 2%Z.
Proof. repeat split. Qed.

(** C2. A 1 x 2 triplet matrix with the entry [(0, 1, 1)]: both
    conversions leave the range of a vector ([rowPointer[2]] in the column
    format, [rowIndex[1]] in the row format), so no compressed matrix with
    the invariants is produced. *)
Theorem from_triplet_out_of_range :
  let A := of_triples 1 2 [(0, 1, 1)]%Z in
  (CSCMatrix.from_triplet A).1 = Throw OutOfBounds /\
  (CSRMatrix.from_triplet A).1 = Throw OutOfBounds.
Proof. split; reflexivity. Qed.

(** ** GenSparseMatrix: implicit rows *)

Section ImplicitRows.
Context {R D : Type} `{DataTypeLaws D} `{Row R D}.

Lemma d_eqb_refl (x : D) : d_eqb x x = true.
Proof. apply d_eqb_eq. reflexivity. Qed.

Lemma d_eqb_neq (x y : D) : x <> y -> d_eqb x y = false.
Proof.
  intros Hne. destruct (d_eqb x y) eqn:E; [| reflexivity].
  apply d_eqb_eq in E. contradiction.
Qed.

(** C7. [set ( I, J, v )] on an implicit row, at a position of the matrix:
    nothing happens when [I = J] and [v] is the diagonal value of implicit
    rows, or when [v] is zero; otherwise "Row does not exist." is raised.
    The matrix is the same after the call in each case, and so is every
    [get]. *)
Theorem set_on_implicit_row (bc : bool) (m : GenSparseMatrix.t R D) (I J : Z) (v : D) :
  (0 <= I < GenSparseMatrix.getNumRows m)%Z ->
  (0 <= J < GenSparseMatrix.getNumCols m)%Z ->
  GenSparseMatrix.rows m !! Z.to_nat I = Some None ->
  let noop := (I = J /\ v = GenSparseMatrix._diagEntry m) \/ v = d_zero in
  (noop -> GenSparseMatrix.set bc I J v m = (Ok tt, m)) /\
  (~ noop ->
   GenSparseMatrix.set bc I J v m = (Throw (Exception "Row does not exist."), m)) /\
  (forall a b, GenSparseMatrix.get bc a b (GenSparseMatrix.set bc I J v m).2
               = GenSparseMatrix.get bc a b m).
Proof.
  intros HI HJ Hrow noop.
  assert (Hoob : GenSparseMatrix.out_of_bounds I J m = false).
  { unfold GenSparseMatrix.out_of_bounds.
    destruct (Z.ltb_spec I 0); [lia |]. destruct (Z.ltb_spec J 0); [lia |].
    destruct (Z.leb_spec (GenSparseMatrix.getNumRows m) I); [lia |].
    destruct (Z.leb_spec (GenSparseMatrix.getNumCols m) J); [lia |]. reflexivity. }
  assert (Hat : Vector.atZ (GenSparseMatrix.rows m) I = Ok None).
  { unfold Vector.atZ. destruct (Z.ltb_spec I 0); [lia |]. apply at_lookup, Hrow. }
  assert (Hset : GenSparseMatrix.set bc I J v m
                 = if ((I =? J)%Z && d_eqb v (GenSparseMatrix._diagEntry m)) || d_eqb v d_zero
                   then (Ok tt, m)
                   else (Throw (Exception "Row does not exist."), m)).
  { unfold GenSparseMatrix.set, bind, read, throw, ret. rewrite Hoob, andb_false_r, Hat.
    destruct (_ || _); reflexivity. }
  assert (Hyes : noop -> GenSparseMatrix.set bc I J v m = (Ok tt, m)).
  { intros [[-> ->] | ->]; rewrite Hset.
    - rewrite Z.eqb_refl, d_eqb_refl. reflexivity.
    - rewrite d_eqb_refl, orb_true_r. reflexivity. }
  assert (Hno : ~ noop ->
                GenSparseMatrix.set bc I J v m
                = (Throw (Exception "Row does not exist."), m)).
  { intros Hn. rewrite Hset.
    assert (Hz : d_eqb v d_zero = false).
    { apply d_eqb_neq. intros ->. apply Hn. right. reflexivity. }
    rewrite Hz, orb_false_r.
    destruct (Z.eqb_spec I J) as [-> | Hne]; [| reflexivity].
    rewrite d_eqb_neq; [reflexivity |].
    intros ->. apply Hn. left. split; reflexivity. }
  split; [exact Hyes |]. split; [exact Hno |].
  intros a b. rewrite Hset. destruct (_ || _); reflexivity.
Qed.

Lemma get_same_rows (bc : bool) (m m' : GenSparseMatrix.t R D) (I J : Z) :
  GenSparseMatrix._numRows m' = GenSparseMatrix._numRows m ->
  GenSparseMatrix._numCols m' = GenSparseMatrix._numCols m ->
  GenSparseMatrix._diagEntry m' = GenSparseMatrix._diagEntry m ->
  Vector.atZ (GenSparseMatrix.rows m') I = Vector.atZ (GenSparseMatrix.rows m) I ->
  GenSparseMatrix.get bc I J m' = GenSparseMatrix.get bc I J m.
Proof.
  intros Hr Hc Hd Hrow.
  unfold GenSparseMatrix.get, GenSparseMatrix.out_of_bounds,
    GenSparseMatrix.getNumRows, GenSparseMatrix.getNumCols.
  rewrite Hr, Hc, Hd, Hrow. reflexivity.
Qed.

Lemma scaleRow_absent (f : D) (m : GenSparseMatrix.t R D) (i : nat) :
  GenSparseMatrix.rows m !! i = Some None ->
  GenSparseMatrix.scaleRow (Z.of_nat i) f m = (Ok tt, m).
Proof.
  intros Hrow. unfold GenSparseMatrix.scaleRow, bind, read, ret.
  rewrite atZ_of_nat, (at_lookup _ _ _ Hrow). reflexivity.
Qed.

Lemma scaleRow_present (f : D) (m : GenSparseMatrix.t R D) (i : nat) (row : R) :
  GenSparseMatrix.rows m !! i = Some (Some row) ->
  GenSparseMatrix.scaleRow (Z.of_nat i) f m
  = (Ok tt, GenSparseMatrix.set_rows
              (<[i := Some (row_scale row (Z.of_nat i) f)]> (GenSparseMatrix.rows m)) m).
Proof.
  intros Hrow. unfold GenSparseMatrix.scaleRow, bind, read, ret.
  rewrite atZ_of_nat, (at_lookup _ _ _ Hrow).
  unfold GenSparseMatrix.rows_store, bind, read, modify.
  rewrite storeZ_of_nat, store_lt; [reflexivity |].
  apply lookup_lt_Some in Hrow. exact Hrow.
Qed.

Lemma scale_scaled_rows (f : D) (m : GenSparseMatrix.t R D) :
  GenSparseMatrix.wf m ->
  GenSparseMatrix.scale f m
  = (Ok tt, GenSparseMatrix.set_rows (scaled_rows f (GenSparseMatrix.rows m)) m).
Proof.
  intros Hwf. unfold GenSparseMatrix.wf in Hwf.
  set (n := length (GenSparseMatrix.rows m)).
  set (Inv := fun (k : nat) (s : GenSparseMatrix.t R D) =>
    GenSparseMatrix._numRows s = GenSparseMatrix._numRows m /\
    GenSparseMatrix._numCols s = GenSparseMatrix._numCols m /\
    GenSparseMatrix._diagEntry s = GenSparseMatrix._diagEntry m /\
    length (GenSparseMatrix.rows s) = n /\
    forall p, GenSparseMatrix.rows s !! p
              = if decide (p < k) then scaled_rows f (GenSparseMatrix.rows m) !! p
                else GenSparseMatrix.rows m !! p).
  destruct (for_lt_inv Inv n (fun s => Z.to_nat (GenSparseMatrix._numRows s))
              (fun i => GenSparseMatrix.scaleRow (Z.of_nat i) f))
    with (fuel := n) (k := 0) (s := m) as (m' & Hrun & Hfin).
  - intros k s (Hr & _). rewrite Hr, <- Hwf. apply Nat2Z.id.
  - intros k s Hk (Hr & Hc & Hd & Hlen & Hrows).
    destruct (lookup_lt_is_Some_2 (GenSparseMatrix.rows m) k Hk) as [o Ho].
    assert (Hsk : GenSparseMatrix.rows s !! k = Some o).
    { rewrite Hrows. destruct (decide (k < k)); [lia | exact Ho]. }
    assert (Hsc : scaled_rows f (GenSparseMatrix.rows m) !! k
                  = Some ((fun row => row_scale row (Z.of_nat k) f) <$> o)).
    { unfold scaled_rows. rewrite list_lookup_imap, Ho. reflexivity. }
    destruct o as [row |].
    + rewrite (scaleRow_present f s k row Hsk). eexists. split; [reflexivity |].
      repeat split; simpl; try assumption.
      * rewrite length_insert. exact Hlen.
      * intros p. destruct (decide (p = k)) as [-> | Hne].
        -- rewrite list_lookup_insert_eq by lia.
           destruct (decide (k < S k)); [| lia]. rewrite Hsc. reflexivity.
        -- rewrite list_lookup_insert_ne by auto. rewrite Hrows.
           destruct (decide (p < k)), (decide (p < S k)); try lia; reflexivity.
    + rewrite (scaleRow_absent f s k Hsk). exists s. split; [reflexivity |].
      repeat split; try assumption.
      intros p. rewrite Hrows.
      destruct (decide (p < k)), (decide (p < S k)); try lia; try reflexivity.
      assert (p = k) by lia. subst p. rewrite Hsc, Ho. reflexivity.
  - lia.
  - lia.
  - repeat split; reflexivity.
  - unfold GenSparseMatrix.scale. rewrite <- Hwf, Nat2Z.id. fold n. rewrite Hrun.
    f_equal. destruct Hfin as (Hr & Hc & Hd & Hlen & Hrows).
    destruct m' as [r' c' rows' d']. unfold GenSparseMatrix.set_rows. simpl in *.
    subst. f_equal. apply list_eq. intros p. rewrite Hrows.
    destruct (decide (p < n)); [reflexivity |].
    rewrite (lookup_ge_None_2 (GenSparseMatrix.rows m)) by (fold n; lia).
    unfold scaled_rows. rewrite list_lookup_imap.
    rewrite (lookup_ge_None_2 (GenSparseMatrix.rows m)) by (fold n; lia). reflexivity.
Qed.

(** C8. [operator*=] and [scaleRow] leave an implicit row as it is: every
    [get] in such a row returns what it returned before, on the diagonal
    the diagonal value of implicit rows; a present row is replaced by the
    row scaled with the factor. *)
Theorem scaling_skips_implicit_rows (bc : bool) (f : D) (m : GenSparseMatrix.t R D) :
  GenSparseMatrix.wf m ->
  exists m',
    GenSparseMatrix.scale f m = (Ok tt, m') /\
    forall i : nat,
      (GenSparseMatrix.rows m !! i = Some None ->
       GenSparseMatrix.rows m' !! i = Some None /\
       (forall j, GenSparseMatrix.get bc (Z.of_nat i) j m'
                  = GenSparseMatrix.get bc (Z.of_nat i) j m) /\
       ((Z.of_nat i < GenSparseMatrix.getNumCols m)%Z ->
        GenSparseMatrix.get bc (Z.of_nat i) (Z.of_nat i) m'
        = Ok (GenSparseMatrix._diagEntry m)) /\
       GenSparseMatrix.scaleRow (Z.of_nat i) f m = (Ok tt, m)) /\
      (forall row, GenSparseMatrix.rows m !! i = Some (Some row) ->
       GenSparseMatrix.rows m' !! i = Some (Some (row_scale row (Z.of_nat i) f)) /\
       GenSparseMatrix.scaleRow (Z.of_nat i) f m
       = (Ok tt, GenSparseMatrix.set_rows
                   (<[i := Some (row_scale row (Z.of_nat i) f)]> (GenSparseMatrix.rows m))
                   m)).
Proof.
  intros Hwf. eexists. split; [apply scale_scaled_rows, Hwf |].
  intros i. split.
  - intros Hrow.
    assert (Hrow' : scaled_rows f (GenSparseMatrix.rows m) !! i = Some None).
    { unfold scaled_rows. rewrite list_lookup_imap, Hrow. reflexivity. }
    assert (Hget : forall j,
      GenSparseMatrix.get bc (Z.of_nat i) j
        (GenSparseMatrix.set_rows (scaled_rows f (GenSparseMatrix.rows m)) m)
      = GenSparseMatrix.get bc (Z.of_nat i) j m).
    { intros j. apply get_same_rows; try reflexivity. simpl.
      rewrite !atZ_of_nat, (at_lookup _ _ _ Hrow), (at_lookup _ _ _ Hrow'). reflexivity. }
    split; [exact Hrow' |]. split; [exact Hget |]. split.
    + intros Hcol. rewrite Hget.
      unfold GenSparseMatrix.get, GenSparseMatrix.out_of_bounds.
      apply lookup_lt_Some in Hrow as Hlt. unfold GenSparseMatrix.wf in Hwf.
      unfold GenSparseMatrix.getNumRows, GenSparseMatrix.getNumCols in *.
      destruct (Z.ltb_spec (Z.of_nat i) 0); [lia |].
      destruct (Z.leb_spec (GenSparseMatrix._numRows m) (Z.of_nat i)); [lia |].
      destruct (Z.leb_spec (GenSparseMatrix._numCols m) (Z.of_nat i)); [lia |].
      simpl. rewrite andb_false_r, atZ_of_nat, (at_lookup _ _ _ Hrow). simpl.
      rewrite Z.eqb_refl. reflexivity.
    + apply scaleRow_absent, Hrow.
  - intros row Hrow. split.
    + simpl. unfold scaled_rows. rewrite list_lookup_imap, Hrow. reflexivity.
    + apply scaleRow_present, Hrow.
Qed.

End ImplicitRows.

Lemma set_on_implicit_row_witness :
  let m := GenSparseMatrix.Build (R := SparseRow.t Z) 2 2 [None; Some [(0, 3)]]%Z 1%Z in
  GenSparseMatrix.set true 0 0 1%Z m = (Ok tt, m) /\
  GenSparseMatrix.set true 0 1 0%Z m = (Ok tt, m) /\
  GenSparseMatrix.set true 0 1 5%Z m = (Throw (Exception "Row does not exist."), m).
Proof.
  intros m.
  assert (Hr : (0 <= 0 < GenSparseMatrix.getNumRows m)%Z) by (vm_compute; split; discriminate || reflexivity).
  assert (Hc0 : (0 <= 0 < GenSparseMatrix.getNumCols m)%Z) by (vm_compute; split; discriminate || reflexivity).
  assert (Hc1 : (0 <= 1 < GenSparseMatrix.getNumCols m)%Z) by (vm_compute; split; discriminate || reflexivity).
  split; [| split].
  - apply (set_on_implicit_row true m 0 0 1%Z Hr Hc0 eq_refl). left. split; reflexivity.
  - apply (set_on_implicit_row true m 0 1 0%Z Hr Hc1 eq_refl). right. reflexivity.
  - apply (set_on_implicit_row true m 0 1 5%Z Hr Hc1 eq_refl).
    intros [[Heq _] | Heq]; discriminate.
Defined.

Lemma scaling_skips_implicit_rows_witness :
  let m := GenSparseMatrix.Build (R := SparseRow.t Z) 2 2 [None; Some [(0, 3)]]%Z 1%Z in
  exists m',
    GenSparseMatrix.scale 2%Z m = (Ok tt, m') /\
    GenSparseMatrix.get true 0 0 m' = Ok 1%Z /\
    GenSparseMatrix.rows m' !! 1 = Some (Some [(0, 6)]%Z).
Proof.
  intros m.
  destruct (scaling_skips_implicit_rows true 2%Z m eq_refl) as (m' & Hrun & Hrows).
  exists m'. split; [exact Hrun |].
  destruct (Hrows 0) as [Habsent _]. destruct (Hrows 1) as [_ Hpresent].
  destruct (Habsent eq_refl) as (_ & _ & Hdiag & _).
  destruct (Hpresent _ eq_refl) as [Hscaled _].
  split.
  - apply Hdiag. reflexivity.
  - exact Hscaled.
Defined.

(** *** Matrices that are not square *)

Section NotSquare.
Context {D : Type} `{DataType D}.

Lemma rbind_oob {A B} (r : result A) (k : A -> result B) :
  fails_out_of_bounds_only r ->
  (forall a, r = Ok a -> fails_out_of_bounds_only (k a)) ->
  fails_out_of_bounds_only (rbind r k).
Proof.
  intros Hr Hk e. destruct r as [a | e']; simpl.
  - apply (Hk a eq_refl).
  - intros Heq. inversion Heq; subst. apply Hr. reflexivity.
Qed.

Lemma Ok_oob {A} (a : A) : fails_out_of_bounds_only (Ok a).
Proof. intros e Heq. discriminate. Qed.

Lemma at_oob {A} (v : list A) (k : nat) : fails_out_of_bounds_only (Vector.at_ v k).
Proof. intros e. unfold Vector.at_. destruct (v !! k); congruence. Qed.

Lemma atZ_oob {A} (v : list A) (z : Z) : fails_out_of_bounds_only (Vector.atZ v z).
Proof. intros e. unfold Vector.atZ. destruct (z <? 0)%Z; [congruence | apply at_oob]. Qed.

Lemma store_oob {A} (v : list A) (k : nat) (x : A) :
  fails_out_of_bounds_only (Vector.store v k x).
Proof. intros e. unfold Vector.store. destruct (k <? length v); congruence. Qed.

Lemma storeZ_oob {A} (v : list A) (z : Z) (x : A) :
  fails_out_of_bounds_only (Vector.storeZ v z x).
Proof. intros e. unfold Vector.storeZ. destruct (z <? 0)%Z; [congruence | apply store_oob]. Qed.

Lemma for_acc_oob {A} (body : nat -> A -> result A) :
  (forall i x, fails_out_of_bounds_only (body i x)) ->
  forall n k a, fails_out_of_bounds_only (for_acc n body k a).
Proof.
  intros Hbody. induction n as [|n IH]; intros k a; simpl.
  - apply Ok_oob.
  - apply rbind_oob; [apply Hbody | intros; apply IH].
Qed.

Ltac oob :=
  repeat first
    [ apply Ok_oob | apply at_oob | apply atZ_oob | apply store_oob | apply storeZ_oob
    | apply for_acc_oob; intros
    | apply rbind_oob; [| intros]
    | match goal with
      | |- fails_out_of_bounds_only (let '(_, _) := ?x in _) => destruct x
      | |- fails_out_of_bounds_only (if ?b then _ else _) => destruct b
      end ].

Lemma count_entries_oob (keys : list Z) (n : nat) (t : list Z) :
  fails_out_of_bounds_only (CSMatrix.count_entries keys n t).
Proof. unfold CSMatrix.count_entries, Vector.incr. oob. Qed.

Lemma fill_oob (keys minors : list Z) (vals : list D) (n : nat)
    (t idx : list Z) (val : list D) :
  fails_out_of_bounds_only (CSMatrix.fill keys minors vals n t idx val).
Proof. unfold CSMatrix.fill, Vector.post_incr. oob. Qed.

Lemma sum_up_slice_oob (p1 p2 : Z) (t idx : list Z) (val : list D) :
  fails_out_of_bounds_only (CSMatrix.sum_up_slice p1 p2 t idx val).
Proof. unfold CSMatrix.sum_up_slice. oob. Qed.

(** A loop that reaches an iteration which fails, fails. *)
Lemma for_acc_throws {A} (I : A -> Prop) (body : nat -> A -> result A) (j : nat) :
  (forall i x, I x -> fails_out_of_bounds_only (body i x)) ->
  (forall i x x', I x -> body i x = Ok x' -> I x') ->
  (forall x, I x -> body j x = Throw OutOfBounds) ->
  forall n k a, k <= j < k + n -> I a -> for_acc n body k a = Throw OutOfBounds.
Proof.
  intros Hoob Hinv Hj. induction n as [|n IH]; intros k a Hk Ha; [lia |].
  simpl. destruct (decide (k = j)) as [-> | Hne].
  - rewrite (Hj a Ha). reflexivity.
  - destruct (body k a) as [x' | e] eqn:Hb; simpl.
    + apply IH; [lia | eapply Hinv; eauto].
    + f_equal. eapply Hoob; eauto.
Qed.

(** "Set row pointers" over more slices than the pointer vector has. *)
Lemma set_pointers_throws (n : nat) (ptr t : list Z) :
  length ptr <= n -> 0 < length ptr ->
  CSMatrix.set_pointers n ptr t = Throw OutOfBounds.
Proof.
  intros Hn Hpos. unfold CSMatrix.set_pointers.
  apply (for_acc_throws (fun pt : list Z * list Z => length pt.1 = length ptr))
    with (j := length ptr - 1); [| | | lia | reflexivity].
  - intros i [p t'] _. oob.
  - intros i [p t'] [p' t''] Hlen. simpl in *.
    destruct (Vector.at_ p i); simpl; [| discriminate].
    destruct (Vector.at_ t' i); simpl; [| discriminate].
    unfold Vector.store at 1. destruct (S i <? length p); simpl; [| discriminate].
    destruct (Vector.at_ _ i); simpl; [| discriminate].
    destruct (Vector.store t' i _); simpl; [| discriminate].
    intros Heq. inversion Heq; subst. rewrite length_insert. exact Hlen.
  - intros [p t'] Hlen. simpl in *.
    destruct (Vector.at_ p _) as [? | e] eqn:Hp; simpl;
      [| f_equal; eapply at_oob; eauto].
    destruct (Vector.at_ t' _) as [? | e] eqn:Ht; simpl;
      [| f_equal; eapply at_oob; eauto].
    unfold Vector.store at 1.
    destruct (Nat.ltb_spec (S (length ptr - 1)) (length p)); [lia | reflexivity].
Qed.

(** "Sum up duplicate entries" over more slices than the count vector has. *)
Lemma sum_up_duplicates_throws (n : nat) (ptr t idx : list Z) (val : list D)
    (count : list Z) :
  length count < n ->
  CSMatrix.sum_up_duplicates n ptr t idx val count = Throw OutOfBounds.
Proof.
  intros Hn. unfold CSMatrix.sum_up_duplicates.
  apply (for_acc_throws
           (fun x : list Z * list Z * list D * list Z => length x.2 = length count))
    with (j := length count); [| | | lia | reflexivity].
  - intros i [[[t' idx'] val'] count'] _. oob.
  - intros i [[[t' idx'] val'] count'] [[[t'' idx''] val''] count''] Hlen. simpl in *.
    destruct (Vector.at_ ptr i); simpl; [| discriminate].
    destruct (Vector.at_ ptr (S i)); simpl; [| discriminate].
    destruct (CSMatrix.sum_up_slice _ _ _ _ _) as [[[[? ?] ?] ?] |]; simpl; [| discriminate].
    unfold Vector.store. destruct (i <? length count'); simpl; [| discriminate].
    intros Heq. inversion Heq; subst. rewrite length_insert. exact Hlen.
  - intros [[[t' idx'] val'] count'] Hlen. simpl in *.
    destruct (Vector.at_ ptr _) as [? | e] eqn:Hp; simpl;
      [| f_equal; eapply at_oob; eauto].
    destruct (Vector.at_ ptr (S _)) as [? | e] eqn:Hp'; simpl;
      [| f_equal; eapply at_oob; eauto].
    destruct (CSMatrix.sum_up_slice _ _ _ _ _) as [[[[? ?] ?] ?] | e] eqn:Hs; simpl;
      [| f_equal; eapply sum_up_slice_oob; eauto].
    unfold Vector.store.
    destruct (Nat.ltb_spec (length count) (length count')); [lia | reflexivity].
Qed.

(** Every column matrix built from a triplet matrix with fewer rows than
    columns, and every row matrix built from a triplet matrix that is not
    square, ends in an access outside a vector. *)
Lemma from_triplet_not_square (A : TripletMatrix.t D) :
  let numRows := Z.to_nat (TripletMatrix.getNumRows A) in
  let numCols := Z.to_nat (TripletMatrix.getNumCols A) in
  (numRows < numCols -> (CSCMatrix.from_triplet A).1 = Throw OutOfBounds) /\
  (numRows <> numCols -> (CSRMatrix.from_triplet A).1 = Throw OutOfBounds).
Proof.
  intros numRows numCols. split; intros Hne.
  - unfold CSCMatrix.from_triplet, CSCMatrix.setFromTriplet, bind, read. simpl.
    fold numRows numCols.
    destruct (CSMatrix.count_entries _ _ _) as [t1 | e] eqn:Hc; simpl;
      [| f_equal; eapply count_entries_oob; eauto].
    rewrite set_pointers_throws; [reflexivity | |];
      unfold Vector.make; rewrite length_replicate; lia.
  - unfold CSRMatrix.from_triplet, CSRMatrix.setFromTriplet, bind, read. simpl.
    fold numRows numCols.
    destruct (CSMatrix.count_entries _ _ _) as [t1 | e] eqn:Hc; simpl;
      [| f_equal; eapply count_entries_oob; eauto].
    destruct (decide (numCols < numRows)) as [Hlt | Hge].
    + rewrite set_pointers_throws; [reflexivity | |];
        unfold Vector.make; rewrite length_replicate; lia.
    + destruct (CSMatrix.set_pointers _ _ _) as [[colPointer t2] | e] eqn:Hp; simpl;
        [| f_equal; eapply for_acc_oob; [| exact Hp]; intros i [? ?]; oob].
      destruct (CSMatrix.fill _ _ _ _ _ _ _) as [[[t3 rowIndex] val] | e] eqn:Hf; simpl;
        [| f_equal; eapply fill_oob; eauto].
      rewrite sum_up_duplicates_throws; [reflexivity |].
      unfold Vector.make. rewrite length_replicate. lia.
Qed.

End NotSquare.

(** *** Square matrices

    For a square matrix the loop bounds of [setFromTriplet] coincide, and
    the conversion is two stable counting sorts with a summation of
    duplicates in between. *)

Section Buckets.
Context {D : Type}.
Implicit Types (l : list (Z * Z * D)) (e : Z * Z * D).

Lemma key_count_app k l1 l2 : key_count k (l1 ++ l2) = key_count k l1 + key_count k l2.
Proof. unfold key_count. rewrite filter_app, length_app. reflexivity. Qed.

Lemma key_start_app k l1 l2 : key_start k (l1 ++ l2) = key_start k l1 + key_start k l2.
Proof. unfold key_start. rewrite filter_app, length_app. reflexivity. Qed.

Lemma bucket_app k l1 l2 : bucket k (l1 ++ l2) = bucket k l1 ++ bucket k l2.
Proof. unfold bucket. rewrite filter_app, fmap_app. reflexivity. Qed.

Lemma bucket_length k l : length (bucket k l) = key_count k l.
Proof. unfold bucket, key_count. apply length_fmap. Qed.

Lemma key_count_one k e : key_count k [e] = if decide (e.1.1 = Z.of_nat k) then 1 else 0.
Proof. unfold key_count. rewrite filter_cons, filter_nil. destruct (decide _); reflexivity. Qed.

Lemma bucket_one k e :
  bucket k [e] = if decide (e.1.1 = Z.of_nat k) then [(e.1.2, e.2)] else [].
Proof. unfold bucket. rewrite filter_cons, filter_nil. destruct (decide _); reflexivity. Qed.

Lemma key_start_S k l : key_start (S k) l = key_start k l + key_count k l.
Proof.
  unfold key_start, key_count. induction l as [|e l IH]; [reflexivity |].
  rewrite !filter_cons.
  destruct (decide (e.1.1 < Z.of_nat (S k))%Z), (decide (e.1.1 < Z.of_nat k)%Z),
    (decide (e.1.1 = Z.of_nat k)); simpl; lia.
Qed.

Lemma key_start_0 n l : keys_below n l -> key_start 0 l = 0.
Proof.
  unfold key_start, keys_below. induction 1 as [|e l He Hl IH]; [reflexivity |].
  rewrite filter_cons. destruct (decide _); [lia | exact IH].
Qed.

Lemma key_start_all n l : keys_below n l -> key_start n l = length l.
Proof.
  unfold key_start, keys_below. induction 1 as [|e l He Hl IH]; [reflexivity |].
  rewrite filter_cons. destruct (decide _); [simpl; lia | lia].
Qed.

Lemma key_start_mono k k' l : k <= k' -> key_start k l <= key_start k' l.
Proof.
  induction 1 as [|k' Hle IH]; [lia |]. rewrite key_start_S. lia.
Qed.

Lemma key_start_bound n k l : keys_below n l -> k <= n -> key_start k l <= length l.
Proof. intros Hl Hk. rewrite <- (key_start_all n l Hl). apply key_start_mono, Hk. Qed.

Lemma key_start_next n k l : keys_below n l -> k < n -> key_start k l + key_count k l <= length l.
Proof. intros Hl Hk. rewrite <- key_start_S. eapply key_start_bound; eauto. Qed.

End Buckets.

Section Slices.
Context {A : Type}.
Implicit Types (l : list A).

Lemma slice_length start len l : start + len <= length l -> length (slice start len l) = len.
Proof. intros Hl. unfold slice. rewrite length_take, length_drop. lia. Qed.

Lemma slice_lookup start len l i :
  i < len -> slice start len l !! i = l !! (start + i).
Proof. intros Hi. unfold slice. rewrite lookup_take_lt by exact Hi. apply lookup_drop. Qed.

Lemma slice_insert_outside start len l p x :
  p < start \/ start + len <= p -> slice start len (<[p:=x]> l) = slice start len l.
Proof.
  intros Hp. apply list_eq. intros i. unfold slice.
  destruct (decide (i < len)) as [Hi | Hi].
  - rewrite !lookup_take_lt by exact Hi. rewrite !lookup_drop.
    apply list_lookup_insert_ne. lia.
  - rewrite !lookup_take_ge by lia. reflexivity.
Qed.

Lemma slice_snoc start len l x :
  l !! (start + len) = Some x -> slice start (S len) l = slice start len l ++ [x].
Proof.
  intros Hx. unfold slice. apply take_S_r. rewrite lookup_drop. exact Hx.
Qed.

Lemma slice_insert_end start len l x :
  start + len < length l ->
  slice start (S len) (<[start + len:=x]> l) = slice start len l ++ [x].
Proof.
  intros Hl. rewrite (slice_snoc _ _ _ x) by (apply list_lookup_insert_eq; exact Hl).
  f_equal. apply slice_insert_outside. lia.
Qed.

End Slices.

Section CountingSort.
Context {D : Type} `{DataType D}.
Variable n : nat.
Implicit Types (l all : list (Z * Z * D)) (e : Z * Z * D).

Lemma incr_counted l t e :
  counted n l t -> (0 <= e.1.1 < Z.of_nat n)%Z ->
  exists t', Vector.incr t e.1.1 = Ok t' /\ counted n (l ++ [e]) t'.
Proof.
  intros [Hlen Ht] He.
  assert (Hk : e.1.1 = Z.of_nat (Z.to_nat e.1.1)) by lia.
  set (k0 := Z.to_nat e.1.1) in *. assert (Hk0 : k0 < n) by lia.
  unfold Vector.incr. rewrite Hk, atZ_of_nat, (at_lookup _ _ _ (Ht k0 Hk0)). simpl.
  rewrite storeZ_of_nat, store_lt by lia. eexists. split; [reflexivity |].
  split; [rewrite length_insert; exact Hlen |].
  intros k Hlt. rewrite key_count_app, key_count_one.
  destruct (decide (e.1.1 = Z.of_nat k)) as [Heq | Hne].
  - assert (k = k0) by lia. subst k. rewrite list_lookup_insert_eq by lia.
    f_equal. lia.
  - rewrite list_lookup_insert_ne by lia. rewrite Ht by exact Hlt. f_equal. lia.
Qed.

Lemma counted_nil : counted (D := D) n [] (replicate n 0%Z).
Proof.
  split; [apply length_replicate |]. intros k Hk.
  rewrite lookup_replicate_2 by exact Hk. reflexivity.
Qed.

(** "Count num. of entries per row" *)
Lemma count_entries_spec all :
  keys_below n all ->
  exists t,
    CSMatrix.count_entries ((fun e => e.1.1) <$> all) (length all) (replicate n 0%Z) = Ok t /\
    counted n all t.
Proof.
  intros Hall. unfold CSMatrix.count_entries.
  match goal with
  | |- exists t, for_acc _ ?body 0 _ = _ /\ _ =>
      destruct (for_acc_inv (fun i t => counted n (take i all) t) body (length all) 0
                  (replicate n 0%Z)) as (t & Hrun & Hfin)
  end.
  - intros i t [_ Hi] Hc. simpl in Hi.
    destruct (lookup_lt_is_Some_2 all i Hi) as [e He].
    rewrite (at_fmap _ _ _ _ He). simpl.
    rewrite (take_S_r _ _ _ He). apply incr_counted; [exact Hc |].
    eapply Forall_lookup_1 in Hall; eauto.
  - apply counted_nil.
  - exists t. split; [exact Hrun |]. simpl in Hfin. rewrite take_ge in Hfin by lia. exact Hfin.
Qed.

(** "Set row pointers" *)
Lemma set_pointers_spec all t :
  keys_below n all -> counted n all t ->
  exists ptr t',
    CSMatrix.set_pointers n (replicate (n + 1) 0%Z) t = Ok (ptr, t') /\
    pointed n all ptr /\
    length t' = n /\ (forall k, k < n -> t' !! k = Some (Z.of_nat (key_start k all))).
Proof.
  intros Hall [Hlen Ht]. unfold CSMatrix.set_pointers.
  set (Inv := fun (j : nat) (pt : list Z * list Z) =>
    length pt.1 = n + 1 /\ length pt.2 = n /\
    (forall k, k <= j -> pt.1 !! k = Some (Z.of_nat (key_start k all))) /\
    (forall k, k < j -> pt.2 !! k = Some (Z.of_nat (key_start k all))) /\
    (forall k, j <= k < n -> pt.2 !! k = Some (Z.of_nat (key_count k all)))).
  match goal with
  | |- exists ptr t', for_acc _ ?body 0 ?a = _ /\ _ =>
      destruct (for_acc_inv Inv body n 0 a) as ([ptr t'] & Hrun & Hfin)
  end.
  - intros j [ptr t'] [_ Hj] (Hlp & Hlt & Hp & Hts & Htc). simpl in *.
    rewrite (at_lookup _ _ _ (Hp j (le_n j))). simpl.
    rewrite (at_lookup _ _ _ (Htc j (conj (le_n j) Hj))). simpl.
    rewrite store_lt by lia. simpl.
    rewrite (at_lookup _ j (Z.of_nat (key_start j all)))
      by (rewrite list_lookup_insert_ne by lia; apply Hp; lia).
    simpl. rewrite store_lt by lia. simpl. eexists. split; [reflexivity |].
    unfold Inv. simpl. rewrite !length_insert.
    split; [exact Hlp |]. split; [exact Hlt |]. split; [| split].
    + intros k Hk. destruct (decide (k = S j)) as [-> | Hne].
      * rewrite list_lookup_insert_eq by lia. rewrite key_start_S. f_equal. lia.
      * rewrite list_lookup_insert_ne by lia. apply Hp. lia.
    + intros k Hk. destruct (decide (k = j)) as [-> | Hne].
      * rewrite list_lookup_insert_eq by lia. reflexivity.
      * rewrite list_lookup_insert_ne by lia. apply Hts. lia.
    + intros k Hk. rewrite list_lookup_insert_ne by lia. apply Htc. lia.
  - unfold Inv. simpl. rewrite length_replicate.
    split; [reflexivity |]. split; [exact Hlen |]. split; [| split].
    + intros k Hk. assert (k = 0) by lia. subst k.
      rewrite lookup_replicate_2 by lia. rewrite (key_start_0 n) by exact Hall. reflexivity.
    + intros k Hk. lia.
    + intros k Hk. apply Ht. lia.
  - exists ptr, t'. split; [exact Hrun |].
    destruct Hfin as (Hlp & Hlt & Hp & Hts & _). simpl in *.
    split; [split; assumption |]. split; assumption.
Qed.

(** One step of "Fill matrix". *)
Lemma scatter_step all l t idx val e k0 :
  keys_below n all -> scattered n all l t idx val ->
  e.1.1 = Z.of_nat k0 -> k0 < n ->
  (forall k, key_count k (l ++ [e]) <= key_count k all) ->
  let p := key_start k0 all + key_count k0 l in
  exists t',
    Vector.post_incr t (Z.of_nat k0) = Ok (Z.of_nat p, t') /\
    Vector.storeZ idx (Z.of_nat p) e.1.2 = Ok (<[p:=e.1.2]> idx) /\
    Vector.storeZ val (Z.of_nat p) e.2 = Ok (<[p:=e.2]> val) /\
    scattered n all (l ++ [e]) t' (<[p:=e.1.2]> idx) (<[p:=e.2]> val).
Proof.
  intros Hall (Hlt & Hli & Hlv & Ht & Hs) Hk Hk0 Hsub p.
  assert (Hle : forall k, key_count k l <= key_count k all).
  { intros k. specialize (Hsub k). rewrite key_count_app in Hsub. lia. }
  assert (Hp : p < length all).
  { pose proof (Hsub k0) as Hc. rewrite key_count_app, key_count_one in Hc.
    destruct (decide (e.1.1 = Z.of_nat k0)); [| lia].
    pose proof (key_start_next n k0 all Hall Hk0). unfold p. lia. }
  unfold Vector.post_incr.
  rewrite atZ_of_nat, (at_lookup _ _ _ (Ht k0 Hk0)). simpl.
  rewrite storeZ_of_nat, store_lt by lia. simpl.
  rewrite !storeZ_of_nat, !store_lt by lia.
  eexists. split; [reflexivity |]. split; [reflexivity |]. split; [reflexivity |].
  unfold scattered. rewrite !length_insert.
  split; [exact Hlt |]. split; [exact Hli |]. split; [exact Hlv |]. split.
  - intros k Hkn. rewrite key_count_app, key_count_one.
    destruct (decide (e.1.1 = Z.of_nat k)) as [Heq | Hne].
    + assert (k = k0) by lia. subst k. rewrite list_lookup_insert_eq by lia.
      f_equal. fold p. lia.
    + rewrite list_lookup_insert_ne by lia. rewrite Ht by exact Hkn. f_equal. lia.
  - intros k Hkn. rewrite key_count_app, key_count_one, bucket_app, bucket_one.
    assert (Hz : zip (<[p:=e.1.2]> idx) (<[p:=e.2]> val) = <[p:=(e.1.2, e.2)]> (zip idx val)).
    { symmetry. apply insert_zip_with. }
    rewrite Hz.
    destruct (decide (e.1.1 = Z.of_nat k)) as [Heq | Hne].
    + assert (k = k0) by lia. subst k. rewrite Nat.add_1_r.
      unfold p. rewrite slice_insert_end by (rewrite length_zip_with; fold p; lia).
      rewrite Hs by exact Hkn. reflexivity.
    + rewrite Nat.add_0_r, app_nil_r. rewrite slice_insert_outside; [apply Hs, Hkn |].
      destruct (decide (k < k0)) as [Hlt' | Hge].
      * right. pose proof (key_start_mono (S k) k0 all ltac:(lia)) as Hm.
        rewrite key_start_S in Hm. specialize (Hle k). unfold p. lia.
      * left. assert (Hgt : k0 < k) by lia.
        pose proof (key_start_mono (S k0) k all ltac:(lia)) as Hm.
        rewrite key_start_S in Hm.
        pose proof (Hsub k0) as Hc. rewrite key_count_app, key_count_one in Hc.
        destruct (decide (e.1.1 = Z.of_nat k0)); [| lia]. unfold p. lia.
Qed.

Lemma scattered_nil all t idx val :
  length t = n -> length idx = length all -> length val = length all ->
  (forall k, k < n -> t !! k = Some (Z.of_nat (key_start k all))) ->
  scattered n all [] t idx val.
Proof.
  intros Hlt Hli Hlv Ht. repeat (split; [assumption |]). split.
  - intros k Hk. rewrite (Ht k Hk). f_equal. unfold key_count. simpl. lia.
  - intros k Hk. reflexivity.
Qed.

Lemma key_count_take_le (k i : nat) all : key_count k (take i all) <= key_count k all.
Proof.
  rewrite <- (take_drop i all) at 2. rewrite key_count_app. lia.
Qed.

(** "Fill matrix" *)
Lemma fill_spec all t :
  keys_below n all ->
  length t = n -> (forall k, k < n -> t !! k = Some (Z.of_nat (key_start k all))) ->
  exists t' idx val,
    CSMatrix.fill ((fun e => e.1.1) <$> all) ((fun e => e.1.2) <$> all) (snd <$> all)
      (length all) t (replicate (length all) 0%Z) (replicate (length all) d_zero)
    = Ok (t', idx, val) /\
    scattered n all all t' idx val.
Proof.
  intros Hall Hlt Ht. unfold CSMatrix.fill.
  match goal with
  | |- exists t' idx val, for_acc _ ?body 0 ?a = _ /\ _ =>
      destruct (for_acc_inv
                  (fun i (x : list Z * list Z * list D) =>
                     scattered n all (take i all) x.1.1 x.1.2 x.2)
                  body (length all) 0 a) as ([[t' idx] val] & Hrun & Hfin)
  end.
  - intros i [[t' idx] val] [_ Hi] Hs. simpl in Hi, Hs.
    destruct (lookup_lt_is_Some_2 all i Hi) as [e He].
    assert (Hek : (0 <= e.1.1 < Z.of_nat n)%Z) by (eapply Forall_lookup_1 in Hall; eauto).
    destruct (scatter_step all (take i all) t' idx val e (Z.to_nat e.1.1) Hall Hs)
      as (t'' & Hpi & Hsi & Hsv & Hs'); [lia | lia | |].
    { intros k. rewrite <- (take_S_r _ _ _ He). apply key_count_take_le. }
    rewrite Z2Nat.id in Hpi by lia.
    simpl. rewrite (at_fmap _ _ _ _ He). simpl. rewrite Hpi. simpl.
    rewrite (at_fmap _ _ _ _ He). simpl. rewrite Hsi. simpl.
    rewrite (at_fmap _ _ _ _ He). simpl. rewrite Hsv. simpl.
    eexists. split; [reflexivity |]. simpl. rewrite (take_S_r _ _ _ He). exact Hs'.
  - simpl. apply scattered_nil; [exact Hlt | | | exact Ht]; apply length_replicate.
  - exists t', idx, val. split; [exact Hrun |]. simpl in Hfin.
    rewrite take_ge in Hfin by lia. exact Hfin.
Qed.

End CountingSort.

Section Dedupe.
Context {D : Type} `{DataType D}.
Implicit Types (acc l : list (Z * D)).

Lemma key_index_lt c acc q : key_index c acc = Some q -> q < length acc.
Proof.
  revert q. induction acc as [|[c' v'] acc IH]; intros q; simpl; [discriminate |].
  destruct (c' =? c)%Z.
  - intros [= <-]. lia.
  - destruct (key_index c acc) as [q' |]; simpl; [| discriminate].
    intros [= <-]. specialize (IH q' eq_refl). lia.
Qed.

Lemma dd_add_new c v acc : key_index c acc = None -> dd_add c v acc = acc ++ [(c, v)].
Proof.
  induction acc as [|[c' v'] acc IH]; simpl; [reflexivity |].
  destruct (c' =? c)%Z; [discriminate |].
  destruct (key_index c acc); simpl; [discriminate |].
  intros _. rewrite IH by reflexivity. reflexivity.
Qed.

Lemma dd_add_old c v acc q :
  key_index c acc = Some q ->
  exists vq, acc !! q = Some (c, vq) /\ dd_add c v acc = <[q:=(c, d_add vq v)]> acc.
Proof.
  revert q. induction acc as [|[c' v'] acc IH]; intros q; simpl; [discriminate |].
  destruct (Z.eqb_spec c' c) as [-> | Hne].
  - intros [= <-]. exists v'. split; reflexivity.
  - destruct (key_index c acc) as [q' |]; simpl; [| discriminate].
    intros [= <-]. destruct (IH q' eq_refl) as (vq & Hq & Hadd).
    exists vq. split; [exact Hq |]. simpl. rewrite Hadd. reflexivity.
Qed.

Lemma key_index_snoc c c' v acc :
  key_index c' (acc ++ [(c, v)])
  = match key_index c' acc with
    | Some q => Some q
    | None => if (c =? c')%Z then Some (length acc) else None
    end.
Proof.
  induction acc as [|[c0 v0] acc IH]; simpl.
  - destruct (c =? c')%Z; reflexivity.
  - destruct (c0 =? c')%Z; [reflexivity |]. rewrite IH.
    destruct (key_index c' acc); simpl; [reflexivity |].
    destruct (c =? c')%Z; reflexivity.
Qed.

Lemma key_index_insert c c' x acc q vq :
  acc !! q = Some (c, vq) ->
  key_index c' (<[q:=(c, x)]> acc) = key_index c' acc.
Proof.
  revert q. induction acc as [|[c0 v0] acc IH]; intros [|q] Hq; simpl in *;
    try discriminate.
  - inversion Hq; subst. reflexivity.
  - destruct (c0 =? c')%Z; [reflexivity |]. rewrite (IH q Hq). reflexivity.
Qed.

Lemma dd_add_length_le c v acc : length (dd_add c v acc) <= S (length acc).
Proof.
  destruct (key_index c acc) as [q |] eqn:Hq.
  - destruct (dd_add_old c v acc q Hq) as (vq & _ & ->). rewrite length_insert. lia.
  - rewrite dd_add_new by exact Hq. rewrite length_app. simpl. lia.
Qed.

Lemma dedupe_snoc l c v : dedupe (l ++ [(c, v)]) = dd_add c v (dedupe l).
Proof. unfold dedupe. rewrite fold_left_app. reflexivity. Qed.

Lemma dedupe_length_le l : length (dedupe l) <= length l.
Proof.
  induction l as [|[c v] l IH] using rev_ind; [reflexivity |].
  rewrite dedupe_snoc, length_app. simpl.
  pose proof (dd_add_length_le c v (dedupe l)). lia.
Qed.

End Dedupe.

Section PairVectors.
Context {A B : Type}.
Implicit Types (idx : list A) (val : list B).

Lemma zip_lookup idx val i a b :
  zip idx val !! i = Some (a, b) <-> idx !! i = Some a /\ val !! i = Some b.
Proof.
  rewrite lookup_zip_with_Some. split.
  - intros (x & y & Heq & Hx & Hy). inversion Heq; subst. auto.
  - intros [Hx Hy]. eauto.
Qed.

Lemma zip_insert_both idx val i a b :
  zip (<[i:=a]> idx) (<[i:=b]> val) = <[i:=(a, b)]> (zip idx val).
Proof. symmetry. apply insert_zip_with. Qed.

Lemma zip_insert_l idx val i a b :
  val !! i = Some b -> zip (<[i:=a]> idx) val = <[i:=(a, b)]> (zip idx val).
Proof.
  intros Hb. rewrite <- zip_insert_both. rewrite (list_insert_id val) by exact Hb. reflexivity.
Qed.

Lemma zip_insert_r idx val i a b :
  idx !! i = Some a -> zip idx (<[i:=b]> val) = <[i:=(a, b)]> (zip idx val).
Proof.
  intros Ha. rewrite <- zip_insert_both. rewrite (list_insert_id idx) by exact Ha. reflexivity.
Qed.

Lemma slice_insert_inside (l : list A) start len q x :
  q < len -> slice start len (<[start + q:=x]> l) = <[q:=x]> (slice start len l).
Proof.
  intros Hq. unfold slice. rewrite drop_insert_ge by lia.
  replace (start + q - start) with q by lia. apply take_insert_lt, Hq.
Qed.

Lemma slice_of_parts (l l' : list A) p1 p2 start len :
  take p1 l' = take p1 l -> drop p2 l' = drop p2 l ->
  start + len <= p1 \/ p2 <= start ->
  slice start len l' = slice start len l.
Proof.
  intros Ht Hd Hs. apply list_eq. intros i. unfold slice.
  destruct (decide (i < len)) as [Hi | Hi].
  - rewrite !lookup_take_lt by exact Hi. rewrite !lookup_drop.
    destruct Hs as [Hs | Hs].
    + rewrite <- (lookup_take_lt l' p1) by lia. rewrite <- (lookup_take_lt l p1) by lia.
      rewrite Ht. reflexivity.
    + replace (start + i) with (p2 + (start + i - p2)) by lia.
      rewrite <- !lookup_drop. rewrite Hd. reflexivity.
  - rewrite !lookup_take_ge by lia. reflexivity.
Qed.

End PairVectors.

Section SumUpSlice.
Context {D : Type} `{DataType D}.
Variables (n p1 len : nat) (idx0 : list Z) (val0 : list D).
Hypothesis Hli0 : length idx0 = length val0.
Hypothesis Hfit : p1 + len <= length idx0.

Variable L : list (Z * D).
Hypothesis HL : L = slice p1 len (zip idx0 val0).
Hypothesis Hcols : Forall (fun cv : Z * D => (0 <= cv.1 < Z.of_nat n)%Z) L.

Lemma L_length : length L = len.
Proof. rewrite HL. apply slice_length. rewrite length_zip_with. lia. Qed.

Lemma slice_inv_step (o : nat) (t idx : list Z) (val : list D) (pd : Z) :
  o < len -> slice_inv n p1 idx0 val0 L o (t, idx, val, pd) ->
  exists x',
    (let p := (Z.of_nat p1 + Z.of_nat o)%Z in
     k <- Vector.atZ idx p ;;
     pj <- Vector.atZ t k ;;
     tk <- Vector.atZ t k ;;
     if (tk <? Z.of_nat p1)%Z then
       t <- Vector.storeZ t k pd ;;
       idx <- Vector.storeZ idx pd k ;;
       vp <- Vector.atZ val p ;;
       val <- Vector.storeZ val pd vp ;;
       Ok (t, idx, val, (pd + 1)%Z)
     else
       vpj <- Vector.atZ val pj ;;
       vp <- Vector.atZ val p ;;
       val <- Vector.storeZ val pj (d_add vpj vp) ;;
       Ok (t, idx, val, pd)) = Ok x' /\
    slice_inv n p1 idx0 val0 L (S o) x'.
Proof.
  intros Ho (Hpd & Hli & Hlv & Hacc & Htake & Hdrop & [Hlt Hmark]).
  set (acc := dedupe (take o L)) in *.
  pose proof L_length as HLl.
  destruct (lookup_lt_is_Some_2 L o) as [[k v] Hkv]; [lia |].
  assert (Hk : (0 <= k < Z.of_nat n)%Z).
  { eapply Forall_lookup_1 in Hcols; eauto. exact Hcols. }
  assert (Hacc' : dedupe (take (S o) L) = dd_add k v acc).
  { rewrite (take_S_r _ _ _ Hkv). apply dedupe_snoc. }
  assert (Hlen_acc : length acc <= o).
  { unfold acc. etransitivity; [apply dedupe_length_le |]. rewrite length_take. lia. }
  assert (Hp : zip idx val !! (p1 + o) = Some (k, v)).
  { rewrite <- (Nat.add_0_r (p1 + o)), <- lookup_drop, Hdrop, lookup_drop, Nat.add_0_r.
    rewrite HL, slice_lookup in Hkv by exact Ho. exact Hkv. }
  apply zip_lookup in Hp as [Hpi Hpv].
  destruct (Z_of_nat_complete k) as [c0 ->]; [lia |].
  assert (Hc0n : c0 < n) by lia.
  cbv zeta. rewrite <- Nat2Z.inj_add, atZ_of_nat, (at_lookup _ _ _ Hpi). cbn [rbind].
  pose proof (Hmark c0 Hc0n) as Hm.
  destruct (key_index (Z.of_nat c0) acc) as [q |] eqn:Hq.
  - (* the column was seen in this slice *)
    pose proof (key_index_lt _ _ _ Hq) as Hql.
    destruct (dd_add_old (Z.of_nat c0) v acc q Hq) as (vq & Haq & Hadd).
    rewrite ?atZ_of_nat, (at_lookup _ _ _ Hm). cbn [rbind].
    destruct (Z.ltb_spec (Z.of_nat (p1 + q)) (Z.of_nat p1)); [lia |].
    assert (Hzq : zip idx val !! (p1 + q) = Some (Z.of_nat c0, vq)).
    { rewrite <- Hacc in Haq. rewrite slice_lookup in Haq by exact Hql. exact Haq. }
    apply zip_lookup in Hzq as [Hiq Hvq].
    rewrite ?atZ_of_nat, (at_lookup _ _ _ Hvq). cbn [rbind].
    rewrite ?atZ_of_nat, (at_lookup _ _ _ Hpv). cbn [rbind].
    rewrite ?storeZ_of_nat, store_lt by (apply lookup_lt_Some in Hvq; exact Hvq).
    cbn [rbind]. eexists. split; [reflexivity |].
    unfold slice_inv. cbn [fst snd]. rewrite Hacc', Hadd, !length_insert.
    rewrite (zip_insert_r _ _ _ (Z.of_nat c0)) by exact Hiq.
    split; [exact Hpd |]. split; [exact Hli |]. split; [exact Hlv |]. split; [| split; [| split]].
    + rewrite slice_insert_inside by exact Hql. rewrite Hacc. reflexivity.
    + rewrite take_insert_ge by lia. exact Htake.
    + rewrite drop_insert_lt by lia.
      replace (p1 + S o) with (p1 + o + 1) by lia.
      rewrite <- (drop_drop (zip idx val) 1 (p1 + o)),
        <- (drop_drop (zip idx0 val0) 1 (p1 + o)), Hdrop. reflexivity.
    + split; [exact Hlt |]. intros c Hc.
      rewrite (key_index_insert _ _ _ _ _ _ Haq). apply Hmark, Hc.
  - (* the column is new in this slice *)
    destruct Hm as (z & Hz & Hzlt).
    rewrite ?atZ_of_nat, (at_lookup _ _ _ Hz). cbn [rbind].
    destruct (Z.ltb_spec z (Z.of_nat p1)); [| lia].
    rewrite ?storeZ_of_nat, store_lt by lia. cbn [rbind].
    rewrite Hpd. rewrite ?storeZ_of_nat, store_lt by lia. cbn [rbind].
    rewrite ?atZ_of_nat, (at_lookup _ _ _ Hpv). cbn [rbind].
    rewrite ?storeZ_of_nat, store_lt by lia. cbn [rbind].
    eexists. split; [reflexivity |].
    unfold slice_inv. cbn [fst snd]. rewrite Hacc', (dd_add_new _ _ _ Hq), length_app.
    cbn [length]. rewrite !length_insert, zip_insert_both.
    split; [f_equal; lia |]. split; [exact Hli |]. split; [exact Hlv |].
    split; [| split; [| split]].
    + rewrite Nat.add_1_r.
      rewrite slice_insert_end by (rewrite length_zip_with; lia).
      rewrite Hacc. reflexivity.
    + rewrite take_insert_ge by lia. exact Htake.
    + rewrite drop_insert_lt by lia.
      replace (p1 + S o) with (p1 + o + 1) by lia.
      rewrite <- (drop_drop (zip idx val) 1 (p1 + o)),
        <- (drop_drop (zip idx0 val0) 1 (p1 + o)), Hdrop. reflexivity.
    + split; [rewrite length_insert; exact Hlt |]. intros c Hc.
      rewrite key_index_snoc. destruct (decide (c = c0)) as [-> | Hne].
      * rewrite Hq, Z.eqb_refl. apply list_lookup_insert_eq. lia.
      * rewrite list_lookup_insert_ne by auto. pose proof (Hmark c Hc) as Hmc.
        destruct (key_index (Z.of_nat c) acc); [exact Hmc |].
        destruct (Z.eqb_spec (Z.of_nat c0) (Z.of_nat c)); [lia | exact Hmc].
Qed.

(** The inner loop of "Sum up duplicate entries". *)
Lemma sum_up_slice_spec (t0 : list Z) :
  markers_below n p1 t0 ->
  exists t idx val,
    CSMatrix.sum_up_slice (Z.of_nat p1) (Z.of_nat (p1 + len)) t0 idx0 val0
    = Ok (t, idx, val, Z.of_nat (p1 + length (dedupe L))) /\
    length idx = length idx0 /\ length val = length idx0 /\
    slice p1 (length (dedupe L)) (zip idx val) = dedupe L /\
    take p1 (zip idx val) = take p1 (zip idx0 val0) /\
    drop (p1 + len) (zip idx val) = drop (p1 + len) (zip idx0 val0) /\
    markers_below n (p1 + len) t.
Proof.
  intros [Hlt0 Hm0]. unfold CSMatrix.sum_up_slice.
  replace (Z.to_nat (Z.of_nat (p1 + len) - Z.of_nat p1)) with len by lia.
  match goal with
  | |- exists t idx val, for_acc _ ?body 0 ?a = _ /\ _ =>
      destruct (for_acc_inv (slice_inv n p1 idx0 val0 L) body len 0 a) as ([[[t idx] val] pd] & Hrun & Hfin)
  end.
  - intros o [[[t idx] val] pd] [_ Ho] Hinv. simpl in Ho.
    apply (slice_inv_step o t idx val pd Ho Hinv).
  - unfold slice_inv. simpl. rewrite Nat.add_0_r.
    split; [reflexivity |]. split; [reflexivity |]. split; [lia |].
    split; [reflexivity |]. split; [reflexivity |]. split; [reflexivity |].
    split; [exact Hlt0 |]. intros c Hc. apply Hm0, Hc.
  - simpl in Hfin. unfold slice_inv in Hfin.
    rewrite take_ge in Hfin by (rewrite L_length; lia).
    destruct Hfin as (-> & Hli & Hlv & Hacc & Htake & Hdrop & [Hlt Hmark]).
    exists t, idx, val. split; [exact Hrun |].
    do 5 (split; [assumption |]). split; [exact Hlt |].
    intros c Hc. specialize (Hmark c Hc).
    destruct (key_index (Z.of_nat c) (dedupe L)) as [q |] eqn:Hq.
    + exists (Z.of_nat (p1 + q)). split; [exact Hmark |].
      apply key_index_lt in Hq. pose proof (dedupe_length_le L). rewrite L_length in *. lia.
    + destruct Hmark as (z & Hz & Hzlt). exists z. split; [exact Hz | lia].
Qed.

End SumUpSlice.

Section SumUpDuplicates.
Context {D : Type} `{DataType D}.
Variables (n : nat) (all : list (Z * Z * D)).
Hypothesis Hkeys : keys_below n all.
Hypothesis Hminors : minors_below n all.

Lemma bucket_cols k :
  Forall (fun cv : Z * D => (0 <= cv.1 < Z.of_nat n)%Z) (bucket k all).
Proof.
  unfold bucket. apply Forall_fmap. apply Forall_forall. intros e He.
  apply list_elem_of_filter in He as [_ He].
  unfold minors_below in Hminors. rewrite Forall_forall in Hminors. simpl.
  apply Hminors, He.
Qed.

(** "Sum up duplicate entries" *)
Lemma sum_up_duplicates_spec (ptr t idx0 : list Z) (val0 : list D) :
  pointed n all ptr ->
  markers_below n 0 t ->
  length idx0 = length all -> length val0 = length all ->
  (forall k, k < n ->
     slice (key_start k all) (key_count k all) (zip idx0 val0) = bucket k all) ->
  exists t' idx' val' count,
    CSMatrix.sum_up_duplicates n ptr t idx0 val0 (replicate n 0%Z)
    = Ok (t', idx', val', count) /\
    length t' = n /\ compacted n all n idx' val' count.
Proof.
  intros [Hlp Hp] Hm0 Hli0 Hlv0 Hb0. unfold CSMatrix.sum_up_duplicates.
  set (Inv := fun (i : nat) (x : list Z * list Z * list D * list Z) =>
    let '(t, idx, val, count) := x in
    markers_below n (key_start i all) t /\ compacted n all i idx val count).
  match goal with
  | |- exists t' idx' val' count, for_acc _ ?body 0 ?a = _ /\ _ =>
      destruct (for_acc_inv Inv body n 0 a) as ([[[t' idx'] val'] count] & Hrun & Hfin)
  end.
  - intros i [[[t1 idx1] val1] count1] [_ Hi] [Hm (Hli & Hlv & Hlc & Hdone & Htodo)].
    simpl in Hi.
    rewrite (at_lookup _ _ _ (Hp i ltac:(lia))). cbn [rbind].
    rewrite (at_lookup _ _ _ (Hp (S i) ltac:(lia))). cbn [rbind].
    rewrite key_start_S.
    assert (Hfit : key_start i all + key_count i all <= length idx1).
    { rewrite Hli. apply (key_start_next n); [exact Hkeys | exact Hi]. }
    assert (HL : slice (key_start i all) (key_count i all) (zip idx1 val1) = bucket i all)
      by (apply Htodo; lia).
    destruct (sum_up_slice_spec n (key_start i all) (key_count i all) idx1 val1
                ltac:(lia) Hfit (bucket i all) (eq_sym HL) (bucket_cols i) t1 Hm)
      as (t2 & idx2 & val2 & Hrun & Hli2 & Hlv2 & Hdd & Htake & Hdrop & Hm2).
    rewrite Hrun. cbn [rbind].
    rewrite store_lt by lia. cbn [rbind]. eexists. split; [reflexivity |].
    split; [rewrite key_start_S; exact Hm2 |].
    unfold compacted. rewrite length_insert.
    split; [lia |]. split; [lia |]. split; [exact Hlc |]. split.
    + intros k Hk. destruct (decide (k = i)) as [-> | Hne].
      * split; [exact Hdd |]. rewrite list_lookup_insert_eq by lia. f_equal. lia.
      * destruct (Hdone k ltac:(lia)) as [Hs Hc]. split.
        -- etransitivity; [| exact Hs].
           eapply slice_of_parts; [exact Htake | exact Hdrop |].
           left. pose proof (dedupe_length_le (bucket k all)) as Hle.
           rewrite bucket_length in Hle.
           pose proof (key_start_mono (S k) i all ltac:(lia)) as Hmono.
           rewrite key_start_S in Hmono. lia.
        -- rewrite list_lookup_insert_ne by auto. exact Hc.
    + intros k Hk. etransitivity; [| exact (Htodo k ltac:(lia))].
      eapply slice_of_parts; [exact Htake | exact Hdrop |].
      right. pose proof (key_start_mono (S i) k all ltac:(lia)) as Hmono.
      rewrite key_start_S in Hmono. lia.
  - split.
    + rewrite (key_start_0 n) by exact Hkeys. exact Hm0.
    + unfold compacted. rewrite length_replicate.
      split; [exact Hli0 |]. split; [exact Hlv0 |]. split; [reflexivity |]. split.
      * intros k Hk. lia.
      * intros k Hk. apply Hb0. lia.
  - exists t', idx', val', count. split; [exact Hrun |].
    destruct Hfin as [[Hlt _] Hc]. split; [exact Hlt | exact Hc].
Qed.

End SumUpDuplicates.

Lemma for_accM_inv {St A} (I : nat -> A -> St -> Prop) (body : nat -> A -> M St A) :
  forall n k a s,
  (forall i x s, k <= i < k + n -> I i x s ->
     exists x' s', body i x s = (Ok x', s') /\ I (S i) x' s') ->
  I k a s ->
  exists a' s', for_accM n body k a s = (Ok a', s') /\ I (k + n) a' s'.
Proof.
  induction n as [|n IH]; intros k a s Hstep HI.
  - exists a, s. rewrite Nat.add_0_r. auto.
  - simpl. destruct (Hstep k a s) as (x' & s' & Hbody & HI'); [lia | exact HI |].
    unfold bind. rewrite Hbody.
    destruct (IH (S k) x' s') as (a' & s'' & Hfor & Hfin).
    + intros i x s0 Hi. apply Hstep. lia.
    + exact HI'.
    + exists a', s''. split; [exact Hfor |].
      replace (k + S n) with (S k + n) by lia. exact Hfin.
Qed.

Section Compacted.
Context {D : Type} `{DataType D}.
Variables (n : nat) (all : list (Z * Z * D)).
Hypothesis Hkeys : keys_below n all.
Hypothesis Hminors : minors_below n all.

Lemma dd_add_keys (P : Z -> Prop) c v (acc : list (Z * D)) :
  P c -> Forall (fun cv : Z * D => P cv.1) acc ->
  Forall (fun cv : Z * D => P cv.1) (dd_add c v acc).
Proof.
  intros Hc. induction acc as [|[c' v'] acc IH]; intros Hacc; simpl.
  - repeat constructor. exact Hc.
  - apply Forall_cons in Hacc as [Hc' Hacc]. destruct (c' =? c)%Z.
    + constructor; assumption.
    + constructor; [exact Hc' | apply IH, Hacc].
Qed.

Lemma dedupe_keys (P : Z -> Prop) (l : list (Z * D)) :
  Forall (fun cv : Z * D => P cv.1) l -> Forall (fun cv : Z * D => P cv.1) (dedupe l).
Proof.
  induction l as [|[c v] l IH] using rev_ind; intros Hl; [constructor |].
  apply Forall_app in Hl as [Hl Hc]. apply Forall_cons in Hc as [Hc _].
  rewrite dedupe_snoc. apply dd_add_keys; [exact Hc | apply IH, Hl].
Qed.

Lemma items_upto_keys i : keys_below n (items_upto all i).
Proof.
  induction i as [|i IH]; [constructor |]. simpl. apply Forall_app. split; [exact IH |].
  unfold row_items. apply Forall_fmap.
  eapply Forall_impl;
    [exact (dedupe_keys (fun c => (0 <= c < Z.of_nat n)%Z) _ (bucket_cols n all Hminors i)) |].
  intros cv Hcv. exact Hcv.
Qed.

Lemma items_upto_minors i :
  Forall (fun e : Z * Z * D => (0 <= e.1.2 < Z.of_nat i)%Z) (items_upto all i).
Proof.
  induction i as [|i IH]; [constructor |]. simpl. apply Forall_app. split.
  - eapply Forall_impl; [exact IH |]. intros e He. simpl in *. lia.
  - unfold row_items. apply Forall_fmap. apply Forall_forall. intros cv _. simpl. lia.
Qed.

Lemma items_upto_prefix i m :
  i <= m -> exists rest, items_upto all m = items_upto all i ++ rest.
Proof.
  induction 1 as [|m Hle [rest IH]].
  - exists []. rewrite app_nil_r. reflexivity.
  - eexists. simpl. rewrite IH, <- app_assoc. reflexivity.
Qed.

Lemma key_count_prefix k (l1 l2 rest : list (Z * Z * D)) :
  l2 = l1 ++ rest -> key_count k l1 <= key_count k l2.
Proof. intros ->. rewrite key_count_app. lia. Qed.

(** A prefix of the items of slice [i], behind the items of the slices
    before it, is a prefix of all items. *)
Lemma items_upto_take_prefix i o k :
  i < n ->
  key_count k (items_upto all i ++ take o (row_items i (dedupe (bucket i all))))
  <= key_count k (items_upto all n).
Proof.
  intros Hi. destruct (items_upto_prefix (S i) n) as [rest Hrest]; [lia |].
  eapply key_count_prefix with
    (rest := drop o (row_items i (dedupe (bucket i all))) ++ rest).
  rewrite Hrest. simpl. rewrite <- !app_assoc. f_equal.
  rewrite app_assoc, take_drop. reflexivity.
Qed.

Variables (ptr idx count : list Z) (val : list D).
Hypothesis Hptr : pointed n all ptr.
Hypothesis Hcomp : compacted n all n idx val count.

Lemma compacted_lookup i o c v :
  i < n -> dedupe (bucket i all) !! o = Some (c, v) ->
  idx !! (key_start i all + o) = Some c /\ val !! (key_start i all + o) = Some v.
Proof.
  intros Hi Ho. destruct Hcomp as (_ & _ & _ & Hdone & _).
  destruct (Hdone i Hi) as [Hs _]. apply zip_lookup.
  rewrite <- Hs in Ho. rewrite slice_lookup in Ho; [exact Ho |].
  apply lookup_lt_Some in Ho. rewrite Hs in Ho. exact Ho.
Qed.

Lemma compacted_count i :
  i < n -> count !! i = Some (Z.of_nat (length (dedupe (bucket i all)))).
Proof.
  intros Hi. destruct Hcomp as (_ & _ & _ & Hdone & _). apply (Hdone i Hi).
Qed.

Lemma row_items_lookup i dd o c v :
  dd !! o = Some (c, v) -> row_items (D := D) i dd !! o = Some (c, Z.of_nat i, v).
Proof. intros Ho. unfold row_items. rewrite list_lookup_fmap, Ho. reflexivity. Qed.

(** "Count num. of entries per column" *)
Lemma count_compressed_spec :
  exists t,
    CSMatrix.count_compressed n ptr count idx (replicate n 0%Z) = Ok t /\
    counted n (items_upto all n) t.
Proof.
  unfold CSMatrix.count_compressed.
  match goal with
  | |- exists t, for_acc _ ?body 0 ?a = _ /\ _ =>
      destruct (for_acc_inv (fun i t => counted n (items_upto all i) t) body n 0 a)
        as (t & Hrun & Hfin)
  end.
  - intros i t [_ Hi] Hc. simpl in Hi.
    destruct Hptr as [_ Hp].
    rewrite (at_lookup _ _ _ (Hp i ltac:(lia))). cbn [rbind].
    rewrite (at_lookup _ _ _ (compacted_count i Hi)). cbn [rbind].
    rewrite Nat2Z.id.
    set (dd := dedupe (bucket i all)).
    match goal with
    | |- exists x', for_acc _ ?body 0 _ = _ /\ _ =>
        destruct (for_acc_inv
                    (fun o t => counted n (items_upto all i ++ take o (row_items i dd)) t)
                    body (length dd) 0 t) as (t' & Hrun & Hfin)
    end.
    + intros o t1 [_ Ho] Hc1. simpl in Ho.
      destruct (lookup_lt_is_Some_2 dd o Ho) as [[c v] Hcv].
      destruct (compacted_lookup i o c v Hi Hcv) as [Hic _].
      rewrite <- Nat2Z.inj_add, atZ_of_nat, (at_lookup _ _ _ Hic). cbn [rbind].
      rewrite (take_S_r _ _ _ (row_items_lookup i dd o c v Hcv)), app_assoc.
      apply (incr_counted n _ t1 (c, Z.of_nat i, v) Hc1).
      pose proof (dedupe_keys (fun c => (0 <= c < Z.of_nat n)%Z) _
                    (bucket_cols n all Hminors i)) as Hdk.
      eapply Forall_lookup_1 in Hdk; [| exact Hcv]. exact Hdk.
    + rewrite take_0, app_nil_r. exact Hc.
    + exists t'. split; [exact Hrun |]. simpl in Hfin.
      rewrite take_ge in Hfin by (unfold row_items; rewrite length_fmap; lia).
      exact Hfin.
  - apply counted_nil.
  - exists t. split; [exact Hrun | exact Hfin].
Qed.

(** [numEntries] *)
Lemma sum_entries_spec (items : list (Z * Z * D)) (t : list Z) :
  keys_below n items -> counted n items t ->
  CSMatrix.sum_entries t = Ok (Z.of_nat (length items)).
Proof.
  intros Hitems [Hlen Ht]. unfold CSMatrix.sum_entries. rewrite Hlen.
  match goal with
  | |- for_acc _ ?body 0 ?a = _ =>
      destruct (for_acc_inv (fun i (x : Z) => x = Z.of_nat (key_start i items)) body n 0 a)
        as (x & Hrun & Hfin)
  end.
  - intros i x [_ Hi] ->. simpl in Hi. rewrite (at_lookup _ _ _ (Ht i Hi)). cbn [rbind].
    eexists. split; [reflexivity |]. rewrite key_start_S. lia.
  - rewrite (key_start_0 n) by exact Hitems. reflexivity.
  - rewrite Hrun, Hfin. simpl. rewrite (key_start_all n) by exact Hitems. reflexivity.
Qed.

End Compacted.

Section Compress.
Context {D : Type} `{DataType D}.
Variable n : nat.

Lemma indPointer_store_lt (k : nat) (x : Z) (s : CSMatrix.t D) :
  k < length (CSMatrix._indPointer s) ->
  CSMatrix.indPointer_store k x s
  = (Ok tt, CSMatrix.set_indPointer (<[k:=x]> (CSMatrix._indPointer s)) s).
Proof.
  intros Hk. unfold CSMatrix.indPointer_store, bind, read, modify.
  rewrite store_lt by exact Hk. reflexivity.
Qed.

Lemma set_indPointer_frame (a b : list Z) (s s1 : CSMatrix.t D) :
  s1 = CSMatrix.set_indPointer a s ->
  CSMatrix.set_indPointer b s1 = CSMatrix.set_indPointer b s.
Proof. intros ->. destruct s; reflexivity. Qed.

(** "Set column pointers" *)
Lemma set_indPointers_spec (items : list (Z * Z * D)) (t : list Z) (s : CSMatrix.t D) :
  keys_below n items -> counted n items t ->
  CSMatrix._indPointer s = replicate (n + 1) 0%Z ->
  exists t' ptr,
    CSMatrix.set_indPointers n t s = (Ok t', CSMatrix.set_indPointer ptr s) /\
    pointed n items ptr /\
    length t' = n /\ (forall k, k < n -> t' !! k = Some (Z.of_nat (key_start k items))).
Proof.
  intros Hitems [Hlen Ht] Hs. unfold CSMatrix.set_indPointers.
  set (Inv := fun (j : nat) (t' : list Z) (s' : CSMatrix.t D) =>
    s' = CSMatrix.set_indPointer (CSMatrix._indPointer s') s /\
    length (CSMatrix._indPointer s') = n + 1 /\ length t' = n /\
    (forall k, k <= j -> CSMatrix._indPointer s' !! k = Some (Z.of_nat (key_start k items))) /\
    (forall k, k < j -> t' !! k = Some (Z.of_nat (key_start k items))) /\
    (forall k, j <= k < n -> t' !! k = Some (Z.of_nat (key_count k items)))).
  match goal with
  | |- exists t' ptr, for_accM _ ?body 0 ?a _ = _ /\ _ =>
      destruct (for_accM_inv Inv body n 0 a s) as (t' & s' & Hrun & Hfin)
  end.
  - intros j t1 s1 [_ Hj] (Hs1 & Hlp & Hlt & Hp & Hts & Htc). simpl in Hj.
    unfold bind at 1. unfold read at 1. rewrite (at_lookup _ _ _ (Hp j (le_n j))).
    unfold bind at 1. unfold read at 1.
    rewrite (at_lookup _ _ _ (Htc j (conj (le_n j) Hj))).
    unfold bind at 1. rewrite indPointer_store_lt by lia.
    unfold bind at 1. unfold read at 1. cbn [CSMatrix.set_indPointer CSMatrix._indPointer].
    rewrite (at_lookup _ j (Z.of_nat (key_start j items)))
      by (rewrite list_lookup_insert_ne by lia; apply Hp; lia).
    unfold read. rewrite store_lt by lia.
    eexists _, _. split; [reflexivity |].
    unfold Inv. cbn [CSMatrix.set_indPointer CSMatrix._indPointer]. rewrite !length_insert.
    split; [exact (set_indPointer_frame _ _ _ _ Hs1) |].
    split; [exact Hlp |]. split; [exact Hlt |].
    split; [| split].
    + intros k Hk. destruct (decide (k = S j)) as [-> | Hne].
      * rewrite list_lookup_insert_eq by lia. rewrite key_start_S. f_equal. lia.
      * rewrite list_lookup_insert_ne by lia. apply Hp. lia.
    + intros k Hk. destruct (decide (k = j)) as [-> | Hne].
      * rewrite list_lookup_insert_eq by lia. reflexivity.
      * rewrite list_lookup_insert_ne by lia. apply Hts. lia.
    + intros k Hk. rewrite list_lookup_insert_ne by lia. apply Htc. lia.
  - unfold Inv. rewrite Hs, length_replicate.
    split; [destruct s; simpl in *; subst; reflexivity |].
    split; [reflexivity |]. split; [exact Hlen |]. split; [| split].
    + intros k Hk. assert (k = 0) by lia. subst k.
      rewrite lookup_replicate_2 by lia. rewrite (key_start_0 n) by exact Hitems. reflexivity.
    + intros k Hk. lia.
    + intros k Hk. apply Ht. lia.
  - destruct Hfin as (Hs' & Hlp & Hlt & Hp & Hts & _).
    exists t', (CSMatrix._indPointer s'). split; [rewrite Hrun, <- Hs'; reflexivity |].
    split; [split; assumption |]. split; [exact Hlt |]. exact Hts.
Qed.

Variable all : list (Z * Z * D).
Hypothesis Hkeys : keys_below n all.
Hypothesis Hminors : minors_below n all.
Variables (ptr idx count : list Z) (val : list D).
Hypothesis Hptr : pointed n all ptr.
Hypothesis Hcomp : compacted n all n idx val count.

Local Abbreviation items := (items_upto all n).

Lemma CS_index_store_ok (p : nat) (x : Z) (s : CSMatrix.t D) (v : list Z) :
  Vector.storeZ (CSMatrix._index s) (Z.of_nat p) x = Ok v ->
  CSMatrix.index_store (Z.of_nat p) x s = (Ok tt, CSMatrix.set_index v s).
Proof.
  intros Hv. unfold CSMatrix.index_store, bind, read, modify. rewrite Hv. reflexivity.
Qed.

Lemma CS_value_store_ok (p : nat) (x : D) (s : CSMatrix.t D) (v : list D) :
  Vector.storeZ (CSMatrix._value s) (Z.of_nat p) x = Ok v ->
  CSMatrix.value_store (Z.of_nat p) x s = (Ok tt, CSMatrix.set_value v s).
Proof.
  intros Hv. unfold CSMatrix.value_store, bind, read, modify. rewrite Hv. reflexivity.
Qed.

(** The final "Fill matrix" *)
Lemma fill_compressed_spec (t : list Z) (s : CSMatrix.t D) :
  length t = n -> (forall k, k < n -> t !! k = Some (Z.of_nat (key_start k items))) ->
  length (CSMatrix._index s) = length items ->
  length (CSMatrix._value s) = length items ->
  exists t' s',
    CSMatrix.fill_compressed n ptr count idx val t s = (Ok t', s') /\
    same_frame s s' /\
    scattered n items items t' (CSMatrix._index s') (CSMatrix._value s').
Proof.
  intros Hlt Ht Hli Hlv. unfold CSMatrix.fill_compressed.
  pose proof (items_upto_keys n all Hminors n) as Hik. 
  set (Inv := fun (l : list (Z * Z * D)) (t' : list Z) (s' : CSMatrix.t D) =>
    same_frame s s' /\
    scattered n items l t' (CSMatrix._index s') (CSMatrix._value s')).
  match goal with
  | |- exists t' s', for_accM _ ?body 0 ?a _ = _ /\ _ =>
      destruct (for_accM_inv (fun i => Inv (items_upto all i)) body n 0 a s)
        as (t' & s' & Hrun & Hfin)
  end.
  - intros i t1 s1 [_ Hi] HI. simpl in Hi. destruct Hptr as [_ Hp].
    unfold bind at 1. unfold read at 1. rewrite (at_lookup _ _ _ (Hp i ltac:(lia))).
    unfold bind at 1. unfold read at 1.
    rewrite (at_lookup _ _ _ (compacted_count n all idx count val Hcomp i Hi)).
    rewrite Nat2Z.id. set (dd := dedupe (bucket i all)).
    match goal with
    | |- exists x' s', for_accM _ ?body 0 _ _ = _ /\ _ =>
        destruct (for_accM_inv
                    (fun o => Inv (items_upto all i ++ take o (row_items i dd)))
                    body (length dd) 0 t1 s1) as (t2 & s2 & Hrun & Hfin)
    end.
    + intros o t2 s2 [_ Ho] [Hfr Hsc]. simpl in Ho.
      destruct (lookup_lt_is_Some_2 dd o Ho) as [[c v] Hcv].
      destruct (compacted_lookup n all idx count val Hcomp i o c v Hi Hcv) as [Hic Hiv].
      assert (Hc : (0 <= c < Z.of_nat n)%Z).
      { pose proof (dedupe_keys (fun c => (0 <= c < Z.of_nat n)%Z) _
                      (bucket_cols n all Hminors i)) as Hdk.
        eapply Forall_lookup_1 in Hdk; [| exact Hcv]. exact Hdk. }
      destruct (Z_of_nat_complete c) as [c0 ->]; [lia |].
      destruct (scatter_step n items _ t2 (CSMatrix._index s2) (CSMatrix._value s2)
                  (Z.of_nat c0, Z.of_nat i, v) c0 Hik Hsc eq_refl ltac:(lia))
        as (t3 & Hpi & Hsi & Hsv & Hsc').
      { intros k. rewrite <- app_assoc.
        rewrite <- (take_S_r _ _ _ (row_items_lookup i dd o _ v Hcv)).
        apply items_upto_take_prefix; assumption. }
      cbn [fst snd] in Hsi, Hsv.
      cbv zeta. rewrite <- Nat2Z.inj_add.
      unfold bind at 1. unfold read at 1. rewrite atZ_of_nat, (at_lookup _ _ _ Hic).
      unfold bind at 1. unfold read at 1. rewrite Hpi.
      unfold bind at 1. rewrite (CS_index_store_ok _ _ _ _ Hsi).
      unfold bind at 1. unfold read at 1. rewrite atZ_of_nat, (at_lookup _ _ _ Hiv).
      unfold bind at 1.
      rewrite (CS_value_store_ok _ _ (CSMatrix.set_index _ s2) _ Hsv).
      unfold ret. eexists _, _. split; [reflexivity |].
      rewrite (take_S_r _ _ _ (row_items_lookup i dd o _ v Hcv)), app_assoc.
      split; [exact Hfr | exact Hsc'].
    + rewrite take_0, app_nil_r. exact HI.
    + exists t2, s2. split; [exact Hrun |]. simpl in Hfin.
      rewrite take_ge in Hfin by (unfold row_items; rewrite length_fmap; lia).
      exact Hfin.
  - split; [repeat split |]. simpl.
    apply scattered_nil; [exact Hlt | exact Hli | exact Hlv | exact Ht].
  - exists t', s'. split; [exact Hrun |]. exact Hfin.
Qed.

End Compress.

Section GetScan.
Context {D : Type} `{DataType D} `{!DataTypeLaws D}.

Lemma get_scan_spec (key : Z) (m : CSMatrix.t D) (B : list (Z * D)) :
  forall lo,
  (forall i x v, B !! i = Some (x, v) ->
     CSMatrix._index m !! (lo + i) = Some x /\ CSMatrix._value m !! (lo + i) = Some v) ->
  CSMatrix.get_scan (length B) (Z.of_nat lo) key m = Ok (lookup_minor key B).
Proof.
  induction B as [|[x v] B IH]; intros lo HB; [reflexivity |].
  destruct (HB 0 x v eq_refl) as [Hx Hv]. rewrite Nat.add_0_r in Hx, Hv.
  simpl. rewrite atZ_of_nat, (at_lookup _ _ _ Hx). simpl.
  destruct (x =? key)%Z.
  - rewrite atZ_of_nat. apply at_lookup, Hv.
  - replace (Z.of_nat lo + 1)%Z with (Z.of_nat (S lo)) by lia. apply IH.
    intros i x' v' Hi. replace (S lo + i) with (lo + S i) by lia. apply HB, Hi.
Qed.

Lemma lookup_minor_miss (key : Z) (B : list (Z * D)) :
  Forall (fun e => e.1 <> key) B -> lookup_minor key B = d_zero.
Proof.
  induction 1 as [|[x v] B Hx _ IH]; [reflexivity |]. simpl in *.
  destruct (Z.eqb_spec x key); [contradiction | exact IH].
Qed.

Lemma lookup_minor_app_r (key : Z) (B1 B2 : list (Z * D)) :
  Forall (fun e => e.1 <> key) B1 -> lookup_minor key (B1 ++ B2) = lookup_minor key B2.
Proof.
  induction 1 as [|[x v] B Hx _ IH]; [reflexivity |]. simpl in *.
  destruct (Z.eqb_spec x key); [contradiction | exact IH].
Qed.

Lemma lookup_minor_app_l (key : Z) (B1 B2 : list (Z * D)) :
  Forall (fun e => e.1 <> key) B2 -> lookup_minor key (B1 ++ B2) = lookup_minor key B1.
Proof.
  intros HB2. induction B1 as [|[x v] B1 IH]; [apply lookup_minor_miss, HB2 |].
  simpl. destruct (x =? key)%Z; [reflexivity | exact IH].
Qed.

Lemma lookup_row_items (c0 r : nat) (dd : list (Z * D)) :
  lookup_minor (Z.of_nat r) (bucket c0 (row_items r dd)) = lookup_minor (Z.of_nat c0) dd.
Proof.
  induction dd as [|[c v] dd IH]; [reflexivity |].
  change (row_items r ((c, v) :: dd)) with ([(c, Z.of_nat r, v)] ++ row_items r dd).
  rewrite bucket_app, bucket_one. cbn [fst snd lookup_minor].
  destruct (decide (c = Z.of_nat c0)) as [-> | Hne].
  - simpl. rewrite !Z.eqb_refl. reflexivity.
  - simpl. destruct (Z.eqb_spec c (Z.of_nat c0)); [contradiction | exact IH].
Qed.

Lemma row_items_miss (c0 r i : nat) (dd : list (Z * D)) :
  i <> r -> Forall (fun e => e.1 <> Z.of_nat r) (bucket c0 (row_items i dd)).
Proof.
  intros Hne. unfold bucket, row_items. apply Forall_fmap, Forall_forall.
  intros e He. apply list_elem_of_filter in He as [_ He].
  apply list_elem_of_fmap in He as (cv & -> & _). simpl. lia.
Qed.

Lemma items_upto_miss (all : list (Z * Z * D)) (c0 r m : nat) :
  m <= r -> Forall (fun e => e.1 <> Z.of_nat r) (bucket c0 (items_upto all m)).
Proof.
  intros Hm. induction m as [|m IH]; [constructor |].
  cbn [items_upto]. rewrite bucket_app. apply Forall_app. split.
  - apply IH. lia.
  - apply row_items_miss. lia.
Qed.

Lemma lookup_items_upto (all : list (Z * Z * D)) (c0 r m : nat) :
  lookup_minor (Z.of_nat r) (bucket c0 (items_upto all m))
  = if decide (r < m) then lookup_minor (Z.of_nat c0) (dedupe (bucket r all)) else d_zero.
Proof.
  induction m as [|m IH]; [reflexivity |].
  cbn [items_upto]. rewrite bucket_app.
  destruct (decide (r = m)) as [-> | Hne].
  - rewrite lookup_minor_app_r by (apply items_upto_miss; lia).
    rewrite lookup_row_items. destruct (decide (m < S m)); [reflexivity | lia].
  - rewrite lookup_minor_app_l by (apply row_items_miss; lia).
    rewrite IH. destruct (decide (r < m)), (decide (r < S m)); try reflexivity; lia.
Qed.

Lemma lookup_dd_add (c c' : Z) (v : D) (acc : list (Z * D)) :
  lookup_minor c (dd_add c' v acc)
  = if (c' =? c)%Z then d_add (lookup_minor c acc) v else lookup_minor c acc.
Proof.
  induction acc as [|[c1 v1] acc IH]; simpl.
  - destruct (c' =? c)%Z; [symmetry; apply d_add_zero_l | reflexivity].
  - destruct (Z.eqb_spec c1 c') as [-> | Hne]; simpl.
    + destruct (c' =? c)%Z; reflexivity.
    + rewrite IH. destruct (Z.eqb_spec c1 c) as [-> | Hne'].
      * destruct (Z.eqb_spec c' c); [congruence | reflexivity].
      * reflexivity.
Qed.

Lemma lookup_dedupe (c : Z) (l : list (Z * D)) :
  lookup_minor c (dedupe l) = sum_minor c l.
Proof.
  induction l as [|[c' v] l IH] using rev_ind; [reflexivity |].
  rewrite dedupe_snoc, lookup_dd_add, IH. unfold sum_minor.
  rewrite fold_left_app. reflexivity.
Qed.

Lemma sum_at_bucket (r : nat) (c : Z) (all : list (Z * Z * D)) :
  sum_at (Z.of_nat r) c all = sum_minor c (bucket r all).
Proof.
  unfold sum_at, sum_minor. generalize (@d_zero D _).
  induction all as [|e all IH]; intros acc; [reflexivity |].
  change (e :: all) with ([e] ++ all). rewrite bucket_app, bucket_one, !fold_left_app.
  rewrite <- IH. f_equal. simpl.
  destruct (decide (e.1.1 = Z.of_nat r)) as [-> | Hne].
  - rewrite Z.eqb_refl. reflexivity.
  - destruct (Z.eqb_spec e.1.1 (Z.of_nat r)); [contradiction | reflexivity].
Qed.

End GetScan.

Section Sortedness.
Context {D : Type} `{DataType D}.

Lemma dd_add_NoDup (c : Z) (v : D) (acc : list (Z * D)) :
  NoDup acc.*1 -> NoDup (dd_add c v acc).*1.
Proof.
  induction acc as [|[c1 v1] acc IH]; intros Hnd; simpl.
  - apply NoDup_singleton.
  - simpl in Hnd. apply NoDup_cons in Hnd as [Hc1 Hnd].
    destruct (Z.eqb_spec c1 c) as [-> | Hne]; simpl.
    + apply NoDup_cons. split; assumption.
    + apply NoDup_cons. split; [| apply IH, Hnd].
      intros Hin. apply list_elem_of_fmap in Hin as ([c2 v2] & Hc2 & Hin). simpl in Hc2.
      subst c2.
      assert (HF : Forall (fun cv : Z * D => cv.1 <> c1) (dd_add c v acc)).
      { apply (dd_add_keys (fun z => z <> c1)); [congruence |]. apply Forall_forall. intros [c3 v3] H3 Heq.
        simpl in Heq. subst c3.
        apply Hc1. apply list_elem_of_fmap. exists (c1, v3). split; [reflexivity | exact H3]. }
      rewrite Forall_forall in HF. apply (HF _ Hin). reflexivity.
Qed.

Lemma dedupe_NoDup (l : list (Z * D)) : NoDup (dedupe l).*1.
Proof.
  induction l as [|[c v] l IH] using rev_ind; [constructor |].
  rewrite dedupe_snoc. apply dd_add_NoDup, IH.
Qed.

Lemma bucket_row_items_absent (c0 m : nat) (dd : list (Z * D)) :
  Z.of_nat c0 ∉ dd.*1 -> bucket c0 (row_items m dd) = [].
Proof.
  induction dd as [|[c v] dd IH]; intros Hc; [reflexivity |].
  change (row_items m ((c, v) :: dd)) with ([(c, Z.of_nat m, v)] ++ row_items m dd).
  rewrite bucket_app, bucket_one. simpl in *.
  apply not_elem_of_cons in Hc as [Hc Hdd].
  destruct (decide (c = Z.of_nat c0)); [congruence |]. apply IH, Hdd.
Qed.

Lemma bucket_row_items_short (c0 m : nat) (dd : list (Z * D)) :
  NoDup dd.*1 ->
  bucket c0 (row_items m dd) = [] \/ exists v, bucket c0 (row_items m dd) = [(Z.of_nat m, v)].
Proof.
  induction dd as [|[c v] dd IH]; intros Hnd; [left; reflexivity |].
  change (row_items m ((c, v) :: dd)) with ([(c, Z.of_nat m, v)] ++ row_items m dd).
  rewrite bucket_app, bucket_one. simpl in *.
  apply NoDup_cons in Hnd as [Hc Hnd].
  destruct (decide (c = Z.of_nat c0)) as [-> | Hne].
  - right. exists v. rewrite bucket_row_items_absent by exact Hc. reflexivity.
  - apply IH, Hnd.
Qed.

Lemma bucket_items_upto_below (all : list (Z * Z * D)) (c0 m : nat) :
  Forall (fun x => (x < Z.of_nat m)%Z) (bucket c0 (items_upto all m)).*1.
Proof.
  apply Forall_fmap. unfold bucket. apply Forall_fmap, Forall_forall.
  intros e He. apply list_elem_of_filter in He as [_ He].
  pose proof (items_upto_minors all m) as HF. rewrite Forall_forall in HF.
  specialize (HF e He). simpl in *. lia.
Qed.

(** The minor indices of every slice of the second scatter increase strictly. *)
Lemma bucket_items_upto_sorted (all : list (Z * Z * D)) (c0 m : nat) :
  StronglySorted Z.lt (bucket c0 (items_upto all m)).*1.
Proof.
  induction m as [|m IH]; [constructor |].
  cbn [items_upto]. rewrite bucket_app, fmap_app.
  apply StronglySorted_app_2; [| exact IH |].
  - intros x1 x2 H1 H2.
    pose proof (bucket_items_upto_below all c0 m) as HF. rewrite Forall_forall in HF.
    specialize (HF x1 H1).
    destruct (bucket_row_items_short c0 m (dedupe (bucket m all)) (dedupe_NoDup _))
      as [Hb | [v Hb]]; rewrite Hb in H2; simpl in H2.
    + apply elem_of_nil in H2. contradiction.
    + apply list_elem_of_singleton in H2. subst x2. exact HF.
  - destruct (bucket_row_items_short c0 m (dedupe (bucket m all)) (dedupe_NoDup _))
      as [Hb | [v Hb]]; rewrite Hb; simpl; repeat constructor.
Qed.

Lemma StronglySorted_lookup_lt (l : list Z) (i j : nat) (x y : Z) :
  StronglySorted Z.lt l -> i < j -> l !! i = Some x -> l !! j = Some y -> (x < y)%Z.
Proof.
  intros Hs Hij Hi Hj.
  rewrite <- (take_drop j l) in Hs.
  apply (StronglySorted_app_1_elem_of _ _ _ x y) in Hs; [exact Hs | |].
  - apply list_elem_of_lookup. exists i. rewrite lookup_take_lt by exact Hij. exact Hi.
  - apply list_elem_of_lookup. exists 0. rewrite lookup_drop, Nat.add_0_r. exact Hj.
Qed.

End Sortedness.

Section CSCSquare.
Context {D : Type} `{DataType D}.
Variables (n : nat) (all : list (Z * Z * D)).
Hypothesis Hkeys : keys_below n all.
Hypothesis Hminors : minors_below n all.

Lemma resize_nil {A} (k : nat) (z : A) : Vector.resize k z [] = replicate k z.
Proof. unfold Vector.resize. rewrite take_nil. simpl. rewrite Nat.sub_0_r. reflexivity. Qed.

Lemma resize_same {A} (z : A) (v : list A) : Vector.resize (length v) z v = v.
Proof.
  unfold Vector.resize. rewrite take_ge by lia. rewrite Nat.sub_diag. apply app_nil_r.
Qed.

Lemma resize_replicate {A} (k : nat) (z : A) :
  Vector.resize k z (replicate k z) = replicate k z.
Proof.
  rewrite <- (length_replicate k z) at 1. apply resize_same.
Qed.

Lemma CSC_of_triples_square :
  exists ptr idx val,
    CSCMatrix.from_triplet (of_triples (Z.of_nat n) (Z.of_nat n) all)
    = (Ok tt, CSMatrix.Build (Z.of_nat n) (Z.of_nat n) idx ptr val) /\
    pointed n (items_upto all n) ptr /\
    length idx = length (items_upto all n) /\
    length val = length (items_upto all n) /\
    forall k, k < n ->
      slice (key_start k (items_upto all n)) (key_count k (items_upto all n)) (zip idx val)
      = bucket k (items_upto all n).
Proof.
  unfold CSCMatrix.from_triplet, CSCMatrix.setFromTriplet, CSMatrix.new,
    TripletMatrix.getNumRows, TripletMatrix.getNumCols, CSMatrix.getNumRows,
    CSMatrix.getNumCols, Vector.make, Vector.setAll.
  cbn [of_triples TripletMatrix._rowIndex TripletMatrix._colIndex TripletMatrix._value
       TripletMatrix._numRows TripletMatrix._numCols].
  rewrite !length_fmap.
  unfold bind at 1. unfold read at 1. cbn [CSMatrix._numRows]. rewrite Nat2Z.id.
  unfold bind at 1. unfold read at 1. cbn [CSMatrix._numCols]. rewrite Nat2Z.id.
  rewrite Nat.max_id.
  destruct (count_entries_spec n all Hkeys) as (t1 & Hrun1 & Hc1).
  unfold bind at 1. unfold read at 1. rewrite Hrun1.
  destruct (set_pointers_spec n all t1 Hkeys Hc1) as (ptr & t2 & Hrun2 & Hptr & Hlt2 & Ht2).
  unfold bind at 1. unfold read at 1. rewrite Hrun2.
  destruct (fill_spec n all t2 Hkeys Hlt2 Ht2) as (t3 & idx1 & val1 & Hrun3 & Hsc).
  unfold bind at 1. unfold read at 1. rewrite Hrun3.
  destruct Hsc as (Hlt3 & Hli1 & Hlv1 & _ & Hb1).
  destruct (sum_up_duplicates_spec n all Hkeys Hminors ptr (replicate (length t3) (-1)%Z)
              idx1 val1 Hptr) as (t4 & idx2 & val2 & count & Hrun4 & Hlt4 & Hcomp);
    [| exact Hli1 | exact Hlv1 | exact Hb1 |].
  { split; [rewrite length_replicate; exact Hlt3 |]. intros c Hc. exists (-1)%Z.
    split; [apply lookup_replicate_2; lia | lia]. }
  unfold bind at 1. unfold read at 1. rewrite Hrun4. rewrite Hlt4.
  destruct (count_compressed_spec n all Hminors ptr idx2 count val2 Hptr Hcomp)
    as (t5 & Hrun5 & Hc5).
  unfold bind at 1. unfold read at 1. rewrite Hrun5.
  pose proof (items_upto_keys n all Hminors n) as Hik.
  unfold bind at 1. unfold read at 1.
  rewrite (sum_entries_spec n _ t5 Hik Hc5).
  rewrite Nat2Z.id. replace (Z.to_nat (Z.of_nat n + 1)) with (n + 1) by lia.
  unfold bind at 1. unfold modify at 1.
  unfold bind at 1. unfold modify at 1.
  unfold bind at 1. unfold modify at 1.
  cbn [CSMatrix.set_index CSMatrix.set_value CSMatrix.set_indPointer CSMatrix._index
       CSMatrix._value CSMatrix._indPointer CSMatrix._numRows CSMatrix._numCols].
  rewrite !resize_nil.
  rewrite resize_replicate.
  cbv beta iota delta [CSMatrix.set_indPointer CSMatrix.set_value CSMatrix.set_index
    CSMatrix._index CSMatrix._value CSMatrix._indPointer CSMatrix._numRows
    CSMatrix._numCols].
  unfold bind at 1. rewrite indPointer_store_lt
    by (cbn [CSMatrix._indPointer]; rewrite length_replicate; lia).
  cbn [CSMatrix.set_indPointer CSMatrix._index
       CSMatrix._value CSMatrix._indPointer CSMatrix._numRows CSMatrix._numCols].
  rewrite list_insert_id by (apply lookup_replicate_2; lia).
  match goal with
  | |- context [bind (CSMatrix.set_indPointers n t5) _ ?s] => set (s1 := s)
  end.
  destruct (set_indPointers_spec n (items_upto all n) t5 s1 Hik Hc5 eq_refl)
    as (t6 & ptr' & Hrun6 & Hptr' & Hlt6 & Ht6).
  unfold bind at 1. rewrite Hrun6.
  destruct (fill_compressed_spec n all Hminors ptr idx2 count val2 Hptr Hcomp t6
              (CSMatrix.set_indPointer ptr' s1) Hlt6 Ht6)
    as (t7 & s7 & Hrun7 & Hframe & Hsc7).
  { apply length_replicate. } { apply length_replicate. }
  unfold bind at 1. rewrite Hrun7. unfold ret.
  destruct Hframe as (Hnr & Hnc & Hip). destruct Hsc7 as (_ & Hli7 & Hlv7 & _ & Hb7).
  exists ptr', (CSMatrix._index s7), (CSMatrix._value s7).
  split; [| split; [exact Hptr' | split; [exact Hli7 | split; [exact Hlv7 | exact Hb7]]]].
  f_equal. destruct s7; simpl in *. subst. reflexivity.
Qed.

End CSCSquare.

Section Square.
Context {D : Type} `{DataType D} `{!DataTypeLaws D}.
Variable n : nat.

Lemma scattered_invariants (items : list (Z * Z * D)) (ptr idx : list Z) (val : list D) :
  keys_below n items ->
  (forall k, StronglySorted Z.lt (bucket k items).*1) ->
  pointed n items ptr -> length idx = length items -> length val = length items ->
  (forall k, k < n ->
     slice (key_start k items) (key_count k items) (zip idx val) = bucket k items) ->
  compressed_invariants n (CSMatrix.Build (Z.of_nat n) (Z.of_nat n) idx ptr val).
Proof.
  intros Hik Hsorted [Hlp Hp] Hli Hlv Hb. unfold compressed_invariants.
  cbn [CSMatrix._indPointer CSMatrix._index CSMatrix._value].
  split; [exact Hlp |]. split; [| split; [| split; [lia |]]].
  - rewrite Hp by lia. rewrite (key_start_0 n) by exact Hik. reflexivity.
  - rewrite Hp by lia. rewrite (key_start_all n) by exact Hik. rewrite Hli. reflexivity.
  - intros k lo hi Hlo Hhi.
    assert (Hk : k < n) by (apply lookup_lt_Some in Hhi; lia).
    rewrite Hp in Hlo by lia. rewrite Hp in Hhi by lia.
    injection Hlo as <-. injection Hhi as <-. rewrite key_start_S.
    split; [lia |]. intros p q x y Hlop Hpq Hqhi Hx Hy.
    set (s := key_start k items) in *.
    assert (Hside : forall p' x', s <= p' < s + key_count k items ->
              idx !! p' = Some x' -> (bucket k items).*1 !! (p' - s) = Some x').
    { intros p' x' Hp' Hx'.
      destruct (lookup_lt_is_Some_2 val p') as [v Hv];
        [apply lookup_lt_Some in Hx'; lia |].
      rewrite list_lookup_fmap, <- (Hb k Hk), slice_lookup by lia.
      replace (key_start k items + (p' - s)) with p' by (unfold s in *; lia).
      rewrite (proj2 (zip_lookup idx val p' x' v) (conj Hx' Hv)). reflexivity. }
    eapply (StronglySorted_lookup_lt _ (p - s) (q - s)); [apply Hsorted | lia | |].
    + apply Hside; [lia | exact Hx].
    + apply Hside; [lia | exact Hy].
Qed.

Lemma scattered_get (items : list (Z * Z * D)) (ptr idx : list Z) (val : list D)
    (r c : nat) :
  c < n -> pointed n items ptr ->
  slice (key_start c items) (key_count c items) (zip idx val) = bucket c items ->
  key_start c items + key_count c items <= length idx ->
  CSCMatrix.get (Z.of_nat r) (Z.of_nat c)
    (CSMatrix.Build (Z.of_nat n) (Z.of_nat n) idx ptr val)
  = Ok (lookup_minor (Z.of_nat r) (bucket c items)).
Proof.
  intros Hc [Hlp Hp] Hb Hfit. unfold CSCMatrix.get. cbn [CSMatrix._indPointer].
  rewrite atZ_of_nat, (at_lookup _ _ _ (Hp c ltac:(lia))). cbn [rbind].
  replace (Z.of_nat c + 1)%Z with (Z.of_nat (S c)) by lia.
  rewrite atZ_of_nat, (at_lookup _ _ _ (Hp (S c) ltac:(lia))). cbn [rbind].
  rewrite key_start_S.
  replace (Z.to_nat _) with (length (bucket c items))
    by (rewrite bucket_length; lia).
  apply get_scan_spec. cbn [CSMatrix._index CSMatrix._value].
  intros i x v Hi. apply zip_lookup.
  assert (i < key_count c items)
    by (apply lookup_lt_Some in Hi; rewrite bucket_length in Hi; exact Hi).
  rewrite <- Hb, slice_lookup in Hi by assumption. exact Hi.
Qed.

Section OfTriples.
Variable all : list (Z * Z * D).
Hypothesis Hkeys : keys_below n all.
Hypothesis Hminors : minors_below n all.

Lemma CSC_of_triples_correct :
  exists m,
    CSCMatrix.from_triplet (of_triples (Z.of_nat n) (Z.of_nat n) all) = (Ok tt, m) /\
    compressed_invariants n m /\
    forall r c, r < n -> c < n ->
      CSCMatrix.get (Z.of_nat r) (Z.of_nat c) m
      = Ok (sum_at (Z.of_nat r) (Z.of_nat c) all).
Proof.
  destruct (CSC_of_triples_square n all Hkeys Hminors)
    as (ptr & idx & val & Hrun & Hptr & Hli & Hlv & Hb).
  pose proof (items_upto_keys n all Hminors n) as Hik.
  eexists. split; [exact Hrun |]. split.
  - apply (scattered_invariants (items_upto all n)); try assumption.
    intros k. apply bucket_items_upto_sorted.
  - intros r c Hr Hc.
    rewrite (scattered_get (items_upto all n)); try assumption.
    + rewrite lookup_items_upto. destruct (decide (r < n)); [| lia].
      rewrite lookup_dedupe, sum_at_bucket. reflexivity.
    + apply Hb, Hc.
    + rewrite Hli. apply (key_start_next n); assumption.
Qed.

End OfTriples.

Lemma triples_transposed (A : TripletMatrix.t D) :
  TripletMatrix.wf A ->
  TripletMatrix.triples (transposed A)
  = (fun e => (e.1.2, e.1.1, e.2)) <$> TripletMatrix.triples A.
Proof.
  intros [Hc Hv]. unfold TripletMatrix.triples, transposed.
  cbn [TripletMatrix._rowIndex TripletMatrix._colIndex TripletMatrix._value].
  generalize dependent (TripletMatrix._value A).
  generalize dependent (TripletMatrix._colIndex A).
  induction (TripletMatrix._rowIndex A) as [|r rows IH]; intros [|c cols] Hc [|v vals] Hv;
    simpl in *; try discriminate; [reflexivity |].
  f_equal. apply IH; lia.
Qed.

Lemma sum_at_transposed (r c : Z) (l : list (Z * Z * D)) :
  sum_at c r ((fun e => (e.1.2, e.1.1, e.2)) <$> l) = sum_at r c l.
Proof.
  unfold sum_at. generalize (@d_zero D _).
  induction l as [|e l IH]; intros acc; [reflexivity |].
  simpl. rewrite IH. f_equal. rewrite andb_comm. reflexivity.
Qed.

Lemma CSR_from_triplet_transposed (A : TripletMatrix.t D) :
  TripletMatrix._numRows A = TripletMatrix._numCols A ->
  CSRMatrix.from_triplet A = CSCMatrix.from_triplet (transposed A).
Proof.
  intros Hsq. destruct A as [nr nc rows cols vals]. simpl in Hsq. subst nc.
  reflexivity.
Qed.

(** For a square triplet matrix with in-bounds entries,
    [CSCMatrix ( tripletMatrix )] builds a matrix with the invariants of the
    compressed format whose [get] agrees with [TripletMatrix::get]. *)
Theorem CSC_from_triplet_square (A : TripletMatrix.t D) :
  TripletMatrix.wf A ->
  TripletMatrix._numRows A = Z.of_nat n -> TripletMatrix._numCols A = Z.of_nat n ->
  keys_below n (TripletMatrix.triples A) -> minors_below n (TripletMatrix.triples A) ->
  exists m,
    CSCMatrix.from_triplet A = (Ok tt, m) /\
    compressed_invariants n m /\
    forall r c, r < n -> c < n ->
      CSCMatrix.get (Z.of_nat r) (Z.of_nat c) m
      = TripletMatrix.get (Z.of_nat r) (Z.of_nat c) A.
Proof.
  intros Hwf Hrows Hcols Hkeys Hminors.
  destruct (CSC_of_triples_correct (TripletMatrix.triples A) Hkeys Hminors)
    as (m & Hrun & Hinv & Hget).
  assert (HA : of_triples (Z.of_nat n) (Z.of_nat n) (TripletMatrix.triples A) = A).
  { rewrite <- Hrows at 1. rewrite <- Hcols. symmetry. apply of_triples_triples, Hwf. }
  rewrite HA in Hrun. exists m. split; [exact Hrun |]. split; [exact Hinv |].
  intros r c Hr Hc. rewrite (get_sum_at _ _ A Hwf). apply Hget; assumption.
Qed.

(** The same for [CSRMatrix ( tripletMatrix )]. *)
Theorem CSR_from_triplet_square (A : TripletMatrix.t D) :
  TripletMatrix.wf A ->
  TripletMatrix._numRows A = Z.of_nat n -> TripletMatrix._numCols A = Z.of_nat n ->
  keys_below n (TripletMatrix.triples A) -> minors_below n (TripletMatrix.triples A) ->
  exists m,
    CSRMatrix.from_triplet A = (Ok tt, m) /\
    compressed_invariants n m /\
    forall r c, r < n -> c < n ->
      CSRMatrix.get (Z.of_nat r) (Z.of_nat c) m
      = TripletMatrix.get (Z.of_nat r) (Z.of_nat c) A.
Proof.
  intros Hwf Hrows Hcols Hkeys Hminors.
  assert (Hwf' : TripletMatrix.wf (transposed A)).
  { destruct Hwf as [Hc Hv]. split; simpl; lia. }
  destruct (CSC_from_triplet_square (transposed A) Hwf' Hcols Hrows)
    as (m & Hrun & Hinv & Hget).
  - rewrite (triples_transposed A Hwf). apply Forall_fmap.
    eapply Forall_impl; [exact Hminors |]. intros e He. exact He.
  - rewrite (triples_transposed A Hwf). apply Forall_fmap.
    eapply Forall_impl; [exact Hkeys |]. intros e He. exact He.
  - exists m. split; [| split; [exact Hinv |]].
    + rewrite CSR_from_triplet_transposed by congruence. exact Hrun.
    + intros r c Hr Hc.
      change (CSRMatrix.get (Z.of_nat r) (Z.of_nat c) m)
        with (CSCMatrix.get (Z.of_nat c) (Z.of_nat r) m).
      rewrite (Hget c r Hc Hr), (get_sum_at _ _ _ Hwf'), (get_sum_at _ _ A Hwf).
      rewrite (triples_transposed A Hwf), sum_at_transposed. reflexivity.
Qed.

End Square.

(** An instance: a 2 x 2 matrix with a duplicated position, entered out of
    order. *)
Example CSC_from_triplet_square_example :
  exists m,
    CSCMatrix.from_triplet
      (of_triples 2 2 [(1, 0, 5); (0, 1, 2); (1, 0, 7); (0, 0, 1)]%Z) = (Ok tt, m) /\
    compressed_invariants 2 m /\
    CSCMatrix.get 1 0 m = Ok 12%Z.
Proof.
  destruct (CSC_from_triplet_square (D := Z) 2
              (of_triples 2 2 [(1, 0, 5); (0, 1, 2); (1, 0, 7); (0, 0, 1)]%Z))
    as (m & Hrun & Hinv & Hget).
  - split; reflexivity.
  - reflexivity.
  - reflexivity.
  - repeat constructor; simpl; lia.
  - repeat constructor; simpl; lia.
  - exists m. split; [exact Hrun |]. split; [exact Hinv |].
    exact (Hget 1 0 ltac:(lia) ltac:(lia)).
Qed.

(** ** TripletMatrix: [add], [set], [setRowToZero], [setColToZero], [setRowColToDiagonal] *)

Section TripletZeroing.
Context {D : Type} `{DataTypeLaws D}.
Variables numRows numCols : Z.

Local Abbreviation mk := (of_triples numRows numCols).

Lemma erase_scan_never {A} (u : A -> A) (l : list A) :
  erase_scan (fun _ => false) u l = u <$> l.
Proof. induction l as [|e l IH]; [reflexivity |]. simpl. rewrite IH. reflexivity. Qed.

Lemma value_store_middle (P l : list (Z * Z * D)) (e : Z * Z * D) (y : D) :
  TripletMatrix.value_store (length P) y (mk (P ++ e :: l))
  = (Ok tt, mk (P ++ (e.1, y) :: l)).
Proof.
  destruct e as [[r c] x].
  rewrite (value_store_mk numRows numCols _ _ r c x y) by apply list_lookup_middle, eq_refl.
  rewrite insert_app_r_alt by lia. rewrite Nat.sub_diag. reflexivity.
Qed.

(** A loop that zeroes the value of the triples [hit] holds of. *)
Lemma zeroing_loop (bound : TripletMatrix.t D -> nat)
    (body : nat -> M (TripletMatrix.t D) unit) (hit : Z * Z * D -> bool) :
  (forall l, bound (mk l) = length l) ->
  (forall P e l,
     body (length P) (mk (P ++ e :: l)) = (Ok tt, mk (P ++ zeroed hit e :: l))) ->
  forall l, for_lt (length l) bound body 0 (mk l) = (Ok tt, mk (zeroed hit <$> l)).
Proof.
  intros Hbound Hbody l.
  rewrite <- (erase_scan_never (zeroed hit) l).
  apply (erase_scan_loop numRows numCols bound body (fun _ => false) (zeroed hit)
           Hbound Hbody (length l) [] l).
  lia.
Qed.

Lemma setRowToZero_spec (i : Z) (l : list (Z * Z * D)) :
  TripletMatrix.setRowToZero i (mk l)
  = (Ok tt, mk (zeroed (fun e => (e.1.1 =? i)%Z) <$> l)).
Proof.
  unfold TripletMatrix.setRowToZero. cbn [of_triples TripletMatrix._rowIndex].
  rewrite length_fmap. apply zeroing_loop.
  - intros l'. simpl. apply length_fmap.
  - intros P e l'. unfold bind, read, ret. cbn [of_triples TripletMatrix._rowIndex].
    rewrite at_middle. unfold zeroed. destruct (e.1.1 =? i)%Z.
    + apply value_store_middle.
    + reflexivity.
Qed.

Lemma setColToZero_spec (j : Z) (l : list (Z * Z * D)) :
  TripletMatrix.setColToZero j (mk l)
  = (Ok tt, mk (zeroed (fun e => (e.1.2 =? j)%Z) <$> l)).
Proof.
  unfold TripletMatrix.setColToZero. cbn [of_triples TripletMatrix._rowIndex].
  rewrite length_fmap. apply zeroing_loop.
  - intros l'. simpl. apply length_fmap.
  - intros P e l'. unfold bind, read, ret. cbn [of_triples TripletMatrix._colIndex].
    rewrite at_middle. unfold zeroed. destruct (e.1.2 =? j)%Z.
    + apply value_store_middle.
    + reflexivity.
Qed.

(** The sum at a position all of whose triples are hit is zero; the sum at
    a position none of whose triples is hit is kept. *)
Lemma sum_at_zeroed_zero (hit : Z * Z * D -> bool) (row col : Z) (l : list (Z * Z * D)) :
  Forall (fun e => at_position row col e = true -> hit e = true \/ e.2 = d_zero) l ->
  sum_at row col (zeroed hit <$> l) = d_zero.
Proof.
  intros Hl. unfold sum_at.
  assert (Hgen : forall acc, acc = d_zero ->
    fold_left (fun acc e => if (e.1.1 =? row)%Z && (e.1.2 =? col)%Z
                            then d_add acc e.2 else acc) (zeroed hit <$> l) acc = d_zero).
  { induction Hl as [|e l He _ IH]; intros acc Hacc; [exact Hacc |].
    simpl. apply IH. unfold zeroed. unfold at_position in He.
    destruct (hit e) eqn:Hh; simpl.
    - destruct (_ && _); [rewrite Hacc; apply d_add_zero_l | exact Hacc].
    - destruct (_ && _); [| exact Hacc].
      destruct (He eq_refl) as [Hhe | Hz]; [congruence |].
      rewrite Hz, Hacc. apply d_add_zero_l. }
  apply Hgen. reflexivity.
Qed.

Lemma sum_at_zeroed_hit (hit : Z * Z * D -> bool) (row col : Z) (l : list (Z * Z * D)) :
  (forall e, at_position row col e = true -> hit e = true) ->
  sum_at row col (zeroed hit <$> l) = d_zero.
Proof.
  intros Hhit. apply sum_at_zeroed_zero, Forall_forall. intros e _ Hat. left. auto.
Qed.

Lemma sum_at_zeroed_miss (hit : Z * Z * D -> bool) (row col : Z) (l : list (Z * Z * D)) :
  (forall e, at_position row col e = true -> hit e = false) ->
  sum_at row col (zeroed hit <$> l) = sum_at row col l.
Proof.
  intros Hmiss. unfold sum_at. generalize (@d_zero D _).
  induction l as [|e l IH]; intros acc; [reflexivity |].
  simpl. rewrite IH. f_equal. unfold zeroed. destruct (hit e) eqn:Hh; [| reflexivity].
  simpl. specialize (Hmiss e). unfold at_position in Hmiss.
  destruct (_ && _); [| reflexivity]. rewrite Hmiss in Hh by reflexivity. discriminate.
Qed.

Lemma sum_at_snoc (row col : Z) (l : list (Z * Z * D)) (e : Z * Z * D) :
  sum_at row col (l ++ [e])
  = if at_position row col e then d_add (sum_at row col l) e.2 else sum_at row col l.
Proof. unfold sum_at, at_position. rewrite fold_left_app. reflexivity. Qed.

End TripletZeroing.

Section TripletWrites.
Context {D : Type} `{DataTypeLaws D}.

Lemma appended_of_triples (numRows numCols i j : Z) (v : D) (l : list (Z * Z * D)) :
  appended i j v (of_triples numRows numCols l)
  = of_triples numRows numCols (l ++ [(i, j, v)]).
Proof. unfold appended, of_triples. simpl. rewrite !fmap_app. reflexivity. Qed.

Lemma setEntryToZero_zeroed (numRows numCols row col : Z) (l : list (Z * Z * D)) :
  TripletMatrix.setEntryToZero row col (of_triples numRows numCols l)
  = (Ok tt, of_triples numRows numCols (zeroed (at_position row col) <$> l)).
Proof.
  unfold TripletMatrix.setEntryToZero. cbn [of_triples TripletMatrix._rowIndex].
  rewrite length_fmap. apply zeroing_loop.
  - intros l'. simpl. apply length_fmap.
  - intros P e l'. unfold bind, read, ret.
    cbn [of_triples TripletMatrix._rowIndex TripletMatrix._colIndex].
    rewrite at_middle. unfold zeroed, at_position. destruct (e.1.1 =? row)%Z; simpl.
    + rewrite at_middle. destruct (e.1.2 =? col)%Z.
      * apply value_store_middle.
      * reflexivity.
    + reflexivity.
Qed.

Lemma get_of_triples (numRows numCols row col : Z) (l : list (Z * Z * D)) :
  TripletMatrix.get row col (of_triples numRows numCols l) = Ok (sum_at row col l).
Proof.
  rewrite get_sum_at by apply wf_of_triples. rewrite triples_of_triples. reflexivity.
Qed.

Lemma at_position_other (row col i j : Z) (e : Z * Z * D) :
  (row, col) <> (i, j) -> at_position row col e = true -> at_position i j e = false.
Proof.
  unfold at_position. intros Hne Hat.
  apply andb_true_iff in Hat as [Hr Hc]. apply Z.eqb_eq in Hr, Hc.
  destruct (Z.eqb_spec e.1.1 i), (Z.eqb_spec e.1.2 j); try reflexivity.
  exfalso. apply Hne. congruence.
Qed.

(** X1. [add ( i, j, v )] on a triplet matrix: when the range test lets
    the write through (always in an unchecked build), [get] at [(i, j)]
    grows by [v] and [get] at every other position is unchanged; when the
    test of a checked build fails, an exception is raised and the matrix is
    unchanged. *)
Theorem add_then_get (bc : bool) (m : TripletMatrix.t D) (i j : Z) (v : D) :
  TripletMatrix.wf m ->
  (passes_add_check bc i j m ->
   exists m',
     TripletMatrix.add bc i j v m = (Ok tt, m') /\
     TripletMatrix.wf m' /\
     forall row col, exists g,
       TripletMatrix.get row col m = Ok g /\
       TripletMatrix.get row col m'
       = Ok (if (row =? i)%Z && (col =? j)%Z then d_add g v else g)) /\
  (~ passes_add_check bc i j m ->
   exists msg, TripletMatrix.add bc i j v m = (Throw (Exception msg), m)).
Proof.
  intros Hwf. split.
  - intros Hpass. exists (appended i j v m).
    split; [apply add_passes, Hpass |].
    rewrite (of_triples_triples m Hwf), appended_of_triples.
    split; [apply wf_of_triples |].
    intros row col. exists (sum_at row col (TripletMatrix.triples m)).
    rewrite !get_of_triples. split; [reflexivity |].
    rewrite sum_at_snoc. unfold at_position. simpl.
    rewrite (Z.eqb_sym i row), (Z.eqb_sym j col). reflexivity.
  - intros Hfail. unfold passes_add_check in Hfail.
    destruct bc; [| exfalso; apply Hfail; discriminate].
    unfold TripletMatrix.add, bind, read, throw. simpl.
    destruct (Z.ltb_spec (TripletMatrix.getNumRows m) i); [eauto |].
    destruct (Z.ltb_spec (TripletMatrix.getNumCols m) j); [eauto |].
    exfalso. apply Hfail. intros _. lia.
Qed.

(** X2. [set ( i, j, v )] changes no other position: [get] at every
    position other than [(i, j)] returns what it returned before. *)
Theorem set_keeps_other_positions (bc : bool) (m : TripletMatrix.t D) (i j : Z) (v : D) :
  TripletMatrix.wf m ->
  passes_add_check bc i j m ->
  exists m',
    TripletMatrix.set bc i j v m = (Ok tt, m') /\
    TripletMatrix.wf m' /\
    forall row col, (row, col) <> (i, j) ->
      TripletMatrix.get row col m' = TripletMatrix.get row col m.
Proof.
  intros Hwf Hpass.
  set (nr := TripletMatrix._numRows m). set (nc := TripletMatrix._numCols m).
  set (l := TripletMatrix.triples m).
  assert (Hm : m = of_triples nr nc l) by apply of_triples_triples, Hwf.
  exists (of_triples nr nc ((zeroed (at_position i j) <$> l) ++ [(i, j, v)])).
  split; [| split; [apply wf_of_triples |]].
  - rewrite Hm at 1. unfold TripletMatrix.set, bind.
    rewrite setEntryToZero_zeroed, <- appended_of_triples. apply add_passes.
    intros Hbc. apply (Hpass Hbc).
  - intros row col Hne. rewrite Hm at 1. rewrite !get_of_triples. f_equal.
    rewrite sum_at_snoc.
    replace (at_position row col (i, j, v)) with false.
    + apply sum_at_zeroed_miss. intros e. apply at_position_other, Hne.
    + symmetry. unfold at_position. simpl.
      destruct (Z.eqb_spec i row), (Z.eqb_spec j col); try reflexivity.
      exfalso. apply Hne. congruence.
Qed.

(** X3. [setRowToZero ( i )] and [setColToZero ( i )]: every position of
    the row (column) reads zero afterwards, every position of another row
    (column) reads what it read before, and the triples stay stored. *)
Theorem setRowToZero_setColToZero (m : TripletMatrix.t D) (i : Z) :
  TripletMatrix.wf m ->
  (exists m',
     TripletMatrix.setRowToZero i m = (Ok tt, m') /\
     TripletMatrix.wf m' /\
     length (TripletMatrix.triples m') = length (TripletMatrix.triples m) /\
     (forall col, TripletMatrix.get i col m' = Ok d_zero) /\
     (forall row col, row <> i ->
        TripletMatrix.get row col m' = TripletMatrix.get row col m)) /\
  (exists m',
     TripletMatrix.setColToZero i m = (Ok tt, m') /\
     TripletMatrix.wf m' /\
     length (TripletMatrix.triples m') = length (TripletMatrix.triples m) /\
     (forall row, TripletMatrix.get row i m' = Ok d_zero) /\
     (forall row col, col <> i ->
        TripletMatrix.get row col m' = TripletMatrix.get row col m)).
Proof.
  intros Hwf.
  set (nr := TripletMatrix._numRows m). set (nc := TripletMatrix._numCols m).
  set (l := TripletMatrix.triples m).
  assert (Hm : m = of_triples nr nc l) by apply of_triples_triples, Hwf.
  split.
  - exists (of_triples nr nc (zeroed (fun e => (e.1.1 =? i)%Z) <$> l)).
    split; [rewrite Hm at 1; apply setRowToZero_spec |].
    split; [apply wf_of_triples |].
    split; [rewrite triples_of_triples; apply length_fmap |]. split.
    + intros col. rewrite get_of_triples. f_equal. apply sum_at_zeroed_hit.
      intros e Hat. apply andb_true_iff in Hat as [Hr _]. exact Hr.
    + intros row col Hne. rewrite Hm at 1. rewrite !get_of_triples. f_equal.
      apply sum_at_zeroed_miss. intros e Hat.
      apply andb_true_iff in Hat as [Hr _]. apply Z.eqb_eq in Hr.
      destruct (Z.eqb_spec e.1.1 i); [congruence | reflexivity].
  - exists (of_triples nr nc (zeroed (fun e => (e.1.2 =? i)%Z) <$> l)).
    split; [rewrite Hm at 1; apply setColToZero_spec |].
    split; [apply wf_of_triples |].
    split; [rewrite triples_of_triples; apply length_fmap |]. split.
    + intros row. rewrite get_of_triples. f_equal. apply sum_at_zeroed_hit.
      intros e Hat. apply andb_true_iff in Hat as [_ Hc]. exact Hc.
    + intros row col Hne. rewrite Hm at 1. rewrite !get_of_triples. f_equal.
      apply sum_at_zeroed_miss. intros e Hat.
      apply andb_true_iff in Hat as [_ Hc]. apply Z.eqb_eq in Hc.
      destruct (Z.eqb_spec e.1.2 i); [congruence | reflexivity].
Qed.

(** X4. [setRowColToDiagonal ( index, diagEntry )]: afterwards the
    diagonal position reads [diagEntry], every other position of the row
    and of the column reads zero, and all other positions are unchanged. *)
Theorem setRowColToDiagonal_spec (bc : bool) (m : TripletMatrix.t D) (index : Z)
    (diagEntry : D) :
  TripletMatrix.wf m ->
  passes_add_check bc index index m ->
  exists m',
    TripletMatrix.setRowColToDiagonal bc index diagEntry m = (Ok tt, m') /\
    TripletMatrix.wf m' /\
    TripletMatrix.get index index m' = Ok diagEntry /\
    (forall k, k <> index ->
       TripletMatrix.get index k m' = Ok d_zero /\
       TripletMatrix.get k index m' = Ok d_zero) /\
    (forall row col, row <> index -> col <> index ->
       TripletMatrix.get row col m' = TripletMatrix.get row col m).
Proof.
  intros Hwf Hpass.
  set (nr := TripletMatrix._numRows m). set (nc := TripletMatrix._numCols m).
  set (l := TripletMatrix.triples m).
  assert (Hm : m = of_triples nr nc l) by apply of_triples_triples, Hwf.
  set (hr := fun e : Z * Z * D => (e.1.1 =? index)%Z).
  set (hc := fun e : Z * Z * D => (e.1.2 =? index)%Z).
  set (l2 := zeroed hc <$> (zeroed hr <$> l)).
  assert (Hrow : forall col, sum_at index col l2 = d_zero).
  { intros col. unfold l2. apply sum_at_zeroed_zero, Forall_fmap, Forall_forall.
    intros e _ Hat. right. unfold at_position, zeroed, hr in *. simpl in *.
    destruct (e.1.1 =? index)%Z eqn:Hr; [reflexivity |].
    simpl in Hat. rewrite Hr in Hat. discriminate. }
  exists (of_triples nr nc (l2 ++ [(index, index, diagEntry)])).
  split; [| split; [apply wf_of_triples |]].
  - rewrite Hm at 1. unfold TripletMatrix.setRowColToDiagonal, bind.
    rewrite setRowToZero_spec, setColToZero_spec, <- appended_of_triples.
    apply add_passes. intros Hbc. apply (Hpass Hbc).
  - split; [| split].
    + rewrite get_of_triples, sum_at_snoc. unfold at_position. simpl.
      rewrite !Z.eqb_refl. simpl. rewrite Hrow. f_equal. apply d_add_zero_l.
    + intros k Hk. rewrite !get_of_triples, !sum_at_snoc. unfold at_position. simpl.
      rewrite Z.eqb_refl. destruct (Z.eqb_spec index k); [congruence |]. simpl.
      split; f_equal; [apply Hrow |].
      unfold l2. apply sum_at_zeroed_hit.
      intros e Hat. apply andb_true_iff in Hat as [_ Hc]. exact Hc.
    + intros row col Hr Hc. rewrite Hm at 1. rewrite !get_of_triples, sum_at_snoc. f_equal.
      unfold at_position at 1. simpl.
      destruct (Z.eqb_spec index row); [congruence |]. simpl.
      unfold l2. rewrite !sum_at_zeroed_miss; [reflexivity | |].
      * intros e Hat. apply andb_true_iff in Hat as [He _]. apply Z.eqb_eq in He.
        unfold hr. destruct (Z.eqb_spec e.1.1 index); [congruence | reflexivity].
      * intros e Hat. apply andb_true_iff in Hat as [_ He]. apply Z.eqb_eq in He.
        unfold hc. destruct (Z.eqb_spec e.1.2 index); [congruence | reflexivity].
Qed.

End TripletWrites.

(** ** TripletMatrix: [eraseValue], [removeZeroEntries] and [sumDuplicates] on every matrix *)

Section TripletEraseValue.
Context {D : Type} `{DataType D}.
Variables numRows numCols : Z.

Local Abbreviation mk := (of_triples numRows numCols).

Lemma eraseValue_loop_filter (row col : Z) :
  forall fuel P l,
  length l <= fuel ->
  TripletMatrix.eraseValue_loop fuel row col (length P) (mk (P ++ l))
  = (Ok tt, mk (P ++ filter (fun e : Z * Z * D => at_position row col e = false) l)).
Proof.
  induction fuel as [|fuel IH]; intros P l Hl.
  - destruct l; [| simpl in Hl; lia]. rewrite filter_nil, !app_nil_r. simpl.
    rewrite length_fmap, Nat.ltb_irrefl. reflexivity.
  - destruct l as [|e l].
    { rewrite filter_nil, !app_nil_r. simpl.
      rewrite length_fmap, Nat.ltb_irrefl. reflexivity. }
    simpl in Hl. cbn [TripletMatrix.eraseValue_loop].
    cbn [of_triples TripletMatrix._rowIndex]. rewrite length_fmap, length_app. simpl.
    destruct (Nat.ltb_spec (length P) (length P + S (length l))); [| lia].
    unfold bind at 1. unfold read at 1. cbn [of_triples TripletMatrix._rowIndex].
    rewrite at_middle.
    destruct (e.1.1 =? row)%Z eqn:Hr; simpl.
    + unfold bind at 1. unfold bind at 1. unfold read at 1.
      cbn [of_triples TripletMatrix._colIndex]. rewrite at_middle. unfold ret at 1.
      destruct (e.1.2 =? col)%Z eqn:Hc; simpl.
      * rewrite filter_cons_False
          by (unfold at_position; rewrite Hr, Hc; discriminate).
        unfold bind. rewrite erase_triple_middle. apply IH. lia.
      * rewrite filter_cons_True
          by (unfold at_position; rewrite Hr, Hc; reflexivity).
        rewrite (app_cons_snoc P (filter (fun e0 : Z * Z * D => at_position row col e0 = false) l) e),
        (app_cons_snoc P l e).
        replace (S (length P)) with (length (P ++ [e])) by (rewrite length_app; simpl; lia).
        apply IH. lia.
    + rewrite filter_cons_True by (unfold at_position; rewrite Hr; reflexivity).
      unfold bind at 1. unfold ret at 1.
      rewrite (app_cons_snoc P (filter (fun e0 : Z * Z * D => at_position row col e0 = false) l) e),
        (app_cons_snoc P l e).
      replace (S (length P)) with (length (P ++ [e])) by (rewrite length_app; simpl; lia).
      apply IH. lia.
Qed.

Lemma sum_at_filter (keep : Z * Z * D -> bool) (row col : Z) (l : list (Z * Z * D)) :
  (forall e, at_position row col e = true -> keep e = true) ->
  sum_at row col (filter (fun e : Z * Z * D => keep e = true) l) = sum_at row col l.
Proof.
  intros Hkeep. unfold sum_at. generalize (@d_zero D _).
  induction l as [|e l IH]; intros acc; [reflexivity |].
  rewrite filter_cons. destruct (decide (keep e = true)) as [Hk | Hk].
  - simpl. apply IH.
  - simpl. rewrite IH. f_equal. specialize (Hkeep e). unfold at_position in Hkeep.
    destruct (_ && _); [| reflexivity]. exfalso. apply Hk, Hkeep. reflexivity.
Qed.

Lemma sum_at_none (row col : Z) (l : list (Z * Z * D)) :
  Forall (fun e => at_position row col e = false) l -> sum_at row col l = d_zero.
Proof.
  intros Hl. unfold sum_at. generalize (@d_zero D _).
  induction Hl as [|e l He _ IH]; intros acc; [reflexivity |].
  simpl. unfold at_position in He. rewrite He. apply IH.
Qed.

End TripletEraseValue.

Section TripletEraseValueSpec.
Context {D : Type} `{DataType D}.

(** X5. [eraseValue ( row, col )] returns, removes exactly the stored
    triples of the position and keeps the others in their order; the
    position reads zero afterwards and every other position is unchanged. *)
Theorem eraseValue_spec (m : TripletMatrix.t D) (row col : Z) :
  TripletMatrix.wf m ->
  exists m',
    TripletMatrix.eraseValue row col m = (Ok tt, m') /\
    TripletMatrix.wf m' /\
    TripletMatrix.triples m'
    = filter (fun e : Z * Z * D => at_position row col e = false) (TripletMatrix.triples m) /\
    TripletMatrix.get row col m' = Ok d_zero /\
    forall r c, (r, c) <> (row, col) ->
      TripletMatrix.get r c m' = TripletMatrix.get r c m.
Proof.
  intros Hwf.
  set (nr := TripletMatrix._numRows m). set (nc := TripletMatrix._numCols m).
  set (l := TripletMatrix.triples m).
  assert (Hm : m = of_triples nr nc l) by apply of_triples_triples, Hwf.
  exists (of_triples nr nc (filter (fun e : Z * Z * D => at_position row col e = false) l)).
  split; [| split; [apply wf_of_triples | split; [apply triples_of_triples | split]]].
  - rewrite Hm at 1. unfold TripletMatrix.eraseValue.
    cbn [of_triples TripletMatrix._rowIndex]. rewrite length_fmap.
    apply (eraseValue_loop_filter nr nc row col (length l) [] l). lia.
  - rewrite get_sum_at by apply wf_of_triples. rewrite triples_of_triples. f_equal.
    apply sum_at_none, Forall_forall. intros e He.
    apply list_elem_of_filter in He as [He _]. exact He.
  - intros r c Hne. rewrite Hm at 1.
    rewrite !get_sum_at by apply wf_of_triples. rewrite !triples_of_triples. f_equal.
    etransitivity; [| apply (sum_at_filter (fun e => negb (at_position row col e)))].
    + f_equal. apply list_filter_iff. intros e. destruct (at_position row col e); simpl.
      * split; discriminate.
      * split; reflexivity.
    + intros e Hat. rewrite (at_position_other r c row col e Hne Hat). reflexivity.
Qed.

End TripletEraseValueSpec.

Section RemoveZeroEntries.
Context {D : Type} `{DataTypeLaws D} `{!DataTypeCommutative D}.

Lemma no_adjacent_zeros_tail (e : Z * Z * D) (l : list (Z * Z * D)) :
  no_adjacent_zeros (e :: l) -> no_adjacent_zeros l.
Proof. intros Hn k a b Ha Hb. apply (Hn (S k) a b); assumption. Qed.

Lemma erase_scan_length_le {A} (hit : A -> bool) (u : A -> A) (l : list A) :
  length (erase_scan hit u l) <= length l.
Proof.
  remember (length l) as k eqn:Hk.
  assert (Hle : length l <= k) by lia. rewrite Hk. clear Hk. revert l Hle.
  induction k as [|k IH]; intros l Hle.
  - destruct l; [simpl; lia | simpl in Hle; lia].
  - destruct l as [|e l]; [simpl; lia |]. simpl in Hle. cbn [erase_scan].
    destruct (hit e).
    + destruct l as [|e' l]; [simpl; lia |]. simpl in *.
      specialize (IH l ltac:(lia)). lia.
    + simpl. specialize (IH l ltac:(lia)). lia.
Qed.

Lemma kept_without_adjacent_zeros (l : list (Z * Z * D)) :
  no_adjacent_zeros l ->
  kept_by_removeZeroEntries l = filter (fun e : Z * Z * D => d_eqb e.2 d_zero = false) l.
Proof.
  unfold kept_by_removeZeroEntries.
  remember (length l) as k eqn:Hk.
  assert (Hle : length l <= k) by lia. clear Hk. revert l Hle.
  induction k as [|k IH]; intros l Hle Hn.
  - destruct l; [reflexivity | simpl in Hle; lia].
  - destruct l as [|e l]; [reflexivity |]. simpl in Hle. cbn [erase_scan].
    destruct (d_eqb e.2 d_zero) eqn:Hz.
    + rewrite filter_cons_False by (rewrite Hz; discriminate).
      destruct l as [|e' l]; [reflexivity |].
      pose proof (Hn 0 e e' eq_refl eq_refl Hz) as Hz'.
      rewrite filter_cons_True by exact Hz'. f_equal.
      apply IH; [simpl in Hle; lia |].
      apply (no_adjacent_zeros_tail e'), (no_adjacent_zeros_tail e), Hn.
    + rewrite filter_cons_True by exact Hz. simpl. f_equal.
      apply IH; [lia |]. apply (no_adjacent_zeros_tail e), Hn.
Qed.

(** X6. [removeZeroEntries] returns and changes no [get]; it never stores
    more triples than before, and where no stored zero follows another one
    it leaves exactly the triples whose value is not zero. *)
Theorem removeZeroEntries_keeps_get (m : TripletMatrix.t D) :
  TripletMatrix.wf m ->
  exists m',
    TripletMatrix.removeZeroEntries m = (Ok tt, m') /\
    TripletMatrix.wf m' /\
    (forall row col, TripletMatrix.get row col m' = TripletMatrix.get row col m) /\
    length (TripletMatrix.triples m') <= length (TripletMatrix.triples m) /\
    (no_adjacent_zeros (TripletMatrix.triples m) ->
     TripletMatrix.triples m'
     = filter (fun e : Z * Z * D => d_eqb e.2 d_zero = false) (TripletMatrix.triples m)).
Proof.
  intros Hwf. eexists. split; [apply removeZeroEntries_spec, Hwf |].
  split; [apply wf_of_triples |]. rewrite triples_of_triples. split; [| split].
  - intros row col. rewrite get_sum_at by apply wf_of_triples.
    rewrite (get_sum_at row col m Hwf), triples_of_triples, kept_same_sum. reflexivity.
  - apply erase_scan_length_le.
  - apply kept_without_adjacent_zeros.
Qed.

(** X7. [sumDuplicates] on a matrix with at least one stored triple
    returns and changes no [get], whatever order [std::sort] leaves
    triples of equal position in: the scan with any permutation [index]
    of the positions keeps every [get], and so does [sumDuplicates]. *)
Theorem sumDuplicates_keeps_every_get (m : TripletMatrix.t D) :
  TripletMatrix.wf m ->
  0 < length (TripletMatrix.triples m) ->
  (Z.of_nat (length (TripletMatrix.triples m)) < 2 ^ 64)%Z ->
  (forall index, index ≡ₚ seq 0 (length (TripletMatrix.triples m)) ->
     exists m',
       TripletMatrix.sumDuplicates_with index m = (Ok tt, m') /\
       TripletMatrix.wf m' /\
       forall row col, TripletMatrix.get row col m' = TripletMatrix.get row col m) /\
  (exists m',
     TripletMatrix.sumDuplicates m = (Ok tt, m') /\
     TripletMatrix.wf m' /\
     forall row col, TripletMatrix.get row col m' = TripletMatrix.get row col m).
Proof.
  intros Hwf Hpos Hbig.
  set (nr := TripletMatrix._numRows m). set (nc := TripletMatrix._numCols m).
  set (l0 := TripletMatrix.triples m) in *.
  assert (Hm : m = of_triples nr nc l0) by (apply of_triples_triples, Hwf).
  assert (Hany : forall index, index ≡ₚ seq 0 (length l0) ->
     exists m',
       TripletMatrix.sumDuplicates_with index m = (Ok tt, m') /\
       TripletMatrix.wf m' /\
       forall row col, TripletMatrix.get row col m' = TripletMatrix.get row col m).
  { intros index Hperm.
    assert (Hlen : length index = length l0) by (rewrite Hperm; apply length_seq).
    assert (Hrange : forall j a, index !! j = Some a -> a < length l0).
    { intros j a Hj. apply list_elem_of_lookup_2 in Hj. rewrite Hperm in Hj.
      apply elem_of_seq in Hj. lia. }
    assert (Hinj : forall i j a, index !! i = Some a -> index !! j = Some a -> i = j).
    { intros i j a Hi Hj. eapply NoDup_lookup; [| exact Hi | exact Hj].
      rewrite Hperm. apply NoDup_seq. }
    destruct (sumDuplicates_outer_spec nr nc index (length l0) Hlen Hrange Hinj l0
                eq_refl Hpos Hbig (S (length index)) 0 l0 (same_sums_refl l0))
      as (l1 & Hscan & Hs1); [lia |].
    exists (of_triples nr nc (kept_by_removeZeroEntries l1)).
    split; [| split].
    - rewrite Hm at 1. unfold TripletMatrix.sumDuplicates_with, bind.
      rewrite Hscan.
      rewrite (removeZeroEntries_spec (of_triples nr nc l1)) by apply wf_of_triples.
      rewrite triples_of_triples. reflexivity.
    - apply wf_of_triples.
    - intros row col. rewrite (get_sum_at row col m Hwf).
      rewrite get_sum_at by apply wf_of_triples.
      rewrite triples_of_triples, kept_same_sum. f_equal. apply Hs1. }
  split; [exact Hany |].
  destruct (getRowColIndexSorting_perm nr nc l0) as (index & Hsort & Hperm).
  destruct (Hany index Hperm) as (m' & Hrun & Hwf' & Hget).
  exists m'. split; [| split; assumption].
  rewrite <- Hm in Hsort.
  unfold TripletMatrix.sumDuplicates, bind, read. rewrite Hsort. exact Hrun.
Qed.

End RemoveZeroEntries.

(** ** TripletMatrix: [addMultipleRowToRow] *)

#[export] Instance Z_DataTypeRing : DataTypeRing Z.
Proof.
  split; simpl; intros; lia.
Qed.

(** A loop whose bound changes while it runs, but stays below [N]. *)
Lemma for_lt_grow {St} (I : nat -> St -> Prop) (N : nat) (bound : St -> nat)
    (body : nat -> M St unit) :
  (forall k s, I k s -> bound s <= N) ->
  (forall k s, I k s -> k < bound s -> exists s', body k s = (Ok tt, s') /\ I (S k) s') ->
  forall fuel k s, N - k <= fuel -> I k s ->
  exists k' s', for_lt fuel bound body k s = (Ok tt, s') /\ I k' s' /\ bound s' <= k'.
Proof.
  intros Hb Hstep. induction fuel as [|fuel IH]; intros k s Hf HI.
  - exists k, s. simpl. pose proof (Hb k s HI).
    destruct (Nat.ltb_spec k (bound s)); [lia |]. auto.
  - simpl. destruct (Nat.ltb_spec k (bound s)) as [Hlt | Hge].
    + destruct (Hstep k s HI Hlt) as (s' & Hbody & HI').
      unfold bind. rewrite Hbody. apply IH; [lia | exact HI'].
    + exists k, s. auto.
Qed.

(** A loop that always finds its bound ahead does not end. *)
Lemma for_lt_diverges {St} (J : nat -> St -> Prop) (bound : St -> nat)
    (body : nat -> M St unit) :
  (forall k s, J k s -> k < bound s) ->
  (forall k s, J k s -> exists s', body k s = (Ok tt, s') /\ J (S k) s') ->
  forall fuel k s, J k s -> (for_lt fuel bound body k s).1 = Throw FuelExhausted.
Proof.
  intros Hb Hstep. induction fuel as [|fuel IH]; intros k s HJ.
  - simpl. pose proof (Hb k s HJ). destruct (Nat.ltb_spec k (bound s)); [reflexivity | lia].
  - simpl. pose proof (Hb k s HJ). destruct (Nat.ltb_spec k (bound s)); [| lia].
    destruct (Hstep k s HJ) as (s' & Hbody & HJ').
    unfold bind. rewrite Hbody. apply IH, HJ'.
Qed.

Section AddMultiple.
Context {D : Type} `{DataTypeLaws D}.
Variables (bc : bool) (numRows numCols : Z).
Variables (from to : Z) (multiple : D).

Local Abbreviation mk := (of_triples numRows numCols).
Local Abbreviation rm := (row_multiples from to multiple).

Lemma row_multiples_snoc (l : list (Z * Z * D)) (e : Z * Z * D) :
  rm (l ++ [e])
  = rm l ++ (if (e.1.1 =? from)%Z then [(to, e.1.2, d_mul multiple e.2)] else []).
Proof.
  unfold row_multiples. rewrite filter_app, fmap_app. f_equal.
  rewrite filter_cons, filter_nil.
  destruct (decide (e.1.1 = from)) as [He | He], (Z.eqb_spec e.1.1 from);
    try contradiction; reflexivity.
Qed.

Lemma row_multiples_length (l : list (Z * Z * D)) : length (rm l) <= length l.
Proof. unfold row_multiples. rewrite length_fmap. apply length_filter. Qed.

Lemma row_multiples_rows (l : list (Z * Z * D)) :
  Forall (fun e => e.1.1 = to) (rm l).
Proof. unfold row_multiples. apply Forall_fmap, Forall_forall. reflexivity. Qed.

(** The body of the loop at a stored triple. *)
Lemma addMultiple_body (P l : list (Z * Z * D)) (e : Z * Z * D) :
  (bc = true -> (to <= numRows)%Z /\ (e.1.1 = from -> (e.1.2 <= numCols)%Z)) ->
  (r <~ read (fun m => Vector.at_ (TripletMatrix._rowIndex m) (length P)) ;;
   if (r =? from)%Z then
     c <~ read (fun m => Vector.at_ (TripletMatrix._colIndex m) (length P)) ;;
     v <~ read (fun m => Vector.at_ (TripletMatrix._value m) (length P)) ;;
     TripletMatrix.add bc to c (d_mul multiple v)
   else ret tt) (mk (P ++ e :: l))
  = (Ok tt,
     mk ((P ++ e :: l)
         ++ (if (e.1.1 =? from)%Z then [(to, e.1.2, d_mul multiple e.2)] else []))).
Proof.
  intros Hpass. unfold bind at 1. unfold read at 1.
  cbn [of_triples TripletMatrix._rowIndex]. rewrite at_middle.
  destruct (Z.eqb_spec e.1.1 from) as [He | He].
  - unfold bind at 1. unfold read at 1. cbn [of_triples TripletMatrix._colIndex].
    rewrite at_middle.
    unfold bind at 1. unfold read at 1. cbn [of_triples TripletMatrix._value].
    rewrite at_middle. rewrite add_passes; [rewrite appended_of_triples; reflexivity |].
    intros Hbc. destruct (Hpass Hbc) as [Hto Hcol].
    unfold TripletMatrix.getNumRows, TripletMatrix.getNumCols. simpl. auto.
  - unfold ret. rewrite app_nil_r. reflexivity.
Qed.

Lemma addMultipleRowToRow_loop_spec (l : list (Z * Z * D)) :
  from <> to ->
  (bc = true ->
   (to <= numRows)%Z /\ Forall (fun e => e.1.1 = from -> (e.1.2 <= numCols)%Z) l) ->
  TripletMatrix.addMultipleRowToRow_loop bc (2 * length l) from to multiple (mk l)
  = (Ok tt, mk (l ++ rm l)).
Proof.
  intros Hne Hpass. unfold TripletMatrix.addMultipleRowToRow_loop.
  set (I := fun (k : nat) (s : TripletMatrix.t D) => s = mk (l ++ rm (take k l))).
  match goal with
  | |- for_lt _ ?bound ?body 0 _ = _ =>
      destruct (for_lt_grow I (2 * length l) bound body) with (fuel := 2 * length l)
        (k := 0) (s := mk l) as (k' & s' & Hrun & HI & Hend)
  end.
  - intros k s HI. unfold I in HI. subst s. cbn [of_triples TripletMatrix._rowIndex].
    rewrite length_fmap, length_app.
    pose proof (row_multiples_length (take k l)). rewrite length_take in *. lia.
  - intros k s HI Hk. unfold I in HI. subst s.
    cbn [of_triples TripletMatrix._rowIndex] in Hk.
    rewrite length_fmap, length_app in Hk.
    destruct (decide (k < length l)) as [Hlt | Hge].
    + destruct (lookup_lt_is_Some_2 l k Hlt) as [e He].
      assert (Hk' : length (take k l) = k) by (rewrite length_take; lia).
      assert (Heq : l ++ rm (take k l)
                    = take k l ++ e :: (drop (S k) l ++ rm (take k l))).
      { rewrite <- (take_drop_middle l k e He) at 1. rewrite <- app_assoc. reflexivity. }
      pose proof (addMultiple_body (take k l) (drop (S k) l ++ rm (take k l)) e) as Hb.
      rewrite Hk' in Hb. eexists. split.
      * rewrite Heq. apply Hb. intros Hbc. destruct (Hpass Hbc) as [Hto Hall].
        split; [exact Hto |]. rewrite Forall_forall in Hall.
        apply Hall. eapply list_elem_of_lookup_2, He.
      * unfold I. rewrite (take_S_r l k e He), row_multiples_snoc.
        rewrite <- Heq, <- app_assoc. reflexivity.
    + rewrite (take_ge l k) in * by lia.
      set (R := rm l) in *. set (j := k - length l).
      destruct (lookup_lt_is_Some_2 R j ltac:(lia)) as [e He].
      assert (Hrow : e.1.1 = to).
      { pose proof (row_multiples_rows l) as HF. rewrite Forall_forall in HF.
        apply HF. eapply list_elem_of_lookup_2, He. }
      assert (Hk' : length (l ++ take j R) = k) by (rewrite length_app, length_take; lia).
      assert (Heq : l ++ R = (l ++ take j R) ++ e :: drop (S j) R).
      { rewrite <- app_assoc, (take_drop_middle R j e He). reflexivity. }
      pose proof (addMultiple_body (l ++ take j R) (drop (S j) R) e) as Hb.
      rewrite Hk' in Hb. destruct (Z.eqb_spec e.1.1 from) as [Hef | Hef]; [congruence |].
      rewrite app_nil_r, <- Heq in Hb.
      eexists. split.
      * apply Hb. intros Hbc. destruct (Hpass Hbc) as [Hto _].
        split; [exact Hto | congruence].
      * unfold I. rewrite (take_ge l (S k)) by lia. reflexivity.
  - lia.
  - unfold I. rewrite take_0. unfold row_multiples. rewrite filter_nil. simpl.
    rewrite app_nil_r. reflexivity.
  - rewrite Hrun. f_equal. unfold I in HI. subst s'.
    cbn [of_triples TripletMatrix._rowIndex] in Hend.
    rewrite length_fmap, length_app in Hend.
    rewrite (take_ge l k') by lia. reflexivity.
Qed.

End AddMultiple.

Section AddMultipleSums.
Context {D : Type} `{DataTypeLaws D} `{!DataTypeCommutative D} `{!DataTypeRing D}.

Lemma sum_at_app (row col : Z) (l l' : list (Z * Z * D)) :
  sum_at row col (l ++ l')
  = fold_left
      (fun acc e => if (e.1.1 =? row)%Z && (e.1.2 =? col)%Z then d_add acc e.2 else acc)
      l' (sum_at row col l).
Proof. unfold sum_at. apply fold_left_app. Qed.

Lemma fold_sum_none (row col : Z) (l : list (Z * Z * D)) (acc : D) :
  Forall (fun e => at_position row col e = false) l ->
  fold_left
    (fun acc e => if (e.1.1 =? row)%Z && (e.1.2 =? col)%Z then d_add acc e.2 else acc)
    l acc = acc.
Proof.
  intros Hl. revert acc. induction Hl as [|e l He _ IH]; intros acc; [reflexivity |].
  simpl. unfold at_position in He. rewrite He. apply IH.
Qed.

Lemma fold_row_multiples (from to col : Z) (multiple : D) (l : list (Z * Z * D)) :
  forall S A B,
  A = d_add S (d_mul multiple B) ->
  fold_left
    (fun acc e => if (e.1.1 =? to)%Z && (e.1.2 =? col)%Z then d_add acc e.2 else acc)
    (row_multiples from to multiple l) A
  = d_add S (d_mul multiple
       (fold_left
          (fun acc e => if (e.1.1 =? from)%Z && (e.1.2 =? col)%Z
                        then d_add acc e.2 else acc) l B)).
Proof.
  induction l as [|e l IH]; intros S A B HA; [exact HA |].
  unfold row_multiples. rewrite filter_cons.
  destruct (decide (e.1.1 = from)) as [He | He].
  - rewrite fmap_cons. cbn [fold_left fst snd]. apply IH.
    rewrite Z.eqb_refl. destruct (Z.eqb_spec e.1.1 from); [| contradiction]. simpl.
    destruct (e.1.2 =? col)%Z; [| exact HA].
    rewrite HA, d_mul_add_distr_l, d_add_assoc. reflexivity.
  - cbn [fold_left]. apply IH.
    destruct (Z.eqb_spec e.1.1 from); [contradiction |]. exact HA.
Qed.

(** X8. [addMultipleRowToRow ( from, to, multiple )] with [from != to]
    returns, although [add] makes the bound of its loop grow: it appends
    one triple for every stored triple of row [from], and the other rows
    are unchanged.  For a scalar type with exact arithmetic (addition
    commutative and associative, multiplication distributing over it, as
    the classes [DataTypeCommutative] and [DataTypeRing] say), every
    position of row [to] afterwards reads its old value plus [multiple]
    times the value at the same column of row [from]; with rounding the
    two sums may differ, since the code multiplies every stored triple of
    row [from] for itself. *)
Theorem addMultipleRowToRow_spec (bc DEBUG : bool) (m : TripletMatrix.t D)
    (from to : Z) (multiple : D) :
  TripletMatrix.wf m ->
  from <> to ->
  row_multiples_pass bc from to m ->
  exists m',
    TripletMatrix.addMultipleRowToRow bc DEBUG from to multiple m = (Ok tt, m') /\
    TripletMatrix.wf m' /\
    TripletMatrix.triples m'
    = TripletMatrix.triples m ++ row_multiples from to multiple (TripletMatrix.triples m) /\
    (forall col, exists g s,
       TripletMatrix.get to col m = Ok g /\
       TripletMatrix.get from col m = Ok s /\
       TripletMatrix.get to col m' = Ok (d_add g (d_mul multiple s))) /\
    (forall row col, row <> to ->
       TripletMatrix.get row col m' = TripletMatrix.get row col m).
Proof.
  intros Hwf Hne Hpass.
  set (nr := TripletMatrix._numRows m). set (nc := TripletMatrix._numCols m).
  set (l := TripletMatrix.triples m).
  assert (Hm : m = of_triples nr nc l) by apply of_triples_triples, Hwf.
  exists (of_triples nr nc (l ++ row_multiples from to multiple l)).
  split; [| split; [apply wf_of_triples | split; [apply triples_of_triples | split]]].
  - rewrite Hm at 1. unfold TripletMatrix.addMultipleRowToRow, bind, QUOC_ASSERT.
    destruct (Z.eqb_spec from to); [contradiction |]. simpl. rewrite andb_false_r.
    unfold ret. cbn [of_triples TripletMatrix._rowIndex]. rewrite length_fmap.
    apply addMultipleRowToRow_loop_spec; [exact Hne |].
    intros Hbc. apply (Hpass Hbc).
  - intros col. exists (sum_at to col l), (sum_at from col l).
    rewrite (get_sum_at to col m Hwf), (get_sum_at from col m Hwf).
    split; [reflexivity |]. split; [reflexivity |].
    rewrite get_of_triples, sum_at_app. f_equal.
    apply fold_row_multiples.
    rewrite d_mul_zero_r, d_add_comm. symmetry. apply d_add_zero_l.
  - intros row col Hrow. rewrite Hm at 1. rewrite !get_of_triples, sum_at_app. f_equal.
    apply fold_sum_none. eapply Forall_impl; [apply row_multiples_rows |].
    intros e He. unfold at_position. simpl in He. rewrite He.
    destruct (Z.eqb_spec to row); [congruence | reflexivity].
Qed.

End AddMultipleSums.

Section AddMultipleSameRow.
Context {D : Type} `{DataType D}.

(** X9. [addMultipleRowToRow ( i, i, multiple )]: in a debug build the
    assertion raises an exception and the matrix is unchanged; without the
    assertion the loop does not end when row [i] holds a stored triple,
    since every copy it appends is copied again. *)
Theorem addMultipleRowToRow_same_row (bc : bool) (m : TripletMatrix.t D) (i : Z)
    (multiple : D) :
  TripletMatrix.wf m ->
  row_multiples_pass bc i i m ->
  (exists e, e ∈ TripletMatrix.triples m /\ e.1.1 = i) ->
  TripletMatrix.addMultipleRowToRow bc true i i multiple m
  = (Throw (Exception "Assertion failed"), m) /\
  forall fuel,
    (TripletMatrix.addMultipleRowToRow_loop bc fuel i i multiple m).1
    = Throw FuelExhausted.
Proof.
  intros Hwf Hpass (e0 & He0 & Hrow0). split.
  - unfold TripletMatrix.addMultipleRowToRow, bind, QUOC_ASSERT, throw.
    rewrite Z.eqb_refl. reflexivity.
  - intros fuel.
    set (nr := TripletMatrix._numRows m). set (nc := TripletMatrix._numCols m).
    set (l0 := TripletMatrix.triples m) in *.
    assert (Hm : m = of_triples nr nc l0) by apply of_triples_triples, Hwf.
    set (J := fun (k : nat) (s : TripletMatrix.t D) =>
      exists l, s = of_triples nr nc l /\
        (bc = true ->
         (i <= nr)%Z /\ Forall (fun e : Z * Z * D => e.1.1 = i -> (e.1.2 <= nc)%Z) l) /\
        exists p e, k <= p /\ l !! p = Some e /\ e.1.1 = i).
    unfold TripletMatrix.addMultipleRowToRow_loop.
    apply (for_lt_diverges J).
    + intros k s (l & -> & _ & p & e & Hkp & Hp & _).
      cbn [of_triples TripletMatrix._rowIndex]. rewrite length_fmap.
      apply lookup_lt_Some in Hp. lia.
    + intros k s (l & -> & Hchk & p & e & Hkp & Hp & Hrow).
      assert (Hk : k < length l) by (apply lookup_lt_Some in Hp; lia).
      destruct (lookup_lt_is_Some_2 l k Hk) as [ek Hek].
      assert (Hk' : length (take k l) = k) by (rewrite length_take; lia).
      pose proof (addMultiple_body bc nr nc i i multiple (take k l) (drop (S k) l) ek) as Hb.
      rewrite Hk', (take_drop_middle l k ek Hek) in Hb.
      eexists. split.
      * apply Hb. intros Hbc. destruct (Hchk Hbc) as [Hto Hall].
        split; [exact Hto |]. rewrite Forall_forall in Hall.
        apply Hall. eapply list_elem_of_lookup_2, Hek.
      * eexists. split; [reflexivity |]. split.
        -- intros Hbc. destruct (Hchk Hbc) as [Hto Hall]. split; [exact Hto |].
           apply Forall_app. split; [exact Hall |].
           destruct (Z.eqb_spec ek.1.1 i) as [Hi | Hi]; [| constructor].
           repeat constructor. simpl. intros _. rewrite Forall_forall in Hall.
           apply Hall; [eapply list_elem_of_lookup_2, Hek | exact Hi].
        -- destruct (decide (k = p)) as [-> | Hnp].
           ++ rewrite Hek in Hp. injection Hp as ->.
              destruct (Z.eqb_spec e.1.1 i); [| contradiction].
              exists (length l), (i, e.1.2, d_mul multiple e.2).
              split; [lia |]. split; [| reflexivity].
              rewrite lookup_app_r by lia. rewrite Nat.sub_diag. reflexivity.
           ++ exists p, e. split; [lia |]. split; [| exact Hrow].
              rewrite lookup_app_l by (apply lookup_lt_Some in Hp; exact Hp). exact Hp.
    + exists l0. split; [exact Hm |]. split.
      * intros Hbc. apply (Hpass Hbc).
      * apply list_elem_of_lookup_1 in He0 as [p Hp]. exists p, e0.
        split; [lia |]. split; [exact Hp | exact Hrow0].
Qed.

End AddMultipleSameRow.

(** ** TripletMatrixOffset: [setRowToZero], [setColToZero], [setZero] *)

Section OffsetZeroing.
Context {D : Type} `{DataTypeLaws D}.
Variable V : TripletMatrixOffset.t.

Local Abbreviation ro := (TripletMatrixOffset._rowOffset V).
Local Abbreviation co := (TripletMatrixOffset._colOffset V).
Local Abbreviation nR := (TripletMatrixOffset._numRows V).
Local Abbreviation nC := (TripletMatrixOffset._numCols V).

Lemma zeroed_never (hit : Z * Z * D -> bool) (l : list (Z * Z * D)) :
  (forall e, hit e = false) -> zeroed hit <$> l = l.
Proof.
  intros Hhit. induction l as [|e l IH]; [reflexivity |].
  rewrite fmap_cons, IH. unfold zeroed. rewrite Hhit. reflexivity.
Qed.

Lemma Offset_setRowToZero_spec (numRows numCols i : Z) (l : list (Z * Z * D)) :
  TripletMatrixOffset.setRowToZero V i (of_triples numRows numCols l)
  = (Ok tt,
     of_triples numRows numCols
       (zeroed (fun e => (e.1.1 =? i + ro)%Z && (ro <=? e.1.1)%Z && (e.1.1 <? ro + nR)%Z)
          <$> l)).
Proof.
  unfold TripletMatrixOffset.setRowToZero. cbn [of_triples TripletMatrix._rowIndex].
  rewrite length_fmap. apply zeroing_loop.
  - intros l'. simpl. apply length_fmap.
  - intros P e l'. unfold bind, read, ret. cbn [of_triples TripletMatrix._rowIndex].
    rewrite at_middle. unfold zeroed.
    destruct ((e.1.1 =? i + ro)%Z && (ro <=? e.1.1)%Z && (e.1.1 <? ro + nR)%Z).
    + apply value_store_middle.
    + reflexivity.
Qed.

Lemma Offset_setColToZero_spec (numRows numCols j : Z) (l : list (Z * Z * D)) :
  TripletMatrixOffset.setColToZero V j (of_triples numRows numCols l)
  = (Ok tt,
     of_triples numRows numCols
       (zeroed (fun e => (e.1.2 =? j + co)%Z && (co <=? e.1.2)%Z && (e.1.2 <? co + nC)%Z)
          <$> l)).
Proof.
  unfold TripletMatrixOffset.setColToZero. cbn [of_triples TripletMatrix._colIndex].
  rewrite length_fmap. apply zeroing_loop.
  - intros l'. simpl. apply length_fmap.
  - intros P e l'. unfold bind, read, ret. cbn [of_triples TripletMatrix._colIndex].
    rewrite at_middle. unfold zeroed.
    destruct ((e.1.2 =? j + co)%Z && (co <=? e.1.2)%Z && (e.1.2 <? co + nC)%Z).
    + apply value_store_middle.
    + reflexivity.
Qed.

(** X10. [setRowToZero ( i )] of the offset wrapper works on whole rows of
    the shared matrix: for a row [i] of the block, every position of row
    [i + rowOffset] of the shared matrix reads zero afterwards, in the
    columns outside the block too, and the other rows are unchanged; for
    [i] outside the block nothing changes.  [setColToZero] does the same
    with columns. *)
Theorem Offset_setRowToZero_whole_row (m : TripletMatrix.t D) (i : Z) :
  TripletMatrix.wf m ->
  (exists m',
     TripletMatrixOffset.setRowToZero V i m = (Ok tt, m') /\
     TripletMatrix.wf m' /\
     ((0 <= i < nR)%Z ->
      (forall col, TripletMatrix.get (i + ro) col m' = Ok d_zero) /\
      (forall row col, row <> (i + ro)%Z ->
         TripletMatrix.get row col m' = TripletMatrix.get row col m)) /\
     (~ (0 <= i < nR)%Z -> m' = m)) /\
  (exists m',
     TripletMatrixOffset.setColToZero V i m = (Ok tt, m') /\
     TripletMatrix.wf m' /\
     ((0 <= i < nC)%Z ->
      (forall row, TripletMatrix.get row (i + co) m' = Ok d_zero) /\
      (forall row col, col <> (i + co)%Z ->
         TripletMatrix.get row col m' = TripletMatrix.get row col m)) /\
     (~ (0 <= i < nC)%Z -> m' = m)).
Proof.
  intros Hwf.
  set (nr := TripletMatrix._numRows m). set (nc := TripletMatrix._numCols m).
  set (l := TripletMatrix.triples m).
  assert (Hm : m = of_triples nr nc l) by apply of_triples_triples, Hwf.
  split.
  - eexists. split; [rewrite Hm at 1; apply Offset_setRowToZero_spec |].
    split; [apply wf_of_triples |]. split.
    + intros Hi. split.
      * intros col. rewrite get_of_triples. f_equal. apply sum_at_zeroed_hit.
        intros e Hat. apply andb_true_iff in Hat as [Hr _]. apply Z.eqb_eq in Hr.
        rewrite Hr, Z.eqb_refl. simpl.
        destruct (Z.leb_spec ro (i + ro)), (Z.ltb_spec (i + ro) (ro + nR));
          try reflexivity; lia.
      * intros row col Hrow. rewrite Hm at 1. rewrite !get_of_triples. f_equal.
        apply sum_at_zeroed_miss. intros e Hat.
        apply andb_true_iff in Hat as [Hr _]. apply Z.eqb_eq in Hr.
        destruct (Z.eqb_spec e.1.1 (i + ro)); [congruence | reflexivity].
    + intros Hi. rewrite Hm at 1. f_equal. apply zeroed_never. intros e.
      destruct (Z.eqb_spec e.1.1 (i + ro)), (Z.leb_spec ro e.1.1),
        (Z.ltb_spec e.1.1 (ro + nR)); try reflexivity; lia.
  - eexists. split; [rewrite Hm at 1; apply Offset_setColToZero_spec |].
    split; [apply wf_of_triples |]. split.
    + intros Hi. split.
      * intros row. rewrite get_of_triples. f_equal. apply sum_at_zeroed_hit.
        intros e Hat. apply andb_true_iff in Hat as [_ Hc]. apply Z.eqb_eq in Hc.
        rewrite Hc, Z.eqb_refl. simpl.
        destruct (Z.leb_spec co (i + co)), (Z.ltb_spec (i + co) (co + nC));
          try reflexivity; lia.
      * intros row col Hcol. rewrite Hm at 1. rewrite !get_of_triples. f_equal.
        apply sum_at_zeroed_miss. intros e Hat.
        apply andb_true_iff in Hat as [_ Hc]. apply Z.eqb_eq in Hc.
        destruct (Z.eqb_spec e.1.2 (i + co)); [congruence | reflexivity].
    + intros Hi. rewrite Hm at 1. f_equal. apply zeroed_never. intros e.
      destruct (Z.eqb_spec e.1.2 (i + co)), (Z.leb_spec co e.1.2),
        (Z.ltb_spec e.1.2 (co + nC)); try reflexivity; lia.
Qed.

End OffsetZeroing.

Section OffsetSetZero.
Context {D : Type} `{DataType D}.
Variable V : TripletMatrixOffset.t.
Variables numRows numCols : Z.

Local Abbreviation ro := (TripletMatrixOffset._rowOffset V).
Local Abbreviation co := (TripletMatrixOffset._colOffset V).
Local Abbreviation nR := (TripletMatrixOffset._numRows V).
Local Abbreviation nC := (TripletMatrixOffset._numCols V).
Local Abbreviation mk := (of_triples numRows numCols).

Lemma eraseValue_of_triples (row col : Z) (l : list (Z * Z * D)) :
  TripletMatrix.eraseValue row col (mk l)
  = (Ok tt, mk (filter (fun e : Z * Z * D => at_position row col e = false) l)).
Proof.
  unfold TripletMatrix.eraseValue. cbn [of_triples TripletMatrix._rowIndex].
  rewrite length_fmap.
  apply (eraseValue_loop_filter numRows numCols row col (length l) [] l). lia.
Qed.

Lemma erased_upto_step (i j : nat) (e : Z * Z * D) :
  erased_upto V i (S j) e
  = at_position (Z.of_nat i + ro) (Z.of_nat j + co) e || erased_upto V i j e.
Proof.
  unfold erased_upto, at_position.
  destruct (Z.eqb_spec e.1.1 (Z.of_nat i + ro)), (Z.eqb_spec e.1.2 (Z.of_nat j + co)),
    (Z.leb_spec ro e.1.1), (Z.ltb_spec e.1.1 (ro + Z.of_nat i)),
    (Z.leb_spec co e.1.2), (Z.ltb_spec e.1.2 (co + nC)),
    (Z.ltb_spec e.1.2 (co + Z.of_nat (S j))), (Z.ltb_spec e.1.2 (co + Z.of_nat j));
    simpl; try reflexivity; lia.
Qed.

Lemma erased_upto_row (i : nat) (e : Z * Z * D) :
  erased_upto V i (Z.to_nat nC) e = erased_upto V (S i) 0 e.
Proof.
  unfold erased_upto.
  destruct (Z.eqb_spec e.1.1 (Z.of_nat i + ro)), (Z.eqb_spec e.1.1 (Z.of_nat (S i) + ro)),
    (Z.leb_spec ro e.1.1), (Z.ltb_spec e.1.1 (ro + Z.of_nat i)),
    (Z.ltb_spec e.1.1 (ro + Z.of_nat (S i))),
    (Z.leb_spec co e.1.2), (Z.ltb_spec e.1.2 (co + nC)),
    (Z.ltb_spec e.1.2 (co + Z.of_nat (Z.to_nat nC))), (Z.ltb_spec e.1.2 (co + Z.of_nat 0));
    simpl; try reflexivity; lia.
Qed.

Lemma erased_upto_all (e : Z * Z * D) :
  erased_upto V (Z.to_nat nR) 0 e = in_block V e.1.1 e.1.2.
Proof.
  unfold erased_upto, in_block.
  destruct (Z.eqb_spec e.1.1 (Z.of_nat (Z.to_nat nR) + ro)),
    (Z.leb_spec ro e.1.1), (Z.ltb_spec e.1.1 (ro + Z.of_nat (Z.to_nat nR))),
    (Z.ltb_spec e.1.1 (ro + nR)),
    (Z.leb_spec co e.1.2), (Z.ltb_spec e.1.2 (co + nC)),
    (Z.ltb_spec e.1.2 (co + Z.of_nat 0));
    simpl; try reflexivity; lia.
Qed.

Lemma erased_upto_none (l : list (Z * Z * D)) :
  filter (fun e : Z * Z * D => erased_upto V 0 0 e = false) l = l.
Proof.
  induction l as [|e l IH]; [reflexivity |].
  rewrite filter_cons_True, IH; [reflexivity |].
  unfold erased_upto.
  destruct (Z.eqb_spec e.1.1 (Z.of_nat 0 + ro)),
    (Z.leb_spec ro e.1.1), (Z.ltb_spec e.1.1 (ro + Z.of_nat 0)),
    (Z.leb_spec co e.1.2), (Z.ltb_spec e.1.2 (co + nC)),
    (Z.ltb_spec e.1.2 (co + Z.of_nat 0));
    simpl; try reflexivity; lia.
Qed.

Lemma Offset_setZero_spec (l : list (Z * Z * D)) :
  TripletMatrixOffset.setZero V (mk l)
  = (Ok tt, mk (filter (fun e : Z * Z * D => in_block V e.1.1 e.1.2 = false) l)).
Proof.
  unfold TripletMatrixOffset.setZero. cbv zeta.
  set (I := fun (i : nat) (s : TripletMatrix.t D) =>
    s = mk (filter (fun e : Z * Z * D => erased_upto V i 0 e = false) l)).
  match goal with
  | |- for_lt _ ?bound ?body 0 _ = _ =>
      destruct (for_lt_inv I (Z.to_nat nR) bound body) with
        (fuel := Z.to_nat nR) (k := 0) (s := mk l) as (s' & Hrun & HI)
  end.
  - reflexivity.
  - intros i s Hi HI. unfold I in HI. subst s.
    set (J := fun (j : nat) (s : TripletMatrix.t D) =>
      s = mk (filter (fun e : Z * Z * D => erased_upto V i j e = false) l)).
    match goal with
    | |- exists s', for_lt _ ?bound ?body 0 _ = _ /\ _ =>
        destruct (for_lt_inv J (Z.to_nat nC) bound body) with
          (fuel := Z.to_nat nC) (k := 0)
          (s := mk (filter (fun e : Z * Z * D => erased_upto V i 0 e = false) l))
          as (s' & Hrun & HJ)
    end.
    + reflexivity.
    + intros j s Hj HJ. unfold J in HJ. subst s.
      eexists. split; [apply eraseValue_of_triples |].
      unfold J. f_equal. rewrite list_filter_filter. apply list_filter_iff.
      intros e. rewrite erased_upto_step.
      destruct (at_position _ _ e), (erased_upto V i j e); simpl; intuition congruence.
    + lia.
    + lia.
    + reflexivity.
    + exists s'. split; [exact Hrun |]. unfold J in HJ. unfold I. rewrite HJ. f_equal.
      apply list_filter_iff. intros e. rewrite erased_upto_row. reflexivity.
  - lia.
  - lia.
  - unfold I. rewrite erased_upto_none. reflexivity.
  - rewrite Hrun. f_equal. unfold I in HI. rewrite HI. f_equal.
    apply list_filter_iff. intros e. rewrite erased_upto_all. reflexivity.
Qed.

End OffsetSetZero.

Section OffsetSetZeroSpec.
Context {D : Type} `{DataType D}.

(** X11. [setZero] of the offset wrapper returns and removes from the
    shared matrix exactly the stored triples that lie in the block: every
    position of the block reads zero afterwards, and every position
    outside the block reads what it read before. *)
Theorem Offset_setZero_clears_block (V : TripletMatrixOffset.t) (m : TripletMatrix.t D) :
  TripletMatrix.wf m ->
  exists m',
    TripletMatrixOffset.setZero V m = (Ok tt, m') /\
    TripletMatrix.wf m' /\
    TripletMatrix.triples m'
    = filter (fun e : Z * Z * D => in_block V e.1.1 e.1.2 = false) (TripletMatrix.triples m) /\
    (forall row col,
       (0 <= row < TripletMatrixOffset._numRows V)%Z ->
       (0 <= col < TripletMatrixOffset._numCols V)%Z ->
       TripletMatrixOffset.get V row col m' = Ok d_zero) /\
    (forall row col,
       in_block V row col = false ->
       TripletMatrix.get row col m' = TripletMatrix.get row col m).
Proof.
  intros Hwf.
  set (nr := TripletMatrix._numRows m). set (nc := TripletMatrix._numCols m).
  set (l := TripletMatrix.triples m).
  assert (Hm : m = of_triples nr nc l) by apply of_triples_triples, Hwf.
  eexists. split; [rewrite Hm at 1; apply Offset_setZero_spec |].
  split; [apply wf_of_triples |]. split; [apply triples_of_triples |]. split.
  - intros row col Hrow Hcol. unfold TripletMatrixOffset.get.
    rewrite get_sum_at by apply wf_of_triples. rewrite triples_of_triples. f_equal.
    apply sum_at_none, Forall_forall. intros e He.
    apply list_elem_of_filter in He as [He _].
    unfold at_position. unfold in_block in He.
    destruct (Z.eqb_spec e.1.1 (row + TripletMatrixOffset._rowOffset V)),
      (Z.eqb_spec e.1.2 (col + TripletMatrixOffset._colOffset V)); try reflexivity.
    exfalso. revert He.
    destruct (Z.leb_spec (TripletMatrixOffset._rowOffset V) e.1.1),
      (Z.ltb_spec e.1.1
         (TripletMatrixOffset._rowOffset V + TripletMatrixOffset._numRows V)),
      (Z.leb_spec (TripletMatrixOffset._colOffset V) e.1.2),
      (Z.ltb_spec e.1.2
         (TripletMatrixOffset._colOffset V + TripletMatrixOffset._numCols V));
      simpl; try discriminate; lia.
  - intros row col Hout. rewrite Hm at 1.
    rewrite !get_sum_at by apply wf_of_triples. rewrite !triples_of_triples. f_equal.
    etransitivity; [| apply (sum_at_filter (fun e => negb (in_block V e.1.1 e.1.2)))].
    + f_equal. apply list_filter_iff. intros e. destruct (in_block V e.1.1 e.1.2); simpl.
      * split; discriminate.
      * split; reflexivity.
    + intros e Hat. apply andb_true_iff in Hat as [Hr Hc]. apply Z.eqb_eq in Hr, Hc.
      rewrite Hr, Hc, Hout. reflexivity.
Qed.

End OffsetSetZeroSpec.

(** ** GenSparseMatrix: [add], [deleteRow], [newRow] *)

Section RowPointers.
Context {R D : Type} `{DataTypeLaws D} `{Row R D}.

Lemma in_bounds_not_out (m : GenSparseMatrix.t R D) (I J : Z) :
  (0 <= I < GenSparseMatrix.getNumRows m)%Z ->
  (0 <= J < GenSparseMatrix.getNumCols m)%Z ->
  GenSparseMatrix.out_of_bounds I J m = false.
Proof.
  intros HI HJ. unfold GenSparseMatrix.out_of_bounds.
  destruct (Z.ltb_spec I 0); [lia |]. destruct (Z.ltb_spec J 0); [lia |].
  destruct (Z.leb_spec (GenSparseMatrix.getNumRows m) I); [lia |].
  destruct (Z.leb_spec (GenSparseMatrix.getNumCols m) J); [lia |]. reflexivity.
Qed.

(** X12. [add ( I, J, v )] on a row that is absent: adding zero returns and
    changes nothing; adding anything else raises "Row does not exist." and
    changes nothing, on the diagonal too. *)
Theorem add_on_implicit_row (bc : bool) (m : GenSparseMatrix.t R D) (I J : Z) (v : D) :
  (0 <= I < GenSparseMatrix.getNumRows m)%Z ->
  (0 <= J < GenSparseMatrix.getNumCols m)%Z ->
  GenSparseMatrix.rows m !! Z.to_nat I = Some None ->
  (v = d_zero -> GenSparseMatrix.add bc I J v m = (Ok tt, m)) /\
  (v <> d_zero ->
   GenSparseMatrix.add bc I J v m = (Throw (Exception "Row does not exist."), m)).
Proof.
  intros HI HJ Hrow.
  assert (Hat : Vector.atZ (GenSparseMatrix.rows m) I = Ok None).
  { unfold Vector.atZ. destruct (Z.ltb_spec I 0); [lia |]. apply at_lookup, Hrow. }
  assert (Hadd : GenSparseMatrix.add bc I J v m
                 = if d_eqb v d_zero then (Ok tt, m)
                   else (Throw (Exception "Row does not exist."), m)).
  { unfold GenSparseMatrix.add, bind, read, throw, ret.
    rewrite (in_bounds_not_out m I J HI HJ), andb_false_r, Hat.
    destruct (d_eqb v d_zero); reflexivity. }
  split; intros Hv; rewrite Hadd.
  - rewrite (proj2 (d_eqb_eq v d_zero) Hv). reflexivity.
  - destruct (d_eqb v d_zero) eqn:Hz; [| reflexivity].
    apply d_eqb_eq in Hz. contradiction.
Qed.

Lemma newRow_get (bc : bool) (m : GenSparseMatrix.t R D) (I : Z) (NewRow : option R) :
  GenSparseMatrix.wf m ->
  (0 <= I < GenSparseMatrix.getNumRows m)%Z ->
  exists m',
    GenSparseMatrix.newRow I NewRow m = (Ok tt, m') /\
    GenSparseMatrix.wf m' /\
    (forall J, (0 <= J < GenSparseMatrix.getNumCols m)%Z ->
       GenSparseMatrix.get bc I J m'
       = Ok (match NewRow with
             | Some row => row_get row I J
             | None => if (I =? J)%Z then GenSparseMatrix._diagEntry m else d_zero
             end)) /\
    (forall I' J, I' <> I ->
       GenSparseMatrix.get bc I' J m' = GenSparseMatrix.get bc I' J m).
Proof.
  intros Hwf HI. unfold GenSparseMatrix.wf, GenSparseMatrix.getNumRows in *.
  set (m' := GenSparseMatrix.set_rows (<[Z.to_nat I := NewRow]> (GenSparseMatrix.rows m)) m).
  assert (Hrun : GenSparseMatrix.newRow I NewRow m = (Ok tt, m')).
  { unfold GenSparseMatrix.newRow, bind, read, modify, Vector.storeZ.
    destruct (Z.ltb_spec I 0); [lia |]. rewrite store_lt by lia. reflexivity. }
  exists m'. split; [exact Hrun |]. split; [| split].
  - unfold GenSparseMatrix.wf, m'. simpl. rewrite length_insert. exact Hwf.
  - intros J HJ. unfold GenSparseMatrix.get.
    rewrite (in_bounds_not_out m' I J) by (unfold m'; simpl; assumption || lia).
    rewrite andb_false_r. unfold Vector.atZ. destruct (Z.ltb_spec I 0); [lia |].
    unfold m'. cbn [GenSparseMatrix.set_rows GenSparseMatrix.rows].
    rewrite (at_lookup _ _ NewRow) by (apply list_lookup_insert_eq; lia).
    simpl. destruct NewRow; [reflexivity |]. destruct (I =? J)%Z; reflexivity.
  - intros I' J Hne. apply get_same_rows; try reflexivity.
    unfold m'. cbn [GenSparseMatrix.set_rows GenSparseMatrix.rows].
    unfold Vector.atZ, Vector.at_. destruct (Z.ltb_spec I' 0); [reflexivity |].
    rewrite list_lookup_insert_ne by lia. reflexivity.
Qed.

(** X13. [deleteRow ( I )] does not leave a zero row: the deleted row reads
    as the implicit row afterwards, [_diagEntry] on the diagonal and zero
    elsewhere; the other rows read what they read before.  [newRow] puts a
    row in its place again, which [get] then reads. *)
Theorem deleteRow_leaves_implicit_row (bc : bool) (m : GenSparseMatrix.t R D) (I : Z)
    (row : R) :
  GenSparseMatrix.wf m ->
  (0 <= I < GenSparseMatrix.getNumRows m)%Z ->
  exists m',
    GenSparseMatrix.deleteRow I m = (Ok tt, m') /\
    GenSparseMatrix.wf m' /\
    (forall J, (0 <= J < GenSparseMatrix.getNumCols m)%Z ->
       GenSparseMatrix.get bc I J m'
       = Ok (if (I =? J)%Z then GenSparseMatrix._diagEntry m else d_zero)) /\
    (forall I' J, I' <> I ->
       GenSparseMatrix.get bc I' J m' = GenSparseMatrix.get bc I' J m) /\
    exists m'',
      GenSparseMatrix.newRow I (Some row) m' = (Ok tt, m'') /\
      (forall J, (0 <= J < GenSparseMatrix.getNumCols m)%Z ->
         GenSparseMatrix.get bc I J m'' = Ok (row_get row I J)) /\
      (forall I' J, I' <> I ->
         GenSparseMatrix.get bc I' J m'' = GenSparseMatrix.get bc I' J m).
Proof.
  intros Hwf HI.
  destruct (newRow_get bc m I None Hwf HI) as (m' & Hrun & Hwf' & Hget & Hframe).
  assert (Hdims : GenSparseMatrix.getNumRows m' = GenSparseMatrix.getNumRows m
                  /\ GenSparseMatrix.getNumCols m' = GenSparseMatrix.getNumCols m).
  { unfold GenSparseMatrix.newRow, bind, read, modify in Hrun.
    destruct (Vector.storeZ _ _ _); inversion Hrun; subst. split; reflexivity. }
  destruct Hdims as [Hnr Hnc].
  exists m'. split; [exact Hrun |]. split; [exact Hwf' |].
  split; [exact Hget |]. split; [exact Hframe |].
  destruct (newRow_get bc m' I (Some row) Hwf' ltac:(lia))
    as (m'' & Hrun' & _ & Hget' & Hframe').
  exists m''. split; [exact Hrun' |]. split.
  - intros J HJ. apply Hget'. lia.
  - intros I' J Hne. rewrite Hframe' by exact Hne. apply Hframe, Hne.
Qed.

End RowPointers.

(** ** Compressed matrices: assignment, [setZero], new matrices *)

Section Assignment.
Context {D : Type} `{DataType D}.

Lemma resize_of_zeros {A} (n k : nat) (z : A) :
  Vector.resize n z (replicate k z) = replicate n z.
Proof.
  unfold Vector.resize. rewrite take_replicate, length_replicate, <- replicate_add.
  f_equal. lia.
Qed.

Lemma same_after_resize (k n : nat) (s1 s2 : CSMatrix.t D) :
  CSMatrix._numRows s1 = CSMatrix._numRows s2 ->
  CSMatrix._numCols s1 = CSMatrix._numCols s2 ->
  CSMatrix._index s1 = CSMatrix._index s2 ->
  CSMatrix._value s1 = CSMatrix._value s2 ->
  Vector.resize n 0%Z (CSMatrix._indPointer s1)
  = Vector.resize n 0%Z (CSMatrix._indPointer s2) ->
  CSMatrix.set_indPointer (Vector.resize n 0%Z (CSMatrix._indPointer s1))
    (CSMatrix.set_value (Vector.resize k d_zero (CSMatrix._value s1))
       (CSMatrix.set_index (Vector.resize k 0%Z (CSMatrix._index s1)) s1))
  = CSMatrix.set_indPointer (Vector.resize n 0%Z (CSMatrix._indPointer s2))
      (CSMatrix.set_value (Vector.resize k d_zero (CSMatrix._value s2))
         (CSMatrix.set_index (Vector.resize k 0%Z (CSMatrix._index s2)) s2)).
Proof.
  intros Hnr Hnc Hi Hv Hp. unfold CSMatrix.set_indPointer, CSMatrix.set_value,
    CSMatrix.set_index. simpl. rewrite Hnr, Hnc, Hi, Hv, Hp. reflexivity.
Qed.

(** [setFromTriplet] reads the dimensions of the object only, and
    overwrites its vectors. *)
Lemma CSC_setFromTriplet_fresh (A : TripletMatrix.t D) (s1 s2 : CSMatrix.t D) :
  CSMatrix._numRows s1 = CSMatrix._numRows s2 ->
  CSMatrix._numCols s1 = CSMatrix._numCols s2 ->
  CSMatrix._index s1 = CSMatrix._index s2 ->
  CSMatrix._value s1 = CSMatrix._value s2 ->
  Vector.resize (Z.to_nat (CSMatrix._numCols s1) + 1) 0%Z (CSMatrix._indPointer s1)
  = Vector.resize (Z.to_nat (CSMatrix._numCols s1) + 1) 0%Z (CSMatrix._indPointer s2) ->
  (CSCMatrix.setFromTriplet A s1).1 = (CSCMatrix.setFromTriplet A s2).1 /\
  ((CSCMatrix.setFromTriplet A s2).1 = Ok tt ->
   CSCMatrix.setFromTriplet A s1 = CSCMatrix.setFromTriplet A s2).
Proof.
  intros Hnr Hnc Hi Hv Hp.
  unfold CSCMatrix.setFromTriplet, bind, read, modify, CSMatrix.getNumRows,
    CSMatrix.getNumCols.
  rewrite <- Hnr, <- Hnc.
  destruct (CSMatrix.count_entries _ _ _) as [t1 | e]; [| split; [reflexivity | discriminate]].
  destruct (CSMatrix.set_pointers _ _ _) as [[ptr t2] | e];
    [| split; [reflexivity | discriminate]].
  destruct (CSMatrix.fill _ _ _ _ _ _ _) as [[[t3 idx] val] | e];
    [| split; [reflexivity | discriminate]].
  destruct (CSMatrix.sum_up_duplicates _ _ _ _ _ _) as [[[[t4 idx2] val2] count] | e];
    [| split; [reflexivity | discriminate]].
  destruct (CSMatrix.count_compressed _ _ _ _ _) as [t5 | e];
    [| split; [reflexivity | discriminate]].
  destruct (CSMatrix.sum_entries _) as [numEntries | e];
    [| split; [reflexivity | discriminate]].
  rewrite (same_after_resize _ _ s1 s2 Hnr Hnc Hi Hv Hp).
  split; reflexivity.
Qed.

Lemma CSR_setFromTriplet_fresh (A : TripletMatrix.t D) (s1 s2 : CSMatrix.t D) :
  CSMatrix._numRows s1 = CSMatrix._numRows s2 ->
  CSMatrix._numCols s1 = CSMatrix._numCols s2 ->
  CSMatrix._index s1 = CSMatrix._index s2 ->
  CSMatrix._value s1 = CSMatrix._value s2 ->
  Vector.resize (Z.to_nat (CSMatrix._numRows s1) + 1) 0%Z (CSMatrix._indPointer s1)
  = Vector.resize (Z.to_nat (CSMatrix._numRows s1) + 1) 0%Z (CSMatrix._indPointer s2) ->
  (CSRMatrix.setFromTriplet A s1).1 = (CSRMatrix.setFromTriplet A s2).1 /\
  ((CSRMatrix.setFromTriplet A s2).1 = Ok tt ->
   CSRMatrix.setFromTriplet A s1 = CSRMatrix.setFromTriplet A s2).
Proof.
  intros Hnr Hnc Hi Hv Hp.
  unfold CSRMatrix.setFromTriplet, bind, read, modify, CSMatrix.getNumRows,
    CSMatrix.getNumCols.
  rewrite <- Hnr, <- Hnc.
  destruct (CSMatrix.count_entries _ _ _) as [t1 | e]; [| split; [reflexivity | discriminate]].
  destruct (CSMatrix.set_pointers _ _ _) as [[ptr t2] | e];
    [| split; [reflexivity | discriminate]].
  destruct (CSMatrix.fill _ _ _ _ _ _ _) as [[[t3 idx] val] | e];
    [| split; [reflexivity | discriminate]].
  destruct (CSMatrix.sum_up_duplicates _ _ _ _ _ _) as [[[[t4 idx2] val2] count] | e];
    [| split; [reflexivity | discriminate]].
  destruct (CSMatrix.count_compressed _ _ _ _ _) as [t5 | e];
    [| split; [reflexivity | discriminate]].
  destruct (CSMatrix.sum_entries _) as [numEntries | e];
    [| split; [reflexivity | discriminate]].
  rewrite (same_after_resize _ _ s1 s2 Hnr Hnc Hi Hv Hp).
  split; reflexivity.
Qed.

(** X14. [operator= ( tripletMatrix )] of the compressed matrices does not
    depend on what the object held: it ends as the converting constructor
    does, and where the constructor builds a matrix the assignment leaves
    the same matrix. *)
Theorem assign_as_constructed (A : TripletMatrix.t D) (m : CSMatrix.t D) :
  ((CSCMatrix.assign A m).1 = (CSCMatrix.from_triplet A).1 /\
   ((CSCMatrix.from_triplet A).1 = Ok tt ->
    CSCMatrix.assign A m = CSCMatrix.from_triplet A)) /\
  ((CSRMatrix.assign A m).1 = (CSRMatrix.from_triplet A).1 /\
   ((CSRMatrix.from_triplet A).1 = Ok tt ->
    CSRMatrix.assign A m = CSRMatrix.from_triplet A)).
Proof.
  split.
  - unfold CSCMatrix.assign, CSCMatrix.from_triplet, CSCMatrix.setZero, CSMatrix.setZero,
      CSMatrix.new.
    unfold bind at 1 2 3 4. unfold modify.
    cbn [CSMatrix.set_index CSMatrix.set_value CSMatrix.set_indPointer CSMatrix._index
         CSMatrix._value CSMatrix._indPointer CSMatrix._numRows CSMatrix._numCols].
    apply CSC_setFromTriplet_fresh; try reflexivity.
    cbn [CSMatrix._indPointer CSMatrix._numCols]. unfold Vector.reallocateClear, Vector.make.
    rewrite !resize_of_zeros. reflexivity.
  - unfold CSRMatrix.assign, CSRMatrix.from_triplet, CSRMatrix.setZero, CSMatrix.setZero,
      CSMatrix.new.
    unfold bind at 1 2 3 4. unfold modify.
    cbn [CSMatrix.set_index CSMatrix.set_value CSMatrix.set_indPointer CSMatrix._index
         CSMatrix._value CSMatrix._indPointer CSMatrix._numRows CSMatrix._numCols].
    apply CSR_setFromTriplet_fresh; try reflexivity.
    cbn [CSMatrix._indPointer CSMatrix._numRows]. unfold Vector.reallocateClear, Vector.make.
    rewrite !resize_of_zeros. reflexivity.
Qed.

End Assignment.

Section EmptyMatrices.
Context {D : Type} `{DataType D}.

Lemma atZ_nil {A} (z : Z) : Vector.atZ (@nil A) z = Throw OutOfBounds.
Proof. unfold Vector.atZ, Vector.at_. destruct (z <? 0)%Z; reflexivity. Qed.

(** X15. After [setZero] a compressed matrix has no pointer vector left:
    [get], [set] and [add] at any position end in an access outside
    [_indPointer], and leave the object as [setZero] left it. *)
Theorem setZero_leaves_no_pointers (m : CSMatrix.t D) (row col : Z) (val : D) :
  let z := CSMatrix.Build (CSMatrix._numRows m) (CSMatrix._numCols m) [] [] [] in
  CSCMatrix.setZero m = (Ok tt, z) /\
  CSRMatrix.setZero m = (Ok tt, z) /\
  CSCMatrix.get row col z = Throw OutOfBounds /\
  CSRMatrix.get row col z = Throw OutOfBounds /\
  CSCMatrix.set row col val z = (Throw OutOfBounds, z) /\
  CSRMatrix.set row col val z = (Throw OutOfBounds, z) /\
  CSCMatrix.add row col val z = (Throw OutOfBounds, z) /\
  CSRMatrix.add row col val z = (Throw OutOfBounds, z).
Proof.
  intros z. repeat split;
    unfold CSCMatrix.get, CSRMatrix.get, CSCMatrix.set, CSRMatrix.set, CSCMatrix.add,
      CSRMatrix.add, bind, read; simpl; rewrite ?atZ_nil; reflexivity.
Qed.

(** X16. The constructor [CSCMatrix ( numRows, numCols )] sizes the pointer
    vector by the number of rows, as the base class does for both formats:
    the new column matrix reads zero at the columns below [numRows], and
    [get] at a column from [numRows] on is an access outside
    [_indPointer]; the new row matrix reads zero at every row. *)
Theorem new_matrix_get (numRows numCols row col : Z) :
  (0 <= numRows)%Z ->
  ((0 <= col < numRows)%Z ->
   CSCMatrix.get row col (CSMatrix.new (D := D) numRows numCols) = Ok d_zero) /\
  ((numRows <= col)%Z ->
   CSCMatrix.get row col (CSMatrix.new (D := D) numRows numCols) = Throw OutOfBounds) /\
  ((0 <= row < numRows)%Z ->
   CSRMatrix.get row col (CSMatrix.new (D := D) numRows numCols) = Ok d_zero).
Proof.
  intros Hnr.
  assert (Hin : forall k, (0 <= k < numRows)%Z ->
    Vector.atZ (replicate (Z.to_nat (numRows + 1)) 0%Z) k = Ok 0%Z /\
    Vector.atZ (replicate (Z.to_nat (numRows + 1)) 0%Z) (k + 1)%Z = Ok 0%Z).
  { intros k Hk. unfold Vector.atZ.
    destruct (Z.ltb_spec k 0); [lia |]. destruct (Z.ltb_spec (k + 1) 0); [lia |].
    split; apply at_lookup, lookup_replicate_2; lia. }
  unfold CSCMatrix.get, CSRMatrix.get, CSMatrix.new, Vector.make.
  cbn [CSMatrix._indPointer]. split; [| split].
  - intros Hc. destruct (Hin col Hc) as [-> ->]. reflexivity.
  - intros Hc.
    assert (Hout : Vector.atZ (replicate (Z.to_nat (numRows + 1)) 0%Z) (col + 1)%Z
                   = Throw OutOfBounds).
    { unfold Vector.atZ, Vector.at_. destruct (Z.ltb_spec (col + 1) 0); [reflexivity |].
      rewrite lookup_ge_None_2; [reflexivity |]. rewrite length_replicate. lia. }
    rewrite Hout. destruct (Vector.atZ _ col) as [lo | e] eqn:Hlo; [reflexivity |].
    simpl. f_equal. exact (atZ_oob _ _ _ Hlo).
  - intros Hr. destruct (Hin row Hr) as [-> ->]. reflexivity.
Qed.

End EmptyMatrices.

Section Conversions.
Context {D : Type} `{DataTypeLaws D}.

(** X17. The conversion of a square triplet matrix with in-bounds
    entries: [CSCMatrix ( tripletMatrix )] and [CSRMatrix ( tripletMatrix )]
    return a matrix that has the invariants of the compressed format
    (pointers from zero to the number of entries, not decreasing, minor
    indices strictly increasing in every slice) and whose [get] agrees
    with [TripletMatrix::get] at every in-bounds position, duplicates
    summed up. *)
Theorem conversion_of_square_matrix (n : nat) (A : TripletMatrix.t D) :
  TripletMatrix.wf A ->
  TripletMatrix._numRows A = Z.of_nat n -> TripletMatrix._numCols A = Z.of_nat n ->
  keys_below n (TripletMatrix.triples A) -> minors_below n (TripletMatrix.triples A) ->
  (exists m,
     CSCMatrix.from_triplet A = (Ok tt, m) /\
     compressed_invariants n m /\
     forall r c, r < n -> c < n ->
       CSCMatrix.get (Z.of_nat r) (Z.of_nat c) m
       = TripletMatrix.get (Z.of_nat r) (Z.of_nat c) A) /\
  (exists m,
     CSRMatrix.from_triplet A = (Ok tt, m) /\
     compressed_invariants n m /\
     forall r c, r < n -> c < n ->
       CSRMatrix.get (Z.of_nat r) (Z.of_nat c) m
       = TripletMatrix.get (Z.of_nat r) (Z.of_nat c) A).
Proof.
  intros Hwf Hnr Hnc Hkeys Hminors. split.
  - apply CSC_from_triplet_square; assumption.
  - apply CSR_from_triplet_square; assumption.
Qed.

End Conversions.

(** X18. The conversion of a triplet matrix that is not square: with fewer
    rows than columns [CSCMatrix ( tripletMatrix )] ends in an access
    outside a vector, whatever the entries, and so does
    [CSRMatrix ( tripletMatrix )] whenever the numbers of rows and columns
    differ. *)
Theorem conversion_of_non_square_matrix {D : Type} `{DataType D} (A : TripletMatrix.t D) :
  (Z.to_nat (TripletMatrix.getNumRows A) < Z.to_nat (TripletMatrix.getNumCols A) ->
   (CSCMatrix.from_triplet A).1 = Throw OutOfBounds) /\
  (Z.to_nat (TripletMatrix.getNumRows A) <> Z.to_nat (TripletMatrix.getNumCols A) ->
   (CSRMatrix.from_triplet A).1 = Throw OutOfBounds).
Proof. exact (from_triplet_not_square A). Qed.

(** ** Compressed matrices: [set] and [add] *)

Section Inserted.
Context {A : Type}.
Implicit Types (l : list A) (x : A).

Lemma inserted_length pos x l : length (inserted pos x l) = S (length l).
Proof.
  unfold inserted. rewrite length_app. simpl. rewrite length_take, length_drop. lia.
Qed.

Lemma inserted_lookup pos x l p :
  pos <= length l ->
  inserted pos x l !! p
  = if decide (p < pos) then l !! p
    else if decide (p = pos) then Some x else l !! (p - 1).
Proof.
  intros Hpos. unfold inserted.
  destruct (decide (p < pos)) as [Hlt | Hge].
  - rewrite lookup_app_l by (rewrite length_take; lia). apply lookup_take_lt, Hlt.
  - rewrite lookup_app_r by (rewrite length_take; lia). rewrite length_take.
    replace (pos `min` length l) with pos by lia.
    destruct (decide (p = pos)) as [-> | Hne].
    + rewrite Nat.sub_diag. reflexivity.
    + replace (p - pos) with (S (p - pos - 1)) by lia. simpl.
      rewrite lookup_drop. f_equal. lia.
Qed.

Lemma slice_inserted_before start len pos x l :
  start + len <= pos -> pos <= length l ->
  slice start len (inserted pos x l) = slice start len l.
Proof.
  intros Hle Hpos. apply list_eq. intros i.
  destruct (decide (i < len)) as [Hi | Hi].
  - rewrite !slice_lookup by exact Hi. rewrite inserted_lookup by exact Hpos.
    destruct (decide (start + i < pos)); [reflexivity | lia].
  - unfold slice. rewrite !lookup_take_ge by lia. reflexivity.
Qed.

Lemma slice_inserted_after start len pos x l :
  pos <= start -> pos <= length l ->
  slice (S start) len (inserted pos x l) = slice start len l.
Proof.
  intros Hle Hpos. apply list_eq. intros i.
  destruct (decide (i < len)) as [Hi | Hi].
  - rewrite !slice_lookup by exact Hi. rewrite inserted_lookup by exact Hpos.
    destruct (decide (S start + i < pos)); [lia |].
    destruct (decide (S start + i = pos)); [lia |]. f_equal. lia.
  - unfold slice. rewrite !lookup_take_ge by lia. reflexivity.
Qed.

Lemma slice_inserted_inside start len pos x l :
  start <= pos <= start + len -> start + len <= length l ->
  slice start (S len) (inserted pos x l) = inserted (pos - start) x (slice start len l).
Proof.
  intros Hpos Hfit. apply list_eq. intros i.
  assert (Hsl : length (slice start len l) = len) by (apply slice_length, Hfit).
  rewrite (inserted_lookup (pos - start)) by lia.
  destruct (decide (i < S len)) as [Hi | Hi].
  - rewrite slice_lookup by exact Hi. rewrite inserted_lookup by lia.
    destruct (decide (start + i < pos)), (decide (i < pos - start)); try lia.
    + rewrite slice_lookup by lia. reflexivity.
    + destruct (decide (start + i = pos)), (decide (i = pos - start)); try lia;
        [reflexivity |].
      rewrite slice_lookup by lia. f_equal. lia.
  - unfold slice at 1. rewrite lookup_take_ge by lia.
    destruct (decide (i < pos - start)); [lia |].
    destruct (decide (i = pos - start)); [lia |].
    symmetry. apply lookup_ge_None_2. lia.
Qed.

End Inserted.

Lemma zip_inserted {A B} (pos : nat) (x : A) (y : B) (a : list A) (b : list B) :
  length a = length b ->
  zip (inserted pos x a) (inserted pos y b) = inserted pos (x, y) (zip a b).
Proof.
  intros Hlen. unfold inserted.
  rewrite zip_with_app by (rewrite !length_take; lia). simpl.
  rewrite zip_with_take, zip_with_drop. reflexivity.
Qed.

Section Upsert.
Context {D : Type} `{DataType D}.
Implicit Types (B : list (Z * D)) (f : option D -> D).

Lemma upsert_cons key f x v B :
  upsert key f ((x, v) :: B)
  = if (x =? key)%Z then (x, f (Some v)) :: B
    else if (key <? x)%Z && negb (bool_decide (is_Some (key_index key B)))
         then (key, f None) :: (x, v) :: B
         else (x, v) :: upsert key f B.
Proof.
  unfold upsert. cbn [key_index ins_index].
  destruct (x =? key)%Z; [reflexivity |].
  destruct (key_index key B) as [q |] eqn:Hq; simpl.
  - rewrite andb_false_r. reflexivity.
  - rewrite andb_true_r. destruct (key <? x)%Z; reflexivity.
Qed.

Lemma lookup_minor_found key B q :
  key_index key B = Some q -> exists v, B !! q = Some (key, v) /\ lookup_minor key B = v.
Proof.
  revert q. induction B as [|[x v] B IH]; intros q Hq; [discriminate |].
  simpl in *. destruct (Z.eqb_spec x key) as [-> | Hne].
  - injection Hq as <-. eauto.
  - destruct (key_index key B) as [q' |]; [| discriminate].
    injection Hq as <-. destruct (IH q' eq_refl) as (v' & Hq' & Hl). eauto.
Qed.

Lemma lookup_minor_absent key B : key_index key B = None -> lookup_minor key B = d_zero.
Proof.
  induction B as [|[x v] B IH]; intros Hq; [reflexivity |].
  simpl in *. destruct (x =? key)%Z; [discriminate |].
  apply IH. destruct (key_index key B); [discriminate | reflexivity].
Qed.

(** The entry of the minor index after [upsert]. *)
Lemma lookup_minor_upsert key f B :
  lookup_minor key (upsert key f B)
  = f (if bool_decide (is_Some (key_index key B)) then Some (lookup_minor key B) else None).
Proof.
  induction B as [|[x v] B IH].
  - unfold upsert, inserted. simpl. rewrite Z.eqb_refl. reflexivity.
  - rewrite upsert_cons. cbn [key_index lookup_minor].
    destruct (Z.eqb_spec x key) as [-> | Hne].
    + simpl. rewrite Z.eqb_refl. reflexivity.
    + destruct (key_index key B) as [q |] eqn:Hq; simpl.
      * rewrite andb_false_r. simpl. destruct (Z.eqb_spec x key); [contradiction |].
        rewrite IH. reflexivity.
      * rewrite andb_true_r. destruct (key <? x)%Z; simpl.
        -- rewrite Z.eqb_refl. reflexivity.
        -- destruct (Z.eqb_spec x key); [contradiction |]. rewrite IH. reflexivity.
Qed.

(** The entries of the other minor indices are kept. *)
Lemma lookup_minor_upsert_other key key' f B :
  key' <> key -> lookup_minor key' (upsert key f B) = lookup_minor key' B.
Proof.
  intros Hne. induction B as [|[x v] B IH].
  - unfold upsert, inserted. simpl. destruct (Z.eqb_spec key key'); [congruence | reflexivity].
  - rewrite upsert_cons. cbn [lookup_minor].
    destruct (Z.eqb_spec x key) as [-> | Hx].
    + simpl. destruct (Z.eqb_spec key key'); [congruence | reflexivity].
    + destruct ((key <? x)%Z && _); simpl.
      * destruct (Z.eqb_spec key key'); [congruence | reflexivity].
      * rewrite IH. reflexivity.
Qed.

Lemma upsert_keys_bound key f B (lb : Z) :
  (lb < key)%Z -> Forall (Z.lt lb) B.*1 -> Forall (Z.lt lb) (upsert key f B).*1.
Proof.
  intros Hkey. induction B as [|[x v] B IH]; intros HB.
  - unfold upsert, inserted. simpl. repeat constructor. exact Hkey.
  - rewrite upsert_cons. simpl in HB. apply Forall_cons in HB as [Hx HB].
    destruct (x =? key)%Z; [constructor; assumption |].
    destruct ((key <? x)%Z && _); simpl.
    + repeat constructor; assumption.
    + constructor; [exact Hx | apply IH, HB].
Qed.

Lemma upsert_keys_found key f B :
  is_Some (key_index key B) -> (upsert key f B).*1 = B.*1.
Proof.
  induction B as [|[x v] B IH]; intros [q Hq]; [discriminate |].
  rewrite upsert_cons. simpl in Hq.
  destruct (x =? key)%Z; [reflexivity |].
  destruct (key_index key B) as [q' |] eqn:Hq'; [| discriminate].
  rewrite bool_decide_true by eauto. simpl. rewrite andb_false_r.
  simpl. f_equal. apply IH. eauto.
Qed.

(** [upsert] keeps a slice strictly increasing. *)
Lemma upsert_sorted key f B :
  StronglySorted Z.lt B.*1 -> StronglySorted Z.lt (upsert key f B).*1.
Proof.
  induction B as [|[x v] B IH]; intros Hs.
  - unfold upsert, inserted. simpl. repeat constructor.
  - rewrite upsert_cons. simpl in Hs. apply StronglySorted_inv in Hs as [Hs Hx].
    destruct (Z.eqb_spec x key) as [-> | Hne]; [constructor; assumption |].
    destruct (Z.ltb_spec key x) as [Hlt | Hge]; simpl.
    + destruct (bool_decide (is_Some (key_index key B))) eqn:Hfound; simpl.
      * apply bool_decide_eq_true in Hfound.
        constructor; [apply IH, Hs |]. rewrite upsert_keys_found by exact Hfound. exact Hx.
      * constructor; [constructor; assumption |].
        constructor; [exact Hlt |]. eapply Forall_impl; [exact Hx |].
        intros z Hz. simpl in *. lia.
    + constructor; [apply IH, Hs |]. apply upsert_keys_bound; [lia | exact Hx].
Qed.

Lemma upsert_length key f B :
  length (upsert key f B)
  = if bool_decide (is_Some (key_index key B)) then length B else S (length B).
Proof.
  unfold upsert. destruct (key_index key B) as [q |]; simpl.
  - apply length_alter.
  - apply inserted_length.
Qed.

End Upsert.

Section Scans.
Context {D : Type} `{DataType D}.
Implicit Types (B : list (Z * D)) (m : CSMatrix.t D).

Lemma find_scan_spec key m B :
  forall lo,
  (forall i x v, B !! i = Some (x, v) -> CSMatrix._index m !! (lo + i) = Some x) ->
  CSMatrix.find_scan (length B) (Z.of_nat lo) key m
  = Ok ((fun q => Z.of_nat (lo + q)) <$> key_index key B).
Proof.
  induction B as [|[x v] B IH]; intros lo HB; [reflexivity |].
  pose proof (HB 0 x v eq_refl) as Hx. rewrite Nat.add_0_r in Hx.
  simpl. rewrite atZ_of_nat, (at_lookup _ _ _ Hx). simpl.
  destruct (x =? key)%Z.
  - simpl. rewrite Nat.add_0_r. reflexivity.
  - replace (Z.of_nat lo + 1)%Z with (Z.of_nat (S lo)) by lia. rewrite IH.
    + destruct (key_index key B); simpl; [| reflexivity]. do 2 f_equal. lia.
    + intros i x' v' Hi. replace (S lo + i) with (lo + S i) by lia. eapply HB, Hi.
Qed.

Lemma insert_position_spec key m B :
  forall lo,
  (forall i x v, B !! i = Some (x, v) -> CSMatrix._index m !! (lo + i) = Some x) ->
  CSMatrix.insert_position (length B) (Z.of_nat lo) key m
  = Ok (Z.of_nat (lo + ins_index key B)).
Proof.
  induction B as [|[x v] B IH]; intros lo HB.
  - simpl. rewrite Nat.add_0_r. reflexivity.
  - pose proof (HB 0 x v eq_refl) as Hx. rewrite Nat.add_0_r in Hx.
    simpl. rewrite atZ_of_nat, (at_lookup _ _ _ Hx). simpl.
    destruct (key <? x)%Z.
    + rewrite Nat.add_0_r. reflexivity.
    + replace (Z.of_nat lo + 1)%Z with (Z.of_nat (S lo)) by lia. rewrite IH.
      * do 2 f_equal. lia.
      * intros i x' v' Hi. replace (S lo + i) with (lo + S i) by lia. eapply HB, Hi.
Qed.

Lemma ins_index_le key B : ins_index key B <= length B.
Proof.
  induction B as [|[x v] B IH]; simpl; [lia |]. destruct (key <? x)%Z; simpl; lia.
Qed.

Lemma fst_slice_zip (idx : list Z) (val : list D) start len :
  length val = length idx ->
  (slice start len (zip idx val)).*1 = slice start len idx.
Proof.
  intros Hlen. unfold slice. rewrite fmap_take, fmap_drop, fst_zip by lia. reflexivity.
Qed.

Lemma StronglySorted_of_lookups (l : list Z) :
  (forall i j x y, i < j -> l !! i = Some x -> l !! j = Some y -> (x < y)%Z) ->
  StronglySorted Z.lt l.
Proof.
  induction l as [|a l IH]; intros Hl; [constructor |].
  constructor.
  - apply IH. intros i j x y Hij Hi Hj. apply (Hl (S i) (S j)); [lia | exact Hi | exact Hj].
  - apply Forall_forall. intros y Hy. apply list_elem_of_lookup_1 in Hy as [j Hj].
    apply (Hl 0 (S j)); [lia | reflexivity | exact Hj].
Qed.

Section Pointers.
Variables (n : nat) (m : CSMatrix.t D).
Hypothesis Hinv : compressed_invariants n m.

Lemma pointer_lookup k :
  k <= n -> CSMatrix._indPointer m !! k = Some (Z.of_nat (pointer m k)).
Proof.
  destruct Hinv as (Hlen & H0 & _ & _ & Hadj).
  induction k as [|k IH]; intros Hk.
  - unfold pointer. rewrite H0. reflexivity.
  - specialize (IH ltac:(lia)).
    destruct (lookup_lt_is_Some_2 (CSMatrix._indPointer m) (S k) ltac:(lia)) as [hi Hhi].
    destruct (Hadj k _ hi IH Hhi) as [Hle _].
    unfold pointer. rewrite Hhi. simpl. f_equal. lia.
Qed.

Lemma pointer_step k : k < n -> pointer m k <= pointer m (S k).
Proof.
  intros Hk. destruct Hinv as (_ & _ & _ & _ & Hadj).
  destruct (Hadj k _ _ (pointer_lookup k ltac:(lia)) (pointer_lookup (S k) ltac:(lia)))
    as [Hle _]. lia.
Qed.

Lemma pointer_mono j k : j <= k -> k <= n -> pointer m j <= pointer m k.
Proof.
  intros Hjk Hk. induction k as [|k IH].
  - assert (j = 0) by lia. subst. lia.
  - destruct (decide (j = S k)) as [-> | Hne]; [lia |].
    specialize (IH ltac:(lia) ltac:(lia)). pose proof (pointer_step k ltac:(lia)). lia.
Qed.

Lemma pointer_0 : pointer m 0 = 0.
Proof. destruct Hinv as (_ & H0 & _). unfold pointer. rewrite H0. reflexivity. Qed.

Lemma pointer_n : pointer m n = length (CSMatrix._index m).
Proof.
  destruct Hinv as (_ & _ & Hn & _). unfold pointer. rewrite Hn. simpl. lia.
Qed.

Lemma pointer_bound k : k <= n -> pointer m k <= length (CSMatrix._index m).
Proof. intros Hk. rewrite <- pointer_n. apply pointer_mono; lia. Qed.

Lemma major_slice_pointers k :
  k < n ->
  major_slice m k
  = slice (pointer m k) (pointer m (S k) - pointer m k)
      (zip (CSMatrix._index m) (CSMatrix._value m)).
Proof.
  intros Hk. unfold major_slice.
  rewrite (pointer_lookup k), (pointer_lookup (S k)) by lia.
  rewrite Nat2Z.id. f_equal. pose proof (pointer_step k Hk). lia.
Qed.

Lemma major_slice_length k :
  k < n -> length (major_slice m k) = pointer m (S k) - pointer m k.
Proof.
  intros Hk. rewrite major_slice_pointers by exact Hk. apply slice_length.
  destruct Hinv as (_ & _ & _ & Hlv & _). rewrite length_zip_with, Hlv.
  pose proof (pointer_bound (S k) ltac:(lia)). pose proof (pointer_step k Hk). lia.
Qed.

Lemma major_slice_lookup k i x v :
  k < n -> major_slice m k !! i = Some (x, v) ->
  CSMatrix._index m !! (pointer m k + i) = Some x /\
  CSMatrix._value m !! (pointer m k + i) = Some v.
Proof.
  intros Hk Hi. pose proof (lookup_lt_Some _ _ _ Hi) as Hlt.
  rewrite major_slice_length in Hlt by exact Hk.
  rewrite major_slice_pointers, slice_lookup in Hi by assumption.
  apply zip_lookup in Hi. exact Hi.
Qed.

Lemma major_slice_sorted k : k < n -> StronglySorted Z.lt (major_slice m k).*1.
Proof.
  intros Hk. pose proof Hinv as (_ & _ & _ & Hlv & Hadj).
  destruct (Hadj k _ _ (pointer_lookup k ltac:(lia)) (pointer_lookup (S k) ltac:(lia)))
    as [_ Hsorted].
  apply StronglySorted_of_lookups. intros i j x y Hij Hi Hj.
  rewrite list_lookup_fmap in Hi, Hj.
  destruct (major_slice m k !! i) as [[x' v] |] eqn:Hi'; [| discriminate].
  destruct (major_slice m k !! j) as [[y' w] |] eqn:Hj'; [| discriminate].
  simpl in Hi, Hj. injection Hi as ->. injection Hj as ->.
  pose proof (lookup_lt_Some _ _ _ Hj') as Hlt.
  rewrite major_slice_length in Hlt by exact Hk.
  apply (major_slice_lookup k i x v Hk) in Hi' as [Hi' _].
  apply (major_slice_lookup k j y w Hk) in Hj' as [Hj' _].
  apply (Hsorted (pointer m k + i) (pointer m k + j) x y); [lia | lia | lia | exact Hi' | exact Hj'].
Qed.

(** [get] reads the slice of the major index. *)
Lemma get_major_slice row k :
  k < n -> CSCMatrix.get row (Z.of_nat k) m = Ok (lookup_minor row (major_slice m k)).
Proof.
  intros Hk. unfold CSCMatrix.get.
  rewrite atZ_of_nat, (at_lookup _ _ _ (pointer_lookup k ltac:(lia))). cbn [rbind].
  replace (Z.of_nat k + 1)%Z with (Z.of_nat (S k)) by lia.
  rewrite atZ_of_nat, (at_lookup _ _ _ (pointer_lookup (S k) ltac:(lia))). cbn [rbind].
  replace (Z.to_nat _) with (length (major_slice m k))
    by (rewrite major_slice_length by exact Hk; pose proof (pointer_step k Hk); lia).
  apply get_scan_spec. intros i x v Hi. apply (major_slice_lookup k i x v Hk Hi).
Qed.

End Pointers.

(** The invariants, from the slices. *)
Lemma invariants_of_slices (n : nat) (m : CSMatrix.t D) (P : nat -> nat) :
  length (CSMatrix._indPointer m) = n + 1 ->
  (forall k, k <= n -> CSMatrix._indPointer m !! k = Some (Z.of_nat (P k))) ->
  P 0 = 0 -> P n = length (CSMatrix._index m) ->
  length (CSMatrix._value m) = length (CSMatrix._index m) ->
  (forall k, k < n ->
     P k <= P (S k) /\
     StronglySorted Z.lt (slice (P k) (P (S k) - P k) (CSMatrix._index m))) ->
  compressed_invariants n m.
Proof.
  intros Hlen HP H0 Hn Hlv Hsl. unfold compressed_invariants.
  split; [exact Hlen |]. split; [rewrite HP, H0 by lia; reflexivity |].
  split; [rewrite HP, Hn by lia; reflexivity |]. split; [exact Hlv |].
  intros k lo hi Hlo Hhi.
  assert (Hk : k < n) by (apply lookup_lt_Some in Hhi; lia).
  rewrite HP in Hlo, Hhi by lia. injection Hlo as <-. injection Hhi as <-.
  destruct (Hsl k Hk) as [Hle Hs]. split; [lia |].
  intros p q x y Hp Hpq Hq Hx Hy.
  apply (StronglySorted_lookup_lt _ (p - P k) (q - P k) x y Hs); [lia | |].
  - rewrite slice_lookup by lia. rewrite <- Hx. f_equal. lia.
  - rewrite slice_lookup by lia. rewrite <- Hy. f_equal. lia.
Qed.

End Scans.

Section UpsertRun.
Context {D : Type} `{DataType D}.

Lemma slices_finish (n : nat) (m' : CSMatrix.t D) (P' : nat -> nat)
    (S' : nat -> list (Z * D)) :
  length (CSMatrix._indPointer m') = n + 1 ->
  (forall k, k <= n -> CSMatrix._indPointer m' !! k = Some (Z.of_nat (P' k))) ->
  P' 0 = 0 -> P' n = length (CSMatrix._index m') ->
  length (CSMatrix._value m') = length (CSMatrix._index m') ->
  (forall k, k < n ->
     P' k <= P' (S k) /\
     slice (P' k) (P' (S k) - P' k) (zip (CSMatrix._index m') (CSMatrix._value m')) = S' k /\
     StronglySorted Z.lt (S' k).*1) ->
  compressed_invariants n m' /\ forall k, k < n -> major_slice m' k = S' k.
Proof.
  intros Hlen HP H0 Hn Hlv Hsl. split.
  - apply (invariants_of_slices n m' P'); try assumption.
    intros k Hk. destruct (Hsl k Hk) as (Hle & Hs & Hsorted). split; [exact Hle |].
    rewrite <- fst_slice_zip with (val := CSMatrix._value m') by exact Hlv.
    rewrite Hs. exact Hsorted.
  - intros k Hk. destruct (Hsl k Hk) as (Hle & Hs & _). unfold major_slice.
    rewrite (HP k), (HP (S k)) by lia. rewrite Nat2Z.id, <- Hs. f_equal. lia.
Qed.

Lemma alter_as_insert {A} (g : A -> A) (q : nat) (l : list A) (e : A) :
  l !! q = Some e -> alter g q l = <[q:=g e]> l.
Proof.
  intros Hq. apply list_eq. intros i. destruct (decide (i = q)) as [-> | Hne].
  - rewrite list_lookup_alter_eq, Hq. simpl.
    rewrite list_lookup_insert_eq by (eapply lookup_lt_Some, Hq). reflexivity.
  - rewrite list_lookup_alter_ne, list_lookup_insert_ne by auto. reflexivity.
Qed.

(** [shift_pointers]: every pointer from [c0] on is increased by one. *)
Lemma shift_pointers_spec (c0 : nat) (m : CSMatrix.t D) :
  c0 <= length (CSMatrix._indPointer m) ->
  exists p',
    CSMatrix.shift_pointers (Z.of_nat c0) m = (Ok tt, CSMatrix.set_indPointer p' m) /\
    length p' = length (CSMatrix._indPointer m) /\
    forall j, p' !! j = (if decide (c0 <= j) then Z.succ <$> CSMatrix._indPointer m !! j
                         else CSMatrix._indPointer m !! j).
Proof.
  intros Hc0. unfold CSMatrix.shift_pointers.
  destruct (Z.ltb_spec (Z.of_nat c0) 0) as [? | _]; [lia |]. rewrite Nat2Z.id.
  set (ptr := CSMatrix._indPointer m).
  set (I := fun (k : nat) (s : CSMatrix.t D) =>
              c0 <= k /\ exists p', s = CSMatrix.set_indPointer p' m /\
                length p' = length ptr /\
                forall j, p' !! j = (if decide (c0 <= j < k) then Z.succ <$> ptr !! j
                                     else ptr !! j)).
  destruct (for_lt_inv I (length ptr) (fun s => length (CSMatrix._indPointer s))
              (fun c => v <~ read (fun s => Vector.incr (CSMatrix._indPointer s) (Z.of_nat c)) ;;
                        modify (CSMatrix.set_indPointer v))
              ltac:(intros k s (_ & p' & -> & Hl & _); exact Hl)) with
    (fuel := length ptr) (k := c0) (s := m) as (s' & Hrun & _ & p' & -> & Hl & Hp').
  - intros k s Hk (Hck & p' & -> & Hl & Hp').
    assert (Hx : exists x, ptr !! k = Some x) by (apply lookup_lt_is_Some_2; lia).
    destruct Hx as [x Hx]. pose proof (Hp' k) as Hpk.
    destruct (decide (c0 <= k < k)); [lia |]. rewrite Hx in Hpk.
    eexists. split.
    + unfold bind, read, modify, Vector.incr. simpl.
      rewrite atZ_of_nat, (at_lookup _ _ _ Hpk). simpl.
      rewrite storeZ_of_nat, store_lt by lia. simpl. reflexivity.
    + split; [lia |]. eexists. split; [destruct m; reflexivity |].
      split; [rewrite length_insert; exact Hl |].
      intros j. destruct (decide (j = k)) as [-> | Hne].
      * rewrite list_lookup_insert_eq by lia.
        destruct (decide (c0 <= k < S k)); [| lia]. rewrite Hx. reflexivity.
      * rewrite list_lookup_insert_ne by auto. rewrite Hp'.
        destruct (decide (c0 <= j < k)), (decide (c0 <= j < S k)); try lia; reflexivity.
  - exact Hc0.
  - lia.
  - split; [lia |]. exists ptr. split; [destruct m; reflexivity |]. split; [reflexivity |].
    intros j. destruct (decide (c0 <= j < c0)); [lia | reflexivity].
  - exists p'. split; [exact Hrun |]. split; [exact Hl |].
    intros j. rewrite Hp'. destruct (decide (c0 <= j < length ptr)), (decide (c0 <= j)); try lia; try reflexivity.
    rewrite (lookup_ge_None_2 ptr j) by lia. reflexivity.
Qed.

Section Run.
Variables (n : nat) (m : CSMatrix.t D) (c : nat) (row : Z) (f : option D -> D).
Hypothesis Hinv : compressed_invariants n m.
Hypothesis Hc : c < n.

Local Abbreviation B := (major_slice m c).
Local Abbreviation lo := (pointer m c).

(** What the two ways of [set] and [add] leave. *)
Local Abbreviation left_as m' :=
  (compressed_invariants n m' /\
   CSMatrix._numRows m' = CSMatrix._numRows m /\
   CSMatrix._numCols m' = CSMatrix._numCols m /\
   forall k, k < n ->
     major_slice m' k = if decide (k = c) then upsert row f B else major_slice m k).

(** The entry exists: its value is overwritten. *)
Lemma upsert_found_spec (q : nat) (v : D) :
  key_index row B = Some q -> B !! q = Some (row, v) ->
  left_as (CSMatrix.set_value (<[lo + q:=f (Some v)]> (CSMatrix._value m)) m).
Proof.
  intros Hq Hv. pose proof Hinv as (Hlen & _ & _ & Hlv & _).
  pose proof (lookup_lt_Some _ _ _ Hv) as Hql.
  rewrite (major_slice_length n m Hinv c Hc) in Hql.
  destruct (major_slice_lookup n m Hinv c q row v Hc Hv) as [Hiq Hvq].
  set (m' := CSMatrix.set_value _ m).
  destruct (slices_finish n m' (pointer m)
              (fun k => if decide (k = c) then upsert row f B else major_slice m k))
    as [Hinv' Hsl'].
  - exact Hlen.
  - intros k Hk. apply (pointer_lookup n m Hinv k Hk).
  - apply (pointer_0 n m Hinv).
  - apply (pointer_n n m Hinv).
  - unfold m'. simpl. rewrite length_insert. exact Hlv.
  - intros k Hk. split; [apply (pointer_step n m Hinv k Hk) |].
    unfold m'. cbn [CSMatrix.set_value CSMatrix._index CSMatrix._value].
    rewrite (zip_insert_r _ _ _ row) by exact Hiq.
    destruct (decide (k = c)) as [-> | Hne].
    + split; [| apply upsert_sorted, (major_slice_sorted n m Hinv c Hc)].
      rewrite slice_insert_inside by exact Hql.
      rewrite <- (major_slice_pointers n m Hinv c Hc).
      unfold upsert. rewrite Hq. symmetry.
      exact (alter_as_insert (fun e : Z * D => (e.1, f (Some e.2))) q B (row, v) Hv).
    + split; [| apply (major_slice_sorted n m Hinv k Hk)].
      rewrite slice_insert_outside.
      * symmetry. apply (major_slice_pointers n m Hinv k Hk).
      * pose proof (pointer_step n m Hinv k Hk).
        destruct (decide (k < c)).
        -- right. pose proof (pointer_mono n m Hinv (S k) c ltac:(lia) ltac:(lia)). lia.
        -- left. pose proof (pointer_mono n m Hinv (S c) k ltac:(lia) ltac:(lia)). lia.
  - split; [exact Hinv' |]. split; [reflexivity |]. split; [reflexivity | exact Hsl'].
Qed.

(** No entry: the pair is put at the insertion position and the later
    pointers move up by one. *)
Lemma upsert_inserted_spec (val : D) :
  key_index row B = None -> f None = val ->
  exists m',
    (pos <~ read (CSMatrix.insert_position (length B) (Z.of_nat lo) row) ;;
     CSMatrix.index_insert pos row ;;;
     CSMatrix.value_insert pos val ;;;
     CSMatrix.shift_pointers (Z.of_nat c + 1)%Z) m = (Ok tt, m') /\
    left_as m'.
Proof.
  intros Hq Hf. pose proof Hinv as (Hlen & _ & _ & Hlv & _).
  pose proof (ins_index_le row B) as Hins.
  rewrite (major_slice_length n m Hinv c Hc) in Hins.
  pose proof (pointer_step n m Hinv c Hc) as Hstep.
  pose proof (pointer_bound n m Hinv (S c) ltac:(lia)) as Hhi.
  set (q := ins_index row B) in *. set (pos := lo + q).
  assert (Hpos : pos <= length (CSMatrix._index m)) by (unfold pos; lia).
  unfold bind, read at 1.
  rewrite (insert_position_spec row m B lo)
    by (intros i x v Hi; apply (major_slice_lookup n m Hinv c i x v Hc Hi)).
  fold q pos. unfold CSMatrix.index_insert, CSMatrix.value_insert, bind, read, modify.
  unfold Vector.insertZ, Vector.insert. simpl.
  destruct (Z.ltb_spec (Z.of_nat pos) 0) as [? | _]; [lia |]. rewrite Nat2Z.id.
  destruct (Nat.leb_spec pos (length (CSMatrix._index m))) as [_ | ?]; [| lia]. simpl.
  destruct (Nat.leb_spec pos (length (CSMatrix._value m))) as [_ | ?]; [| lia]. simpl.
  fold (inserted pos row (CSMatrix._index m)) (inserted pos val (CSMatrix._value m)).
  set (m2 := CSMatrix.set_value _ (CSMatrix.set_index _ m)).
  destruct (shift_pointers_spec (S c) m2) as (p' & Hrun & Hlp & Hp').
  { unfold m2. simpl. lia. }
  replace (Z.of_nat c + 1)%Z with (Z.of_nat (S c)) by lia.
  rewrite Hrun. eexists. split; [reflexivity |].
  set (m3 := CSMatrix.set_indPointer p' m2).
  set (P' := fun k => if decide (k <= c) then pointer m k else S (pointer m k)).
  destruct (slices_finish n m3 P'
              (fun k => if decide (k = c) then upsert row f B else major_slice m k))
    as [Hinv' Hsl'].
  - unfold m3. simpl. rewrite Hlp. unfold m2. simpl. exact Hlen.
  - intros k Hk. unfold m3. simpl. rewrite Hp'. unfold m2. simpl.
    rewrite (pointer_lookup n m Hinv k Hk). unfold P'. simpl.
    destruct (decide (S c <= k)), (decide (k <= c)); try lia; simpl; f_equal; lia.
  - unfold P'. simpl. apply (pointer_0 n m Hinv).
  - unfold P'. destruct (decide (n <= c)); [lia |].
    unfold m3, m2. simpl. rewrite inserted_length. f_equal. apply (pointer_n n m Hinv).
  - unfold m3, m2. simpl. rewrite !inserted_length. lia.
  - intros k Hk. unfold m3, m2.
    cbn [CSMatrix.set_value CSMatrix.set_index CSMatrix.set_indPointer
         CSMatrix._index CSMatrix._value].
    rewrite zip_inserted by lia.
    assert (Hzl : length (zip (CSMatrix._index m) (CSMatrix._value m))
                  = length (CSMatrix._index m))
      by (rewrite length_zip_with; lia).
    pose proof (pointer_step n m Hinv k Hk) as Hk1.
    unfold P'. destruct (decide (k = c)) as [-> | Hne].
    + destruct (decide (c <= c)); [| lia]. destruct (decide (S c <= c)); [lia |].
      split; [lia |].
      split; [| apply upsert_sorted, (major_slice_sorted n m Hinv c Hc)].
      replace (S (pointer m (S c)) - lo) with (S (pointer m (S c) - lo)) by lia.
      rewrite slice_inserted_inside by lia.
      rewrite <- (major_slice_pointers n m Hinv c Hc).
      unfold upsert. rewrite Hq, Hf. fold q. f_equal. unfold pos. lia.
    + destruct (decide (k <= c)).
      * destruct (decide (S k <= c)); [| lia]. split; [lia |].
        split; [| apply (major_slice_sorted n m Hinv k Hk)].
        pose proof (pointer_mono n m Hinv (S k) c ltac:(lia) ltac:(lia)).
        rewrite slice_inserted_before by (unfold pos; lia).
        symmetry. apply (major_slice_pointers n m Hinv k Hk).
      * destruct (decide (S k <= c)); [lia |]. split; [lia |].
        split; [| apply (major_slice_sorted n m Hinv k Hk)].
        pose proof (pointer_mono n m Hinv (S c) k ltac:(lia) ltac:(lia)).
        replace (S (pointer m (S k)) - S (pointer m k))
          with (pointer m (S k) - pointer m k) by lia.
        rewrite slice_inserted_after by (unfold pos; lia).
        symmetry. apply (major_slice_pointers n m Hinv k Hk).
  - split; [exact Hinv' |]. split; [reflexivity |]. split; [reflexivity | exact Hsl'].
Qed.

End Run.
End UpsertRun.

Section SetAdd.
Context {D : Type} `{DataTypeLaws D}.

Lemma get_after_upsert (n : nat) (m m' : CSMatrix.t D) (c : nat) (row : Z)
    (f : option D -> D) :
  compressed_invariants n m -> compressed_invariants n m' -> c < n ->
  (forall k, k < n ->
     major_slice m' k = if decide (k = c) then upsert row f (major_slice m c)
                        else major_slice m k) ->
  forall r c', (0 <= c' < Z.of_nat n)%Z ->
  exists g, CSCMatrix.get r c' m = Ok g /\
    CSCMatrix.get r c' m'
    = Ok (if (r =? row)%Z && (c' =? Z.of_nat c)%Z
          then f (if bool_decide (is_Some (key_index row (major_slice m c)))
                  then Some g else None)
          else g).
Proof.
  intros Hinv Hinv' Hc Hsl r c' Hc'.
  assert (Hk : Z.to_nat c' < n) by lia.
  rewrite <- (Z2Nat.id c') by lia.
  rewrite (get_major_slice n m Hinv r _ Hk), (get_major_slice n m' Hinv' r _ Hk).
  eexists. split; [reflexivity |]. f_equal. rewrite (Hsl _ Hk).
  destruct (decide (Z.to_nat c' = c)) as [<- | Hne].
  - rewrite Z.eqb_refl, andb_true_r.
    destruct (Z.eqb_spec r row) as [-> | Hr].
    + apply lookup_minor_upsert.
    + apply lookup_minor_upsert_other. exact Hr.
  - destruct (Z.eqb_spec (Z.of_nat (Z.to_nat c')) (Z.of_nat c)) as [? | _]; [lia |].
    rewrite andb_false_r. reflexivity.
Qed.

Lemma CSC_set_slices (n : nat) (m : CSMatrix.t D) (row : Z) (c : nat) (val : D) :
  compressed_invariants n m -> c < n ->
  exists m',
    CSCMatrix.set row (Z.of_nat c) val m = (Ok tt, m') /\
    compressed_invariants n m' /\
    forall k, k < n ->
      major_slice m' k = if decide (k = c)
                         then upsert row (fun _ => val) (major_slice m c)
                         else major_slice m k.
Proof.
  intros Hinv Hc. set (f := fun _ : option D => val).
  unfold CSCMatrix.set, bind, read at 1 2 3.
  rewrite atZ_of_nat, (at_lookup _ _ _ (pointer_lookup n m Hinv c ltac:(lia))).
  replace (Z.of_nat c + 1)%Z with (Z.of_nat (S c)) by lia.
  rewrite atZ_of_nat, (at_lookup _ _ _ (pointer_lookup n m Hinv (S c) ltac:(lia))).
  pose proof (pointer_step n m Hinv c Hc) as Hstep.
  replace (Z.to_nat (Z.of_nat (pointer m (S c)) - Z.of_nat (pointer m c)))
    with (length (major_slice m c))
    by (rewrite (major_slice_length n m Hinv c Hc); lia).
  rewrite (find_scan_spec row m (major_slice m c) (pointer m c))
    by (intros i x v Hi; apply (major_slice_lookup n m Hinv c i x v Hc Hi)).
  destruct (key_index row (major_slice m c)) as [q |] eqn:Hq; cbn [fmap option_fmap option_map].
  - destruct (lookup_minor_found _ _ _ Hq) as (v & Hv & _).
    destruct (major_slice_lookup n m Hinv c q row v Hc Hv) as [_ Hvq].
    pose proof (lookup_lt_Some _ _ _ Hvq) as Hlt.
    eexists. split.
    + unfold CSMatrix.value_store, bind, read, modify.
      rewrite storeZ_of_nat, store_lt by exact Hlt. reflexivity.
    + destruct (upsert_found_spec n m c row f Hinv Hc q v Hq Hv) as (? & _ & _ & ?).
      split; assumption.
  - replace (Z.of_nat (S c)) with (Z.of_nat c + 1)%Z by lia.
    destruct (upsert_inserted_spec n m c row f Hinv Hc val Hq eq_refl)
      as (m' & Hrun & ? & _ & _ & ?).
    exists m'. split; [exact Hrun |]. split; assumption.
Qed.

Lemma CSC_add_slices (n : nat) (m : CSMatrix.t D) (row : Z) (c : nat) (val : D) :
  compressed_invariants n m -> c < n ->
  exists m',
    CSCMatrix.add row (Z.of_nat c) val m = (Ok tt, m') /\
    compressed_invariants n m' /\
    forall k, k < n ->
      major_slice m' k
      = if decide (k = c)
        then upsert row (fun o => match o with Some v => d_add v val | None => val end)
               (major_slice m c)
        else major_slice m k.
Proof.
  intros Hinv Hc.
  set (f := fun o : option D => match o with Some v => d_add v val | None => val end).
  unfold CSCMatrix.add, bind, read at 1 2 3.
  rewrite atZ_of_nat, (at_lookup _ _ _ (pointer_lookup n m Hinv c ltac:(lia))).
  replace (Z.of_nat c + 1)%Z with (Z.of_nat (S c)) by lia.
  rewrite atZ_of_nat, (at_lookup _ _ _ (pointer_lookup n m Hinv (S c) ltac:(lia))).
  pose proof (pointer_step n m Hinv c Hc) as Hstep.
  replace (Z.to_nat (Z.of_nat (pointer m (S c)) - Z.of_nat (pointer m c)))
    with (length (major_slice m c))
    by (rewrite (major_slice_length n m Hinv c Hc); lia).
  rewrite (find_scan_spec row m (major_slice m c) (pointer m c))
    by (intros i x v Hi; apply (major_slice_lookup n m Hinv c i x v Hc Hi)).
  destruct (key_index row (major_slice m c)) as [q |] eqn:Hq; cbn [fmap option_fmap option_map].
  - destruct (lookup_minor_found _ _ _ Hq) as (v & Hv & _).
    destruct (major_slice_lookup n m Hinv c q row v Hc Hv) as [_ Hvq].
    pose proof (lookup_lt_Some _ _ _ Hvq) as Hlt.
    eexists. split.
    + unfold CSMatrix.value_store, bind, read, modify.
      rewrite atZ_of_nat, (at_lookup _ _ _ Hvq).
      rewrite storeZ_of_nat, store_lt by exact Hlt. reflexivity.
    + destruct (upsert_found_spec n m c row f Hinv Hc q v Hq Hv) as (? & _ & _ & ?).
      split; assumption.
  - replace (Z.of_nat (S c)) with (Z.of_nat c + 1)%Z by lia.
    destruct (upsert_inserted_spec n m c row f Hinv Hc val Hq eq_refl)
      as (m' & Hrun & ? & _ & _ & ?).
    exists m'. split; [exact Hrun |]. split; assumption.
Qed.

(** What [get] reads after [set] and after [add], in the column-major
    reading; the row-major one exchanges the two indices. *)
Lemma CSC_set_gets (n : nat) (m : CSMatrix.t D) (row col : Z) (val : D) :
  compressed_invariants n m -> (0 <= col < Z.of_nat n)%Z ->
  exists m',
    CSCMatrix.set row col val m = (Ok tt, m') /\
    compressed_invariants n m' /\
    forall r c, (0 <= c < Z.of_nat n)%Z ->
      exists g, CSCMatrix.get r c m = Ok g /\
        CSCMatrix.get r c m' = Ok (if (r =? row)%Z && (c =? col)%Z then val else g).
Proof.
  intros Hinv Hcol. set (c := Z.to_nat col).
  assert (Hc : c < n) by lia. assert (Hcz : col = Z.of_nat c) by lia. rewrite Hcz.
  destruct (CSC_set_slices n m row c val Hinv Hc) as (m' & Hset & Hinv' & Hsl).
  exists m'. split; [exact Hset |]. split; [exact Hinv' |].
  intros r c' Hc'.
  destruct (get_after_upsert n m m' c row _ Hinv Hinv' Hc Hsl r c' Hc') as (g & Hg & Hg').
  exists g. split; [exact Hg | exact Hg'].
Qed.

Lemma CSC_add_gets (n : nat) (m : CSMatrix.t D) (row col : Z) (val : D) :
  compressed_invariants n m -> (0 <= col < Z.of_nat n)%Z ->
  exists m',
    CSCMatrix.add row col val m = (Ok tt, m') /\
    compressed_invariants n m' /\
    forall r c, (0 <= c < Z.of_nat n)%Z ->
      exists g, CSCMatrix.get r c m = Ok g /\
        CSCMatrix.get r c m'
        = Ok (if (r =? row)%Z && (c =? col)%Z then d_add g val else g).
Proof.
  intros Hinv Hcol. set (c := Z.to_nat col).
  assert (Hc : c < n) by lia. assert (Hcz : col = Z.of_nat c) by lia. rewrite Hcz.
  destruct (CSC_add_slices n m row c val Hinv Hc) as (m' & Hadd & Hinv' & Hsl).
  exists m'. split; [exact Hadd |]. split; [exact Hinv' |].
  intros r c' Hc'.
  destruct (get_after_upsert n m m' c row _ Hinv Hinv' Hc Hsl r c' Hc') as (g & Hg & Hg').
  exists g. split; [exact Hg |]. rewrite Hg'. f_equal.
  destruct ((r =? row)%Z && (c' =? Z.of_nat c)%Z) eqn:Hrc; [| reflexivity].
  apply andb_true_iff in Hrc as [Hr Hcc]. apply Z.eqb_eq in Hr, Hcc. subst r c'.
  rewrite (get_major_slice n m Hinv row c Hc) in Hg. injection Hg as <-.
  destruct (key_index row (major_slice m c)) eqn:Hq; simpl.
  - reflexivity.
  - rewrite (lookup_minor_absent _ _ Hq). symmetry. apply d_add_zero_l.
Qed.

(** X19. [CSCMatrix::set] on a matrix that keeps the invariants of the
    compressed format, at a column that has a pointer and any row:
    the call returns, the invariants still hold, [get] at the position
    gives the value set and every other position of these columns reads as
    before. *)
Theorem CSC_set_then_get (n : nat) (m : CSMatrix.t D) (row col : Z) (val : D) :
  compressed_invariants n m -> (0 <= col < Z.of_nat n)%Z ->
  exists m',
    CSCMatrix.set row col val m = (Ok tt, m') /\
    compressed_invariants n m' /\
    forall r c, (0 <= c < Z.of_nat n)%Z ->
      exists g, CSCMatrix.get r c m = Ok g /\
        CSCMatrix.get r c m' = Ok (if (r =? row)%Z && (c =? col)%Z then val else g).
Proof. apply CSC_set_gets. Qed.

(** X20. [CSCMatrix::add] under the same conditions: the call returns, the
    invariants still hold, [get] at the position gives the former entry
    plus the value and every other position reads as before. *)
Theorem CSC_add_then_get (n : nat) (m : CSMatrix.t D) (row col : Z) (val : D) :
  compressed_invariants n m -> (0 <= col < Z.of_nat n)%Z ->
  exists m',
    CSCMatrix.add row col val m = (Ok tt, m') /\
    compressed_invariants n m' /\
    forall r c, (0 <= c < Z.of_nat n)%Z ->
      exists g, CSCMatrix.get r c m = Ok g /\
        CSCMatrix.get r c m'
        = Ok (if (r =? row)%Z && (c =? col)%Z then d_add g val else g).
Proof. apply CSC_add_gets. Qed.

(** X21. [CSRMatrix::set] on a matrix that keeps the invariants of the
    compressed format, at a row that has a pointer and any column: the
    call returns, the invariants still hold, [get] at the position gives
    the value set and every other position of these rows reads as
    before. *)
Theorem CSR_set_then_get (n : nat) (m : CSMatrix.t D) (row col : Z) (val : D) :
  compressed_invariants n m -> (0 <= row < Z.of_nat n)%Z ->
  exists m',
    CSRMatrix.set row col val m = (Ok tt, m') /\
    compressed_invariants n m' /\
    forall r c, (0 <= r < Z.of_nat n)%Z ->
      exists g, CSRMatrix.get r c m = Ok g /\
        CSRMatrix.get r c m' = Ok (if (r =? row)%Z && (c =? col)%Z then val else g).
Proof.
  intros Hinv Hrow.
  destruct (CSC_set_gets n m col row val Hinv Hrow) as (m' & Hset & Hinv' & Hget).
  exists m'. split; [exact Hset |]. split; [exact Hinv' |].
  intros r c Hr. destruct (Hget c r Hr) as (g & Hg & Hg').
  exists g. split; [exact Hg |]. rewrite andb_comm. exact Hg'.
Qed.

(** X22. [CSRMatrix::add] under the same conditions: [get] at the position
    gives the former entry plus the value and every other position reads
    as before. *)
Theorem CSR_add_then_get (n : nat) (m : CSMatrix.t D) (row col : Z) (val : D) :
  compressed_invariants n m -> (0 <= row < Z.of_nat n)%Z ->
  exists m',
    CSRMatrix.add row col val m = (Ok tt, m') /\
    compressed_invariants n m' /\
    forall r c, (0 <= r < Z.of_nat n)%Z ->
      exists g, CSRMatrix.get r c m = Ok g /\
        CSRMatrix.get r c m'
        = Ok (if (r =? row)%Z && (c =? col)%Z then d_add g val else g).
Proof.
  intros Hinv Hrow.
  destruct (CSC_add_gets n m col row val Hinv Hrow) as (m' & Hadd & Hinv' & Hget).
  exists m'. split; [exact Hadd |]. split; [exact Hinv' |].
  intros r c Hr. destruct (Hget c r Hr) as (g & Hg & Hg').
  exists g. split; [exact Hg |]. rewrite andb_comm. exact Hg'.
Qed.

End SetAdd.

(** ** Compressed matrices: [apply] and [applyAdd] *)

Section Weighted.
Context {D : Type} `{DataTypeLaws D} `{!DataTypeCommutative D} `{!DataTypeRing D}.

Lemma weighted_sum_ext (g g' : nat -> D) (arg : list D) :
  forall k s,
  (forall c, k <= c < k + length arg -> g c = g' c) ->
  weighted_sum g k arg s = weighted_sum g' k arg s.
Proof.
  induction arg as [|a arg IH]; intros k s Hg; [reflexivity |]. simpl in *.
  rewrite (Hg k) by lia. apply IH. intros c Hc. apply Hg. lia.
Qed.

Lemma weighted_sum_snoc (g : nat -> D) (arg : list D) (a : D) :
  forall k s,
  weighted_sum g k (arg ++ [a]) s
  = d_add (weighted_sum g k arg s) (d_mul (g (k + length arg)) a).
Proof.
  induction arg as [|b arg IH]; intros k s; simpl.
  - rewrite Nat.add_0_r. reflexivity.
  - rewrite IH. do 3 f_equal. lia.
Qed.

(** The products of a sorted slice, added in stored order, are the
    weighted sum over all minor indices: the indices the slice leaves
    out add zero. *)
Lemma slice_weighted_sum (arg0 : list D) :
  forall n k (B : list (Z * D)) s,
  length arg0 = k + n ->
  StronglySorted Z.lt B.*1 ->
  Forall (fun e => (Z.of_nat k <= e.1 < Z.of_nat (length arg0))%Z) B ->
  fold_left (fun s e => d_add s (d_mul e.2 (default d_zero (arg0 !! Z.to_nat e.1)))) B s
  = weighted_sum (fun c => lookup_minor (Z.of_nat c) B) k (drop k arg0) s.
Proof.
  induction n as [|n IH]; intros k B s Hlen Hsorted Hkeys.
  - rewrite drop_ge by lia. destruct B as [|e B]; [reflexivity |].
    apply Forall_cons in Hkeys as [? _]. lia.
  - destruct (lookup_lt_is_Some_2 arg0 k ltac:(lia)) as [a Ha].
    rewrite (drop_S _ _ _ Ha). cbn [weighted_sum].
    destruct B as [|[x v] B].
    + rewrite (lookup_minor_miss (Z.of_nat k) []) by constructor.
      rewrite d_mul_zero_l, d_add_zero_r.
      rewrite <- (IH (S k) [] s ltac:(lia) Hsorted (Forall_nil_2 _)). reflexivity.
    + rewrite fmap_cons in Hsorted. apply StronglySorted_inv in Hsorted as [Hsorted Hx].
      pose proof Hkeys as Hkeys0. apply Forall_cons in Hkeys as [Hxk Hkeys]. simpl in Hxk.
      assert (Hlater : Forall (fun e : Z * D => (x < e.1)%Z) B).
      { apply Forall_forall. intros e He. rewrite Forall_forall in Hx.
        apply (Hx e.1). apply list_elem_of_fmap_2, He. }
      destruct (decide (x = Z.of_nat k)) as [-> | Hne].
      * cbn [fold_left lookup_minor fst snd]. rewrite Z.eqb_refl, Nat2Z.id, Ha. simpl.
        rewrite (IH (S k) B) ; [| lia | exact Hsorted |].
        -- apply weighted_sum_ext. intros c Hc. simpl.
           destruct (Z.eqb_spec (Z.of_nat k) (Z.of_nat c)); [lia | reflexivity].
        -- apply Forall_forall. intros e He. rewrite Forall_forall in Hlater, Hkeys.
           specialize (Hlater e He). specialize (Hkeys e He). simpl in *. lia.
      * rewrite (lookup_minor_miss (Z.of_nat k) ((x, v) :: B)).
        -- rewrite d_mul_zero_l, d_add_zero_r.
           apply (IH (S k) ((x, v) :: B) s ltac:(lia)).
           ++ rewrite fmap_cons. constructor; assumption.
           ++ constructor; [simpl; lia |].
              apply Forall_forall. intros e He. rewrite Forall_forall in Hlater, Hkeys.
              specialize (Hlater e He). specialize (Hkeys e He). simpl in *. lia.
        -- constructor; [simpl; lia |].
           eapply Forall_impl; [exact Hlater |]. simpl. intros e ?. lia.
Qed.

End Weighted.

Section CSRApply.
Context {D : Type} `{DataTypeLaws D} `{!DataTypeCommutative D} `{!DataTypeRing D}.

Lemma atZ_in_range {A} (v : list A) (z : Z) (d : A) :
  (0 <= z < Z.of_nat (length v))%Z -> Vector.atZ v z = Ok (default d (v !! Z.to_nat z)).
Proof.
  intros Hz. unfold Vector.atZ, Vector.at_.
  destruct (Z.ltb_spec z 0); [lia |].
  destruct (lookup_lt_is_Some_2 v (Z.to_nat z) ltac:(lia)) as [a Ha]. rewrite Ha. reflexivity.
Qed.

(** The inner loop of [CSRMatrix::apply]. *)
Lemma CSR_row_sum_loop (m : CSMatrix.t D) (arg : list D) (lo : nat) :
  forall (B : list (Z * D)) k s,
  (forall i x v, B !! i = Some (x, v) ->
     CSMatrix._index m !! (lo + k + i) = Some x /\
     CSMatrix._value m !! (lo + k + i) = Some v) ->
  Forall (fun e => (0 <= e.1 < Z.of_nat (length arg))%Z) B ->
  for_acc (length B)
    (fun o s =>
       let j := (Z.of_nat lo + Z.of_nat o)%Z in
       v <- Vector.atZ (CSMatrix._value m) j ;;
       c <- Vector.atZ (CSMatrix._index m) j ;;
       a <- Vector.atZ arg c ;;
       Ok (d_add s (d_mul v a)))
    k s
  = Ok (fold_left
          (fun s e => d_add s (d_mul e.2 (default d_zero (arg !! Z.to_nat e.1)))) B s).
Proof.
  induction B as [|[x v] B IH]; intros k s HB Hkeys; [reflexivity |].
  destruct (HB 0 x v eq_refl) as [Hx Hv]. rewrite Nat.add_0_r in Hx, Hv.
  apply Forall_cons in Hkeys as [Hxr Hkeys]. simpl in Hxr.
  cbn [length for_acc fold_left]. cbv zeta.
  rewrite <- Nat2Z.inj_add, !atZ_of_nat, (at_lookup _ _ _ Hx), (at_lookup _ _ _ Hv).
  cbn [rbind]. rewrite (atZ_in_range arg x d_zero Hxr). cbn [rbind fst snd].
  apply IH; [| exact Hkeys].
  intros i x' v' Hi. replace (lo + S k + i) with (lo + k + S i) by lia. apply HB, Hi.
Qed.

(** The inner loop of [CSRMatrix::applyAdd], which adds to [dest[row]]. *)
Lemma CSR_row_add_loop (m : CSMatrix.t D) (arg : list D) (lo row : nat) :
  forall (B : list (Z * D)) k dest d,
  (forall i x v, B !! i = Some (x, v) ->
     CSMatrix._index m !! (lo + k + i) = Some x /\
     CSMatrix._value m !! (lo + k + i) = Some v) ->
  Forall (fun e => (0 <= e.1 < Z.of_nat (length arg))%Z) B ->
  dest !! row = Some d ->
  for_acc (length B)
    (fun o dest =>
       let j := (Z.of_nat lo + Z.of_nat o)%Z in
       d <- Vector.at_ dest row ;;
       v <- Vector.atZ (CSMatrix._value m) j ;;
       c <- Vector.atZ (CSMatrix._index m) j ;;
       a <- Vector.atZ arg c ;;
       Vector.store dest row (d_add d (d_mul v a)))
    k dest
  = Ok (<[row:=fold_left
                (fun s e => d_add s (d_mul e.2 (default d_zero (arg !! Z.to_nat e.1))))
                B d]> dest).
Proof.
  induction B as [|[x v] B IH]; intros k dest d HB Hkeys Hd.
  - simpl. rewrite list_insert_id by exact Hd. reflexivity.
  - destruct (HB 0 x v eq_refl) as [Hx Hv]. rewrite Nat.add_0_r in Hx, Hv.
    apply Forall_cons in Hkeys as [Hxr Hkeys]. simpl in Hxr.
    pose proof (lookup_lt_Some _ _ _ Hd) as Hrow.
    cbn [length for_acc fold_left]. cbv zeta.
    rewrite (at_lookup _ _ _ Hd). cbn [rbind].
    rewrite <- Nat2Z.inj_add, !atZ_of_nat, (at_lookup _ _ _ Hx), (at_lookup _ _ _ Hv).
    cbn [rbind]. rewrite (atZ_in_range arg x d_zero Hxr). cbn [rbind fst snd].
    rewrite store_lt by exact Hrow. cbn [rbind].
    rewrite (IH (S k) _ (d_add d (d_mul v (default d_zero (arg !! Z.to_nat x))))).
    + rewrite list_insert_insert_eq. reflexivity.
    + intros i x' v' Hi. replace (lo + S k + i) with (lo + k + S i) by lia. apply HB, Hi.
    + exact Hkeys.
    + apply list_lookup_insert_eq. exact Hrow.
Qed.

End CSRApply.

Section Products.
Context {D : Type} `{DataTypeLaws D} `{!DataTypeCommutative D} `{!DataTypeRing D}.
Variables (n : nat) (m : CSMatrix.t D).
Hypothesis Hinv : compressed_invariants n m.

Lemma major_slice_keys (P : Z -> Prop) (k : nat) :
  (forall i x, CSMatrix._index m !! i = Some x -> P x) ->
  k < n -> Forall (fun e => P e.1) (major_slice m k).
Proof.
  intros HP Hk. apply Forall_lookup. intros i [x v] Hi.
  destruct (major_slice_lookup n m Hinv k i x v Hk Hi) as [Hx _]. exact (HP _ _ Hx).
Qed.

Lemma major_slice_product (arg : list D) (k : nat) (s : D) :
  (forall i x, CSMatrix._index m !! i = Some x -> (0 <= x < Z.of_nat (length arg))%Z) ->
  k < n ->
  fold_left (fun s e => d_add s (d_mul e.2 (default d_zero (arg !! Z.to_nat e.1))))
    (major_slice m k) s
  = weighted_sum (fun c => lookup_minor (Z.of_nat c) (major_slice m k)) 0 arg s.
Proof.
  intros Hrange Hk.
  apply (slice_weighted_sum arg (length arg) 0 (major_slice m k) s eq_refl).
  - apply (major_slice_sorted n m Hinv k Hk).
  - apply (major_slice_keys (fun x => (Z.of_nat 0 <= x < Z.of_nat (length arg))%Z) k); [| exact Hk].
    intros i x Hx. specialize (Hrange i x Hx). lia.
Qed.

Lemma CSR_apply_run (arg dest : list D) :
  CSMatrix.getNumRows m = Z.of_nat n -> n <= length dest ->
  (forall i x, CSMatrix._index m !! i = Some x -> (0 <= x < Z.of_nat (length arg))%Z) ->
  exists dest',
    CSRMatrix.apply arg dest m = Ok dest' /\ length dest' = length dest /\
    forall r,
      dest' !! r
      = if decide (r < n)
        then Some (weighted_sum (fun c => lookup_minor (Z.of_nat c) (major_slice m r))
                     0 arg d_zero)
        else dest !! r.
Proof.
  intros Hn Hdest Hrange. unfold CSRMatrix.apply. rewrite Hn, Nat2Z.id.
  set (W := fun r => weighted_sum (fun c => lookup_minor (Z.of_nat c) (major_slice m r))
                       0 arg d_zero).
  set (I := fun (row : nat) (d : list D) =>
              length d = length dest /\
              forall r, d !! r = if decide (r < row) then Some (W r) else dest !! r).
  edestruct (for_acc_inv I) with (n := n) (k := 0) (a := dest) as (dest' & Hrun & Hlen & Hfin).
  2:{ split; [reflexivity |]. intros r. destruct (decide (r < 0)); [lia | reflexivity]. }
  2:{ exists dest'. split; [exact Hrun |]. split; [exact Hlen |]. exact Hfin. }
  intros row d [_ Hrow] [Hlen Hd].
  rewrite (at_lookup _ _ _ (pointer_lookup n m Hinv row ltac:(lia))). cbn [rbind].
  rewrite (at_lookup _ _ _ (pointer_lookup n m Hinv (S row) ltac:(lia))). cbn [rbind].
  pose proof (pointer_step n m Hinv row Hrow) as Hstep.
  replace (Z.to_nat (Z.of_nat (pointer m (S row)) - Z.of_nat (pointer m row)))
    with (length (major_slice m row))
    by (rewrite (major_slice_length n m Hinv row Hrow); lia).
  pose proof (CSR_row_sum_loop m arg (pointer m row) (major_slice m row) 0 d_zero) as Hsum.
  cbv zeta in Hsum. rewrite Hsum; clear Hsum.
  - cbn [rbind]. rewrite store_lt by lia. eexists. split; [reflexivity |].
    split; [rewrite length_insert; exact Hlen |].
    intros r. destruct (decide (r = row)) as [-> | Hne].
    + rewrite list_lookup_insert_eq by lia. destruct (decide (row < S row)); [| lia].
      f_equal. apply major_slice_product; assumption.
    + rewrite list_lookup_insert_ne by auto. rewrite Hd.
      destruct (decide (r < row)), (decide (r < S row)); try lia; reflexivity.
  - intros i x v Hi. rewrite Nat.add_0_r.
    apply (major_slice_lookup n m Hinv row i x v Hrow Hi).
  - apply (major_slice_keys (fun x => (0 <= x < Z.of_nat (length arg))%Z) row Hrange Hrow).
Qed.

Lemma CSR_applyAdd_run (arg dest : list D) :
  CSMatrix.getNumRows m = Z.of_nat n -> n <= length dest ->
  (forall i x, CSMatrix._index m !! i = Some x -> (0 <= x < Z.of_nat (length arg))%Z) ->
  exists dest',
    CSRMatrix.applyAdd arg dest m = Ok dest' /\ length dest' = length dest /\
    forall r,
      dest' !! r
      = if decide (r < n)
        then weighted_sum (fun c => lookup_minor (Z.of_nat c) (major_slice m r)) 0 arg
               <$> dest !! r
        else dest !! r.
Proof.
  intros Hn Hdest Hrange. unfold CSRMatrix.applyAdd. rewrite Hn, Nat2Z.id.
  set (W := fun r => weighted_sum (fun c => lookup_minor (Z.of_nat c) (major_slice m r))
                       0 arg).
  set (I := fun (row : nat) (d : list D) =>
              length d = length dest /\
              forall r, d !! r = if decide (r < row) then W r <$> dest !! r else dest !! r).
  edestruct (for_acc_inv I) with (n := n) (k := 0) (a := dest) as (dest' & Hrun & Hlen & Hfin).
  2:{ split; [reflexivity |]. intros r. destruct (decide (r < 0)); [lia | reflexivity]. }
  2:{ exists dest'. split; [exact Hrun |]. split; [exact Hlen |]. exact Hfin. }
  intros row d [_ Hrow] [Hlen Hd].
  rewrite (at_lookup _ _ _ (pointer_lookup n m Hinv row ltac:(lia))). cbn [rbind].
  rewrite (at_lookup _ _ _ (pointer_lookup n m Hinv (S row) ltac:(lia))). cbn [rbind].
  pose proof (pointer_step n m Hinv row Hrow) as Hstep.
  replace (Z.to_nat (Z.of_nat (pointer m (S row)) - Z.of_nat (pointer m row)))
    with (length (major_slice m row))
    by (rewrite (major_slice_length n m Hinv row Hrow); lia).
  destruct (lookup_lt_is_Some_2 dest row ltac:(lia)) as [d0 Hd0].
  assert (Hdrow : d !! row = Some d0).
  { rewrite Hd. destruct (decide (row < row)); [lia | exact Hd0]. }
  pose proof (CSR_row_add_loop m arg (pointer m row) row (major_slice m row) 0 d d0) as Hsum.
  cbv zeta in Hsum. rewrite Hsum; clear Hsum.
  - eexists. split; [reflexivity |].
    split; [rewrite length_insert; exact Hlen |].
    intros r. destruct (decide (r = row)) as [-> | Hne].
    + rewrite list_lookup_insert_eq by lia. destruct (decide (row < S row)); [| lia].
      rewrite Hd0. simpl. f_equal. apply major_slice_product; assumption.
    + rewrite list_lookup_insert_ne by auto. rewrite Hd.
      destruct (decide (r < row)), (decide (r < S row)); try lia; reflexivity.
  - intros i x v Hi. rewrite Nat.add_0_r.
    apply (major_slice_lookup n m Hinv row i x v Hrow Hi).
  - apply (major_slice_keys (fun x => (0 <= x < Z.of_nat (length arg))%Z) row Hrange Hrow).
  - exact Hdrow.
Qed.

End Products.

Section CSCApply.
Context {D : Type} `{DataTypeLaws D} `{!DataTypeCommutative D} `{!DataTypeRing D}.

Lemma storeZ_in_range {A} (v : list A) (z : Z) (x : A) :
  (0 <= z < Z.of_nat (length v))%Z -> Vector.storeZ v z x = Ok (<[Z.to_nat z:=x]> v).
Proof.
  intros Hz. unfold Vector.storeZ. destruct (Z.ltb_spec z 0); [lia |].
  apply store_lt. lia.
Qed.

(** The inner loop of [CSCMatrix::applyAdd]: the entries of one column,
    times the entry of [arg] of the column, are added to [dest]. *)
Lemma CSC_col_loop (m : CSMatrix.t D) (arg : list D) (lo col : nat) (a : D) :
  arg !! col = Some a ->
  forall (B : list (Z * D)) k dest,
  (forall i x v, B !! i = Some (x, v) ->
     CSMatrix._index m !! (lo + k + i) = Some x /\
     CSMatrix._value m !! (lo + k + i) = Some v) ->
  StronglySorted Z.lt B.*1 ->
  Forall (fun e => (0 <= e.1 < Z.of_nat (length dest))%Z) B ->
  exists dest',
    for_acc (length B)
      (fun o dest =>
         let i := (Z.of_nat lo + Z.of_nat o)%Z in
         r <- Vector.atZ (CSMatrix._index m) i ;;
         v <- Vector.atZ (CSMatrix._value m) i ;;
         a <- Vector.at_ arg col ;;
         d <- Vector.atZ dest r ;;
         Vector.storeZ dest r (d_add d (d_mul v a)))
      k dest = Ok dest' /\
    length dest' = length dest /\
    forall r, dest' !! r
              = (fun d => d_add d (d_mul (lookup_minor (Z.of_nat r) B) a)) <$> dest !! r.
Proof.
  intros Ha. induction B as [|[x v] B IH]; intros k dest HB Hsorted Hkeys.
  - exists dest. split; [reflexivity |]. split; [reflexivity |].
    intros r. destruct (dest !! r); simpl; [| reflexivity].
    rewrite d_mul_zero_l, d_add_zero_r. reflexivity.
  - destruct (HB 0 x v eq_refl) as [Hx Hv]. rewrite Nat.add_0_r in Hx, Hv.
    apply Forall_cons in Hkeys as [Hxr Hkeys]. simpl in Hxr.
    rewrite fmap_cons in Hsorted. apply StronglySorted_inv in Hsorted as [Hsorted Hlt].
    assert (Hlater : Forall (fun e : Z * D => e.1 <> x) B).
    { apply Forall_forall. intros e He. rewrite Forall_forall in Hlt.
      specialize (Hlt e.1 (list_elem_of_fmap_2 fst _ _ He)). simpl in Hlt. lia. }
    destruct (lookup_lt_is_Some_2 dest (Z.to_nat x) ltac:(lia)) as [d0 Hd0].
    set (dest1 := <[Z.to_nat x:=d_add d0 (d_mul v a)]> dest).
    destruct (IH (S k) dest1) as (dest' & Hrun & Hlen & Hget).
    + intros i x' v' Hi. replace (lo + S k + i) with (lo + k + S i) by lia. apply HB, Hi.
    + exact Hsorted.
    + unfold dest1. rewrite length_insert. exact Hkeys.
    + exists dest'. split; [| split].
      * match goal with |- context [for_acc _ ?f _ _] => set (body := f) in * end.
        assert (Hbody : body k dest = Ok dest1).
        { unfold body. cbv zeta.
          rewrite <- Nat2Z.inj_add, !atZ_of_nat, (at_lookup _ _ _ Hx), (at_lookup _ _ _ Hv).
          cbn [rbind]. rewrite (at_lookup _ _ _ Ha). cbn [rbind].
          rewrite (atZ_in_range dest x d0 Hxr), Hd0. cbn [rbind default].
          apply (storeZ_in_range dest x _ Hxr). }
        cbn [length for_acc]. rewrite Hbody. exact Hrun.
      * rewrite Hlen. unfold dest1. apply length_insert.
      * intros r. rewrite Hget. unfold dest1. cbn [lookup_minor].
        destruct (decide (r = Z.to_nat x)) as [-> | Hne].
        -- rewrite list_lookup_insert_eq by lia. rewrite Hd0. simpl.
           rewrite Z2Nat.id by lia. rewrite Z.eqb_refl.
           rewrite (lookup_minor_miss x B Hlater), d_mul_zero_l, d_add_zero_r. reflexivity.
        -- rewrite list_lookup_insert_ne by auto.
           destruct (Z.eqb_spec x (Z.of_nat r)); [lia | reflexivity].
Qed.

Lemma CSC_applyAdd_run (n : nat) (m : CSMatrix.t D) (arg dest : list D) :
  compressed_invariants n m ->
  CSMatrix.getNumCols m = Z.of_nat n -> n <= length arg ->
  (forall i x, CSMatrix._index m !! i = Some x -> (0 <= x < Z.of_nat (length dest))%Z) ->
  exists dest',
    CSCMatrix.applyAdd arg dest m = Ok dest' /\ length dest' = length dest /\
    forall r,
      dest' !! r
      = weighted_sum (fun c => lookup_minor (Z.of_nat r) (major_slice m c)) 0 (take n arg)
          <$> dest !! r.
Proof.
  intros Hinv Hn Harg Hrange. unfold CSCMatrix.applyAdd. rewrite Hn, Nat2Z.id.
  set (g := fun (r c : nat) => lookup_minor (Z.of_nat r) (major_slice m c)).
  set (I := fun (col : nat) (d : list D) =>
              length d = length dest /\
              forall r, d !! r = weighted_sum (g r) 0 (take col arg) <$> dest !! r).
  edestruct (for_acc_inv I) with (n := n) (k := 0) (a := dest) as (dest' & Hrun & Hlen & Hfin).
  2:{ split; [reflexivity |]. intros r. rewrite take_0. destruct (dest !! r); reflexivity. }
  2:{ exists dest'. split; [exact Hrun |]. split; [exact Hlen |]. exact Hfin. }
  intros col d [_ Hcol] [Hlen Hd].
  rewrite (at_lookup _ _ _ (pointer_lookup n m Hinv col ltac:(lia))). cbn [rbind].
  rewrite (at_lookup _ _ _ (pointer_lookup n m Hinv (S col) ltac:(lia))). cbn [rbind].
  pose proof (pointer_step n m Hinv col Hcol) as Hstep.
  replace (Z.to_nat (Z.of_nat (pointer m (S col)) - Z.of_nat (pointer m col)))
    with (length (major_slice m col))
    by (rewrite (major_slice_length n m Hinv col Hcol); lia).
  destruct (lookup_lt_is_Some_2 arg col ltac:(lia)) as [a Ha].
  destruct (CSC_col_loop m arg (pointer m col) col a Ha (major_slice m col) 0 d)
    as (d' & Hrun & Hlen' & Hget).
  - intros i x v Hi. rewrite Nat.add_0_r.
    apply (major_slice_lookup n m Hinv col i x v Hcol Hi).
  - apply (major_slice_sorted n m Hinv col Hcol).
  - rewrite Hlen.
    apply (major_slice_keys n m Hinv (fun x => (0 <= x < Z.of_nat (length dest))%Z)
             col Hrange Hcol).
  - cbv zeta in Hrun. exists d'. split; [exact Hrun |]. split; [lia |].
    intros r. rewrite Hget, Hd, (take_S_r _ _ _ Ha).
    destruct (dest !! r) as [d0 |]; [| reflexivity]. simpl.
    rewrite weighted_sum_snoc. rewrite length_take, Nat.min_l by lia. reflexivity.
Qed.

End CSCApply.

Section MatrixVector.
Context {D : Type} `{DataTypeLaws D} `{!DataTypeCommutative D} `{!DataTypeRing D}.

(** X23. [CSRMatrix::apply] on a matrix that keeps the invariants of the
    compressed format, with a pointer for each of its rows, column indices
    inside [arg] and a [dest] of at least as many entries as rows: the
    call returns, entry [r] of [dest] becomes the sum over the columns [c]
    of [get ( r, c ) * arg[c]], added up from the left, and the entries
    after the rows are kept. *)
Theorem CSR_apply_is_product (n : nat) (m : CSMatrix.t D) (arg dest : list D) :
  compressed_invariants n m ->
  CSMatrix.getNumRows m = Z.of_nat n -> n <= length dest ->
  (forall i x, CSMatrix._index m !! i = Some x -> (0 <= x < Z.of_nat (length arg))%Z) ->
  exists dest',
    CSRMatrix.apply arg dest m = Ok dest' /\ length dest' = length dest /\
    (forall r, r < n ->
       exists g, (forall c, CSRMatrix.get (Z.of_nat r) (Z.of_nat c) m = Ok (g c)) /\
                 dest' !! r = Some (weighted_sum g 0 arg d_zero)) /\
    (forall r, n <= r -> dest' !! r = dest !! r).
Proof.
  intros Hinv Hn Hdest Hrange.
  destruct (CSR_apply_run n m Hinv arg dest Hn Hdest Hrange) as (dest' & Hrun & Hlen & Hget).
  exists dest'. split; [exact Hrun |]. split; [exact Hlen |]. split.
  - intros r Hr. exists (fun c => lookup_minor (Z.of_nat c) (major_slice m r)). split.
    + intros c. apply (get_major_slice n m Hinv (Z.of_nat c) r Hr).
    + rewrite Hget. destruct (decide (r < n)); [reflexivity | lia].
  - intros r Hr. rewrite Hget. destruct (decide (r < n)); [lia | reflexivity].
Qed.

(** X24. [CSRMatrix::applyAdd] under the same conditions: the sum over the
    columns [c] of [get ( r, c ) * arg[c]] is added to entry [r] of
    [dest]. *)
Theorem CSR_applyAdd_adds_product (n : nat) (m : CSMatrix.t D) (arg dest : list D) :
  compressed_invariants n m ->
  CSMatrix.getNumRows m = Z.of_nat n -> n <= length dest ->
  (forall i x, CSMatrix._index m !! i = Some x -> (0 <= x < Z.of_nat (length arg))%Z) ->
  exists dest',
    CSRMatrix.applyAdd arg dest m = Ok dest' /\ length dest' = length dest /\
    (forall r d, r < n -> dest !! r = Some d ->
       exists g, (forall c, CSRMatrix.get (Z.of_nat r) (Z.of_nat c) m = Ok (g c)) /\
                 dest' !! r = Some (weighted_sum g 0 arg d)) /\
    (forall r, n <= r -> dest' !! r = dest !! r).
Proof.
  intros Hinv Hn Hdest Hrange.
  destruct (CSR_applyAdd_run n m Hinv arg dest Hn Hdest Hrange)
    as (dest' & Hrun & Hlen & Hget).
  exists dest'. split; [exact Hrun |]. split; [exact Hlen |]. split.
  - intros r d Hr Hd. exists (fun c => lookup_minor (Z.of_nat c) (major_slice m r)). split.
    + intros c. apply (get_major_slice n m Hinv (Z.of_nat c) r Hr).
    + rewrite Hget, Hd. destruct (decide (r < n)); [reflexivity | lia].
  - intros r Hr. rewrite Hget. destruct (decide (r < n)); [lia | reflexivity].
Qed.

(** X25. [CSCMatrix::applyAdd] on a matrix that keeps the invariants of the
    compressed format, with a pointer for each of its columns, an [arg]
    of at least as many entries as columns and row indices inside [dest]:
    the call returns and the sum over the columns [c] of
    [get ( r, c ) * arg[c]], added up from the left, is added to entry [r]
    of [dest]. *)
Theorem CSC_applyAdd_adds_product (n : nat) (m : CSMatrix.t D) (arg dest : list D) :
  compressed_invariants n m ->
  CSMatrix.getNumCols m = Z.of_nat n -> n <= length arg ->
  (forall i x, CSMatrix._index m !! i = Some x -> (0 <= x < Z.of_nat (length dest))%Z) ->
  exists dest',
    CSCMatrix.applyAdd arg dest m = Ok dest' /\ length dest' = length dest /\
    forall r d, dest !! r = Some d ->
      exists g, (forall c, c < n -> CSCMatrix.get (Z.of_nat r) (Z.of_nat c) m = Ok (g c)) /\
                dest' !! r = Some (weighted_sum g 0 (take n arg) d).
Proof.
  intros Hinv Hn Harg Hrange.
  destruct (CSC_applyAdd_run n m arg dest Hinv Hn Harg Hrange)
    as (dest' & Hrun & Hlen & Hget).
  exists dest'. split; [exact Hrun |]. split; [exact Hlen |].
  intros r d Hd. exists (fun c => lookup_minor (Z.of_nat r) (major_slice m c)). split.
  - intros c Hc. apply (get_major_slice n m Hinv (Z.of_nat r) c Hc).
  - rewrite Hget, Hd. reflexivity.
Qed.

(** X26. [CSCMatrix::apply] under the same conditions: every entry [r] of
    [dest] becomes the sum over the columns [c] of
    [get ( r, c ) * arg[c]], whatever [dest] held before. *)
Theorem CSC_apply_is_product (n : nat) (m : CSMatrix.t D) (arg dest : list D) :
  compressed_invariants n m ->
  CSMatrix.getNumCols m = Z.of_nat n -> n <= length arg ->
  (forall i x, CSMatrix._index m !! i = Some x -> (0 <= x < Z.of_nat (length dest))%Z) ->
  exists dest',
    CSCMatrix.apply arg dest m = Ok dest' /\ length dest' = length dest /\
    forall r, r < length dest ->
      exists g, (forall c, c < n -> CSCMatrix.get (Z.of_nat r) (Z.of_nat c) m = Ok (g c)) /\
                dest' !! r = Some (weighted_sum g 0 (take n arg) d_zero).
Proof.
  intros Hinv Hn Harg Hrange. unfold CSCMatrix.apply.
  assert (Hz : length (Vector.setAll d_zero dest) = length dest)
    by (unfold Vector.setAll; apply length_replicate).
  destruct (CSC_applyAdd_run n m arg (Vector.setAll d_zero dest) Hinv Hn Harg)
    as (dest' & Hrun & Hlen & Hget).
  { rewrite Hz. exact Hrange. }
  exists dest'. split; [exact Hrun |]. split; [lia |].
  intros r Hr. exists (fun c => lookup_minor (Z.of_nat r) (major_slice m c)). split.
  - intros c Hc. apply (get_major_slice n m Hinv (Z.of_nat r) c Hc).
  - rewrite Hget. unfold Vector.setAll. rewrite lookup_replicate_2 by exact Hr. reflexivity.
Qed.

End MatrixVector.

(** ** Examples *)

Lemma add_then_get_witness :
  let m := of_triples 2 2 [(0, 1, 5)]%Z in
  exists m',
    TripletMatrix.add true 0 1 7%Z m = (Ok tt, m') /\
    TripletMatrix.get 0 1 m' = Ok 12%Z /\
    TripletMatrix.get 1 1 m' = Ok 0%Z.
Proof.
  intros m.
  destruct (add_then_get true m 0 1 7%Z) as [Hpass _]; [split; reflexivity |].
  destruct Hpass as (m' & Hadd & _ & Hget); [intros _; vm_compute; split; discriminate |].
  exists m'. split; [exact Hadd |]. split.
  - destruct (Hget 0 1)%Z as (g & Hg & Hg'). injection Hg as <-. exact Hg'.
  - destruct (Hget 1 1)%Z as (g & Hg & Hg'). injection Hg as <-. exact Hg'.
Defined.

Lemma set_keeps_other_positions_witness :
  let m := of_triples 2 2 [(0, 1, 5); (1, 0, 3)]%Z in
  exists m',
    TripletMatrix.set true 0 1 9%Z m = (Ok tt, m') /\
    TripletMatrix.get 1 0 m' = Ok 3%Z.
Proof.
  intros m.
  destruct (set_keeps_other_positions true m 0 1 9%Z) as (m' & Hset & _ & Hget).
  - split; reflexivity.
  - intros _. vm_compute. split; discriminate.
  - exists m'. split; [exact Hset |]. rewrite (Hget 1 0)%Z by discriminate. reflexivity.
Defined.

Lemma setRowToZero_setColToZero_witness :
  let m := of_triples 2 2 [(0, 1, 5); (1, 0, 3)]%Z in
  exists m',
    TripletMatrix.setRowToZero 0 m = (Ok tt, m') /\
    TripletMatrix.get 0 1 m' = Ok 0%Z /\
    TripletMatrix.get 1 0 m' = Ok 3%Z.
Proof.
  intros m.
  destruct (setRowToZero_setColToZero m 0%Z) as [(m' & Hrun & _ & _ & Hzero & Hrest) _].
  - split; reflexivity.
  - exists m'. split; [exact Hrun |]. split; [apply Hzero |].
    rewrite (Hrest 1 0)%Z by discriminate. reflexivity.
Defined.

Lemma setRowColToDiagonal_spec_witness :
  let m := of_triples 2 2 [(0, 1, 5); (1, 0, 3); (1, 1, 4)]%Z in
  exists m',
    TripletMatrix.setRowColToDiagonal true 0 1%Z m = (Ok tt, m') /\
    TripletMatrix.get 0 0 m' = Ok 1%Z /\
    TripletMatrix.get 0 1 m' = Ok 0%Z /\
    TripletMatrix.get 1 1 m' = Ok 4%Z.
Proof.
  intros m.
  destruct (setRowColToDiagonal_spec true m 0%Z 1%Z) as (m' & Hrun & _ & Hd & Hz & Hrest).
  - split; reflexivity.
  - intros _. vm_compute. split; discriminate.
  - exists m'. split; [exact Hrun |]. split; [exact Hd |]. split.
    + apply (Hz 1%Z). discriminate.
    + rewrite (Hrest 1 1)%Z by discriminate. reflexivity.
Defined.

Lemma eraseValue_spec_witness :
  let m := of_triples 2 2 [(0, 1, 5); (1, 0, 3); (0, 1, 2)]%Z in
  exists m',
    TripletMatrix.eraseValue 0 1 m = (Ok tt, m') /\
    TripletMatrix.triples m' = [(1, 0, 3)]%Z /\
    TripletMatrix.get 0 1 m' = Ok 0%Z.
Proof.
  intros m.
  destruct (eraseValue_spec m 0%Z 1%Z) as (m' & Hrun & _ & Htr & Hz & _).
  - split; reflexivity.
  - exists m'. split; [exact Hrun |]. split; [exact Htr | exact Hz].
Defined.

Lemma removeZeroEntries_keeps_get_witness :
  let m := of_triples 2 2 [(0, 1, 0); (1, 0, 3)]%Z in
  exists m',
    TripletMatrix.removeZeroEntries m = (Ok tt, m') /\
    TripletMatrix.triples m' = [(1, 0, 3)]%Z /\
    TripletMatrix.get 1 0 m' = Ok 3%Z.
Proof.
  intros m.
  destruct (removeZeroEntries_keeps_get m) as (m' & Hrun & _ & Hget & _ & Htr).
  - split; reflexivity.
  - exists m'. split; [exact Hrun |]. split.
    + apply Htr. intros k e e' Hk Hk' He.
      destruct k as [|[|k]]; simpl in Hk, Hk'; try discriminate.
      injection Hk' as <-. reflexivity.
    + rewrite Hget. reflexivity.
Defined.

Lemma sumDuplicates_keeps_every_get_witness :
  let m := of_triples 1 1 [(0, 0, 1); (0, 0, 2)]%Z in
  exists m',
    TripletMatrix.sumDuplicates m = (Ok tt, m') /\
    TripletMatrix.get 0 0 m' = Ok 3%Z.
Proof.
  intros m.
  destruct (sumDuplicates_keeps_every_get m) as [_ (m' & Hrun & _ & Hget)].
  - split; reflexivity.
  - simpl. lia.
  - simpl. lia.
  - exists m'. split; [exact Hrun |]. rewrite Hget. reflexivity.
Defined.

Lemma addMultipleRowToRow_spec_witness :
  let m := of_triples 2 2 [(0, 1, 5); (1, 0, 3)]%Z in
  exists m',
    TripletMatrix.addMultipleRowToRow true false 0 1 2%Z m = (Ok tt, m') /\
    TripletMatrix.triples m' = [(0, 1, 5); (1, 0, 3); (1, 1, 10)]%Z /\
    TripletMatrix.get 1 1 m' = Ok 10%Z.
Proof.
  intros m.
  destruct (addMultipleRowToRow_spec true false m 0%Z 1%Z 2%Z)
    as (m' & Hrun & _ & Htr & Hto & _).
  - split; reflexivity.
  - discriminate.
  - intros _. split; [vm_compute; discriminate |].
    repeat constructor; simpl; intros; lia.
  - exists m'. split; [exact Hrun |]. split; [exact Htr |].
    destruct (Hto 1%Z) as (g & s & Hg & Hs & Hg').
    injection Hg as <-. injection Hs as <-. exact Hg'.
Defined.

Lemma addMultipleRowToRow_same_row_witness :
  let m := of_triples 2 2 [(0, 1, 5); (1, 0, 3)]%Z in
  TripletMatrix.addMultipleRowToRow true true 0 0 2%Z m
  = (Throw (Exception "Assertion failed"), m) /\
  (TripletMatrix.addMultipleRowToRow_loop true 100 0 0 2%Z m).1 = Throw FuelExhausted.
Proof.
  intros m.
  destruct (addMultipleRowToRow_same_row true m 0%Z 2%Z) as [Hdebug Hloop].
  - split; reflexivity.
  - intros _. split; [vm_compute; discriminate |].
    repeat constructor; simpl; intros; lia.
  - exists (0, 1, 5)%Z. split; [constructor | reflexivity].
  - split; [exact Hdebug | apply Hloop].
Defined.

Lemma Offset_setRowToZero_whole_row_witness :
  let V := TripletMatrixOffset.Build 1 1 1 1 in
  let m := of_triples 3 3 [(1, 0, 5); (1, 1, 2); (0, 0, 3)]%Z in
  exists m',
    TripletMatrixOffset.setRowToZero V 0 m = (Ok tt, m') /\
    TripletMatrix.get 1 0 m' = Ok 0%Z /\
    TripletMatrix.get 0 0 m' = Ok 3%Z.
Proof.
  intros V m.
  destruct (Offset_setRowToZero_whole_row V m 0%Z) as [(m' & Hrun & _ & Hin & _) _].
  - split; reflexivity.
  - destruct Hin as [Hzero Hrest]; [simpl; lia |].
    exists m'. split; [exact Hrun |]. split; [apply (Hzero 0%Z) |].
    rewrite (Hrest 0 0)%Z by discriminate. reflexivity.
Defined.

Lemma Offset_setZero_clears_block_witness :
  let V := TripletMatrixOffset.Build 1 1 1 1 in
  let m := of_triples 3 3 [(1, 0, 5); (1, 1, 2); (0, 0, 3)]%Z in
  exists m',
    TripletMatrixOffset.setZero V m = (Ok tt, m') /\
    TripletMatrix.triples m' = [(1, 0, 5); (0, 0, 3)]%Z /\
    TripletMatrixOffset.get V 0 0 m' = Ok 0%Z.
Proof.
  intros V m.
  destruct (Offset_setZero_clears_block V m) as (m' & Hrun & _ & Htr & Hzero & _).
  - split; reflexivity.
  - exists m'. split; [exact Hrun |]. split; [exact Htr |].
    apply Hzero; simpl; lia.
Defined.

Lemma add_on_implicit_row_witness :
  let m := GenSparseMatrix.Build (R := SparseRow.t Z) 2 2 [None; Some [(0, 3)]]%Z 1%Z in
  GenSparseMatrix.add true 0 0 0%Z m = (Ok tt, m) /\
  GenSparseMatrix.add true 0 0 5%Z m = (Throw (Exception "Row does not exist."), m).
Proof.
  intros m.
  assert (Hr : (0 <= 0 < GenSparseMatrix.getNumRows m)%Z) by (simpl; lia).
  assert (Hc : (0 <= 0 < GenSparseMatrix.getNumCols m)%Z) by (simpl; lia).
  split.
  - apply (add_on_implicit_row true m 0 0 0%Z Hr Hc eq_refl). reflexivity.
  - apply (add_on_implicit_row true m 0 0 5%Z Hr Hc eq_refl). discriminate.
Defined.

Lemma deleteRow_leaves_implicit_row_witness :
  let m := GenSparseMatrix.Build (R := SparseRow.t Z) 2 2 [None; Some [(0, 3)]]%Z 1%Z in
  exists m',
    GenSparseMatrix.deleteRow 1 m = (Ok tt, m') /\
    GenSparseMatrix.get true 1 0 m' = Ok 0%Z /\
    GenSparseMatrix.get true 1 1 m' = Ok 1%Z.
Proof.
  intros m.
  destruct (deleteRow_leaves_implicit_row true m 1%Z [(0, 3)]%Z)
    as (m' & Hrun & _ & Hget & _).
  - reflexivity.
  - simpl. lia.
  - exists m'. split; [exact Hrun |].
    split; [apply (Hget 0%Z) | apply (Hget 1%Z)]; simpl; lia.
Defined.

Lemma new_matrix_get_witness :
  CSCMatrix.get 0 1 (CSMatrix.new (D := Z) 2 3) = Ok 0%Z /\
  CSCMatrix.get 0 2 (CSMatrix.new (D := Z) 2 3) = Throw OutOfBounds /\
  CSRMatrix.get 1 2 (CSMatrix.new (D := Z) 2 3) = Ok 0%Z.
Proof.
  destruct (new_matrix_get (D := Z) 2 3 0 1 ltac:(lia)) as (Hlow & _ & _).
  destruct (new_matrix_get (D := Z) 2 3 0 2 ltac:(lia)) as (_ & Hhigh & _).
  destruct (new_matrix_get (D := Z) 2 3 1 2 ltac:(lia)) as (_ & _ & Hrow).
  split; [apply Hlow | split; [apply Hhigh | apply Hrow]]; lia.
Defined.

Lemma conversion_of_square_matrix_witness :
  let A := of_triples 2 2 [(0, 1, 5); (1, 0, 3); (0, 1, 2)]%Z in
  exists m,
    CSCMatrix.from_triplet A = (Ok tt, m) /\
    compressed_invariants 2 m /\
    CSCMatrix.get 0 1 m = Ok 7%Z.
Proof.
  intros A.
  destruct (conversion_of_square_matrix 2 A) as [(m & Hrun & Hinv & Hget) _].
  - split; reflexivity.
  - reflexivity.
  - reflexivity.
  - repeat constructor; simpl; lia.
  - repeat constructor; simpl; lia.
  - exists m. split; [exact Hrun |]. split; [exact Hinv |].
    exact (Hget 0 1 ltac:(lia) ltac:(lia)).
Defined.

Lemma conversion_of_non_square_matrix_witness :
  let A := of_triples (D := Z) 1 2 [] in
  (CSCMatrix.from_triplet A).1 = Throw OutOfBounds /\
  (CSRMatrix.from_triplet A).1 = Throw OutOfBounds.
Proof.
  intros A. destruct (conversion_of_non_square_matrix A) as [Hcsc Hcsr].
  split; [apply Hcsc | apply Hcsr]; simpl; lia.
Defined.

(** A 2x2 example with the entries 5 and 7 on the diagonal, in either
    format. *)
Lemma diagonal_example_invariants :
  compressed_invariants 2 (CSMatrix.Build 2 2 [0; 1] [0; 1; 2] [5; 7])%Z.
Proof.
  split; [reflexivity |]. split; [reflexivity |]. split; [reflexivity |].
  split; [reflexivity |].
  intros k lo hi Hlo Hhi.
  destruct k as [|[|k]]; simpl in Hlo, Hhi; try discriminate;
    injection Hlo as <-; injection Hhi as <-; (split; [lia |]);
    intros p q x y Hp Hpq Hq; lia.
Qed.

Lemma diagonal_example_index (bound : nat) :
  2 <= bound ->
  forall i x, CSMatrix._index (CSMatrix.Build 2 2 [0; 1] [0; 1; 2] [5; 7])%Z !! i = Some x ->
    (0 <= x < Z.of_nat bound)%Z.
Proof.
  intros Hb i x Hi. destruct i as [|[|i]]; simpl in Hi; try discriminate;
    injection Hi as <-; lia.
Qed.

Lemma CSC_set_then_get_witness :
  let m := (CSMatrix.Build 2 2 [0; 1] [0; 1; 2] [5; 7])%Z in
  exists m',
    CSCMatrix.set 1 0 9%Z m = (Ok tt, m') /\
    CSCMatrix.get 1 0 m' = Ok 9%Z /\
    CSCMatrix.get 0 0 m' = Ok 5%Z /\
    CSCMatrix.get 1 1 m' = Ok 7%Z.
Proof.
  intros m.
  destruct (CSC_set_then_get 2 m 1 0 9%Z diagonal_example_invariants ltac:(lia))
    as (m' & Hset & _ & Hget).
  exists m'. split; [exact Hset |].
  destruct (Hget 1 0 ltac:(lia))%Z as (g1 & _ & Hg1).
  destruct (Hget 0 0 ltac:(lia))%Z as (g2 & Hg2 & Hg2').
  destruct (Hget 1 1 ltac:(lia))%Z as (g3 & Hg3 & Hg3').
  injection Hg2 as <-. injection Hg3 as <-.
  split; [exact Hg1 |]. split; [exact Hg2' | exact Hg3'].
Defined.

Lemma CSC_add_then_get_witness :
  let m := (CSMatrix.Build 2 2 [0; 1] [0; 1; 2] [5; 7])%Z in
  exists m',
    CSCMatrix.add 1 1 2%Z m = (Ok tt, m') /\
    CSCMatrix.get 1 1 m' = Ok 9%Z /\
    CSCMatrix.get 0 0 m' = Ok 5%Z.
Proof.
  intros m.
  destruct (CSC_add_then_get 2 m 1 1 2%Z diagonal_example_invariants ltac:(lia))
    as (m' & Hadd & _ & Hget).
  exists m'. split; [exact Hadd |].
  destruct (Hget 1 1 ltac:(lia))%Z as (g1 & Hg1 & Hg1').
  destruct (Hget 0 0 ltac:(lia))%Z as (g2 & Hg2 & Hg2').
  injection Hg1 as <-. injection Hg2 as <-.
  split; [exact Hg1' | exact Hg2'].
Defined.

Lemma CSR_set_then_get_witness :
  let m := (CSMatrix.Build 2 2 [0; 1] [0; 1; 2] [5; 7])%Z in
  exists m',
    CSRMatrix.set 0 1 9%Z m = (Ok tt, m') /\
    CSRMatrix.get 0 1 m' = Ok 9%Z /\
    CSRMatrix.get 0 0 m' = Ok 5%Z.
Proof.
  intros m.
  destruct (CSR_set_then_get 2 m 0 1 9%Z diagonal_example_invariants ltac:(lia))
    as (m' & Hset & _ & Hget).
  exists m'. split; [exact Hset |].
  destruct (Hget 0 1 ltac:(lia))%Z as (g1 & _ & Hg1).
  destruct (Hget 0 0 ltac:(lia))%Z as (g2 & Hg2 & Hg2').
  injection Hg2 as <-.
  split; [exact Hg1 | exact Hg2'].
Defined.

Lemma CSR_add_then_get_witness :
  let m := (CSMatrix.Build 2 2 [0; 1] [0; 1; 2] [5; 7])%Z in
  exists m',
    CSRMatrix.add 1 0 4%Z m = (Ok tt, m') /\
    CSRMatrix.get 1 0 m' = Ok 4%Z /\
    CSRMatrix.get 1 1 m' = Ok 7%Z.
Proof.
  intros m.
  destruct (CSR_add_then_get 2 m 1 0 4%Z diagonal_example_invariants ltac:(lia))
    as (m' & Hadd & _ & Hget).
  exists m'. split; [exact Hadd |].
  destruct (Hget 1 0 ltac:(lia))%Z as (g1 & Hg1 & Hg1').
  destruct (Hget 1 1 ltac:(lia))%Z as (g2 & Hg2 & Hg2').
  injection Hg1 as <-. injection Hg2 as <-.
  split; [exact Hg1' | exact Hg2'].
Defined.

Lemma CSR_apply_is_product_witness :
  let m := (CSMatrix.Build 2 2 [0; 1] [0; 1; 2] [5; 7])%Z in
  CSRMatrix.apply [1; 2]%Z [8; 8; 8]%Z m = Ok [5; 14; 8]%Z.
Proof.
  intros m.
  destruct (CSR_apply_is_product 2 m [1; 2]%Z [8; 8; 8]%Z diagonal_example_invariants
              eq_refl ltac:(simpl; lia) (diagonal_example_index 2 ltac:(lia)))
    as (dest' & Hrun & _).
  rewrite Hrun. f_equal. injection Hrun as <-. reflexivity.
Defined.

Lemma CSR_applyAdd_adds_product_witness :
  let m := (CSMatrix.Build 2 2 [0; 1] [0; 1; 2] [5; 7])%Z in
  CSRMatrix.applyAdd [1; 2]%Z [8; 8; 8]%Z m = Ok [13; 22; 8]%Z.
Proof.
  intros m.
  destruct (CSR_applyAdd_adds_product 2 m [1; 2]%Z [8; 8; 8]%Z diagonal_example_invariants
              eq_refl ltac:(simpl; lia) (diagonal_example_index 2 ltac:(lia)))
    as (dest' & Hrun & _).
  rewrite Hrun. f_equal. injection Hrun as <-. reflexivity.
Defined.

Lemma CSC_applyAdd_adds_product_witness :
  let m := (CSMatrix.Build 2 2 [0; 1] [0; 1; 2] [5; 7])%Z in
  CSCMatrix.applyAdd [1; 2]%Z [8; 8; 8]%Z m = Ok [13; 22; 8]%Z.
Proof.
  intros m.
  destruct (CSC_applyAdd_adds_product 2 m [1; 2]%Z [8; 8; 8]%Z diagonal_example_invariants
              eq_refl ltac:(simpl; lia) (diagonal_example_index 3 ltac:(lia)))
    as (dest' & Hrun & _).
  rewrite Hrun. f_equal. injection Hrun as <-. reflexivity.
Defined.

Lemma CSC_apply_is_product_witness :
  let m := (CSMatrix.Build 2 2 [0; 1] [0; 1; 2] [5; 7])%Z in
  CSCMatrix.apply [1; 2]%Z [8; 8; 8]%Z m = Ok [5; 14; 0]%Z.
Proof.
  intros m.
  destruct (CSC_apply_is_product 2 m [1; 2]%Z [8; 8; 8]%Z diagonal_example_invariants
              eq_refl ltac:(simpl; lia) (diagonal_example_index 3 ltac:(lia)))
    as (dest' & Hrun & _).
  rewrite Hrun. f_equal. injection Hrun as <-. reflexivity.
Defined.
